(** * Point-cloud ingestion and DEM post-processing of StereoPipeline

    A shallow embedding of the parts of [src/asp/Core/PointUtils.cc] and
    [src/asp/Tools/point2dem.cc] that read delimited-text point clouds,
    size the point-cloud composite, estimate the outlier threshold and
    fill holes, followed by the properties established about them.

    Conventions of the embedding.
    - C++ [int] is a 32-bit signed integer held in [Z]; a signed overflow,
      an out-of-range conversion from [double] or an unchecked index
      out of bounds is undefined behaviour in the source and is the
      outcome [Undefined] here.
    - a [double] is the rational it denotes.  Where an integer is read
      off a [double] (the index of the outlier estimator, the extents
      of the composite) every operation is rounded to binary64, see
      [Binary64].  Where a [double] is only stored or compared
      (samples, averages, thresholds) the arithmetic is exact, and
      where a Euclidean norm is taken (coordinate conversions) it is
      the arithmetic of the real numbers [R].
    - [std::map] is an association list kept sorted by key, so that
      iteration visits keys in ascending order as it does in the source.
    - exceptions are an outcome of the [result] monad. *)

From Stdlib Require Import ZArith QArith Qround Qabs Qpower.
From Stdlib Require Import List String Ascii Bool Lia.
From Stdlib Require Import Reals Lra Permutation Sorted.
Import ListNotations.


(** ** Outcomes of a call: normal return, a thrown exception, or
    behaviour the language leaves undefined. *)

Inductive exn : Type :=
| ArgumentErr
| IOErr
| NoImplErr.

Inductive result (A : Type) : Type :=
| Ok (a : A)
| Throw (e : exn)
| Undefined.

Arguments Ok {A} a.
Arguments Throw {A} e.
Arguments Undefined {A}.

Definition bind {A B : Type} (r : result A) (k : A -> result B) : result B :=
  match r with
  | Ok a => k a
  | Throw e => Throw e
  | Undefined => Undefined
  end.

Declare Scope result_scope.
Delimit Scope result_scope with result.
Notation "x <- r ;; k" := (bind r (fun x => k))
  (at level 61, r at next level, right associativity) : result_scope.
Notation "' p <- r ;; k" := (bind r (fun p => k))
  (at level 61, p pattern, r at next level, right associativity) : result_scope.

Definition vw_throw {A : Type} (e : exn) : result A := Throw e.

Definition VW_ASSERT (cond : bool) (e : exn) : result unit :=
  if cond then Ok tt else Throw e.

(** ** Binary64 arithmetic

    A finite [double] is the rational it denotes.  An operation of the
    source is the exact operation followed by [round], the rounding to
    the nearest binary64 value, ties to even: 53 significant bits,
    least exponent [-1074] (gradual underflow).  The exponent is not
    bounded above: a result of magnitude [2^1024] or more stands for
    an infinity, and every use below ends in a conversion to [int],
    which is undefined for either. *)

Module Binary64.

Definition pow2 (s : Z) : Q := (2 # 1) ^ s.

(** The exponent [e] with [2^e <= x < 2^(e+1)], for [0 < x]. *)
Definition ilog2 (x : Q) : Z :=
  let a := (Z.log2 (Qnum x) - Z.log2 (Zpos (Qden x)))%Z in
  if Qle_bool (pow2 a) x then a else (a - 1)%Z.

Definition round_half_even (y : Q) : Z :=
  let f := Qfloor y in
  match ((y - inject_Z f) ?= (1 # 2))%Q with
  | Lt => f
  | Gt => (f + 1)%Z
  | Eq => if Z.even f then f else (f + 1)%Z
  end.

(** The exponent of the last place of the binary64 values around [x]. *)
Definition ulp_exp (ax : Q) : Z := Z.max (ilog2 ax - 52) (-1074).

Definition round (x : Q) : Q :=
  if Qeq_bool x 0 then 0%Q
  else
    let ax := Qabs x in
    let s := ulp_exp ax in
    let v := (inject_Z (round_half_even (ax / pow2 s)) * pow2 s)%Q in
    if Qle_bool 0 x then v else (- v)%Q.

(** [double(z)], [x / y] and [x * y]. *)
Definition of_int (z : Z) : Q := round (inject_Z z).
Definition div (x y : Q) : Q := round (x / y).
Definition mul (x y : Q) : Q := round (x * y).

End Binary64.

(** ** Machine integers *)

Module Int.
Definition INT_MAX : Z := 2147483647.
Definition INT_MIN : Z := -2147483648.

Definition in_range (z : Z) : bool :=
  (INT_MIN <=? z)%Z && (z <=? INT_MAX)%Z.

(** An [int]-typed expression whose mathematical value is [z]. *)
Definition check (z : Z) : result Z :=
  if in_range z then Ok z else Undefined.

Definition mul (a b : Z) : result Z := check (a * b).
Definition incr (a : Z) : result Z := check (a + 1).

(** [(int)ceil(double(a) / b)]: both operands are converted to
    [double], the quotient is rounded, and [ceil] of a [double] is
    exact.  A zero divisor gives an infinity or a NaN, whose conversion
    is undefined. *)
Definition ceil_quot (a b : Z) : result Z :=
  if (b =? 0)%Z then Undefined
  else check (Qceiling (Binary64.div (Binary64.of_int a) (Binary64.of_int b))).
End Int.

(** ** Characters and strings *)

Definition newline : ascii := "010"%char.
Definition hash : ascii := "#"%char.

Definition ascii_code (c : ascii) : Z := Z.of_nat (nat_of_ascii c).

(** [isspace] in the "C" locale. *)
Definition isspace (c : ascii) : bool :=
  let n := ascii_code c in
  (n =? 32)%Z || ((9 <=? n)%Z && (n <=? 13)%Z).

Definition isdigit (c : ascii) : bool :=
  let n := ascii_code c in (48 <=? n)%Z && (n <=? 57)%Z.

Definition digit_val (c : ascii) : Z := ascii_code c - 48.

Definition tolower (c : ascii) : ascii :=
  let n := nat_of_ascii c in
  if (65 <=? n)%nat && (n <=? 90)%nat then ascii_of_nat (n + 32) else c.

Fixpoint string_map (f : ascii -> ascii) (s : string) : string :=
  match s with
  | EmptyString => EmptyString
  | String c s' => String (f c) (string_map f s')
  end.

Fixpoint string_mem (c : ascii) (s : string) : bool :=
  match s with
  | EmptyString => false
  | String d s' => Ascii.eqb c d || string_mem c s'
  end.

(** [s.find(pat) != npos] *)
Fixpoint contains (pat s : string) : bool :=
  String.prefix pat s ||
  match s with
  | EmptyString => false
  | String _ s' => contains pat s'
  end.

(** ** [std::getline(stream, line, '\n')]

    The stream is the text not yet consumed.  Nothing left: the read
    fails.  Otherwise the line runs to the next newline, which is
    consumed, or to the end of the text. *)

Fixpoint read_line (s : string) : string * string :=
  match s with
  | EmptyString => (EmptyString, EmptyString)
  | String c s' =>
      if Ascii.eqb c newline then (EmptyString, s')
      else let (l, r) := read_line s' in (String c l, r)
  end.

Definition getline (s : string) : option (string * string) :=
  match s with
  | EmptyString => None
  | _ => Some (read_line s)
  end.

Module PointUtils.

(** *** [asp::is_valid_csv_line] *)
Definition is_valid_csv_line (line : string) : bool :=
  negb (String.eqb line EmptyString) &&
  negb (match String.get 0 line with
        | Some c => Ascii.eqb c hash
        | None => false
        end).

(** *** [asp::csv_file_size]

    [fh] is the content of the file, [None] when it cannot be opened.
    The loop runs while [getline] succeeds; every pass consumes at
    least one character, so [S (length text)] passes are enough. *)
Fixpoint csv_file_size_loop (fuel : nat) (fh : string) (num_total_points : Z)
  : result Z :=
  match fuel with
  | O => Ok num_total_points
  | S fuel' =>
      match getline fh with
      | None => Ok num_total_points
      | Some (line, fh') =>
          if negb (is_valid_csv_line line)
          then csv_file_size_loop fuel' fh' num_total_points
          else (n <- Int.incr num_total_points ;;
                csv_file_size_loop fuel' fh' n)%result
      end
  end.

Definition csv_file_size (file : option string) : result Z :=
  match file with
  | None => vw_throw IOErr
  | Some text => csv_file_size_loop (S (String.length text)) text 0
  end.

(** *** [asp::LasOrCsvToTif_Class], constructor and extents

    The reader contributes its point count [m_num_points] only. *)
Record LasOrCsvToTif_Class : Type := {
  m_num_points : Z;
  m_rows : Z;
  m_cols : Z;
  m_block_size : Z
}.

Definition LasOrCsvToTif_Class_ctor
    (num_points num_rows tile_len block_size : Z)
  : result LasOrCsvToTif_Class :=
  (q_rows <- Int.ceil_quot num_rows tile_len ;;
   let num_row_tiles := Z.max 1 q_rows in
   rows <- Int.mul tile_len num_row_tiles ;;
   points_per_row <- Int.ceil_quot num_points rows ;;
   q_cols <- Int.ceil_quot points_per_row tile_len ;;
   let num_col_tiles := Z.max 1 q_cols in
   cols <- Int.mul tile_len num_col_tiles ;;
   Ok {| m_num_points := num_points; m_rows := rows; m_cols := cols;
         m_block_size := block_size |})%result.

Definition cols (v : LasOrCsvToTif_Class) : Z := m_cols v.
Definition rows (v : LasOrCsvToTif_Class) : Z := m_rows v.

End PointUtils.

(** ** Reference notions used to state the properties *)

Module Spec.

(** The lines of a text: maximal runs without a newline, each newline
    closing one line; a text that ends in a newline has no further
    (empty) line after it. *)
Fixpoint file_lines (s : string) : list string :=
  match s with
  | EmptyString => []
  | String c s' =>
      if Ascii.eqb c newline then EmptyString :: file_lines s'
      else match file_lines s' with
           | [] => [String c EmptyString]
           | l :: ls => String c l :: ls
           end
  end.

(** A line that is not empty and whose first character is not ['#']. *)
Definition counted_line (l : string) : bool :=
  match l with
  | EmptyString => false
  | String c _ => negb (Ascii.eqb c hash)
  end.

(** Number of counted lines. *)
Definition counted (ls : list string) : Z :=
  Z.of_nat (List.length (List.filter counted_line ls)).

(** Integer ceiling of [a / b], for [0 < b]. *)
Definition ceil_div (a b : Z) : Z := (a + b - 1) / b.

End Spec.

(** ** Library pieces used by [point2dem.cc] *)

(** [(int) x] for a [double] [x]: truncation toward zero, undefined when
    the result does not fit. *)
Definition Qtruncate (x : Q) : Z := Z.quot (Qnum x) (Zpos (Qden x)).

Definition int_of_double (x : Q) : result Z := Int.check (Qtruncate x).

Definition Qlt_bool (x y : Q) : bool := negb (Qle_bool y x).

(** [std::sort] on a vector of [double], ascending. *)
Fixpoint sort_insert (x : Q) (l : list Q) : list Q :=
  match l with
  | [] => [x]
  | y :: l' => if Qle_bool x y then x :: l else y :: sort_insert x l'
  end.

Fixpoint std_sort (l : list Q) : list Q :=
  match l with
  | [] => []
  | x :: l' => sort_insert x (std_sort l')
  end.

(** Unchecked [v[k]] on a [std::vector]. *)
Definition vector_at (v : list Q) (k : Z) : result Q :=
  if (0 <=? k)%Z && (k <? Z.of_nat (List.length v))%Z
  then Ok (List.nth (Z.to_nat k) v 0%Q)
  else Undefined.

(** The integers [lo, lo+1, ..., hi] of a [for (x = lo; x <= hi; x++)]. *)
Definition for_range (lo hi : Z) : list Z :=
  List.map (fun n => (lo + Z.of_nat n)%Z) (List.seq 0 (Z.to_nat (hi - lo + 1))).

(** [vw::subsample(image, amt)]: every [amt]-th row and, in it, every
    [amt]-th pixel, starting with the first. *)
Fixpoint every_nth_from {A : Type} (amt skip : nat) (l : list A) : list A :=
  match l with
  | [] => []
  | x :: l' =>
      match skip with
      | O => x :: every_nth_from amt (Nat.pred amt) l'
      | S skip' => every_nth_from amt skip' l'
      end
  end.

Definition subsample {A : Type} (image : list (list A)) (amt : Z)
  : list (list A) :=
  let n := Z.to_nat amt in
  List.map (every_nth_from n 0) (every_nth_from n 0 image).

Module Point2dem.

(** *** [asp::ErrorRangeEstimAccum] *)

Record ErrorRangeEstimAccum : Type := { m_vals : list Q }.

Definition ErrorRangeEstimAccum_ctor : ErrorRangeEstimAccum :=
  {| m_vals := [] |}.

(** [operator()]: zero errors are not added. *)
Definition accumulate (acc : ErrorRangeEstimAccum) (value : Q)
  : ErrorRangeEstimAccum :=
  if Qlt_bool 0 value then {| m_vals := m_vals acc ++ [value] |} else acc.

Definition size (acc : ErrorRangeEstimAccum) : Z :=
  Z.of_nat (List.length (m_vals acc)).

(** [value(remove_outliers_params)], with the parameters
    [(percentile, factor)].  The index is read off the [double]
    [pct*len]: the quotient [percentile/100.0] and the product are
    each rounded to binary64 before the conversion to [int]. *)
Definition value (acc : ErrorRangeEstimAccum) (remove_outliers_params : Q * Q)
  : result Q :=
  (_ <- VW_ASSERT (negb (Nat.eqb (List.length (m_vals acc)) 0)) ArgumentErr ;;
   let sorted := std_sort (m_vals acc) in
   len <- Int.check (Z.of_nat (List.length sorted)) ;;
   let pct := Binary64.div (fst remove_outliers_params) 100 in
   let factor := snd remove_outliers_params in
   t <- int_of_double (Binary64.mul pct (Binary64.of_int len)) ;;
   let k := Z.min (len - 1) t in
   x <- vector_at sorted k ;;
   Ok (x * factor * 4)%Q)%result.

(** [for_each_pixel(image, accumulator)] *)
Definition for_each_pixel (image : list (list Q)) (acc : ErrorRangeEstimAccum)
  : ErrorRangeEstimAccum :=
  List.fold_left accumulate (List.concat image) acc.

(** *** The error range estimation loop of [main]

    [cols], [rows] are the extents of the point image; the state is
    [(success, estim_max_error)].  The subsampling step
    [int32(norm_2(Vector2(cols, rows)) / sample)] is the integer square
    root of [cols^2 + rows^2] divided by [sample], rounded down. *)
Fixpoint estimate_loop (counts : list Z) (cols rows : Z)
    (error_image : list (list Q)) (remove_outliers_params : Q * Q)
    (success : bool) (estim_max_error : Q) : result (bool * Q) :=
  match counts with
  | [] => Ok (success, estim_max_error)
  | count :: counts' =>
      let sample := (2 ^ count)%Z in
      let amt := (Z.sqrt (cols * cols + rows * rows) / sample)%Z in
      let subsample_amt := if (amt <? 1)%Z then 1%Z else amt in
      let error_accum :=
        for_each_pixel (subsample error_image subsample_amt)
                       ErrorRangeEstimAccum_ctor in
      (st <- (if (0 <? size error_accum)%Z
              then (v <- value error_accum remove_outliers_params ;;
                    Ok (true, v))
              else Ok (success, estim_max_error)) ;;
       if fst st || (subsample_amt =? 1)%Z then Ok st
       else estimate_loop counts' cols rows error_image
              remove_outliers_params (fst st) (snd st))%result
  end.

Definition estimate_max_error (cols rows : Z) (error_image : list (list Q))
    (remove_outliers_params : Q * Q) : result (bool * Q) :=
  estimate_loop (for_range 7 18) cols rows error_image
                remove_outliers_params false 0%Q.

(** *** [FillNoDataWithAvg]

    Pixels are [PixelMask] values: [None] is an invalid (nodata) pixel. *)

Record ImageView : Type := {
  img_cols : Z;
  img_rows : Z;
  pixel : Z -> Z -> option Q   (* m_img(col, row) *)
}.

Record FillNoDataWithAvg : Type := {
  m_img : ImageView;
  m_kernel_size : Z
}.

Definition FillNoDataWithAvg_ctor (img : ImageView) (kernel_size : Z)
  : result FillNoDataWithAvg :=
  (_ <- VW_ASSERT ((Z.rem kernel_size 2 =? 1)%Z && (0 <? kernel_size)%Z)
                  ArgumentErr ;;
   Ok {| m_img := img; m_kernel_size := kernel_size |})%result.

(** One pass of the inner loop body: a valid pixel is added to [val]
    and counted. *)
Definition add_pixel (img : ImageView) (c : Z) (st : Q * Z) (r : Z) : Q * Z :=
  match pixel img c r with
  | None => st
  | Some v => ((fst st + v)%Q, (snd st + 1)%Z)
  end.

(** [operator()(i, j)] *)
Definition fill (f : FillNoDataWithAvg) (i j : Z) : result (option Q) :=
  match pixel (m_img f) i j with
  | Some v => Ok (Some v)
  | None =>
      let c0 := i in
      let r0 := j in
      let k2 := Z.quot (m_kernel_size f) 2 in
      let nc := img_cols (m_img f) in
      let nr := img_rows (m_img f) in
      (c_hi <- Int.check (c0 + k2) ;;
       r_hi <- Int.check (r0 + k2) ;;
       let '(val, nvalid) :=
         List.fold_left
           (fun st c =>
              List.fold_left (add_pixel (m_img f) c)
                (for_range (Z.max 0 (r0 - k2)) (Z.min (nr - 1) r_hi)) st)
           (for_range (Z.max 0 (c0 - k2)) (Z.min (nc - 1) c_hi))
           (0%Q, 0%Z) in
       if (nvalid =? 0)%Z then Ok (pixel (m_img f) i j)
       else Ok (Some (val / inject_Z nvalid)%Q))%result
  end.

End Point2dem.

Module HoleSpec.
Import Point2dem.

(** Cell [(c, r)] lies in the [k]-by-[k] window centred on [(i, j)]. *)
Definition in_window (k i j c r : Z) : bool :=
  (2 * Z.abs (c - i) <? k)%Z && (2 * Z.abs (r - j) <? k)%Z.

(** The value of cell [(c, r)] if it is valid. *)
Definition valid_value (img : ImageView) (c r : Z) : list Q :=
  match pixel img c r with Some v => [v] | None => [] end.

(** Values of the valid cells of the raster that lie in the window. *)
Definition window_values (img : ImageView) (k i j : Z) : list Q :=
  List.flat_map
    (fun c =>
       List.flat_map
         (fun r =>
            if in_window k i j c r then valid_value img c r else [])
         (for_range 0 (img_rows img - 1)))
    (for_range 0 (img_cols img - 1)).

Definition Qsum (l : list Q) : Q := List.fold_right Qplus 0%Q l.

Definition average (l : list Q) : Q :=
  (Qsum l / inject_Z (Z.of_nat (List.length l)))%Q.

(** Scenario D: a 3-by-3 raster, nodata in the middle, 10 elsewhere. *)
Definition ring10 : ImageView :=
  {| img_cols := 3; img_rows := 3;
     pixel := fun c r =>
       if (c =? 1)%Z && (r =? 1)%Z then None else Some (10 # 1)%Q |}.
End HoleSpec.

(** ** [std::map] as an association list sorted by key *)

Section SortedMap.
Context {K V : Type}.
Variables (keqb kltb : K -> K -> bool).

Fixpoint map_find (k : K) (m : list (K * V)) : option V :=
  match m with
  | [] => None
  | (k', v) :: m' => if keqb k k' then Some v else map_find k m'
  end.

(** [m.count(k)] *)
Definition map_count (k : K) (m : list (K * V)) : bool :=
  match map_find k m with Some _ => true | None => false end.

(** [m[k] = v] *)
Fixpoint map_put (k : K) (v : V) (m : list (K * V)) : list (K * V) :=
  match m with
  | [] => [(k, v)]
  | (k', v') :: m' =>
      if keqb k k' then (k, v) :: m'
      else if kltb k k' then (k, v) :: m
      else (k', v') :: map_put k v m'
  end.
End SortedMap.

(** ** [std::istringstream]: unread text and the two state bits used *)

Record istringstream : Type := {
  buf : string;
  eofbit : bool;
  failbit : bool
}.

Definition stream_of (s : string) : istringstream :=
  {| buf := s; eofbit := false; failbit := false |}.

Definition good (ist : istringstream) : bool :=
  negb (eofbit ist) && negb (failbit ist).

Definition set_fail (ist : istringstream) : istringstream :=
  {| buf := buf ist; eofbit := eofbit ist; failbit := true |}.

Definition is_empty (s : string) : bool :=
  match s with EmptyString => true | _ => false end.

Fixpoint skipws (s : string) : string :=
  match s with
  | EmptyString => EmptyString
  | String c s' => if isspace c then skipws s' else s
  end.

(** Longest prefix whose characters satisfy [p], and the rest. *)
Fixpoint span (p : ascii -> bool) (s : string) : string * string :=
  match s with
  | EmptyString => (EmptyString, EmptyString)
  | String c s' =>
      if p c then let (w, r) := span p s' in (String c w, r)
      else (EmptyString, s)
  end.

(** [is >> str]; on failure [str] keeps its value. *)
Definition extract_string (ist : istringstream) (str : string)
  : istringstream * string :=
  if negb (good ist) then (set_fail ist, str)
  else match skipws (buf ist) with
       | EmptyString =>
           ({| buf := EmptyString; eofbit := true; failbit := true |}, str)
       | b =>
           let (w, rest) := span (fun c => negb (isspace c)) b in
           ({| buf := rest; eofbit := is_empty rest; failbit := false |}, w)
       end.

Fixpoint decimal_value (digits : string) (acc : Z) : Z :=
  match digits with
  | EmptyString => acc
  | String c s' => decimal_value s' (10 * acc + digit_val c)
  end.

(** [is >> n] for an [int]: optional sign, then decimal digits; no
    digit or a value out of range sets [failbit]. *)
Definition extract_int (ist : istringstream) (n : Z) : istringstream * Z :=
  if negb (good ist) then (set_fail ist, n)
  else match skipws (buf ist) with
       | EmptyString =>
           ({| buf := EmptyString; eofbit := true; failbit := true |}, n)
       | String c s' as b =>
           let '(negative, b1) :=
             if Ascii.eqb c "-"%char then (true, s')
             else if Ascii.eqb c "+"%char then (false, s')
             else (false, b) in
           let (digits, rest) := span isdigit b1 in
           if is_empty digits
           then ({| buf := rest; eofbit := is_empty rest; failbit := true |}, 0%Z)
           else
             let v := decimal_value digits 0 in
             let v := if negative then (- v)%Z else v in
             if Int.in_range v
             then ({| buf := rest; eofbit := is_empty rest; failbit := false |}, v)
             else ({| buf := rest; eofbit := is_empty rest; failbit := true |},
                   if negative then Int.INT_MIN else Int.INT_MAX)
       end.

(** ** Fixed three-slot vectors ([vw::Vector3]), unchecked indexing *)

Section Vector3.
Context {D : Type}.

Definition Vector3 : Type := (D * D * D)%type.

Definition vec_get (v : @Vector3) (i : Z) : result D :=
  let '(a, b, c) := v in
  if (i =? 0)%Z then Ok a
  else if (i =? 1)%Z then Ok b
  else if (i =? 2)%Z then Ok c
  else Undefined.

Definition vec_set (v : @Vector3) (i : Z) (x : D) : result (@Vector3) :=
  let '(a, b, c) := v in
  if (i =? 0)%Z then Ok (x, b, c)
  else if (i =? 1)%Z then Ok (a, x, c)
  else if (i =? 2)%Z then Ok (a, b, x)
  else Undefined.
End Vector3.
Arguments Vector3 D : clear implicits.

(** ** [asp::CsvConv] *)

Module CsvConv.

Inductive CsvFormat : Type :=
| XYZ
| HEIGHT_LAT_LON
| LAT_LON_RADIUS_M
| LAT_LON_RADIUS_KM
| EASTING_HEIGHT_NORTHING.

(** The members the functions below read and write:
    [std::map<std::string, int> name2col], [std::map<int, std::string>
    col2name], [std::map<int, int> col2sort], the two input strings, the
    scheme, the UTM zone and the number of columns to read. *)
Record t : Type := {
  name2col : list (string * Z);
  col2name : list (Z * string);
  col2sort : list (Z * Z);
  csv_format_str : string;
  csv_proj4_str : string;
  format : CsvFormat;
  utm_zone : Z;
  utm_north : bool;
  num_targets : Z
}.

(** The scalar members after default construction; the class
    declaration is not part of the sources at hand, so they are a
    parameter of the embedding. *)
Record defaults : Type := {
  default_format : CsvFormat;
  default_utm_zone : Z;
  default_utm_north : bool;
  default_num_targets : Z
}.

(** [asp::CsvConv()] *)
Definition ctor (d : defaults) : t :=
  {| name2col := []; col2name := []; col2sort := [];
     csv_format_str := EmptyString; csv_proj4_str := EmptyString;
     format := default_format d; utm_zone := default_utm_zone d;
     utm_north := default_utm_north d;
     num_targets := default_num_targets d |}.

(** *** [get_sorted_index_for_name] *)
Definition get_sorted_index_for_name (name : string) : result Z :=
  if String.eqb name "file" then Ok 3%Z
  else if String.eqb name "lon" then Ok 0%Z
  else if String.eqb name "lat" then Ok 1%Z
  else if String.eqb name "radius_m" then Ok 2%Z
  else if String.eqb name "radius_km" then Ok 2%Z
  else if String.eqb name "x" then Ok 0%Z
  else if String.eqb name "y" then Ok 1%Z
  else if String.eqb name "z" then Ok 2%Z
  else if String.eqb name "easting" then Ok 0%Z
  else if String.eqb name "northing" then Ok 1%Z
  else if String.eqb name "height_above_datum" then Ok 2%Z
  else vw_throw ArgumentErr.

(** *** [asp::parse_utm_str]: digits, then one hemisphere letter *)
Definition parse_utm_str (utm : string) : result (Z * bool) :=
  let (a, rest) := span isdigit utm in
  let b := match rest with
           | EmptyString => EmptyString
           | String c _ => String c EmptyString
           end in
  if is_empty a || is_empty b then vw_throw ArgumentErr
  else
    (zone <- Int.check (decimal_value a 0) ;;   (* atoi *)
     if String.eqb b "n" || String.eqb b "N" then Ok (zone, true)
     else if String.eqb b "s" || String.eqb b "S" then Ok (zone, false)
     else vw_throw ArgumentErr)%result.

(** *** [parse_csv_format] *)

(** The [while (is.good())] loop filling the two lookup maps.  Every
    pass that does not throw consumes characters, so the length of
    the text bounds the number of passes. *)
Fixpoint read_declarations (fuel : nat) (ist : istringstream)
    (n2c : list (string * Z)) (c2n : list (Z * string))
  : result (list (string * Z) * list (Z * string)) :=
  if good ist then
    match fuel with
    | O => Undefined
    | S fuel' =>
        let (is1, col) := extract_int ist 0 in
        let (is2, name) := extract_string is1 EmptyString in
        if failbit is2 then vw_throw ArgumentErr
        else
          (col <- Int.check (col - 1) ;;   (* col-- *)
           if (col <? 0)%Z || map_count Z.eqb col c2n
           then vw_throw ArgumentErr
           else read_declarations fuel' is2
                  (map_put String.eqb String.ltb name col n2c)
                  (map_put Z.eqb Z.ltb col name c2n))%result
    end
  else Ok (n2c, c2n).

Definition NUM_POINT_VALS : Z := 3.
Definition MIN_NUM_TARGETS : Z := NUM_POINT_VALS.
Definition MAX_NUM_TARGETS : Z := NUM_POINT_VALS + 1.

(** [sorted_names[index] = name] on a [std::vector<std::string>] *)
Fixpoint names_set (names : list string) (index : nat) (name : string)
  : result (list string) :=
  match names, index with
  | [], _ => Undefined
  | _ :: rest, O => Ok (name :: rest)
  | n :: rest, S i => (r <- names_set rest i name ;; Ok (n :: r))%result
  end.

(** The loop over [name2col], in key order. *)
Fixpoint sort_names (n2c : list (string * Z)) (sorted_names : list string)
    (c2s : list (Z * Z)) : result (list string * list (Z * Z)) :=
  match n2c with
  | [] => Ok (sorted_names, c2s)
  | (name, col) :: n2c' =>
      (index <- get_sorted_index_for_name name ;;
       names' <- names_set sorted_names (Z.to_nat index) name ;;
       let c2s' := if (index <? NUM_POINT_VALS)%Z
                   then map_put Z.eqb Z.ltb col index c2s else c2s in
       sort_names n2c' names' c2s')%result
  end.

Definition select_format (sorted_names : list string) : result CsvFormat :=
  let s0 := List.nth 0 sorted_names EmptyString in
  let s1 := List.nth 1 sorted_names EmptyString in
  let s2 := List.nth 2 sorted_names EmptyString in
  if String.eqb s0 "x" && String.eqb s1 "y" && String.eqb s2 "z"
  then Ok XYZ
  else if String.eqb s0 "lon" && String.eqb s1 "lat" && String.eqb s2 "radius_m"
  then Ok LAT_LON_RADIUS_M
  else if String.eqb s0 "lon" && String.eqb s1 "lat" && String.eqb s2 "radius_km"
  then Ok LAT_LON_RADIUS_KM
  else if String.eqb s0 "lon" && String.eqb s1 "lat"
          && String.eqb s2 "height_above_datum"
  then Ok HEIGHT_LAT_LON
  else if String.eqb s0 "easting" && String.eqb s1 "northing"
          && String.eqb s2 "height_above_datum"
  then Ok EASTING_HEIGHT_NORTHING
  else vw_throw ArgumentErr.

Definition separators_to_space (c : ascii) : ascii :=
  if Ascii.eqb c ":"%char || Ascii.eqb c ","%char then " "%char else c.

Definition parse_csv_format (d : defaults) (csv_format_str csv_proj4_str : string)
  : result t :=
  if contains "D_MOON" csv_proj4_str || contains "D_MARS" csv_proj4_str
  then vw_throw ArgumentErr
  else
    let this := ctor d in
    let local := string_map tolower csv_format_str in
    if String.eqb local EmptyString
    then Ok {| name2col := name2col this; col2name := col2name this;
               col2sort := col2sort this;
               csv_format_str := csv_format_str;
               csv_proj4_str := csv_proj4_str;
               format := format this; utm_zone := utm_zone this;
               utm_north := utm_north this;
               num_targets := num_targets this |}
    else
      let local := string_map separators_to_space local in
      let ist := stream_of local in
      let (is1, str) := extract_string ist EmptyString in
      (utm <- (if String.eqb str "utm"
               then
                 let (is2, str2) := extract_string is1 str in
                 (zn <- parse_utm_str str2 ;; Ok (is2, fst zn, snd zn))
               else Ok (stream_of local, utm_zone this, utm_north this)) ;;
       let '(is3, zone, north) := utm in
       maps <- read_declarations (S (String.length local)) is3 [] [] ;;
       let (n2c, c2n) := maps in
       let targets := Z.of_nat (List.length n2c) in
       if (targets <? MIN_NUM_TARGETS)%Z || (MAX_NUM_TARGETS <? targets)%Z
       then vw_throw ArgumentErr
       else
         sorted <- sort_names n2c
                     (List.repeat EmptyString (List.length n2c)) [] ;;
         let (sorted_names, c2s) := sorted in
         fmt <- select_format sorted_names ;;
         Ok {| name2col := n2c; col2name := c2n; col2sort := c2s;
               csv_format_str := csv_format_str;
               csv_proj4_str := csv_proj4_str;
               format := fmt; utm_zone := zone; utm_north := north;
               num_targets := targets |})%result.

(** The parameters of the source left open here: a usual value of
    the defaults, for running the model. *)
Definition usual_defaults : defaults :=
  {| default_format := XYZ; default_utm_zone := -1;
     default_utm_north := false; default_num_targets := 0 |}.

End CsvConv.

(** ** Reading records: [CsvConv::parse_csv_line] and [asp::CsvReader]

    The section parameters stand for what lies outside the sources at
    hand: the scalar type [D] of a coordinate with its zero, the
    separator set [asp::csv_separator()], and the C library call
    [sscanf(token, "%lg", &val)]. *)

(** Result of [sscanf] with one conversion: the value converted (return
    value 1), a matching failure (return value 0), or an input failure
    before any conversion (return value [EOF]). *)
Inductive scan (D : Type) : Type :=
| Converted (val : D)
| MatchingFailure
| InputFailure.
Arguments Converted {D} val.
Arguments MatchingFailure {D}.
Arguments InputFailure {D}.

(** The C string held by a [std::string], as [c_str()] hands it to the
    C library: the characters before the first NUL. *)
Fixpoint c_str (s : string) : string :=
  match s with
  | EmptyString => EmptyString
  | String c s' =>
      if Ascii.eqb c "000"%char then EmptyString else String c (c_str s')
  end.

(** [strtok] called to exhaustion on a C string: the maximal runs of
    characters that are not separators, in order. *)
Fixpoint strtok_all (sep : string) (s : string) (cur : string) : list string :=
  match s with
  | EmptyString => if is_empty cur then [] else [cur]
  | String c s' =>
      if string_mem c sep
      then (if is_empty cur then strtok_all sep s' EmptyString
            else cur :: strtok_all sep s' EmptyString)
      else strtok_all sep s' (cur ++ String c EmptyString)
  end.

Section CsvRecords.
Variable D : Type.
Variable zero : D.
Variable csv_separator : string.
Variable sscanf_lg : string -> scan D.

(** Modelled from the spec: the declaration of [CsvConv::CsvRecord] is
    not among the sources at hand.  A point record is a 3-component
    coordinate; [parse_csv_line] fills it through [values.point_data[i]]
    and keeps the identifier token in [values.file]. *)
Record CsvRecord : Type := {
  point_data : Vector3 D;
  file : string
}.

Definition CsvRecord_ctor : CsvRecord :=
  {| point_data := (zero, zero, zero); file := EmptyString |}.

Definition bufSize : Z := 2048.

(** The [while (1)] loop of [parse_csv_line].  [col_index] is the
    column of the first token of [tokens]; the result carries
    [num_values_read] and [success] as they stand when the loop is
    left.  A token on which [sscanf] reports an input failure leaves
    [val] unset, and its use is undefined. *)
Fixpoint read_columns (conv : CsvConv.t) (tokens : list string)
    (col_index num_floats_read num_values_read : Z) (values : CsvRecord)
  : result (CsvRecord * Z * bool) :=
  match tokens with
  | [] => Ok (values, num_values_read, true)
  | token :: tokens' =>
      if (CsvConv.num_targets conv <=? num_values_read)%Z
      then Ok (values, num_values_read, true)
      else
        match map_find Z.eqb col_index (CsvConv.col2name conv) with
        | None =>
            read_columns conv tokens' (col_index + 1)
              num_floats_read num_values_read values
        | Some name =>
            if String.eqb name "file"
            then read_columns conv tokens' (col_index + 1)
                   num_floats_read (num_values_read + 1)
                   {| point_data := point_data values; file := token |}
            else
              match sscanf_lg token with
              | MatchingFailure => Ok (values, num_values_read, false)
              | InputFailure => Undefined
              | Converted val =>
                  (pd <- vec_set (point_data values) num_floats_read val ;;
                   read_columns conv tokens' (col_index + 1)
                     (num_floats_read + 1) (num_values_read + 1)
                     {| point_data := pd; file := file values |})%result
              end
        end
  end.

(** [parse_csv_line(is_first_line, success, line)]: the result is
    [(is_first_line, success, values)] after the call.  [strncpy]
    copies the C string of the line, the characters before its first
    NUL, into [temp]; one that does not fit the buffer with its
    terminator is copied without one, and scanning it is undefined.
    [strtok] is given the C string of the separators. *)
Definition parse_csv_line (conv : CsvConv.t) (is_first_line : bool)
    (line : string) : result (bool * bool * CsvRecord) :=
  let temp := c_str line in
  if (bufSize <=? Z.of_nat (String.length temp))%Z then Undefined
  else
    (r <- read_columns conv (strtok_all (c_str csv_separator) temp EmptyString)
            0 0 0 CsvRecord_ctor ;;
     let '(values, num_values_read, success) := r in
     let success :=
       if negb (num_values_read =? CsvConv.num_targets conv)%Z
       then false else success in
     if negb success && negb is_first_line
     then vw_throw IOErr
     else Ok (false, success, values))%result.

(** [sort_parsed_vector3] and [unsort_vector3], loops over [col2sort] *)
Definition NUM_POINT_PARAMS : Z := 3.

Fixpoint sort_loop (c2s : list (Z * Z)) (csv : CsvRecord) (count : Z)
    (ordered_csv : Vector3 D) : result (Vector3 D) :=
  match c2s with
  | [] => Ok ordered_csv
  | (_, second) :: c2s' =>
      (o <- (if (second <? NUM_POINT_PARAMS)%Z
             then (x <- vec_get (point_data csv) count ;;
                   vec_set ordered_csv second x)
             else Ok ordered_csv) ;;
       sort_loop c2s' csv (count + 1) o)%result
  end.

Definition sort_parsed_vector3 (conv : CsvConv.t) (csv : CsvRecord)
  : result (Vector3 D) :=
  sort_loop (CsvConv.col2sort conv) csv 0 (zero, zero, zero).

Fixpoint unsort_loop (c2s : list (Z * Z)) (csv : Vector3 D) (count : Z)
    (csv2 : Vector3 D) : result (Vector3 D) :=
  match c2s with
  | [] => Ok csv2
  | (_, second) :: c2s' =>
      if (second <? NUM_POINT_PARAMS)%Z
      then (x <- vec_get csv second ;;
            v <- vec_set csv2 count x ;;
            unsort_loop c2s' csv (count + 1) v)%result
      else unsort_loop c2s' csv count csv2
  end.

Definition unsort_vector3 (conv : CsvConv.t) (csv : Vector3 D)
  : result (Vector3 D) :=
  unsort_loop (CsvConv.col2sort conv) csv 0 (zero, zero, zero).

(** *** [asp::CsvReader]

    [m_ifs] is the text of the file not yet read.  [point_of] stands
    for [csv_to_cartesian_or_point_height(vals, m_georef, true)]. *)
Variable point_of : CsvConv.t -> CsvRecord -> result (Vector3 D).

Record CsvReader : Type := {
  m_csv_conv : CsvConv.t;
  m_is_first_line : bool;
  m_has_valid_point : bool;
  m_curr_point : Vector3 D;
  m_ifs : string
}.

Definition CsvReader_ctor (text : string) (csv_conv : CsvConv.t) : CsvReader :=
  {| m_csv_conv := csv_conv; m_is_first_line := true;
     m_has_valid_point := false; m_curr_point := (zero, zero, zero);
     m_ifs := text |}.

(** The [for (int i = 0; i < 2; i++)] loop with [passes] passes left.
    [None]: the function returned from inside the loop at the end of
    the file.  [Some vals]: the loop was left, by [break] or after the
    last pass. *)
Fixpoint read_passes (passes : nat) (r : CsvReader) (vals : CsvRecord)
  : result (CsvReader * option CsvRecord) :=
  match passes with
  | O => Ok (r, Some vals)
  | S passes' =>
      match getline (m_ifs r) with
      | None =>
          Ok ({| m_csv_conv := m_csv_conv r;
                 m_is_first_line := m_is_first_line r;
                 m_has_valid_point := false;
                 m_curr_point := m_curr_point r;
                 m_ifs := m_ifs r |}, None)
      | Some (line, rest) =>
          (p <- parse_csv_line (m_csv_conv r) (m_is_first_line r) line ;;
           let '(is_first_line, success, vals') := p in
           let r' := {| m_csv_conv := m_csv_conv r;
                        m_is_first_line := is_first_line;
                        m_has_valid_point := true;
                        m_curr_point := m_curr_point r;
                        m_ifs := rest |} in
           if success then Ok (r', Some vals')
           else read_passes passes' r' vals')%result
      end
  end.

(** [ReadNextPoint()]: the value returned and the reader afterwards. *)
Definition ReadNextPoint (r : CsvReader) : result (bool * CsvReader) :=
  (lp <- read_passes 2 r CsvRecord_ctor ;;
   match lp with
   | (r', None) => Ok (m_has_valid_point r', r')
   | (r', Some vals) =>
       pt <- point_of (m_csv_conv r') vals ;;
       Ok (m_has_valid_point r',
           {| m_csv_conv := m_csv_conv r';
              m_is_first_line := m_is_first_line r';
              m_has_valid_point := m_has_valid_point r';
              m_curr_point := pt;
              m_ifs := m_ifs r' |})
   end)%result.

Definition GetPoint (r : CsvReader) : Vector3 D := m_curr_point r.

End CsvRecords.

Arguments point_data {D} _.
Arguments file {D} _.
Arguments m_csv_conv {D} _.
Arguments m_is_first_line {D} _.
Arguments m_has_valid_point {D} _.
Arguments m_curr_point {D} _.
Arguments m_ifs {D} _.
Arguments CsvRecord_ctor {D} zero.
Arguments read_columns {D} sscanf_lg conv tokens _ _ _ values.
Arguments parse_csv_line {D} zero csv_separator sscanf_lg conv is_first_line line.
Arguments sort_parsed_vector3 {D} zero conv csv.
Arguments unsort_vector3 {D} zero conv csv.
Arguments sort_loop {D} c2s csv count ordered_csv.
Arguments unsort_loop {D} c2s csv count csv2.
Arguments CsvReader_ctor {D} zero text csv_conv.
Arguments read_passes {D} zero csv_separator sscanf_lg passes r vals.
Arguments ReadNextPoint {D} zero csv_separator sscanf_lg point_of r.
Arguments GetPoint {D} r.

(** ** Coordinate conversions of [CsvConv], over the reals *)

Module Conv.
Import CsvConv.
Local Open Scope R_scope.

(** What the conversions use of [vw::cartography::GeoReference]:
    [geo.datum().geodetic_to_cartesian], [geo.datum().cartesian_to_geodetic],
    [geo.point_to_lonlat] and [geo.lonlat_to_point]. *)
Record GeoReference : Type := {
  geodetic_to_cartesian : Vector3 R -> Vector3 R;
  cartesian_to_geodetic : Vector3 R -> Vector3 R;
  point_to_lonlat : R * R -> R * R;
  lonlat_to_point : R * R -> R * R
}.

Definition norm_2 (v : Vector3 R) : R :=
  let '(x, y, z) := v in sqrt (x * x + y * y + z * z).

(** [s * (v / n)] *)
Definition rescale (s : R) (v : Vector3 R) (n : R) : Vector3 R :=
  let '(x, y, z) := v in (s * (x / n), s * (y / n), s * (z / n)).

(** C [round]: to the nearest integer, halves away from zero. *)
Definition round (x : R) : R :=
  if Rle_dec 0 x then IZR (Int_part (x + / 2))
  else - IZR (Int_part (- x + / 2)).

Definition csv_to_cartesian (conv : CsvConv.t) (csv : CsvRecord R)
    (geo : GeoReference) : result (Vector3 R) :=
  (ordered_csv <- sort_parsed_vector3 0 conv csv ;;
   let '(o0, o1, o2) := ordered_csv in
   match format conv with
   | XYZ => Ok ordered_csv
   | EASTING_HEIGHT_NORTHING =>
       let point_height := (o0, o1, o2) in
       let ll := point_to_lonlat geo (o0, o1) in
       let llh := (fst ll, snd ll, o2) in
       Ok (geodetic_to_cartesian geo llh)
   | HEIGHT_LAT_LON => Ok (geodetic_to_cartesian geo ordered_csv)
   | fmt =>
       let o2 := match fmt with LAT_LON_RADIUS_KM => o2 * 1000 | _ => o2 end in
       let tmp := (o0, o1, 0) in
       let xyz := geodetic_to_cartesian geo tmp in
       Ok (rescale o2 xyz (norm_2 xyz))
   end)%result.

Definition csv_to_cartesian_or_point_height (conv : CsvConv.t)
    (csv : CsvRecord R) (geo : GeoReference) (return_point_height : bool)
  : result (Vector3 R) :=
  (ordered_csv <- sort_parsed_vector3 0 conv csv ;;
   let '(o0, o1, o2) := ordered_csv in
   match format conv with
   | XYZ => Ok ordered_csv
   | EASTING_HEIGHT_NORTHING =>
       let point_height := (o0, o1, o2) in
       if return_point_height then Ok point_height
       else
         let ll := point_to_lonlat geo (o0, o1) in
         let llh := (fst ll, snd ll, o2) in
         Ok (geodetic_to_cartesian geo llh)
   | HEIGHT_LAT_LON =>
       if return_point_height then Ok ordered_csv
       else Ok (geodetic_to_cartesian geo ordered_csv)
   | fmt =>
       let o2 := match fmt with LAT_LON_RADIUS_KM => o2 * 1000 | _ => o2 end in
       let tmp := (o0, o1, 0) in
       let xyz := geodetic_to_cartesian geo tmp in
       let xyz := rescale o2 xyz (norm_2 xyz) in
       if return_point_height then Ok (cartesian_to_geodetic geo xyz)
       else Ok xyz
   end)%result.

Definition cartesian_to_csv (conv : CsvConv.t) (xyz : Vector3 R)
    (geo : GeoReference) (mean_longitude : R) : result (Vector3 R) :=
  let csv :=
    match format conv with
    | XYZ => xyz
    | fmt =>
        let '(l0, l1, l2) := cartesian_to_geodetic geo xyz in
        let l0 := l0 + 360 * round ((mean_longitude - l0) / 360) in
        match fmt with
        | EASTING_HEIGHT_NORTHING =>
            let en := lonlat_to_point geo (l0, l1) in
            (fst en, snd en, l2)
        | HEIGHT_LAT_LON => (l0, l1, l2)
        | _ =>
            let l2 := norm_2 xyz in
            let l2 := match fmt with
                      | LAT_LON_RADIUS_KM => l2 / 1000
                      | _ => l2
                      end in
            (l0, l1, l2)
        end
    end in
  unsort_vector3 0 conv csv.

(** The reader of [CsvReader] on real coordinates. *)
Definition ReadNextPoint (csv_separator : string)
    (sscanf_lg : string -> scan R) (m_georef : GeoReference)
    (r : CsvReader R) : result (bool * CsvReader R) :=
  ReadNextPoint 0 csv_separator sscanf_lg
    (fun conv vals => csv_to_cartesian_or_point_height conv vals m_georef true) r.
End Conv.

(** ** Reference notions for the record parser and the descriptor *)

Module LineSpec.

(** The declared column [entry = (column, name)] finds a usable token
    among [tokens]: any token for the identifier column, a token that
    [sscanf] converts for every other column.  Tokens beyond the
    declared columns play no part. *)
Definition column_ok {D : Type} (sscanf_lg : string -> scan D)
    (tokens : list string) (entry : Z * string) : bool :=
  match List.nth_error tokens (Z.to_nat (fst entry)) with
  | None => false
  | Some token =>
      if String.eqb (snd entry) "file" then true
      else match sscanf_lg token with
           | Converted _ => true
           | _ => false
           end
  end.

Definition is_numeric (entry : Z * string) : bool :=
  negb (String.eqb (snd entry) "file").

(** No input failure at the declared column [entry]: if the column is
    numeric and has a token, [sscanf] converts it or reports a matching
    failure. *)
Definition column_scans {D : Type} (sscanf_lg : string -> scan D)
    (tokens : list string) (entry : Z * string) : Prop :=
  is_numeric entry = true ->
  forall token,
    List.nth_error tokens (Z.to_nat (fst entry)) = Some token ->
    sscanf_lg token <> InputFailure.

(** The columns that the record parser reads.  It counts the values
    read against the target count, which is the number of distinct
    declared names, and walks the columns in ascending order: it reads
    the first [num_targets] of them, all when no name is repeated. *)
Definition columns_read (conv : CsvConv.t) : list (Z * string) :=
  List.firstn (Z.to_nat (CsvConv.num_targets conv)) (CsvConv.col2name conv).

(** The lookup table of columns is in ascending order of its keys, as
    a [std::map] is, and no column is negative. *)
Definition ascending (m : list (Z * string)) : Prop :=
  StronglySorted (fun a b => (fst a < fst b)%Z) m /\
  List.Forall (fun e => (0 <= fst e)%Z) m.

(** A descriptor as the record parser expects it: distinct
    non-negative columns, one target per declared column, and no more
    numeric columns than a point has coordinates. *)
Definition wf_columns (conv : CsvConv.t) : Prop :=
  NoDup (List.map fst (CsvConv.col2name conv)) /\
  List.Forall (fun c => (0 <= c)%Z) (List.map fst (CsvConv.col2name conv)) /\
  CsvConv.num_targets conv = Z.of_nat (List.length (CsvConv.col2name conv)) /\
  (List.length (List.filter is_numeric (CsvConv.col2name conv)) <= 3)%nat.

(** The reader once a first line that failed to parse has been
    consumed: the rest of the text is ahead and the next line is no
    longer a first line. *)
Definition after_header {D : Type} (r : CsvReader D) (rest : string)
  : CsvReader D :=
  {| m_csv_conv := m_csv_conv r; m_is_first_line := false;
     m_has_valid_point := true; m_curr_point := m_curr_point r;
     m_ifs := rest |}.

(** Columns form a run [a, a+1, a+2, ...]. *)
Fixpoint contiguous (cols : list Z) : bool :=
  match cols with
  | a :: (b :: _) as rest => (b =? a + 1)%Z && contiguous rest
  | _ => true
  end.

(** The three names that select a coordinate scheme. *)
Definition scheme_names (f : CsvConv.CsvFormat) : list string :=
  match f with
  | CsvConv.XYZ => ["x"; "y"; "z"]
  | CsvConv.LAT_LON_RADIUS_M => ["lon"; "lat"; "radius_m"]
  | CsvConv.LAT_LON_RADIUS_KM => ["lon"; "lat"; "radius_km"]
  | CsvConv.HEIGHT_LAT_LON => ["lon"; "lat"; "height_above_datum"]
  | CsvConv.EASTING_HEIGHT_NORTHING =>
      ["easting"; "northing"; "height_above_datum"]
  end%string.

(** The declarations of a descriptor as the loop of [parse_csv_format]
    reads them off the stream, a column as written and a name each, up
    to the first that cannot be read; the flag tells whether the stream
    was read to its end. *)
Fixpoint scan_declarations (fuel : nat) (ist : istringstream)
  : list (Z * string) * bool :=
  if good ist then
    match fuel with
    | O => ([], false)
    | S fuel' =>
        let (is1, col) := extract_int ist 0 in
        let (is2, name) := extract_string is1 EmptyString in
        if failbit is2 then ([], false)
        else let (l, complete) := scan_declarations fuel' is2 in
             ((col, name) :: l, complete)
    end
  else ([], true).

(** The descriptor as the stream holds it: in lower case, colons and
    commas turned to spaces. *)
Definition local_text (csv_format_str : string) : string :=
  string_map CsvConv.separators_to_space (string_map tolower csv_format_str).

(** The zone token of a descriptor that starts with [utm]. *)
Definition utm_token (csv_format_str : string) : option string :=
  let (is1, str) := extract_string (stream_of (local_text csv_format_str))
                      EmptyString in
  if String.eqb str "utm" then Some (snd (extract_string is1 str)) else None.

(** The stream on which the loop starts: past the zone when the
    descriptor starts with [utm], at the beginning otherwise. *)
Definition declarations_stream (csv_format_str : string) : istringstream :=
  let (is1, str) := extract_string (stream_of (local_text csv_format_str))
                      EmptyString in
  if String.eqb str "utm" then fst (extract_string is1 str)
  else stream_of (local_text csv_format_str).

Definition declarations (csv_format_str : string) : list (Z * string) * bool :=
  scan_declarations (S (String.length (local_text csv_format_str)))
    (declarations_stream csv_format_str).

(** The two lookup tables after the declarations [decls] have gone
    through the checks of the loop, [None] when one is refused: a
    column below 1 or one declared before. *)
Fixpoint put_declarations (decls : list (Z * string))
    (n2c : list (string * Z)) (c2n : list (Z * string))
  : option (list (string * Z) * list (Z * string)) :=
  match decls with
  | [] => Some (n2c, c2n)
  | (col, name) :: rest =>
      if (col - 1 <? 0)%Z || map_count Z.eqb (col - 1)%Z c2n then None
      else put_declarations rest
             (map_put String.eqb String.ltb name (col - 1)%Z n2c)
             (map_put Z.eqb Z.ltb (col - 1)%Z name c2n)
  end.

(** What the claim asks of the declarations for the scheme [f]:
    positive and pairwise distinct columns, and for names the three of
    the scheme, or those and the identifier. *)
Definition declared_shape (decls : list (Z * string)) (f : CsvConv.CsvFormat)
  : Prop :=
  List.Forall (fun e => (1 <= fst e)%Z) decls /\
  NoDup (List.map fst decls) /\
  (Permutation (List.map snd decls) (scheme_names f) \/
   Permutation (List.map snd decls)
     ("file"%string :: scheme_names f)).

(** The descriptors on which the parser does what it is meant to: no
    name is declared twice, three names do not include the identifier
    and four do, no column is the least [int], and the zone after
    [utm], if any, fits an [int]. *)
Definition regular (csv_format_str : string) : Prop :=
  let decls := fst (declarations csv_format_str) in
  NoDup (List.map snd decls) /\
  (List.length decls = 3%nat -> ~ In "file"%string (List.map snd decls)) /\
  (List.length decls = 4%nat -> In "file"%string (List.map snd decls)) /\
  List.Forall (fun e => fst e <> Int.INT_MIN) decls /\
  match utm_token csv_format_str with
  | Some token => CsvConv.parse_utm_str token <> Undefined
  | None => True
  end.

(** A scanner of unsigned decimal integers, and the separators comma,
    space and tab, for running the parser on examples. *)
Definition scan_digits (token : string) : scan Z :=
  match token with
  | EmptyString => InputFailure
  | String c _ =>
      if isdigit c
      then Converted (decimal_value (fst (span isdigit token)) 0)
      else MatchingFailure
  end.

Definition comma_space_tab : string :=
  String ","%char (String " "%char (String "009"%char EmptyString)).

Definition xyz_columns : CsvConv.t :=
  {| CsvConv.name2col := [("x", 0); ("y", 1); ("z", 2)]%string%Z;
     CsvConv.col2name := [(0, "x"); (1, "y"); (2, "z")]%string%Z;
     CsvConv.col2sort := [(0, 0); (1, 1); (2, 2)]%Z;
     CsvConv.csv_format_str := "1:x 2:y 3:z";
     CsvConv.csv_proj4_str := EmptyString;
     CsvConv.format := CsvConv.XYZ;
     CsvConv.utm_zone := -1;
     CsvConv.utm_north := false;
     CsvConv.num_targets := 3 |}.
End LineSpec.

(** ** Reference notions for the coordinate round trip *)

From Stdlib Require Import ClassicalEpsilon.

Module RoundTrip.
Import CsvConv Conv.
Local Open Scope R_scope.

(** The longitude lies within half a turn of the mean longitude. *)
Definition near (mean_longitude lon : R) : Prop :=
  -180 < mean_longitude - lon < 180.

(** The datum maps the Cartesian image of [llh] back to [llh], the
    longitude up to whole turns. *)
Definition inverts_at (geo : GeoReference) (llh : Vector3 R) : Prop :=
  let '(lon, lat, h) := llh in
  exists m : Z,
    cartesian_to_geodetic geo (geodetic_to_cartesian geo llh)
    = (lon + 360 * IZR m, lat, h).

(** Degrees to radians. *)
Definition rad (deg : R) : R := deg * PI / 180.

(** The Cartesian point at longitude [lon] and geodetic latitude [lat],
    in degrees, and height [h] over the ellipsoid of revolution with
    semi-major axis [a] and squared eccentricity [e2]. *)
Definition ellipsoid_to_cartesian (a e2 : R) (llh : Vector3 R) : Vector3 R :=
  let '(lon, lat, h) := llh in
  let N := a / sqrt (1 - e2 * (sin (rad lat) * sin (rad lat))) in
  ((N + h) * cos (rad lat) * cos (rad lon),
   (N + h) * cos (rad lat) * sin (rad lon),
   (N * (1 - e2) + h) * sin (rad lat)).

(** Geodetic coordinates of a point on or above the ellipsoid. *)
Definition above_surface (llh : Vector3 R) : Prop :=
  let '(lon, lat, h) := llh in
  -180 < lon <= 180 /\ -90 <= lat <= 90 /\ 0 <= h.

(** An ellipsoidal datum: a point on or above the ellipsoid is mapped
    back to its geodetic coordinates; nothing is said of the other
    points.  The projection is the identity on longitude and
    latitude. *)
Definition ellipsoid_geo (a e2 : R) : GeoReference :=
  {| geodetic_to_cartesian := ellipsoid_to_cartesian a e2;
     cartesian_to_geodetic :=
       fun xyz =>
         epsilon (inhabits (0, 0, 0))
           (fun llh => above_surface llh /\
                       ellipsoid_to_cartesian a e2 llh = xyz);
     point_to_lonlat := fun en => en;
     lonlat_to_point := fun ll => ll |}.

(** The datum is a sphere of the given radius. *)
Definition spherical (geo : GeoReference) (radius : R) : Prop :=
  0 < radius /\
  forall llh,
    geodetic_to_cartesian geo llh = ellipsoid_to_cartesian radius 0 llh.

(** A record, given by its values [o] in sorted order, is in range
    for the round trip.  With a height the datum maps the Cartesian
    image of the record back to it; with a radius the datum is a
    sphere and maps the point at that distance from the centre back
    to its longitude and latitude. *)
Definition in_range (fmt : CsvFormat) (geo : GeoReference)
    (mean_longitude : R) (o : Vector3 R) : Prop :=
  let '(o0, o1, o2) := o in
  match fmt with
  | XYZ => True
  | HEIGHT_LAT_LON => near mean_longitude o0 /\ inverts_at geo o
  | EASTING_HEIGHT_NORTHING =>
      let ll := point_to_lonlat geo (o0, o1) in
      near mean_longitude (fst ll) /\
      inverts_at geo (fst ll, snd ll, o2) /\
      lonlat_to_point geo (fst ll, snd ll) = (o0, o1)
  | LAT_LON_RADIUS_M =>
      0 <= o2 /\ near mean_longitude o0 /\
      exists radius,
        spherical geo radius /\ inverts_at geo (o0, o1, o2 - radius)
  | LAT_LON_RADIUS_KM =>
      0 <= o2 /\ near mean_longitude o0 /\
      exists radius,
        spherical geo radius /\ inverts_at geo (o0, o1, o2 * 1000 - radius)
  end.

(** Two datums for running the conversions on examples: a sphere of
    radius 1737400 and an ellipsoid of semi-major axis 3 and squared
    eccentricity 7/8, on which the numbers stay small. *)
Definition moon : GeoReference := ellipsoid_geo 1737400 0.
Definition flattened : GeoReference := ellipsoid_geo 3 (7 / 8).

(** The latitude, in degrees, whose tangent is 12/5. *)
Definition lat_12_5 : R := atan (12 / 5) * 180 / PI.

(** A stand-in for the geodesy library, for running the conversions
    on examples: the point [(lon, lat, h)] lies on the ray through
    [(1, lon, lat)], at [1 + h] times that vector. *)
Definition ray_geo : GeoReference :=
  {| geodetic_to_cartesian :=
       fun '(lon, lat, h) => (1 + h, (1 + h) * lon, (1 + h) * lat);
     cartesian_to_geodetic := fun '(x, y, z) => (y / x, z / x, x - 1);
     point_to_lonlat := fun en => en;
     lonlat_to_point := fun ll => ll |}.

(** The descriptor "1:lon 2:lat 3:radius_km" once parsed. *)
Definition lon_lat_radius_km : CsvConv.t :=
  {| name2col := [("lat", 1); ("lon", 0); ("radius_km", 2)]%string%Z;
     col2name := [(0, "lon"); (1, "lat"); (2, "radius_km")]%string%Z;
     col2sort := [(0, 0); (1, 1); (2, 2)]%Z;
     csv_format_str := "1:lon 2:lat 3:radius_km";
     csv_proj4_str := EmptyString;
     format := LAT_LON_RADIUS_KM;
     utm_zone := -1;
     utm_north := false;
     num_targets := 3 |}.

(** The descriptor "1:lon 2:lat 3:radius_m" once parsed. *)
Definition lon_lat_radius_m : CsvConv.t :=
  {| name2col := [("lat", 1); ("lon", 0); ("radius_m", 2)]%string%Z;
     col2name := [(0, "lon"); (1, "lat"); (2, "radius_m")]%string%Z;
     col2sort := [(0, 0); (1, 1); (2, 2)]%Z;
     csv_format_str := "1:lon 2:lat 3:radius_m";
     csv_proj4_str := EmptyString;
     format := LAT_LON_RADIUS_M;
     utm_zone := -1;
     utm_north := false;
     num_targets := 3 |}.

(** The record "10 20 6.378". *)
Definition scenario_B_record : CsvRecord R :=
  {| point_data := (10, 20, 6378 / 1000); file := EmptyString |}.

(** [sscanf] on the three tokens of that record. *)
Definition scan_scenario_B (token : string) : scan R :=
  if String.eqb token "10" then Converted 10
  else if String.eqb token "20" then Converted 20
  else if String.eqb token "6.378" then Converted (6378 / 1000)
  else MatchingFailure.
End RoundTrip.

(** * Further parts of [point2dem.cc] *)

Module Point2demViews.
Import Point2dem.

(** ** [vw::BBox2i]: the cells [(c, r)] with [min_x <= c < max_x] and
    [min_y <= r < max_y]. *)
Record BBox2i : Type := {
  min_x : Z; min_y : Z; max_x : Z; max_y : Z
}.

Definition contains (b : BBox2i) (c r : Z) : bool :=
  (min_x b <=? c)%Z && (c <? max_x b)%Z &&
  (min_y b <=? r)%Z && (r <? max_y b)%Z.

Definition width (b : BBox2i) : Z := max_x b - min_x b.
Definition height (b : BBox2i) : Z := max_y b - min_y b.

(** [expand(offset)]: the lower corner moves down and the upper corner
    up by [offset], in [int] arithmetic. *)
Definition expand (b : BBox2i) (offset : Z) : result BBox2i :=
  (x0 <- Int.check (min_x b - offset) ;;
   y0 <- Int.check (min_y b - offset) ;;
   x1 <- Int.check (max_x b + offset) ;;
   y1 <- Int.check (max_y b + offset) ;;
   Ok {| min_x := x0; min_y := y0; max_x := x1; max_y := y1 |})%result.

(** [crop(bbox)]: the intersection with [bbox]. *)
Definition crop_box (b bbox : BBox2i) : BBox2i :=
  {| min_x := Z.max (min_x b) (min_x bbox);
     min_y := Z.max (min_y b) (min_y bbox);
     max_x := Z.min (max_x b) (max_x bbox);
     max_y := Z.min (max_y b) (max_y bbox) |}.

Definition bounding_box (img : ImageView) : BBox2i :=
  {| min_x := 0; min_y := 0; max_x := img_cols img; max_y := img_rows img |}.

(** [ImageView<PixelT> dest(crop(img, box))]: the cells of [box] copied
    into a buffer of their own.  What a read beyond the buffer finds is
    not determined by the program; [outside] stands for it. *)
Definition copy_of_crop (img : ImageView) (box : BBox2i)
    (outside : Z -> Z -> option Q) : ImageView :=
  {| img_cols := width box;
     img_rows := height box;
     pixel := fun x y =>
       if (0 <=? x)%Z && (x <? width box)%Z &&
          (0 <=? y)%Z && (y <? height box)%Z
       then pixel img (x + min_x box) (y + min_y box)
       else outside x y |}.

(** [crop(image, x, y, cols, rows)]: a view, cell [(c, r)] of which is
    cell [(c + x, r + y)] of [image]. *)
Definition crop (image : ImageView) (x y cols rows : Z) : ImageView :=
  {| img_cols := cols;
     img_rows := rows;
     pixel := fun c r => pixel image (c + x) (r + y) |}.

(** *** [FillNoDataWithAvg::prerasterize(bbox)]

    A box that does not meet the image leaves a buffer of negative
    extent to allocate, which is not followed further. *)
Definition prerasterize (f : FillNoDataWithAvg) (bbox : BBox2i)
    (outside : Z -> Z -> option Q) : result FillNoDataWithAvg :=
  (expanded <- expand bbox (Z.quot (m_kernel_size f) 2) ;;
   let biased_box := crop_box expanded (bounding_box (m_img f)) in
   if (width biased_box <? 0)%Z || (height biased_box <? 0)%Z then Undefined
   else
     let dest := copy_of_crop (m_img f) biased_box outside in
     FillNoDataWithAvg_ctor
       (crop dest (- min_x biased_box) (- min_y biased_box)
          (img_cols (m_img f)) (img_rows (m_img f)))
       (m_kernel_size f))%result.

End Point2demViews.

(** * Further parts of [PointUtils.cc] *)

(** A function applied to the value of a computation that returns. *)
Definition result_map {A B : Type} (g : A -> B) (r : result A) : result B :=
  (x <- r ;; Ok (g x))%result.

(** ** The geodetic readings of a record *)

Module Geodetic.
Import CsvConv.
Import Conv.
Local Open Scope R_scope.

Definition csv_to_geodetic (conv : CsvConv.t) (csv : CsvRecord R)
    (geo : GeoReference) : result (Vector3 R) :=
  (ordered_csv <- sort_parsed_vector3 0 conv csv ;;
   let '(o0, o1, o2) := ordered_csv in
   match format conv with
   | XYZ => Ok (cartesian_to_geodetic geo ordered_csv)
   | EASTING_HEIGHT_NORTHING =>
       let point_height := (o0, o1, o2) in
       let ll := point_to_lonlat geo (o0, o1) in
       Ok (fst ll, snd ll, o2)
   | HEIGHT_LAT_LON => Ok ordered_csv
   | fmt =>
       let o2 := match fmt with LAT_LON_RADIUS_KM => o2 * 1000 | _ => o2 end in
       let tmp := (o0, o1, 0) in
       let xyz := geodetic_to_cartesian geo tmp in
       let xyz := rescale o2 xyz (norm_2 xyz) in
       Ok (cartesian_to_geodetic geo xyz)
   end)%result.

Definition csv_to_lonlat (conv : CsvConv.t) (csv : CsvRecord R)
    (geo : GeoReference) : result (R * R) :=
  (ordered_csv <- sort_parsed_vector3 0 conv csv ;;
   let '(o0, o1, o2) := ordered_csv in
   match format conv with
   | XYZ =>
       let '(l0, l1, _) := cartesian_to_geodetic geo ordered_csv in
       Ok (l0, l1)
   | EASTING_HEIGHT_NORTHING => Ok (point_to_lonlat geo (o0, o1))
   | HEIGHT_LAT_LON => Ok (o0, o1)
   | _ => Ok (o0, o1)
   end)%result.

(** The schemes that give a distance from the centre of the body. *)
Definition is_radius_scheme (f : CsvFormat) : bool :=
  match f with
  | LAT_LON_RADIUS_M | LAT_LON_RADIUS_KM => true
  | _ => false
  end.

(** The schemes whose values are already geodetic or projected. *)
Definition is_height_scheme (f : CsvFormat) : bool :=
  match f with
  | HEIGHT_LAT_LON | EASTING_HEIGHT_NORTHING => true
  | _ => false
  end.

(** Longitude and latitude of a geodetic point. *)
Definition lonlat_of (llh : Vector3 R) : R * R :=
  let '(l0, l1, _) := llh in (l0, l1).

End Geodetic.

(** ** Whole files: [CsvConv::parse_entire_file] and the header line *)

Section CsvFiles.
Variable D : Type.
Variable zero : D.
Variable csv_separator : string.
Variable sscanf_lg : string -> scan D.

(** The [while (std::getline(file, line, '\n'))] loop; [file] is the
    text not yet read.  Every pass consumes at least one character, so
    [S (length text)] passes are enough. *)
Fixpoint parse_entire_file_loop (fuel : nat) (conv : CsvConv.t) (file : string)
    (first_line : bool) (output_list : list (CsvRecord D))
  : result (list (CsvRecord D)) :=
  match fuel with
  | O => Ok output_list
  | S fuel' =>
      match getline file with
      | None => Ok output_list
      | Some (line, file') =>
          (p <- parse_csv_line zero csv_separator sscanf_lg conv first_line line ;;
           let '(_, success, new_record) := p in
           let output_list :=
             if success then output_list ++ [new_record] else output_list in
           parse_entire_file_loop fuel' conv file' false output_list)%result
      end
  end.

(** [parse_entire_file(file_path, output_list)]: the value returned and
    the list; [file] is the content of the file, [None] when it cannot
    be opened. *)
Definition parse_entire_file (conv : CsvConv.t) (file : option string)
  : result (Z * list (CsvRecord D)) :=
  match file with
  | None => vw_throw IOErr
  | Some text =>
      (output_list <-
         parse_entire_file_loop (S (String.length text)) conv text true [] ;;
       Ok (Z.of_nat (List.length output_list), output_list))%result
  end.
End CsvFiles.
Arguments parse_entire_file_loop {D} zero csv_separator sscanf_lg
  fuel conv file first_line output_list.
Arguments parse_entire_file {D} zero csv_separator sscanf_lg conv file.

(** [CsvConv::write_header_string(delimiter)] *)
Definition write_header_string (conv : CsvConv.t) (delimiter : string)
  : string :=
  List.fold_left
    (fun s it => String.append (String.append s (snd it)) delimiter)
    (CsvConv.col2name conv) EmptyString.

(** ** Reading the points of one tile

    [asp::BaseReader] is abstract: [ReadNextPoint] and [GetPoint] are
    what a reader provides. *)
Section PointReader.
Variables reader point : Type.
Variable ReadNextPoint : reader -> result (bool * reader).
Variable GetPoint : reader -> point.

(** The [while (m_reader->ReadNextPoint())] loop of
    [LasOrCsvToTif_Class::prerasterize].  A pass that does not leave
    the loop raises [count], an [int]; the loop is left when the reader
    has no further point or when [count] reaches
    [max_num_pts_to_read].  [fuel] bounds the passes and plays no part
    in the result: before it runs out [count] overflows. *)
Fixpoint read_points (fuel : nat) (m_reader : reader)
    (count max_num_pts_to_read : Z) (in_ : list point)
  : result (list point * reader) :=
  match fuel with
  | O => Undefined
  | S fuel' =>
      (p <- ReadNextPoint m_reader ;;
       let '(more, m_reader) := p in
       if more then
         let in_ := in_ ++ [GetPoint m_reader] in
         count <- Int.incr count ;;
         if (max_num_pts_to_read <=? count)%Z then Ok (in_, m_reader)
         else read_points fuel' m_reader count max_num_pts_to_read in_
       else Ok (in_, m_reader))%result
  end.

(** More passes than an [int] can count. *)
Definition passes_bound : nat := Z.to_nat (Int.INT_MAX + 1).

(** The part of [prerasterize(bbox)] that precedes the call of the
    chipper, for a box of [num_cols] by [num_rows] cells: the points
    read and the reader afterwards. *)
Definition prerasterize_read (m_block_size : Z) (m_reader : reader)
    (num_cols num_rows : Z) : result (list point * reader) :=
  if (m_block_size =? 0)%Z then Undefined
  else
    (_ <- VW_ASSERT ((Z.rem num_rows m_block_size =? 0)%Z &&
                     (Z.rem num_cols m_block_size =? 0)%Z) ArgumentErr ;;
     max_num_pts_to_read <- Int.mul num_cols num_rows ;;
     read_points passes_bound m_reader 0 max_num_pts_to_read [])%result.
End PointReader.
Arguments read_points {reader point} ReadNextPoint GetPoint
  fuel m_reader count max_num_pts_to_read in_.
Arguments passes_bound : simpl never.
Arguments prerasterize_read {reader point} ReadNextPoint GetPoint
  m_block_size m_reader num_cols num_rows.

(** Every character of [s] satisfies [p]. *)
Fixpoint string_all (p : ascii -> bool) (s : string) : bool :=
  match s with
  | EmptyString => true
  | String c s' => p c && string_all p s'
  end.

(** ** Names of point cloud files *)

Module PointCloudFiles.

(** [boost::to_lower_copy] *)
Definition to_lower_copy (s : string) : string := string_map tolower s.

(** [boost::ends_with]: some suffix of [input] is [test]. *)
Fixpoint ends_with (input test : string) : bool :=
  String.eqb input test ||
  match input with
  | EmptyString => false
  | String _ input' => ends_with input' test
  end.

(** [boost::iends_with]: the same, letter case set aside. *)
Definition iends_with (input test : string) : bool :=
  ends_with (to_lower_copy input) (to_lower_copy test).

Definition is_las (file : string) : bool :=
  let lfile := to_lower_copy file in
  iends_with lfile ".las" || iends_with lfile ".laz".

Definition is_csv (file : string) : bool :=
  let lfile := to_lower_copy file in
  iends_with lfile ".csv" || iends_with lfile ".txt".

Definition is_las_or_csv (file : string) : bool :=
  is_las file || is_csv file.

(** [s.rfind(pat)]: the last position at which [pat] occurs in [s],
    [None] for [npos]. *)
Fixpoint rfind (pat s : string) : option nat :=
  match s with
  | EmptyString => if is_empty pat then Some O else None
  | String _ s' =>
      match rfind pat s' with
      | Some i => Some (S i)
      | None => if String.prefix pat s then Some O else None
      end
  end.

(** [s.erase(index, s.size())] for [index <= s.size()] *)
Definition erase_from (index : nat) (s : string) : string :=
  String.substring 0 index s.

(** [prefix_from_pointcloud_filename(filename)].  The position found
    is kept in an [int]; names too long for their positions to fit are
    left out. *)
Definition prefix_from_pointcloud_filename (filename : string)
  : result string :=
  if (Int.INT_MAX <? Z.of_nat (String.length filename))%Z then Undefined
  else
    match rfind "-PC." filename with
    | Some index => Ok (erase_from index filename)
    | None =>
        match rfind "." filename with
        | Some index => Ok (erase_from index filename)
        | None => Ok filename
        end
    end.

End PointCloudFiles.

(** * Further parts of [point2dem.cc]: inputs and outputs *)

From Stdlib Require Import DecimalString DecimalNat Qabs.
From Stdlib Require Lqa.

Module Point2demTools.

(** ** [asp::num_channels]

    [get_num_channels] reads the number of channels of an image file. *)
Section NumChannels.
Variable get_num_channels : string -> Z.

Definition num_channels (pc_files : list string) : result Z :=
  match pc_files with
  | [] => vw_throw ArgumentErr
  | file0 :: files =>
      let num_channels0 := get_num_channels file0 in
      Ok (List.fold_left
            (fun min_num_channels file =>
               let num_channels := get_num_channels file in
               let min_num_channels := Z.min min_num_channels num_channels in
               if negb (num_channels =? num_channels0)%Z
               then Z.min min_num_channels 3
               else min_num_channels)
            files num_channels0)
  end.
End NumChannels.

(** ** [RoundImagePixelsSkipNoData], on a pixel of one channel, in
    exact arithmetic *)

(** C [round]: to the nearest integer, halves away from zero. *)
Definition round (x : Q) : Z :=
  if Qle_bool 0 x then Qfloor (x + (1 # 2)) else (- Qfloor (- x + (1 # 2)))%Z.

Record RoundImagePixelsSkipNoData : Type := {
  m_scale : Q;
  m_nodata : Q
}.

(** [operator()(pt)] *)
Definition round_pixel (f : RoundImagePixelsSkipNoData) (pt : Q) : Q :=
  if Qle_bool (m_scale f) 0 then pt
  else if Qeq_bool pt (m_nodata f) then pt
  else (m_scale f * inject_Z (round (pt / m_scale f)))%Q.

(** ** Output prefixes of [do_software_rasterization_multi_spacing] *)

(** [itoa(i)] for a [size_t]: the decimal digits of [i]. *)
Definition itoa (i : nat) : string :=
  NilEmpty.string_of_uint (Nat.to_uint i).

(** The value of [opt.out_prefix] in pass [i] of the loop over the
    spacings. *)
Definition out_prefix_of_pass (base_out_prefix : string) (i : nat) : string :=
  if Nat.eqb i 0 then base_out_prefix
  else String.append base_out_prefix (String.append "_" (itoa i)).

(** ** [parse_input_clouds_textures]

    The members of [Options] that the function reads and writes.
    [exists_], [get_num_channels] and [dimensions] stand for
    [fs::exists], [get_num_channels] and the columns and rows of a
    [DiskImageView]. *)
Record Options : Type := {
  do_ortho : bool;
  has_las_or_csv : bool;
  pointcloud_files : list string;
  texture_files : list string
}.

Definition is_empty_list {A : Type} (l : list A) : bool :=
  match l with [] => true | _ => false end.

Section InputFiles.
Variable exists_ : string -> bool.
Variable get_num_channels : string -> Z.
Variable dimensions : string -> Z * Z.

Definition starts_with_dash (file : string) : bool :=
  match file with
  | String c _ => Ascii.eqb c "-"
  | EmptyString => false
  end.

Definition is_cloud (file : string) : bool :=
  PointCloudFiles.is_las_or_csv file || (3 <=? get_num_channels file)%Z.

(** The loop that compares each cloud with its texture. *)
Fixpoint check_dimensions (clouds textures : list string) : result unit :=
  match clouds, textures with
  | cloud :: clouds', texture :: textures' =>
      if negb (fst (dimensions cloud) =? fst (dimensions texture))%Z ||
         negb (snd (dimensions cloud) =? snd (dimensions texture))%Z
      then vw_throw ArgumentErr
      else check_dimensions clouds' textures'
  | [], _ => Ok tt
  | _ :: _, [] => Undefined
  end.

Definition parse_input_clouds_textures (files : list string) (opt : Options)
  : result Options :=
  let num := Z.of_nat (List.length files) in
  if (num =? 0)%Z then vw_throw ArgumentErr
  else if List.existsb starts_with_dash files then vw_throw ArgumentErr
  else if List.existsb (fun file => negb (exists_ file)) files
  then vw_throw ArgumentErr
  else if do_ortho opt && ((num <=? 1)%Z || negb (Z.rem num 2 =? 0)%Z)
  then vw_throw ArgumentErr
  else
    let clouds := List.filter is_cloud files in
    let textures := List.filter (fun file => negb (is_cloud file)) files in
    if is_empty_list clouds then vw_throw ArgumentErr
    else if negb (do_ortho opt) && negb (is_empty_list textures)
    then vw_throw ArgumentErr
    else
      let las_or_csv := List.existsb PointCloudFiles.is_las_or_csv files in
      if las_or_csv && do_ortho opt then vw_throw ArgumentErr
      else
        (_ <- (if do_ortho opt
               then
                 if negb (Nat.eqb (List.length clouds) (List.length textures))
                 then vw_throw ArgumentErr
                 else check_dimensions clouds textures
               else Ok tt) ;;
         Ok {| do_ortho := do_ortho opt;
               has_las_or_csv := las_or_csv;
               pointcloud_files := clouds;
               texture_files := textures |})%result.
End InputFiles.

End Point2demTools.

(** ** The record of a line, read off the declared columns *)

Module RecordSpec.

(** The record obtained by going through the declared columns
    [entries] in their order and taking, for each, the token at its
    place in [tokens], which start at column [c]: the token itself for
    the identifier column, its value for any other, the values filling
    the coordinates from slot [nfr] on.  [None] when a token is missing
    or is not a number. *)
Fixpoint columns_record {D : Type} (sscanf_lg : string -> scan D) (c : Z)
    (entries : list (Z * string)) (tokens : list string) (nfr : Z)
    (values : CsvRecord D) : option (CsvRecord D) :=
  match entries with
  | [] => Some values
  | entry :: entries' =>
      match List.nth_error tokens (Z.to_nat (fst entry - c)) with
      | None => None
      | Some token =>
          if String.eqb (snd entry) "file"
          then columns_record sscanf_lg c entries' tokens nfr
                 {| point_data := point_data values; file := token |}
          else
            match sscanf_lg token with
            | Converted val =>
                match vec_set (point_data values) nfr val with
                | Ok pd =>
                    columns_record sscanf_lg c entries' tokens (nfr + 1)
                      {| point_data := pd; file := file values |}
                | _ => None
                end
            | _ => None
            end
      end
  end.

Definition record_of_columns {D : Type} (zero : D)
    (sscanf_lg : string -> scan D) (conv : CsvConv.t) (tokens : list string)
  : option (CsvRecord D) :=
  columns_record sscanf_lg 0 (CsvConv.col2name conv) tokens 0
    (CsvRecord_ctor zero).

(** The lookup table of columns is in the order of its keys, as a
    [std::map] is. *)
Definition in_key_order (m : list (Z * string)) : Prop :=
  StronglySorted (fun a b => (fst a < fst b)%Z) m.

End RecordSpec.

(** The entries that the names of [n2c] contribute to the sorting
    table. *)
Definition numeric_entries (n2c : list (string * Z)) : list (Z * Z) :=
  List.flat_map
    (fun e : string * Z =>
       match CsvConv.get_sorted_index_for_name (fst e) with
       | Ok index => if (index <? 3)%Z then [(snd e, index)] else []
       | _ => []
       end) n2c.
(** * Properties *)

(** ** Rounding to binary64 *)

Module Binary64Facts.
Import Binary64.
Local Open Scope Q_scope.

Lemma pow2_pos (s : Z) : 0 < pow2 s.
Proof. apply Qpower_0_lt. reflexivity. Qed.

Lemma pow2_add (a b : Z) : pow2 (a + b) == pow2 a * pow2 b.
Proof. apply Qpower_plus. discriminate. Qed.

Lemma pow2_le (a b : Z) : (a <= b)%Z -> pow2 a <= pow2 b.
Proof. intros H. apply Qpower_le_compat_l; [exact H | discriminate]. Qed.

Lemma pow2_lt (a b : Z) : (a < b)%Z -> pow2 a < pow2 b.
Proof. intros H. apply Qpower_lt_compat_l; [exact H | reflexivity]. Qed.

Lemma pow2_lt_inv (a b : Z) : pow2 a < pow2 b -> (a < b)%Z.
Proof. intros H. apply (Qpower_lt_compat_l_inv (2 # 1)); [exact H | reflexivity]. Qed.

Lemma pow2_Z (k : Z) : (0 <= k)%Z -> pow2 k == inject_Z (2 ^ k).
Proof. intros H. unfold pow2. rewrite Zpower_Qpower by exact H. reflexivity. Qed.

Lemma pow2_sub (a b : Z) : pow2 (a - b) * pow2 b == pow2 a.
Proof. rewrite <- pow2_add. replace (a - b + b)%Z with a by lia. reflexivity. Qed.

(** Division by a power of two is multiplication by the opposite one. *)
Lemma div_pow2 (x : Q) (s : Z) : x / pow2 s == x * pow2 (- s).
Proof.
  assert (H := pow2_pos s).
  assert (E : pow2 (- s) * pow2 s == 1).
  { rewrite <- pow2_add. replace (- s + s)%Z with 0%Z by lia. reflexivity. }
  apply (Qmult_inj_r _ _ (pow2 s)); [intros C; rewrite C in H; discriminate |].
  rewrite Qmult_comm, Qmult_div_r by (intros C; rewrite C in H; discriminate).
  rewrite <- Qmult_assoc, E. ring.
Qed.

Lemma Qmake_div (n : Z) (d : positive) :
  n # d == inject_Z n / inject_Z (Zpos d).
Proof. apply Qmake_Qdiv. Qed.

Lemma inject_Z_lt (a b : Z) : (a < b)%Z -> inject_Z a < inject_Z b.
Proof. intros H. rewrite <- Zlt_Qlt. exact H. Qed.

Lemma inject_Z_le (a b : Z) : (a <= b)%Z -> inject_Z a <= inject_Z b.
Proof. intros H. rewrite <- Zle_Qle. exact H. Qed.

Lemma ilog2_spec (x : Q) :
  0 < x -> pow2 (ilog2 x) <= x /\ x < pow2 (ilog2 x + 1).
Proof.
  intros Hx. destruct x as [n d]. unfold ilog2. cbn [Qnum Qden].
  assert (Hn : (0 < n)%Z) by (unfold Qlt in Hx; cbn in Hx; lia).
  set (ln := Z.log2 n). set (ld := Z.log2 (Zpos d)).
  assert (Hln : (2 ^ ln <= n < 2 ^ (ln + 1))%Z).
  { replace (ln + 1)%Z with (Z.succ ln) by lia. apply Z.log2_spec. exact Hn. }
  assert (Hld : (2 ^ ld <= Zpos d < 2 ^ (ld + 1))%Z).
  { replace (ld + 1)%Z with (Z.succ ld) by lia. apply Z.log2_spec. lia. }
  assert (Hln0 : (0 <= ln)%Z) by apply Z.log2_nonneg.
  assert (Hld0 : (0 <= ld)%Z) by apply Z.log2_nonneg.
  assert (Hd : 0 < inject_Z (Zpos d)) by reflexivity.
  (* pow2 (a - 1) < x < pow2 (a + 1) *)
  assert (Hup : n # d < pow2 (ln - ld + 1)).
  { rewrite Qmake_div. apply Qlt_shift_div_r; [exact Hd |].
    apply Qlt_le_trans with (inject_Z (2 ^ (ln + 1))).
    - apply inject_Z_lt. lia.
    - rewrite <- pow2_Z by lia.
      rewrite <- (pow2_sub (ln + 1) ld).
      replace (ln + 1 - ld)%Z with (ln - ld + 1)%Z by lia.
      apply Qmult_le_l; [apply pow2_pos |].
      rewrite pow2_Z by lia. apply inject_Z_le. lia. }
  assert (Hlo : pow2 (ln - ld - 1) <= n # d).
  { rewrite Qmake_div. apply Qle_shift_div_l; [exact Hd |].
    apply Qle_trans with (inject_Z (2 ^ ln)).
    - rewrite <- pow2_Z by lia.
      rewrite <- (pow2_sub ln (ld + 1)).
      replace (ln - (ld + 1))%Z with (ln - ld - 1)%Z by lia.
      apply Qmult_le_l; [apply pow2_pos |].
      rewrite pow2_Z by lia. apply inject_Z_le. lia.
    - apply inject_Z_le. lia. }
  destruct (Qle_bool (pow2 (ln - ld)) (n # d)) eqn:E.
  - apply Qle_bool_iff in E. split; assumption.
  - split; [exact Hlo |].
    replace (ln - ld - 1 + 1)%Z with (ln - ld)%Z by lia.
    apply Qnot_le_lt. intros C. apply Qle_bool_iff in C. congruence.
Qed.

Lemma ilog2_unique (x : Q) (m : Z) :
  pow2 m <= x -> x < pow2 (m + 1) -> ilog2 x = m.
Proof.
  intros H1 H2.
  assert (Hx : 0 < x) by (eapply Qlt_le_trans; [apply pow2_pos | exact H1]).
  destruct (ilog2_spec x Hx) as [H3 H4].
  assert ((ilog2 x < m + 1)%Z).
  { apply pow2_lt_inv. eapply Qle_lt_trans; eassumption. }
  assert ((m < ilog2 x + 1)%Z).
  { apply pow2_lt_inv. eapply Qle_lt_trans; eassumption. }
  lia.
Qed.

Lemma ilog2_wd (x y : Q) : 0 < x -> x == y -> ilog2 x = ilog2 y.
Proof.
  intros Hx E. destruct (ilog2_spec x Hx) as [H1 H2].
  symmetry. apply ilog2_unique; rewrite <- E; assumption.
Qed.

Lemma ilog2_mono (x y : Q) : 0 < x -> x <= y -> (ilog2 x <= ilog2 y)%Z.
Proof.
  intros Hx Hxy.
  assert (Hy : 0 < y) by (eapply Qlt_le_trans; eassumption).
  destruct (ilog2_spec x Hx) as [H1 _], (ilog2_spec y Hy) as [_ H2].
  assert ((ilog2 x < ilog2 y + 1)%Z); [| lia].
  apply pow2_lt_inv. eapply Qle_lt_trans; [exact H1 |].
  eapply Qle_lt_trans; eassumption.
Qed.

Lemma ulp_exp_mono (x y : Q) : 0 < x -> x <= y -> (ulp_exp x <= ulp_exp y)%Z.
Proof.
  intros Hx Hxy. unfold ulp_exp.
  pose proof (ilog2_mono x y Hx Hxy). lia.
Qed.

(** *** Rounding to the nearest integer *)

Lemma round_half_even_cases (y : Q) :
  let f := Qfloor y in
  (round_half_even y = f /\ y - inject_Z f <= 1 # 2) \/
  (round_half_even y = (f + 1)%Z /\ 1 # 2 <= y - inject_Z f).
Proof.
  intros f. unfold round_half_even. fold f.
  destruct (y - inject_Z f ?= 1 # 2) eqn:E.
  - apply Qeq_alt in E. destruct (Z.even f).
    + left. split; [reflexivity | rewrite E; apply Qle_refl].
    + right. split; [reflexivity | rewrite E; apply Qle_refl].
  - apply Qlt_alt in E. left. split; [reflexivity | apply Qlt_le_weak; exact E].
  - apply Qgt_alt in E. right. split; [reflexivity | apply Qlt_le_weak; exact E].
Qed.

Lemma round_half_even_wd (x y : Q) :
  x == y -> round_half_even x = round_half_even y.
Proof.
  intros E. unfold round_half_even.
  rewrite (Qfloor_comp _ _ E).
  assert (E' : x - inject_Z (Qfloor y) == y - inject_Z (Qfloor y))
    by (rewrite E; reflexivity).
  rewrite (Qcompare_comp _ _ E' (1 # 2) (1 # 2) (Qeq_refl _)).
  reflexivity.
Qed.

Lemma round_half_even_Z (z : Z) : round_half_even (inject_Z z) = z.
Proof.
  unfold round_half_even. rewrite Qfloor_Z.
  assert (E : (inject_Z z - inject_Z z ?= 1 # 2) = Lt).
  { apply Qlt_alt. unfold Qminus. rewrite Qplus_opp_r. reflexivity. }
  rewrite E. reflexivity.
Qed.

Lemma round_half_even_close (y : Q) :
  y - (1 # 2) <= inject_Z (round_half_even y) /\
  inject_Z (round_half_even y) <= y + (1 # 2).
Proof.
  pose proof (Qfloor_le y) as H1. pose proof (Qlt_floor y) as H2.
  rewrite inject_Z_plus in H2.
  destruct (round_half_even_cases y) as [[E H]|[E H]]; rewrite E;
    try rewrite inject_Z_plus; change (inject_Z 1) with 1 in *; split; Lqa.lra.
Qed.

Lemma round_half_even_mono (x y : Q) :
  x <= y -> (round_half_even x <= round_half_even y)%Z.
Proof.
  intros Hxy.
  pose proof (Qfloor_resp_le _ _ Hxy) as Hf.
  assert (Hlo : forall z, (Qfloor z <= round_half_even z <= Qfloor z + 1)%Z).
  { intros z. destruct (round_half_even_cases z) as [[E _]|[E _]]; lia. }
  destruct (Z.eq_dec (Qfloor x) (Qfloor y)) as [Ef|Nf].
  - unfold round_half_even. rewrite Ef.
    assert (Hd : x - inject_Z (Qfloor y) <= y - inject_Z (Qfloor y)) by Lqa.lra.
    destruct (Qcompare_spec (x - inject_Z (Qfloor y)) (1 # 2));
      destruct (Qcompare_spec (y - inject_Z (Qfloor y)) (1 # 2));
      destruct (Z.even (Qfloor y)); try lia; exfalso; Lqa.lra.
  - pose proof (Hlo x). pose proof (Hlo y). lia.
Qed.

(** *** Rounding to binary64 *)

Lemma round_zero (x : Q) : x == 0 -> round x == 0.
Proof.
  intros E. unfold round.
  apply Qeq_bool_iff in E. rewrite E. reflexivity.
Qed.

Lemma round_pos (x : Q) :
  0 < x ->
  round x == inject_Z (round_half_even (x / pow2 (ulp_exp x))) * pow2 (ulp_exp x).
Proof.
  intros Hx. unfold round.
  destruct (Qeq_bool x 0) eqn:E.
  { apply Qeq_bool_iff in E. rewrite E in Hx. discriminate. }
  assert (Hle : Qle_bool 0 x = true) by (apply Qle_bool_iff, Qlt_le_weak, Hx).
  rewrite Hle.
  assert (Ha : Qabs x == x) by (apply Qabs_pos, Qlt_le_weak, Hx).
  assert (Hs : ulp_exp (Qabs x) = ulp_exp x).
  { unfold ulp_exp. rewrite (ilog2_wd (Qabs x) x); [reflexivity | | exact Ha].
    rewrite Ha. exact Hx. }
  cbv zeta. rewrite Hs.
  rewrite (round_half_even_wd (Qabs x / pow2 (ulp_exp x)) (x / pow2 (ulp_exp x)))
    by (rewrite Ha; reflexivity).
  reflexivity.
Qed.

Lemma round_wd (x y : Q) : 0 <= x -> x == y -> round x == round y.
Proof.
  intros Hx E.
  destruct (Qeq_dec x 0) as [Z0|N0].
  - rewrite (round_zero x Z0), (round_zero y); [reflexivity |].
    rewrite <- E. exact Z0.
  - assert (Hx' : 0 < x).
    { apply Qle_lteq in Hx. destruct Hx as [H|H]; [exact H |].
      exfalso. apply N0. symmetry. exact H. }
    assert (Hy' : 0 < y) by (rewrite <- E; exact Hx').
    rewrite (round_pos x Hx'), (round_pos y Hy').
    assert (Hs : ulp_exp x = ulp_exp y).
    { unfold ulp_exp. rewrite (ilog2_wd x y Hx' E). reflexivity. }
    rewrite Hs.
    rewrite (round_half_even_wd (x / pow2 (ulp_exp y)) (y / pow2 (ulp_exp y)))
      by (rewrite E; reflexivity).
    reflexivity.
Qed.

(** A value [k * 2^e] of a grid no finer than the one around [x]
    bounds [round x] whenever it bounds [x]. *)
Lemma grid_scaled (k e s : Z) :
  (s <= e)%Z ->
  inject_Z k * pow2 e / pow2 s == inject_Z (k * 2 ^ (e - s)).
Proof.
  intros H. rewrite inject_Z_mult, <- pow2_Z by lia.
  rewrite <- (pow2_sub e s) at 1.
  assert (Hp := pow2_pos s).
  field. intros C. rewrite C in Hp. discriminate.
Qed.

Lemma round_le_grid (x : Q) (k e : Z) :
  0 < x -> (ulp_exp x <= e)%Z -> x <= inject_Z k * pow2 e ->
  round x <= inject_Z k * pow2 e.
Proof.
  intros Hx He Hle. rewrite (round_pos x Hx).
  set (s := ulp_exp x) in *. assert (Hp := pow2_pos s).
  assert (Hq : x / pow2 s <= inject_Z (k * 2 ^ (e - s))).
  { rewrite <- grid_scaled by exact He.
    apply Qmult_le_compat_r; [exact Hle |].
    apply Qlt_le_weak, Qinv_lt_0_compat, Hp. }
  apply round_half_even_mono in Hq. rewrite round_half_even_Z in Hq.
  apply inject_Z_le in Hq.
  rewrite <- grid_scaled in Hq by exact He.
  apply (Qmult_le_compat_r _ _ (pow2 s)) in Hq; [| apply Qlt_le_weak, Hp].
  eapply Qle_trans; [exact Hq |].
  apply Qle_lteq. right. field. intros C. rewrite C in Hp. discriminate.
Qed.

Lemma round_ge_grid (x : Q) (k e : Z) :
  0 < x -> (ulp_exp x <= e)%Z -> inject_Z k * pow2 e <= x ->
  inject_Z k * pow2 e <= round x.
Proof.
  intros Hx He Hle. rewrite (round_pos x Hx).
  set (s := ulp_exp x) in *. assert (Hp := pow2_pos s).
  assert (Hq : inject_Z (k * 2 ^ (e - s)) <= x / pow2 s).
  { rewrite <- grid_scaled by exact He.
    apply Qmult_le_compat_r; [exact Hle |].
    apply Qlt_le_weak, Qinv_lt_0_compat, Hp. }
  apply round_half_even_mono in Hq. rewrite round_half_even_Z in Hq.
  apply inject_Z_le in Hq.
  rewrite <- grid_scaled in Hq by exact He.
  apply (Qmult_le_compat_r _ _ (pow2 s)) in Hq; [| apply Qlt_le_weak, Hp].
  eapply Qle_trans; [| exact Hq].
  apply Qle_lteq. right. field. intros C. rewrite C in Hp. discriminate.
Qed.

Lemma round_nonneg (x : Q) : 0 <= x -> 0 <= round x.
Proof.
  intros Hx. apply Qle_lteq in Hx. destruct Hx as [Hx|E].
  - pose proof (round_ge_grid x 0 (ulp_exp x) Hx (Z.le_refl _)) as H.
    rewrite Qmult_0_l in H. apply H. apply Qlt_le_weak, Hx.
  - rewrite round_zero; [apply Qle_refl | symmetry; exact E].
Qed.

Lemma round_mono (x y : Q) : 0 <= x -> x <= y -> round x <= round y.
Proof.
  intros Hx Hxy. apply Qle_lteq in Hx. destruct Hx as [Hx|E].
  2:{ rewrite (round_zero x) by (symmetry; exact E).
      apply round_nonneg. rewrite E. exact Hxy. }
  assert (Hy : 0 < y) by (eapply Qlt_le_trans; eassumption).
  pose proof (ulp_exp_mono x y Hx Hxy) as Hs.
  destruct (Z.eq_dec (ulp_exp x) (ulp_exp y)) as [Es|Ns].
  - rewrite (round_pos x Hx), (round_pos y Hy), Es.
    apply Qmult_le_compat_r; [| apply Qlt_le_weak, pow2_pos].
    apply inject_Z_le, round_half_even_mono.
    apply Qmult_le_compat_r; [exact Hxy |].
    apply Qlt_le_weak, Qinv_lt_0_compat, pow2_pos.
  - (* the binade of [y] starts at a value of both grids *)
    assert (Hsy : ulp_exp y = (ilog2 y - 52)%Z) by (unfold ulp_exp in *; lia).
    assert (Hl : (ilog2 x + 1 <= ilog2 y)%Z) by (unfold ulp_exp in *; lia).
    destruct (ilog2_spec x Hx) as [_ Hx2], (ilog2_spec y Hy) as [Hy1 _].
    assert (Eg : inject_Z (2 ^ 52) * pow2 (ulp_exp y) == pow2 (ilog2 y)).
    { rewrite Hsy, <- pow2_Z by lia. rewrite Qmult_comm. apply pow2_sub. }
    apply Qle_trans with (inject_Z (2 ^ 52) * pow2 (ulp_exp y)).
    + apply round_le_grid; [exact Hx | lia |].
      rewrite Eg. apply Qlt_le_weak. eapply Qlt_le_trans; [exact Hx2 |].
      apply pow2_le. lia.
    + apply round_ge_grid; [exact Hy | lia |]. rewrite Eg. exact Hy1.
Qed.

(** A value of the grid around itself is a binary64 value. *)
Lemma round_grid (x : Q) (k e : Z) :
  0 < x -> (ulp_exp x <= e)%Z -> x == inject_Z k * pow2 e -> round x == x.
Proof.
  intros Hx He E. apply Qle_antisym.
  - rewrite E at 2. apply round_le_grid; [exact Hx | exact He |].
    rewrite E. apply Qle_refl.
  - rewrite E at 1. apply round_ge_grid; [exact Hx | exact He |].
    rewrite E. apply Qle_refl.
Qed.

Lemma ilog2_int_bound (x : Q) (m : Z) :
  0 < x -> x < pow2 m -> (ilog2 x < m)%Z.
Proof.
  intros Hx H. destruct (ilog2_spec x Hx) as [H1 _].
  apply pow2_lt_inv. eapply Qle_lt_trans; eassumption.
Qed.

Lemma ilog2_le_bound (x : Q) (m : Z) :
  0 < x -> x <= pow2 m -> (ilog2 x <= m)%Z.
Proof.
  intros Hx H. destruct (ilog2_spec x Hx) as [H1 _].
  assert (ilog2 x < m + 1)%Z; [| lia].
  apply pow2_lt_inv. eapply Qle_lt_trans; [exact H1 |].
  eapply Qle_lt_trans; [exact H |]. apply pow2_lt. lia.
Qed.

(** Integers of magnitude up to [2^53] are binary64 values. *)
Lemma round_int (n : Z) :
  (0 <= n <= 2 ^ 53)%Z -> round (inject_Z n) == inject_Z n.
Proof.
  intros [H0 H1].
  destruct (Z.eq_dec n 0) as [->|N0]; [reflexivity |].
  assert (Hx : 0 < inject_Z n) by (apply (inject_Z_lt 0); lia).
  destruct (Z.eq_dec n (2 ^ 53)) as [->|N1].
  - apply (round_grid _ (2 ^ 52) 1); [exact Hx | | reflexivity].
    unfold ulp_exp.
    assert (ilog2 (inject_Z (2 ^ 53)) <= 53)%Z; [| lia].
    apply ilog2_le_bound; [exact Hx |]. rewrite pow2_Z by lia. apply Qle_refl.
  - apply (round_grid _ n 0); [exact Hx | |].
    + unfold ulp_exp.
      assert (ilog2 (inject_Z n) < 53)%Z; [| lia].
      apply ilog2_int_bound; [exact Hx |]. rewrite pow2_Z by lia.
      apply inject_Z_lt. lia.
    + change (pow2 0) with 1. ring.
Qed.

(** The result is within half a unit of the last place. *)
Lemma round_nearest (x : Q) :
  0 < x ->
  x - pow2 (ulp_exp x - 1) <= round x /\ round x <= x + pow2 (ulp_exp x - 1).
Proof.
  intros Hx. rewrite (round_pos x Hx).
  set (s := ulp_exp x). assert (Hp := pow2_pos s).
  assert (Hh : pow2 (s - 1) == (1 # 2) * pow2 s).
  { rewrite <- (pow2_sub s 1). change (pow2 1) with 2. field. }
  destruct (round_half_even_close (x / pow2 s)) as [H1 H2].
  apply (Qmult_le_compat_r _ _ (pow2 s)) in H1; [| apply Qlt_le_weak, Hp].
  apply (Qmult_le_compat_r _ _ (pow2 s)) in H2; [| apply Qlt_le_weak, Hp].
  assert (E1 : (x / pow2 s - (1 # 2)) * pow2 s == x - pow2 (s - 1)).
  { rewrite Hh. field. intros C. rewrite C in Hp. discriminate. }
  assert (E2 : (x / pow2 s + (1 # 2)) * pow2 s == x + pow2 (s - 1)).
  { rewrite Hh. field. intros C. rewrite C in Hp. discriminate. }
  rewrite E1 in H1. rewrite E2 in H2. split; assumption.
Qed.


Lemma Qceiling_unique (y : Q) (c : Z) :
  inject_Z (c - 1) < y -> y <= inject_Z c -> Qceiling y = c.
Proof.
  intros H1 H2.
  pose proof (Qle_ceiling y) as H3. pose proof (Qceiling_lt y) as H4.
  assert (Qceiling y - 1 < c)%Z.
  { rewrite Zlt_Qlt. eapply Qlt_le_trans; eassumption. }
  assert (c - 1 < Qceiling y)%Z.
  { rewrite Zlt_Qlt. eapply Qlt_le_trans; eassumption. }
  lia.
Qed.

Lemma ilog2_pow2 (m : Z) : ilog2 (pow2 m) = m.
Proof. apply ilog2_unique; [apply Qle_refl | apply pow2_lt; lia]. Qed.

(** The quotient of two integers, the dividend at most [2^53], has the
    ceiling of the exact quotient after rounding. *)
Lemma round_quot_ceiling (a b : Z) :
  (0 <= a <= 2 ^ 53)%Z -> (0 < b <= 2 ^ 53)%Z ->
  Qceiling (round (inject_Z a / inject_Z b)) =
  Qceiling (inject_Z a / inject_Z b).
Proof.
  intros [Ha0 Ha1] [Hb0 Hb1].
  set (q := inject_Z a / inject_Z b).
  assert (Hib : 0 < inject_Z b) by (apply (inject_Z_lt 0); lia).
  assert (Hibn : ~ inject_Z b == 0).
  { intros C. rewrite C in Hib. discriminate. }
  destruct (Z.eq_dec a 0) as [->|Na].
  { assert (Eq0 : q == 0) by (unfold q; field; exact Hibn).
    rewrite (Qceiling_comp _ _ (round_zero q Eq0)), (Qceiling_comp _ _ Eq0).
    reflexivity. }
  assert (Hia : 1 <= inject_Z a) by (apply (inject_Z_le 1); lia).
  assert (Hia' : inject_Z a <= inject_Z (2 ^ 53)) by (apply inject_Z_le; lia).
  assert (Hib' : 1 <= inject_Z b) by (apply (inject_Z_le 1); lia).
  assert (Hib'' : inject_Z b <= inject_Z (2 ^ 53)) by (apply inject_Z_le; lia).
  assert (Hqb : q * inject_Z b == inject_Z a) by (unfold q; field; exact Hibn).
  assert (Hq : 0 < q).
  { unfold q. apply Qlt_shift_div_l; [exact Hib |]. Lqa.lra. }
  assert (Hqa : q <= inject_Z a).
  { unfold q. apply Qle_shift_div_r; [exact Hib |]. Lqa.nra. }
  set (c := Qceiling q).
  pose proof (Qle_ceiling q) as Hc1. pose proof (Qceiling_lt q) as Hc2.
  fold c in Hc1, Hc2.
  assert (Hca : (c <= a)%Z).
  { unfold c. rewrite <- (Qceiling_Z a). apply Qceiling_resp_le. exact Hqa. }
  destruct (ilog2_spec q Hq) as [Hl1 Hl2].
  assert (Hl53 : (ilog2 q <= 53)%Z).
  { apply ilog2_le_bound; [exact Hq |]. rewrite pow2_Z by lia. Lqa.lra. }
  assert (Hlm : (-53 <= ilog2 q)%Z).
  { rewrite <- (ilog2_pow2 (-53)). apply ilog2_mono; [apply pow2_pos |].
    unfold q. apply Qle_shift_div_l; [exact Hib |].
    apply Qle_trans with (pow2 (-53) * inject_Z (2 ^ 53)).
    - apply Qmult_le_l; [apply pow2_pos | exact Hib''].
    - rewrite <- pow2_Z, <- pow2_add by lia. exact Hia. }
  assert (Hu : ulp_exp q = (ilog2 q - 52)%Z) by (unfold ulp_exp; lia).
  apply Qceiling_unique; fold c.
  - (* the rounded quotient is above [c - 1] *)
    destruct (Qeq_dec (pow2 (ilog2 q)) q) as [Ep|Np].
    + rewrite (round_grid q (2 ^ 52) (ilog2 q - 52) Hq); [exact Hc2 | lia |].
      rewrite <- Ep at 1. rewrite <- pow2_Z by lia.
      rewrite Qmult_comm. symmetry. apply pow2_sub.
    + assert (Hlt : pow2 (ilog2 q) < q).
      { apply Qle_lteq in Hl1. destruct Hl1 as [H|H]; [exact H | contradiction]. }
      destruct (round_nearest q Hq) as [Hr _]. rewrite Hu in Hr.
      replace (ilog2 q - 52 - 1)%Z with (ilog2 q - 53)%Z in Hr by lia.
      eapply Qlt_le_trans; [| exact Hr].
      assert (Hh : pow2 (ilog2 q - 53) * inject_Z (2 ^ 53) == pow2 (ilog2 q)).
      { rewrite <- pow2_Z by lia. apply pow2_sub. }
      assert (Hint : inject_Z (c - 1) * inject_Z b + 1 <= inject_Z a).
      { rewrite <- inject_Z_mult. change 1 with (inject_Z 1).
        rewrite <- inject_Z_plus. apply inject_Z_le.
        assert ((c - 1) * b < a)%Z; [| lia].
        rewrite Zlt_Qlt, inject_Z_mult, <- Hqb.
        apply Qmult_lt_compat_r; assumption. }
      assert (Hpb : pow2 (ilog2 q) * inject_Z b < inject_Z a).
      { rewrite <- Hqb. apply Qmult_lt_compat_r; assumption. }
      set (P := pow2 (ilog2 q)) in *. set (h := pow2 (ilog2 q - 53)) in *.
      assert (Hhp : 0 < h) by apply pow2_pos.
      assert (Hhb : h * inject_Z b < 1).
      { apply (Qmult_lt_r _ _ (inject_Z (2 ^ 53))); [reflexivity |].
        setoid_replace (h * inject_Z b * inject_Z (2 ^ 53))
          with (P * inject_Z b) by (rewrite <- Hh; ring).
        Lqa.lra. }
      apply (Qmult_lt_r _ _ (inject_Z b)); [exact Hib |].
      setoid_replace ((q - h) * inject_Z b)
        with (inject_Z a - h * inject_Z b) by (rewrite <- Hqb; ring).
      Lqa.lra.
  - (* and at most [c] *)
    destruct (Z_le_gt_dec (ilog2 q) 52) as [Hl|Hl].
    + pose proof (round_le_grid q c 0 Hq) as H.
      change (pow2 0) with 1 in H. rewrite Qmult_1_r in H.
      apply H; [lia | exact Hc1].
    + assert (E53 : ilog2 q = 53%Z) by lia.
      assert (Hc53 : c = (2 ^ 53)%Z).
      { assert (2 ^ 53 <= c)%Z; [| lia].
        rewrite Zle_Qle. rewrite E53, pow2_Z in Hl1 by lia. Lqa.lra. }
      pose proof (round_le_grid q (2 ^ 52) 1 Hq) as H.
      rewrite Hc53. apply H; [lia |].
      apply Qle_trans with (inject_Z c); [exact Hc1 |]. rewrite Hc53.
      apply Qle_lteq. right. reflexivity.
Qed.

Lemma div_of_int (a b : Z) :
  (0 <= a <= 2 ^ 53)%Z -> (0 < b <= 2 ^ 53)%Z ->
  div (of_int a) (of_int b) == round (inject_Z a / inject_Z b).
Proof.
  intros Ha Hb. unfold div, of_int.
  assert (Hib : 0 < inject_Z b) by (apply (inject_Z_lt 0); lia).
  assert (Hia : 0 <= inject_Z a) by (apply (inject_Z_le 0); lia).
  pose proof (round_int a Ha) as Ea.
  pose proof (round_int b ltac:(lia)) as Eb.
  symmetry. apply round_wd.
  - apply Qle_shift_div_l; [exact Hib |]. Lqa.lra.
  - rewrite Ea, Eb. reflexivity.
Qed.

End Binary64Facts.

(** ** Basic facts about the [result] monad and machine integers *)

Lemma bind_Ok {A B : Type} (r : result A) (k : A -> result B) (a : A) :
  r = Ok a -> bind r k = k a.
Proof. intros ->; reflexivity. Qed.

Lemma Int_check_Ok (z : Z) :
  (Int.INT_MIN <= z <= Int.INT_MAX)%Z -> Int.check z = Ok z.
Proof.
  intros [Hlo Hhi]. unfold Int.check, Int.in_range.
  apply Z.leb_le in Hlo, Hhi. rewrite Hlo, Hhi. reflexivity.
Qed.

Lemma ceil_div_spec (a b : Z) :
  (0 < b)%Z ->
  ((Spec.ceil_div a b - 1) * b < a <= Spec.ceil_div a b * b)%Z.
Proof.
  intros Hb. unfold Spec.ceil_div.
  pose proof (Z.div_mod (a + b - 1) b ltac:(lia)) as Hdm.
  pose proof (Z.mod_pos_bound (a + b - 1) b Hb) as Hmod.
  nia.
Qed.

Lemma ceil_div_unique (a b q : Z) :
  (0 < b)%Z -> ((q - 1) * b < a <= q * b)%Z -> q = Spec.ceil_div a b.
Proof.
  intros Hb Hq. pose proof (ceil_div_spec a b Hb) as Hc. nia.
Qed.

Lemma Qceiling_quot (a b : Z) :
  (0 < b)%Z ->
  Qceiling (inject_Z a / inject_Z b) = Spec.ceil_div a b.
Proof.
  intros Hb. apply ceil_div_unique; [assumption|].
  set (x := (inject_Z a / inject_Z b)%Q).
  assert (Hbq : (0 < inject_Z b)%Q).
  { change 0%Q with (inject_Z 0). rewrite <- Zlt_Qlt. assumption. }
  assert (Hx : (x * inject_Z b == inject_Z a)%Q).
  { unfold x. field. intro Hz. rewrite Hz in Hbq. apply (Qlt_irrefl 0), Hbq. }
  pose proof (Qle_ceiling x) as Hup.
  pose proof (Qceiling_lt x) as Hlo.
  split.
  - rewrite Zlt_Qlt, inject_Z_mult, <- Hx.
    apply Qmult_lt_compat_r; assumption.
  - rewrite Zle_Qle, inject_Z_mult, <- Hx.
    apply Qmult_le_compat_r; [assumption | apply Qlt_le_weak; assumption].
Qed.

Lemma ceil_quot_Ok (a b : Z) :
  (0 <= a <= 2 ^ 53)%Z -> (0 < b <= 2 ^ 53)%Z ->
  (Int.INT_MIN <= Spec.ceil_div a b <= Int.INT_MAX)%Z ->
  Int.ceil_quot a b = Ok (Spec.ceil_div a b).
Proof.
  intros Ha Hb Hr. unfold Int.ceil_quot.
  destruct (Z.eqb_spec b 0) as [->|_]; [lia|].
  rewrite (Qceiling_comp _ _ (Binary64Facts.div_of_int a b Ha Hb)).
  rewrite Binary64Facts.round_quot_ceiling by assumption.
  rewrite Qceiling_quot by lia. apply Int_check_Ok; assumption.
Qed.

(** ** Lines of a text file *)

Lemma read_line_file_lines (c : ascii) (s : string) :
  Spec.file_lines (String c s) =
  fst (read_line (String c s)) :: Spec.file_lines (snd (read_line (String c s))).
Proof.
  revert c. induction s as [|d s IH]; intros c.
  - simpl. destruct (Ascii.eqb c newline); reflexivity.
  - change (Spec.file_lines (String c (String d s)))
      with (if Ascii.eqb c newline then EmptyString :: Spec.file_lines (String d s)
            else match Spec.file_lines (String d s) with
                 | [] => [String c EmptyString]
                 | l :: ls => String c l :: ls
                 end).
    change (read_line (String c (String d s)))
      with (if Ascii.eqb c newline then (EmptyString, String d s)
            else let (l, r) := read_line (String d s) in (String c l, r)).
    destruct (Ascii.eqb c newline); [reflexivity|].
    rewrite (IH d). destruct (read_line (String d s)) as [l r]. reflexivity.
Qed.

Lemma read_line_shorter (c : ascii) (s : string) :
  (String.length (snd (read_line (String c s))) < String.length (String c s))%nat.
Proof.
  revert c. induction s as [|d s IH]; intros c.
  - simpl. destruct (Ascii.eqb c newline); simpl; lia.
  - change (read_line (String c (String d s)))
      with (if Ascii.eqb c newline then (EmptyString, String d s)
            else let (l, r) := read_line (String d s) in (String c l, r)).
    destruct (Ascii.eqb c newline); [simpl; lia|].
    specialize (IH d). destruct (read_line (String d s)) as [l r].
    simpl in *. lia.
Qed.

Lemma getline_file_lines (s line rest : string) :
  getline s = Some (line, rest) ->
  Spec.file_lines s = line :: Spec.file_lines rest /\
  (String.length rest < String.length s)%nat.
Proof.
  destruct s as [|c s]; [discriminate|].
  intros H. change (Some (read_line (String c s)) = Some (line, rest)) in H.
  assert (H' : read_line (String c s) = (line, rest)) by congruence.
  clear H. rename H' into H.
  pose proof (read_line_file_lines c s) as Hl.
  pose proof (read_line_shorter c s) as Hs.
  rewrite H in Hl, Hs. simpl fst in Hl. simpl snd in Hl, Hs. split; assumption.
Qed.

Lemma getline_None (s : string) : getline s = None -> Spec.file_lines s = [].
Proof. destruct s; [reflexivity | discriminate]. Qed.

Lemma is_valid_csv_line_counted (l : string) :
  PointUtils.is_valid_csv_line l = Spec.counted_line l.
Proof. destruct l as [|c l]; reflexivity. Qed.

Lemma counted_nonneg (ls : list string) : (0 <= Spec.counted ls)%Z.
Proof. unfold Spec.counted. lia. Qed.

Lemma counted_cons (l : string) (ls : list string) :
  Spec.counted (l :: ls) =
  ((if Spec.counted_line l then 1 else 0) + Spec.counted ls)%Z.
Proof.
  unfold Spec.counted. cbn [List.filter].
  destruct (Spec.counted_line l); cbn [List.length]; lia.
Qed.

Lemma csv_file_size_loop_counts (fuel : nat) :
  forall (fh : string) (n : Z),
    (String.length fh < fuel)%nat ->
    (0 <= n)%Z ->
    (n + Spec.counted (Spec.file_lines fh) <= Int.INT_MAX)%Z ->
    PointUtils.csv_file_size_loop fuel fh n =
    Ok (n + Spec.counted (Spec.file_lines fh))%Z.
Proof.
  induction fuel as [|fuel IH]; intros fh n Hfuel Hn Hmax; [lia|].
  simpl. destruct (getline fh) as [[line rest]|] eqn:Hg.
  - destruct (getline_file_lines _ _ _ Hg) as [Hlines Hlen].
    rewrite Hlines in *. rewrite counted_cons in *.
    rewrite is_valid_csv_line_counted.
    pose proof (counted_nonneg (Spec.file_lines rest)) as Hc.
    destruct (Spec.counted_line line); simpl negb; cbv iota.
    + unfold Int.incr. rewrite Int_check_Ok by (unfold Int.INT_MIN; lia).
      cbn [bind]. rewrite IH by lia. f_equal. lia.
    + rewrite IH by lia. f_equal.
  - rewrite (getline_None _ Hg). unfold Spec.counted. simpl. f_equal. lia.
Qed.

(** ** Extents of the point-cloud composite *)

Lemma ceil_div_nonneg (a b : Z) :
  (0 <= a)%Z -> (0 < b)%Z -> (0 <= Spec.ceil_div a b <= a)%Z.
Proof.
  intros Ha Hb. pose proof (ceil_div_spec a b Hb) as Hc.
  split; [nia|]. destruct (Z.eq_dec a 0) as [->|Hne]; nia.
Qed.

Section CompositeExtents.
Variables (N R T B : Z).
Hypothesis HN : (0 <= N)%Z.
Hypothesis HN53 : (N <= 2 ^ 53)%Z.
Hypothesis HR : (0 <= R)%Z.
Hypothesis HT : (0 < T)%Z.

Let rows_spec : Z := (T * Z.max 1 (Spec.ceil_div R T))%Z.
Let cols_spec : Z :=
  (T * Z.max 1 (Spec.ceil_div (Spec.ceil_div N rows_spec) T))%Z.

Hypothesis Hrows : (rows_spec <= Int.INT_MAX)%Z.
Hypothesis Hcols : (cols_spec <= Int.INT_MAX)%Z.

Lemma rows_spec_pos : (0 < rows_spec)%Z.
Proof. unfold rows_spec. nia. Qed.

Lemma ctor_extents :
  PointUtils.LasOrCsvToTif_Class_ctor N R T B =
  Ok {| PointUtils.m_num_points := N; PointUtils.m_rows := rows_spec;
        PointUtils.m_cols := cols_spec; PointUtils.m_block_size := B |}.
Proof.
  pose proof rows_spec_pos as Hrp.
  pose proof (ceil_div_nonneg R T HR HT) as HqR.
  pose proof (ceil_div_nonneg N rows_spec HN Hrp) as Hppr.
  pose proof (ceil_div_nonneg _ T (proj1 Hppr) HT) as HqC.
  pose proof (ceil_div_spec R T HT) as HsR.
  pose proof (ceil_div_spec (Spec.ceil_div N rows_spec) T HT) as HsC.
  assert (HIM : Int.INT_MIN = (-2147483648)%Z) by reflexivity.
  unfold PointUtils.LasOrCsvToTif_Class_ctor.
  assert (HIX : Int.INT_MAX = 2147483647%Z) by reflexivity.
  assert (HTX : (T <= Int.INT_MAX)%Z) by (unfold rows_spec in Hrows; nia).
  assert (HRX : (R <= Int.INT_MAX)%Z) by (unfold rows_spec in Hrows; nia).
  rewrite (ceil_quot_Ok R T) by (unfold rows_spec in Hrows; nia || lia).
  cbn [bind]. unfold Int.mul at 1.
  rewrite Int_check_Ok by (fold rows_spec; lia).
  cbn [bind]. fold rows_spec.
  rewrite (ceil_quot_Ok N rows_spec) by (unfold cols_spec in Hcols; nia || lia).
  cbn [bind].
  rewrite (ceil_quot_Ok _ T) by (unfold cols_spec in Hcols; nia || lia).
  cbn [bind]. unfold Int.mul.
  rewrite Int_check_Ok by (fold cols_spec; unfold cols_spec; nia).
  reflexivity.
Qed.

Lemma extents_cover : (N <= rows_spec * cols_spec)%Z.
Proof.
  pose proof rows_spec_pos as Hrp.
  pose proof (ceil_div_spec N rows_spec Hrp) as HsN.
  pose proof (ceil_div_spec (Spec.ceil_div N rows_spec) T HT) as HsC.
  assert (Spec.ceil_div N rows_spec <= cols_spec)%Z by (unfold cols_spec; nia).
  nia.
Qed.
End CompositeExtents.

(** ** Outlier estimator *)

Lemma Qlt_bool_iff (x y : Q) : Qlt_bool x y = true <-> (x < y)%Q.
Proof.
  unfold Qlt_bool. rewrite negb_true_iff.
  split.
  - intros H. apply Qnot_le_lt. intros Hle.
    apply Qle_bool_iff in Hle. congruence.
  - intros H. destruct (Qle_bool y x) eqn:E; [|reflexivity].
    apply Qle_bool_iff in E. exfalso. exact (Qlt_not_le _ _ H E).
Qed.

Lemma accumulate_fold (samples : list Q) :
  forall acc,
    Point2dem.m_vals (List.fold_left Point2dem.accumulate samples acc) =
    Point2dem.m_vals acc ++ List.filter (Qlt_bool 0) samples.
Proof.
  induction samples as [|x samples IH]; intros acc; simpl.
  - symmetry. apply app_nil_r.
  - rewrite IH. unfold Point2dem.accumulate.
    destruct (Qlt_bool 0 x); simpl; [rewrite <- app_assoc|]; reflexivity.
Qed.

Lemma sort_insert_perm (x : Q) (l : list Q) :
  Permutation (sort_insert x l) (x :: l).
Proof.
  induction l as [|y l IH]; simpl; [reflexivity|].
  destruct (Qle_bool x y); [reflexivity|].
  rewrite IH. apply perm_swap.
Qed.

Lemma std_sort_perm (l : list Q) : Permutation (std_sort l) l.
Proof.
  induction l as [|x l IH]; simpl; [constructor|].
  rewrite sort_insert_perm. constructor. exact IH.
Qed.

Lemma sort_insert_sorted (x : Q) (l : list Q) :
  Sorted Qle l -> Sorted Qle (sort_insert x l).
Proof.
  induction l as [|y l IH]; intros Hs; simpl.
  - repeat constructor.
  - destruct (Qle_bool x y) eqn:E.
    + constructor; [assumption|]. constructor. apply Qle_bool_iff; assumption.
    + assert (Hyx : (y <= x)%Q).
      { apply Qlt_le_weak, Qlt_bool_iff. unfold Qlt_bool. rewrite E. reflexivity. }
      inversion Hs as [|? ? Hs' Hhd]; subst.
      constructor; [apply IH; assumption|].
      destruct l as [|z l]; simpl.
      * constructor; assumption.
      * destruct (Qle_bool x z); constructor; try assumption.
        inversion Hhd; assumption.
Qed.

Lemma std_sort_sorted (l : list Q) : Sorted Qle (std_sort l).
Proof.
  induction l as [|x l IH]; simpl; [constructor|].
  apply sort_insert_sorted; assumption.
Qed.

Lemma std_sort_length (l : list Q) : List.length (std_sort l) = List.length l.
Proof. apply Permutation_length, std_sort_perm. Qed.

Lemma Qtruncate_nonneg (x : Q) : (0 <= x)%Q -> Qtruncate x = Qfloor x.
Proof.
  destruct x as [n d]. unfold Qle, Qtruncate, Qfloor. simpl. intros H.
  apply Z.quot_div_nonneg; lia.
Qed.

Lemma Qfloor_bounds (x : Q) (n : Z) :
  (0 <= x)%Q -> (x <= inject_Z n)%Q -> (0 <= Qfloor x <= n)%Z.
Proof.
  intros H0 Hn. split.
  - change 0%Z with (Qfloor 0). apply Qfloor_resp_le; assumption.
  - rewrite <- (Qfloor_Z n). apply Qfloor_resp_le; assumption.
Qed.

Lemma pct_bounds (p : Q) :
  (0 < p)%Q -> (p <= 100)%Q ->
  (0 <= Binary64.div p 100)%Q /\ (Binary64.div p 100 <= 1)%Q.
Proof.
  intros Hp Hp'. unfold Binary64.div.
  assert (H1 : (0 <= p / 100)%Q).
  { apply Qle_shift_div_l; [reflexivity|]. rewrite Qmult_0_l.
    apply Qlt_le_weak; assumption. }
  assert (H2 : (p / 100 <= 1)%Q).
  { apply Qle_shift_div_r; [reflexivity|]. rewrite Qmult_1_l. assumption. }
  split.
  - apply Binary64Facts.round_nonneg. exact H1.
  - apply Qle_trans with (Binary64.round (inject_Z 1)).
    + apply Binary64Facts.round_mono; assumption.
    + rewrite Binary64Facts.round_int by (split; discriminate).
      apply Qle_refl.
Qed.

Lemma of_int_exact (L : Z) :
  (0 <= L <= Int.INT_MAX)%Z -> (Binary64.of_int L == inject_Z L)%Q.
Proof.
  intros H. apply Binary64Facts.round_int.
  unfold Int.INT_MAX in H. lia.
Qed.

Lemma pct_len_bounds (p : Q) (L : Z) :
  (0 < p)%Q -> (p <= 100)%Q -> (0 <= L <= Int.INT_MAX)%Z ->
  (0 <= Binary64.mul (Binary64.div p 100) (Binary64.of_int L))%Q /\
  (Binary64.mul (Binary64.div p 100) (Binary64.of_int L) <= inject_Z L)%Q.
Proof.
  intros Hp Hp' HL.
  destruct (pct_bounds p Hp Hp') as [H1 H2].
  pose proof (of_int_exact L HL) as EL.
  assert (HLq : (0 <= inject_Z L)%Q).
  { change 0%Q with (inject_Z 0). rewrite <- Zle_Qle. lia. }
  assert (H0 : (0 <= Binary64.div p 100 * Binary64.of_int L)%Q).
  { rewrite EL. apply Qmult_le_0_compat; assumption. }
  unfold Binary64.mul. split.
  - apply Binary64Facts.round_nonneg. exact H0.
  - apply Qle_trans with (Binary64.round (inject_Z L)).
    + apply Binary64Facts.round_mono; [exact H0 |].
      rewrite EL. rewrite <- (Qmult_1_l (inject_Z L)) at 2.
      apply Qmult_le_compat_r; assumption.
    + rewrite Binary64Facts.round_int by (unfold Int.INT_MAX in HL; lia).
      apply Qle_refl.
Qed.

(** The rounded product [pct*len] is within one of the exact
    [p/100 * len], and so are their integer parts. *)
Lemma pct_len_close (p : Q) (L : Z) :
  (0 < p)%Q -> (p <= 100)%Q -> (0 <= L <= Int.INT_MAX)%Z ->
  (p / 100 * inject_Z L - 1
   < Binary64.mul (Binary64.div p 100) (Binary64.of_int L))%Q /\
  (Binary64.mul (Binary64.div p 100) (Binary64.of_int L)
   < p / 100 * inject_Z L + 1)%Q.
Proof.
  intros Hp Hp' HL.
  destruct (pct_bounds p Hp Hp') as [Hd0 Hd1].
  pose proof (of_int_exact L HL) as EL.
  assert (Hl0 : (0 <= inject_Z L)%Q).
  { change 0%Q with (inject_Z 0). rewrite <- Zle_Qle. lia. }
  assert (Hl1 : (inject_Z L <= inject_Z (2 ^ 31))%Q).
  { rewrite <- Zle_Qle. unfold Int.INT_MAX in HL. lia. }
  set (x := (p / 100)%Q).
  assert (Hx0 : (0 < x)%Q).
  { unfold x. apply Qlt_shift_div_l; [reflexivity |]. rewrite Qmult_0_l.
    exact Hp. }
  assert (Hx1 : (x <= 1)%Q).
  { unfold x. apply Qle_shift_div_r; [reflexivity |]. rewrite Qmult_1_l.
    exact Hp'. }
  (* the quotient *)
  destruct (Binary64Facts.round_nearest x Hx0) as [Hq1 Hq2].
  assert (Hux : (Binary64.pow2 (Binary64.ulp_exp x - 1)
                 <= Binary64.pow2 (-53))%Q).
  { apply Binary64Facts.pow2_le.
    assert (Binary64.ilog2 x <= 0)%Z
      by (apply Binary64Facts.ilog2_le_bound; assumption).
    unfold Binary64.ulp_exp. lia. }
  change (Binary64.round x) with (Binary64.div p 100) in Hq1, Hq2.
  set (x' := Binary64.div p 100) in *.
  change (Binary64.pow2 (-53)) with (1 # 9007199254740992)%Q in Hux.
  assert (Hc1 : (0 <= x' - x + (1 # 9007199254740992))%Q) by Lqa.lra.
  assert (Hc2 : (0 <= x + (1 # 9007199254740992) - x')%Q) by Lqa.lra.
  (* the product *)
  set (y := (x' * Binary64.of_int L)%Q).
  assert (Ey : (y == x' * inject_Z L)%Q) by (unfold y; rewrite EL; reflexivity).
  assert (Hy0 : (0 <= y)%Q).
  { rewrite Ey. apply Qmult_le_0_compat; assumption. }
  assert (Hyl : (y <= inject_Z L)%Q).
  { rewrite Ey. rewrite <- (Qmult_1_l (inject_Z L)) at 2.
    apply Qmult_le_compat_r; assumption. }
  assert (Hye : (x * inject_Z L - (1 # 4194304) <= y)%Q /\
                (y <= x * inject_Z L + (1 # 4194304))%Q).
  { rewrite Ey. change (inject_Z (2 ^ 31)) with (2147483648 # 1)%Q in Hl1.
    set (l := inject_Z L) in *.
    pose proof (Qmult_le_0_compat _ _ Hc1 Hl0) as Hm1.
    pose proof (Qmult_le_0_compat _ _ Hc2 Hl0) as Hm2.
    split; Lqa.nra. }
  unfold Binary64.mul. fold y.
  apply Qle_lteq in Hy0. destruct Hy0 as [Hy0|Ey0].
  - destruct (Binary64Facts.round_nearest y Hy0) as [Hr1 Hr2].
    assert (Huy : (Binary64.pow2 (Binary64.ulp_exp y - 1)
                   <= Binary64.pow2 (-23))%Q).
    { apply Binary64Facts.pow2_le.
      assert (Binary64.ilog2 y < 31)%Z.
      { apply Binary64Facts.ilog2_int_bound; [exact Hy0 |].
        eapply Qle_lt_trans; [exact Hyl |].
        change (Binary64.pow2 31) with (inject_Z 2147483648).
        rewrite <- Zlt_Qlt. unfold Int.INT_MAX in HL. lia. }
      unfold Binary64.ulp_exp. lia. }
    change (Binary64.pow2 (-23)) with (1 # 8388608)%Q in Huy.
    set (h := Binary64.pow2 _) in *. split; Lqa.lra.
  - rewrite (Binary64Facts.round_zero y) by (symmetry; exact Ey0).
    rewrite <- Ey0 in Hye. split; Lqa.lra.
Qed.

Lemma Qfloor_close (a b : Q) :
  (b - 1 < a)%Q -> (a < b + 1)%Q -> (Z.abs (Qfloor a - Qfloor b) <= 1)%Z.
Proof.
  intros H1 H2.
  pose proof (Qfloor_le a) as Ha1. pose proof (Qlt_floor a) as Ha2.
  pose proof (Qfloor_le b) as Hb1. pose proof (Qlt_floor b) as Hb2.
  rewrite inject_Z_plus in Ha2, Hb2.
  change (inject_Z 1) with 1%Q in Ha2, Hb2.
  assert (Qfloor a < Qfloor b + 2)%Z.
  { rewrite Zlt_Qlt, inject_Z_plus. change (inject_Z 2) with 2%Q. Lqa.lra. }
  assert (Qfloor b < Qfloor a + 2)%Z.
  { rewrite Zlt_Qlt, inject_Z_plus. change (inject_Z 2) with 2%Q. Lqa.lra. }
  lia.
Qed.

Section OutlierThreshold.
Variable samples : list Q.
Variables p f : Q.

Let acc : Point2dem.ErrorRangeEstimAccum :=
  List.fold_left Point2dem.accumulate samples Point2dem.ErrorRangeEstimAccum_ctor.
Let sorted : list Q := std_sort (Point2dem.m_vals acc).
Let L : Z := Z.of_nat (List.length sorted).
Let k : Z :=
  Z.min (L - 1)
        (Qfloor (Binary64.mul (Binary64.div p 100) (Binary64.of_int L))).

Hypothesis Hnonempty : Point2dem.m_vals acc <> [].
Hypothesis Hlen : (L <= Int.INT_MAX)%Z.
Hypothesis Hp : (0 < p)%Q.
Hypothesis Hp100 : (p <= 100)%Q.

Lemma threshold_L_pos : (0 < L)%Z.
Proof.
  unfold L, sorted. rewrite std_sort_length.
  destruct (Point2dem.m_vals acc); [congruence | simpl; lia].
Qed.

Lemma threshold_index_in_range : (0 <= k < L)%Z.
Proof.
  pose proof threshold_L_pos as HL.
  destruct (pct_len_bounds p L Hp Hp100 ltac:(lia)) as [H0 H1].
  pose proof (Qfloor_bounds _ _ H0 H1). unfold k. lia.
Qed.

Lemma threshold_value :
  Point2dem.value acc (p, f) =
  Ok (List.nth (Z.to_nat k) sorted 0 * f * 4)%Q.
Proof.
  pose proof threshold_L_pos as HL.
  pose proof threshold_index_in_range as Hk.
  destruct (pct_len_bounds p L Hp Hp100 ltac:(lia)) as [H0 H1].
  pose proof (Qfloor_bounds _ _ H0 H1) as Hfl.
  unfold Point2dem.value.
  assert (Hne : Nat.eqb (List.length (Point2dem.m_vals acc)) 0 = false).
  { destruct (Point2dem.m_vals acc); [congruence | reflexivity]. }
  rewrite Hne. cbn [negb]. unfold VW_ASSERT. cbn [bind].
  fold sorted. fold L.
  rewrite Int_check_Ok by (unfold Int.INT_MIN; lia). cbn [bind].
  unfold int_of_double. cbn [fst snd].
  rewrite Qtruncate_nonneg by assumption.
  rewrite Int_check_Ok by (unfold Int.INT_MIN; lia). cbn [bind].
  fold k. unfold vector_at.
  change (Z.of_nat (List.length sorted)) with L.
  assert (Hin : ((0 <=? k)%Z && (k <? L)%Z) = true).
  { apply andb_true_iff. split; [apply Z.leb_le | apply Z.ltb_lt]; lia. }
  rewrite Hin. reflexivity.
Qed.
End OutlierThreshold.

(** The estimation loop *)

Lemma every_nth_from_incl {A : Type} (amt : nat) (l : list A) :
  forall skip, incl (every_nth_from amt skip l) l.
Proof.
  induction l as [|x l IH]; intros skip; simpl.
  - apply incl_refl.
  - destruct skip.
    + apply incl_cons; [left; reflexivity|].
      apply incl_tl, IH.
    + apply incl_tl, IH.
Qed.

Lemma every_nth_from_1 {A : Type} (l : list A) : every_nth_from 1 0 l = l.
Proof. induction l as [|x l IH]; simpl; [|rewrite IH]; reflexivity. Qed.

Lemma subsample_1 {A : Type} (image : list (list A)) : subsample image 1 = image.
Proof.
  unfold subsample. simpl Z.to_nat. rewrite every_nth_from_1.
  rewrite <- (map_id image) at 2. apply map_ext. intros; apply every_nth_from_1.
Qed.

Lemma subsample_pixels_incl {A : Type} (image : list (list A)) (amt : Z) :
  incl (List.concat (subsample image amt)) (List.concat image).
Proof.
  unfold subsample. intros x Hx.
  apply in_concat in Hx. destruct Hx as [row [Hrow Hx]].
  apply in_map_iff in Hrow. destruct Hrow as [row0 [<- Hrow0]].
  apply in_concat. exists row0. split.
  - eapply every_nth_from_incl; eassumption.
  - eapply every_nth_from_incl; eassumption.
Qed.

Lemma filter_nil_incl {A : Type} (g : A -> bool) (l l' : list A) :
  incl l l' -> List.filter g l' = [] -> List.filter g l = [].
Proof.
  intros Hincl Hnil.
  destruct (List.filter g l) as [|x xs] eqn:E; [reflexivity|].
  assert (Hx : In x (List.filter g l)) by (rewrite E; left; reflexivity).
  apply filter_In in Hx. destruct Hx as [Hx Hg].
  assert (Hx' : In x (List.filter g l')) by (apply filter_In; auto).
  rewrite Hnil in Hx'. destruct Hx'.
Qed.

Lemma for_each_pixel_vals (image : list (list Q)) :
  Point2dem.m_vals
    (Point2dem.for_each_pixel image Point2dem.ErrorRangeEstimAccum_ctor) =
  List.filter (Qlt_bool 0) (List.concat image).
Proof. unfold Point2dem.for_each_pixel. rewrite accumulate_fold. reflexivity. Qed.

Lemma estimate_loop_no_samples (cols rows : Z) (image : list (list Q))
    (params : Q * Q) (counts : list Z) :
  List.filter (Qlt_bool 0) (List.concat image) = [] ->
  Point2dem.estimate_loop counts cols rows image params false 0 = Ok (false, 0%Q).
Proof.
  intros Hempty. induction counts as [|count counts IH]; [reflexivity|].
  cbn [Point2dem.estimate_loop].
  set (amt := if (_ <? 1)%Z then 1%Z else _).
  assert (Hsz : Point2dem.size
            (Point2dem.for_each_pixel (subsample image amt)
               Point2dem.ErrorRangeEstimAccum_ctor) = 0%Z).
  { unfold Point2dem.size. rewrite for_each_pixel_vals.
    rewrite (filter_nil_incl _ _ _ (subsample_pixels_incl image amt) Hempty).
    reflexivity. }
  rewrite Hsz. cbn [Z.ltb Z.compare bind fst snd orb].
  destruct (amt =? 1)%Z; [reflexivity | exact IH].
Qed.

(** ** Hole filler *)

Lemma for_range_empty (lo hi : Z) : (hi < lo)%Z -> for_range lo hi = [].
Proof.
  intros H. unfold for_range.
  replace (Z.to_nat (hi - lo + 1)) with O by lia. reflexivity.
Qed.

Lemma for_range_cons (lo hi : Z) :
  (lo <= hi)%Z -> for_range lo hi = lo :: for_range (lo + 1) hi.
Proof.
  intros H. unfold for_range.
  replace (Z.to_nat (hi - lo + 1)) with (S (Z.to_nat (hi - (lo + 1) + 1))) by lia.
  cbn [List.seq List.map]. f_equal; [lia|].
  rewrite <- seq_shift, map_map. apply map_ext. intros n. lia.
Qed.

Lemma for_range_app (lo mid hi : Z) :
  (lo <= mid)%Z -> (mid <= hi + 1)%Z ->
  for_range lo hi = for_range lo (mid - 1) ++ for_range mid hi.
Proof.
  intros Hlo Hhi.
  remember (Z.to_nat (mid - lo)) as n eqn:Hn.
  revert lo Hlo Hn. induction n as [|n IH]; intros lo Hlo Hn.
  - assert (lo = mid) by lia. subst lo.
    rewrite (for_range_empty mid (mid - 1)) by lia. reflexivity.
  - rewrite (for_range_cons lo hi) by lia.
    rewrite (for_range_cons lo (mid - 1)) by lia.
    cbn [app]. f_equal. apply IH; lia.
Qed.

Lemma In_for_range (lo hi x : Z) :
  In x (for_range lo hi) <-> (lo <= x <= hi)%Z.
Proof.
  unfold for_range. rewrite in_map_iff. split.
  - intros [n [<- Hn]]. apply in_seq in Hn. lia.
  - intros H. exists (Z.to_nat (x - lo)). split; [lia|].
    apply in_seq. lia.
Qed.

Lemma flat_map_nil_in {A B : Type} (g : A -> list B) (l : list A) :
  (forall x, In x l -> g x = []) -> List.flat_map g l = [].
Proof.
  induction l as [|x l IH]; intros H; simpl; [reflexivity|].
  rewrite (H x) by (left; reflexivity). apply IH.
  intros y Hy. apply H. right; assumption.
Qed.

Lemma flat_map_ext_in {A B : Type} (g h : A -> list B) (l : list A) :
  (forall x, In x l -> g x = h x) -> List.flat_map g l = List.flat_map h l.
Proof.
  induction l as [|x l IH]; intros H; simpl; [reflexivity|].
  rewrite (H x) by (left; reflexivity). f_equal. apply IH.
  intros y Hy. apply H. right; assumption.
Qed.

(** Restricting a scan of [0 .. n-1] to the sub-range that contributes. *)
Lemma flat_map_restrict {B : Type} (g : Z -> list B) (n lo hi : Z) :
  (0 <= lo)%Z -> (lo <= hi + 1)%Z -> (hi <= n - 1)%Z ->
  (forall x, (0 <= x < lo)%Z \/ (hi < x <= n - 1)%Z -> g x = []) ->
  List.flat_map g (for_range 0 (n - 1)) = List.flat_map g (for_range lo hi).
Proof.
  intros H0 Hlh Hn Hout.
  rewrite (for_range_app 0 lo (n - 1)) by lia.
  rewrite (for_range_app lo (hi + 1) (n - 1)) by lia.
  rewrite !flat_map_app.
  replace (hi + 1 - 1)%Z with hi by lia.
  rewrite (flat_map_nil_in g (for_range 0 (lo - 1))).
  - rewrite (flat_map_nil_in g (for_range (hi + 1) (n - 1))).
    + rewrite app_nil_r. reflexivity.
    + intros x Hx. apply In_for_range in Hx. apply Hout. lia.
  - intros x Hx. apply In_for_range in Hx. apply Hout. lia.
Qed.

Lemma Qsum_app (a b : list Q) :
  (HoleSpec.Qsum (a ++ b) == HoleSpec.Qsum a + HoleSpec.Qsum b)%Q.
Proof.
  induction a as [|x a IH]; simpl.
  - ring.
  - rewrite IH. ring.
Qed.

Lemma inner_loop_sum (img : Point2dem.ImageView) (c : Z) (rs : list Z) :
  forall st,
    let vals := List.flat_map (HoleSpec.valid_value img c) rs in
    let st' := List.fold_left (Point2dem.add_pixel img c) rs st in
    (fst st' == fst st + HoleSpec.Qsum vals)%Q /\
    snd st' = (snd st + Z.of_nat (List.length vals))%Z.
Proof.
  induction rs as [|r rs IH]; intros st; cbn zeta.
  - simpl. split; [ring | lia].
  - cbn [List.fold_left List.flat_map].
    destruct (IH (Point2dem.add_pixel img c st r)) as [IH1 IH2].
    cbn zeta in IH1, IH2. rewrite IH1, IH2, Qsum_app, length_app.
    unfold Point2dem.add_pixel, HoleSpec.valid_value.
    destruct (Point2dem.pixel img c r); cbn [fst snd HoleSpec.Qsum List.fold_right List.length].
    + split; [ring | lia].
    + split; [ring | lia].
Qed.

Lemma outer_loop_sum (img : Point2dem.ImageView) (rs cs : list Z) :
  forall st,
    let vals :=
      List.flat_map (fun c => List.flat_map (HoleSpec.valid_value img c) rs) cs in
    let st' :=
      List.fold_left
        (fun st c => List.fold_left (Point2dem.add_pixel img c) rs st) cs st in
    (fst st' == fst st + HoleSpec.Qsum vals)%Q /\
    snd st' = (snd st + Z.of_nat (List.length vals))%Z.
Proof.
  induction cs as [|c cs IH]; intros st; cbn zeta.
  - simpl. split; [ring | lia].
  - cbn [List.fold_left List.flat_map].
    destruct (IH (List.fold_left (Point2dem.add_pixel img c) rs st)) as [IH1 IH2].
    destruct (inner_loop_sum img c rs st) as [I1 I2].
    cbn zeta in IH1, IH2, I1, I2.
    rewrite IH1, IH2, I1, I2, Qsum_app, length_app.
    split; [ring | lia].
Qed.

Section HoleFiller.
Variable img : Point2dem.ImageView.
Variables k i j : Z.

Hypothesis Hodd : Z.odd k = true.
Hypothesis Hpos : (0 < k)%Z.
Hypothesis Hi : (0 <= i < Point2dem.img_cols img)%Z.
Hypothesis Hj : (0 <= j < Point2dem.img_rows img)%Z.

Let k2 : Z := Z.quot k 2.

Lemma kernel_half : k = (2 * k2 + 1)%Z.
Proof.
  unfold k2. rewrite Z.quot_div_nonneg by lia.
  pose proof (Zdiv2_odd_eqn k) as H. rewrite Hodd in H.
  rewrite Z.div2_div in H. exact H.
Qed.

Lemma in_window_iff (c r : Z) :
  HoleSpec.in_window k i j c r = true <->
  (i - k2 <= c <= i + k2)%Z /\ (j - k2 <= r <= j + k2)%Z.
Proof.
  unfold HoleSpec.in_window. rewrite andb_true_iff, !Z.ltb_lt.
  pose proof kernel_half. lia.
Qed.

Let clo : Z := Z.max 0 (i - k2).
Let chi : Z := Z.min (Point2dem.img_cols img - 1) (i + k2).
Let rlo : Z := Z.max 0 (j - k2).
Let rhi : Z := Z.min (Point2dem.img_rows img - 1) (j + k2).

Lemma window_values_loops :
  HoleSpec.window_values img k i j =
  List.flat_map
    (fun c => List.flat_map (HoleSpec.valid_value img c) (for_range rlo rhi))
    (for_range clo chi).
Proof.
  pose proof kernel_half as Hk.
  unfold HoleSpec.window_values.
  rewrite (flat_map_restrict _ (Point2dem.img_cols img) clo chi);
    [ | unfold clo; lia | unfold clo, chi; lia | unfold chi; lia | ].
  - apply flat_map_ext_in. intros c Hc. apply In_for_range in Hc.
    rewrite (flat_map_restrict _ (Point2dem.img_rows img) rlo rhi);
      [ | unfold rlo; lia | unfold rlo, rhi; lia | unfold rhi; lia | ].
    + apply flat_map_ext_in. intros r Hr. apply In_for_range in Hr.
      assert (Hw : HoleSpec.in_window k i j c r = true).
      { apply in_window_iff. unfold clo, chi, rlo, rhi in *. lia. }
      rewrite Hw. reflexivity.
    + intros r Hr.
      destruct (HoleSpec.in_window k i j c r) eqn:E; [|reflexivity].
      apply in_window_iff in E. unfold rlo, rhi in Hr. lia.
  - intros c Hc. apply flat_map_nil_in. intros r _.
    destruct (HoleSpec.in_window k i j c r) eqn:E; [|reflexivity].
    apply in_window_iff in E. unfold clo, chi in Hc. lia.
Qed.

Lemma ctor_accepts :
  Point2dem.FillNoDataWithAvg_ctor img k =
  Ok {| Point2dem.m_img := img; Point2dem.m_kernel_size := k |}.
Proof.
  unfold Point2dem.FillNoDataWithAvg_ctor.
  assert (Hrem : Z.rem k 2 = 1%Z).
  { rewrite Z.rem_mod_nonneg by lia. pose proof kernel_half.
    pose proof (Z.mod_pos_bound k 2 ltac:(lia)).
    pose proof (Z.div_mod k 2 ltac:(lia)).
    assert (k2 = (k / 2)%Z) by (unfold k2; apply Z.quot_div_nonneg; lia).
    lia. }
  rewrite Hrem. cbn [Z.eqb Pos.eqb andb].
  apply Z.ltb_lt in Hpos. rewrite Hpos. reflexivity.
Qed.

Let f : Point2dem.FillNoDataWithAvg :=
  {| Point2dem.m_img := img; Point2dem.m_kernel_size := k |}.

Lemma fill_valid (v : Q) :
  Point2dem.pixel img i j = Some v -> Point2dem.fill f i j = Ok (Some v).
Proof. intros H. unfold Point2dem.fill. cbn [Point2dem.m_img f]. rewrite H. reflexivity. Qed.

Hypothesis Hci : (i + k2 <= Int.INT_MAX)%Z.
Hypothesis Hrj : (j + k2 <= Int.INT_MAX)%Z.

Lemma fill_nodata :
  Point2dem.pixel img i j = None ->
  match HoleSpec.window_values img k i j with
  | [] => Point2dem.fill f i j = Ok None
  | w => exists a, Point2dem.fill f i j = Ok (Some a) /\
                   (a == HoleSpec.average w)%Q
  end.
Proof.
  intros Hnd. pose proof kernel_half as Hk.
  assert (Hk2 : (0 <= k2)%Z) by lia.
  unfold Point2dem.fill. cbn [Point2dem.m_img Point2dem.m_kernel_size f].
  rewrite Hnd. fold k2.
  rewrite (Int_check_Ok (i + k2)) by (unfold Int.INT_MIN; lia). cbn [bind].
  rewrite (Int_check_Ok (j + k2)) by (unfold Int.INT_MIN; lia). cbn [bind].
  fold clo chi rlo rhi.
  destruct (outer_loop_sum img (for_range rlo rhi) (for_range clo chi) (0%Q, 0%Z))
    as [Hsum Hcnt].
  cbn zeta in Hsum, Hcnt. rewrite <- window_values_loops in Hsum, Hcnt.
  cbn [fst snd] in Hsum, Hcnt.
  destruct (List.fold_left _ (for_range clo chi) (0%Q, 0%Z)) as [val nvalid].
  cbn [fst snd] in Hsum, Hcnt.
  destruct (HoleSpec.window_values img k i j) as [|w0 ws] eqn:EW.
  - subst nvalid. reflexivity.
  - assert (Hnz : (nvalid =? 0)%Z = false).
    { apply Z.eqb_neq. subst nvalid. cbn [List.length]. lia. }
    rewrite Hnz. eexists. split; [reflexivity|].
    unfold HoleSpec.average. rewrite Hsum, Qplus_0_l.
    replace nvalid with (Z.of_nat (List.length (w0 :: ws))) by lia.
    reflexivity.
Qed.
End HoleFiller.

(** ** Claims on the outlier estimator, the hole filler and the
    composite extents *)

(** C1.  From the samples fed to the accumulator, the nonzero ones
    are kept; with [sorted] their ascending arrangement of length [L],
    percentile [p] in (0,100] and factor [f], the estimator returns
    [sorted[k] * f * 4] where [k = min (L-1) t] and [t] is the integer
    part of the binary64 product of the binary64 quotient [p/100] and
    [L].  [t] is within one of [floor (p/100 * L)], and equal to it
    when the quotient and the product are binary64 values. *)
Theorem outlier_threshold (samples : list Q) (p f : Q) :
  let acc := List.fold_left Point2dem.accumulate samples
               Point2dem.ErrorRangeEstimAccum_ctor in
  let nonzero := Point2dem.m_vals acc in
  let sorted := std_sort nonzero in
  let L := Z.of_nat (List.length sorted) in
  let t := Qfloor (Binary64.mul (Binary64.div p 100) (Binary64.of_int L)) in
  let k := Z.min (L - 1) t in
  nonzero <> [] -> (L <= Int.INT_MAX)%Z -> (0 < p)%Q -> (p <= 100)%Q ->
  nonzero = List.filter (Qlt_bool 0) samples /\
  Sorted Qle sorted /\ Permutation sorted nonzero /\
  (0 <= k < L)%Z /\
  Point2dem.value acc (p, f) = Ok (List.nth (Z.to_nat k) sorted 0 * f * 4)%Q /\
  (Z.abs (t - Qfloor (p / 100 * inject_Z L)) <= 1)%Z /\
  ((Binary64.round (p / 100) == p / 100)%Q ->
   (Binary64.round (p / 100 * inject_Z L) == p / 100 * inject_Z L)%Q ->
   t = Qfloor (p / 100 * inject_Z L)).
Proof.
  intros acc nonzero sorted L t k Hne HL Hp Hp100.
  assert (HL0 : (0 <= L <= Int.INT_MAX)%Z) by (unfold L in *; lia).
  split; [apply (accumulate_fold samples Point2dem.ErrorRangeEstimAccum_ctor)|].
  split; [apply std_sort_sorted|].
  split; [apply std_sort_perm|].
  split; [apply (threshold_index_in_range samples p Hne HL Hp Hp100)|].
  split; [apply (threshold_value samples p f Hne HL Hp Hp100)|].
  split.
  - destruct (pct_len_close p L Hp Hp100 HL0) as [H1 H2].
    apply Qfloor_close; assumption.
  - intros Eq Ep. unfold t. apply Qfloor_comp.
    unfold Binary64.mul, Binary64.div.
    assert (H0 : (0 <= p / 100 * inject_Z L)%Q).
    { apply Qmult_le_0_compat.
      - apply Qle_shift_div_l; [reflexivity |]. rewrite Qmult_0_l.
        apply Qlt_le_weak; exact Hp.
      - change 0%Q with (inject_Z 0). rewrite <- Zle_Qle. lia. }
    apply Qeq_trans with (Binary64.round (p / 100 * inject_Z L));
      [| exact Ep].
    symmetry. apply Binary64Facts.round_wd; [exact H0 |].
    rewrite Eq, (of_int_exact L HL0). reflexivity.
Qed.

(** Scenario C: samples [0, 0, 2, 4, 6, 8, 10], percentile 75, factor 3:
    [0.75] and [3.75] are binary64 values, the index is 3 and the
    threshold 96. *)
Lemma outlier_threshold_scenario_C :
  let samples := [0; 0; 2 # 1; 4 # 1; 6 # 1; 8 # 1; 10 # 1]%Q in
  let acc := List.fold_left Point2dem.accumulate samples
               Point2dem.ErrorRangeEstimAccum_ctor in
  let sorted := std_sort (Point2dem.m_vals acc) in
  let L := Z.of_nat (List.length sorted) in
  sorted = [2 # 1; 4 # 1; 6 # 1; 8 # 1; 10 # 1]%Q /\
  Z.min (L - 1) (Qfloor ((75 # 1) / 100 * inject_Z L)) = 3%Z /\
  Qfloor (Binary64.mul (Binary64.div (75 # 1) 100) (Binary64.of_int L))
  = Qfloor ((75 # 1) / 100 * inject_Z L) /\
  Point2dem.value acc (75 # 1, 3 # 1)%Q = Ok (96 # 1)%Q.
Proof.
  intros samples acc sorted L.
  assert (Hne : Point2dem.m_vals acc <> []) by (vm_compute; discriminate).
  assert (HL : (L <= Int.INT_MAX)%Z) by (vm_compute; discriminate).
  assert (Hp : (0 < 75 # 1)%Q) by reflexivity.
  assert (Hp100 : (75 # 1 <= 100)%Q) by (vm_compute; discriminate).
  destruct (outlier_threshold samples (75 # 1) (3 # 1) Hne HL Hp Hp100)
    as [_ [_ [_ [_ [Hv [_ Hex]]]]]].
  split; [reflexivity|]. split; [reflexivity|].
  split; [apply Hex; vm_compute; reflexivity|].
  exact (eq_trans Hv eq_refl).
Defined.

(** The index is not always [floor (p/100 * L)]: on the samples
    [1, 2, ..., 50] with percentile 58 and factor 1 the quotient
    [58/100.0] is rounded down, the product [pct*50] falls below 29,
    and the threshold is [4 * 29 = 116], not [4 * 30 = 120]. *)
Lemma outlier_index_below_floor :
  let samples := List.map (fun n => inject_Z (Z.of_nat n)) (List.seq 1 50) in
  let acc := List.fold_left Point2dem.accumulate samples
               Point2dem.ErrorRangeEstimAccum_ctor in
  let sorted := std_sort (Point2dem.m_vals acc) in
  let L := Z.of_nat (List.length sorted) in
  let k := Z.min (L - 1) (Qfloor ((58 # 1) / 100 * inject_Z L)) in
  L = 50%Z /\ k = 29%Z /\
  (List.nth (Z.to_nat k) sorted 0 * (1 # 1) * 4 == 120 # 1)%Q /\
  exists v, Point2dem.value acc (58 # 1, 1 # 1)%Q = Ok v /\
            (v == 116 # 1)%Q /\
            ~ (v == List.nth (Z.to_nat k) sorted 0 * (1 # 1) * 4)%Q.
Proof.
  cbv zeta.
  split; [vm_compute; reflexivity|].
  split; [vm_compute; reflexivity|].
  split; [vm_compute; reflexivity|].
  eexists. split; [vm_compute; reflexivity|].
  split; [vm_compute; reflexivity|].
  vm_compute. discriminate.
Qed.

(** C6.  Only strictly positive values enter the sample set, and when
    the set is empty at full density (subsampling step 1) the
    estimation loop ends without success and with the threshold left at
    its initial zero, the accumulator itself refusing to give a value. *)
Theorem outlier_samples_positive (samples : list Q) (cols rows : Z)
    (error_image : list (list Q)) (remove_outliers_params : Q * Q) :
  List.Forall (fun v => (0 < v)%Q)
    (Point2dem.m_vals
       (List.fold_left Point2dem.accumulate samples
          Point2dem.ErrorRangeEstimAccum_ctor)) /\
  (Point2dem.m_vals
     (Point2dem.for_each_pixel (subsample error_image 1)
        Point2dem.ErrorRangeEstimAccum_ctor) = [] ->
   Point2dem.estimate_max_error cols rows error_image remove_outliers_params
   = Ok (false, 0%Q) /\
   Point2dem.value
     (Point2dem.for_each_pixel (subsample error_image 1)
        Point2dem.ErrorRangeEstimAccum_ctor) remove_outliers_params
   = Throw ArgumentErr).
Proof.
  split.
  - rewrite accumulate_fold. cbn [Point2dem.m_vals Point2dem.ErrorRangeEstimAccum_ctor app].
    apply Forall_forall. intros v Hv. apply filter_In in Hv.
    apply Qlt_bool_iff. exact (proj2 Hv).
  - intros Hempty. split.
    + apply estimate_loop_no_samples.
      rewrite subsample_1, for_each_pixel_vals in Hempty. exact Hempty.
    + unfold Point2dem.value. rewrite Hempty. reflexivity.
Qed.

Lemma outlier_samples_positive_witness :
  let image := [[0; 0]; [0; 0]]%Q in
  Point2dem.estimate_max_error 2 2 image (75 # 1, 3 # 1)%Q = Ok (false, 0%Q) /\
  Point2dem.value
    (Point2dem.for_each_pixel (subsample image 1)
       Point2dem.ErrorRangeEstimAccum_ctor) (75 # 1, 3 # 1)%Q
  = Throw ArgumentErr.
Proof.
  intros image.
  exact (proj2 (outlier_samples_positive [] 2 2 image (75 # 1, 3 # 1)%Q) eq_refl).
Defined.

(** C7.  For an odd positive window size [k] the hole filler is
    constructed, returns a valid cell unchanged, and for a nodata cell
    returns the average of the valid cells of the raster lying in the
    [k]-by-[k] window centred on it, or nodata when there is none. *)
Theorem hole_filler_average (img : Point2dem.ImageView) (k i j : Z) :
  Z.odd k = true -> (0 < k)%Z ->
  (0 <= i < Point2dem.img_cols img)%Z ->
  (0 <= j < Point2dem.img_rows img)%Z ->
  (i + Z.quot k 2 <= Int.INT_MAX)%Z ->
  (j + Z.quot k 2 <= Int.INT_MAX)%Z ->
  exists f,
    Point2dem.FillNoDataWithAvg_ctor img k = Ok f /\
    match Point2dem.pixel img i j with
    | Some v => Point2dem.fill f i j = Ok (Some v)
    | None =>
        match HoleSpec.window_values img k i j with
        | [] => Point2dem.fill f i j = Ok None
        | w => exists a, Point2dem.fill f i j = Ok (Some a) /\
                         (a == HoleSpec.average w)%Q
        end
    end.
Proof.
  intros Hodd Hpos Hi Hj Hci Hrj.
  eexists. split; [apply ctor_accepts; assumption|].
  destruct (Point2dem.pixel img i j) as [v|] eqn:Hp.
  - apply fill_valid. exact Hp.
  - apply fill_nodata; assumption.
Qed.

(** Scenario D: the hole of [ring10] is filled with 10. *)
Lemma hole_filler_scenario_D :
  exists f a,
    Point2dem.FillNoDataWithAvg_ctor HoleSpec.ring10 3 = Ok f /\
    Point2dem.fill f 1 1 = Ok (Some a) /\ (a == 10 # 1)%Q.
Proof.
  assert (Hodd : Z.odd 3 = true) by reflexivity.
  assert (Hpos : (0 < 3)%Z) by reflexivity.
  assert (Hi : (0 <= 1 < Point2dem.img_cols HoleSpec.ring10)%Z)
    by (split; [discriminate | reflexivity]).
  assert (Hj : (0 <= 1 < Point2dem.img_rows HoleSpec.ring10)%Z)
    by (split; [discriminate | reflexivity]).
  assert (Hc : (1 + Z.quot 3 2 <= Int.INT_MAX)%Z) by discriminate.
  destruct (hole_filler_average HoleSpec.ring10 3 1 1 Hodd Hpos Hi Hj Hc Hc)
    as [f [Hf Hfill]].
  change (exists a, Point2dem.fill f 1 1 = Ok (Some a) /\
                    (a == HoleSpec.average (List.repeat (10 # 1) 8))%Q)
    in Hfill.
  destruct Hfill as [a [Ha Hav]].
  exists f, a. split; [exact Hf|]. split; [exact Ha|].
  rewrite Hav. reflexivity.
Defined.

(** C8.  The extents of the composite, for a point count of at most
    [2^53]: [rows = T * max 1 (ceil (R/T))] and
    [cols = T * max 1 (ceil (ceil (N/rows) / T))], both multiples of
    the tile length, with room for all [N] points. *)
Theorem composite_extents (N R T B : Z) :
  (0 <= N)%Z -> (N <= 2 ^ 53)%Z -> (0 <= R)%Z -> (0 < T)%Z ->
  let rows := (T * Z.max 1 (Spec.ceil_div R T))%Z in
  let cols := (T * Z.max 1 (Spec.ceil_div (Spec.ceil_div N rows) T))%Z in
  (rows <= Int.INT_MAX)%Z -> (cols <= Int.INT_MAX)%Z ->
  exists v,
    PointUtils.LasOrCsvToTif_Class_ctor N R T B = Ok v /\
    PointUtils.rows v = rows /\ PointUtils.cols v = cols /\
    (T | PointUtils.rows v)%Z /\ (T | PointUtils.cols v)%Z /\
    (N <= PointUtils.rows v * PointUtils.cols v)%Z.
Proof.
  intros HN HN53 HR HT rows cols Hrows Hcols.
  eexists.
  split; [apply (ctor_extents N R T B HN HN53 HR HT Hrows Hcols)|].
  cbn [PointUtils.rows PointUtils.cols PointUtils.m_rows PointUtils.m_cols].
  split; [reflexivity|]. split; [reflexivity|].
  split; [exists (Z.max 1 (Spec.ceil_div R T)); apply Z.mul_comm|].
  split; [exists (Z.max 1 (Spec.ceil_div (Spec.ceil_div N rows) T));
          apply Z.mul_comm|].
  apply (extents_cover N R T); assumption.
Qed.

Lemma composite_extents_witness :
  exists v,
    PointUtils.LasOrCsvToTif_Class_ctor 10 3 2 256 = Ok v /\
    PointUtils.rows v = 4%Z /\ PointUtils.cols v = 4%Z /\
    (2 | PointUtils.rows v)%Z /\ (2 | PointUtils.cols v)%Z /\
    (10 <= PointUtils.rows v * PointUtils.cols v)%Z.
Proof.
  apply (composite_extents 10 3 2 256); vm_compute; congruence.
Defined.

(** Above [2^53] the point count is rounded when it is converted to
    [double]: with [2^53 + 1] points, one row asked for and tiles of
    [2^23], the count becomes [2^53], the columns are [2^30] instead of
    [129 * 2^23], and the raster has one cell less than there are
    points. *)
Lemma composite_extents_rounded_count :
  let N := (2 ^ 53 + 1)%Z in
  let T := (2 ^ 23)%Z in
  let rows := (T * Z.max 1 (Spec.ceil_div 1 T))%Z in
  let cols := (T * Z.max 1 (Spec.ceil_div (Spec.ceil_div N rows) T))%Z in
  (rows <= Int.INT_MAX)%Z /\ (cols <= Int.INT_MAX)%Z /\
  exists v,
    PointUtils.LasOrCsvToTif_Class_ctor N 1 T 256 = Ok v /\
    PointUtils.rows v = rows /\
    PointUtils.cols v = (2 ^ 30)%Z /\ PointUtils.cols v <> cols /\
    (PointUtils.rows v * PointUtils.cols v < N)%Z.
Proof.
  cbv zeta.
  split; [vm_compute; discriminate|].
  split; [vm_compute; discriminate|].
  eexists. split; [vm_compute; reflexivity|].
  split; [vm_compute; reflexivity|].
  split; [vm_compute; reflexivity|].
  split; [vm_compute; discriminate|].
  vm_compute. reflexivity.
Qed.

(** ** The record parser *)

Lemma map_find_None {V : Type} (c : Z) (m : list (Z * V)) :
  map_find Z.eqb c m = None -> ~ In c (List.map fst m).
Proof.
  induction m as [|[k v] m IH]; simpl; [tauto|].
  destruct (Z.eqb_spec c k) as [->|Hne]; [discriminate|].
  intros H [Hk|Hin]; [congruence | exact (IH H Hin)].
Qed.

Lemma filter_from_skip {V : Type} (c : Z) (m : list (Z * V)) :
  ~ In c (List.map fst m) ->
  List.filter (fun e => (c <=? fst e)%Z) m =
  List.filter (fun e => (c + 1 <=? fst e)%Z) m.
Proof.
  intros Hnot. apply filter_ext_in. intros [k v] Hin. simpl.
  assert (k <> c).
  { intros ->. apply Hnot. apply in_map_iff. exists (c, v). auto. }
  destruct (Z.leb_spec c k), (Z.leb_spec (c + 1) k); try reflexivity; lia.
Qed.

Lemma filter_from_split {V : Type} (c : Z) (v : V) (m : list (Z * V)) :
  NoDup (List.map fst m) ->
  map_find Z.eqb c m = Some v ->
  exists l1 l2,
    List.filter (fun e => (c <=? fst e)%Z) m = l1 ++ (c, v) :: l2 /\
    List.filter (fun e => (c + 1 <=? fst e)%Z) m = l1 ++ l2.
Proof.
  induction m as [|[k w] m IH]; intros Hnd Hfind; [discriminate|].
  simpl in Hnd. inversion Hnd as [|? ? Hk Hnd']; subst.
  simpl in Hfind. destruct (Z.eqb_spec c k) as [->|Hne].
  - injection Hfind as ->. exists [], (List.filter (fun e => (k + 1 <=? fst e)%Z) m).
    cbn [List.filter fst app].
    rewrite Z.leb_refl. rewrite (proj2 (Z.leb_gt (k + 1) k)) by lia.
    rewrite (filter_from_skip k m Hk). split; reflexivity.
  - destruct (IH Hnd' Hfind) as [l1 [l2 [H1 H2]]].
    cbn [List.filter fst].
    destruct (Z.leb_spec c k), (Z.leb_spec (c + 1) k); try lia.
    + exists ((k, w) :: l1), l2. rewrite H1, H2. split; reflexivity.
    + exists l1, l2. split; assumption.
Qed.

Lemma find_none_pending (c : Z) (m : list (Z * string)) :
  map_find Z.eqb c m = None ->
  List.filter (fun e => (c <=? fst e)%Z) m =
  List.filter (fun e => (c + 1 <=? fst e)%Z) m.
Proof.
  induction m as [|[k v] m IH]; intros H; [reflexivity|].
  cbn [map_find] in H. destruct (Z.eqb_spec c k) as [->|Hne]; [discriminate|].
  cbn [List.filter fst]. rewrite (IH H).
  destruct (Z.leb_spec c k), (Z.leb_spec (c + 1) k); try reflexivity; lia.
Qed.

Lemma find_some_pending (c : Z) (name : string) (m : list (Z * string)) :
  StronglySorted (fun a b => (fst a < fst b)%Z) m ->
  map_find Z.eqb c m = Some name ->
  List.filter (fun e => (c <=? fst e)%Z) m =
  (c, name) :: List.filter (fun e => (c + 1 <=? fst e)%Z) m.
Proof.
  induction 1 as [|[k v] m Hs IH Hall]; intros H; [discriminate|].
  cbn [map_find] in H. cbn [List.filter fst].
  assert (Hgt : forall d, (d <= k + 1)%Z ->
            List.filter (fun e => (d <=? fst e)%Z) m = m).
  { intros d Hd. apply forallb_filter_id. apply forallb_forall.
    intros e He. rewrite Forall_forall in Hall. specialize (Hall e He).
    cbn [fst] in Hall. apply Z.leb_le. lia. }
  destruct (Z.eqb_spec c k) as [->|Hne].
  - injection H as <-. rewrite Z.leb_refl.
    destruct (Z.leb_spec (k + 1) k); [lia|].
    rewrite (Hgt k) by lia. rewrite (Hgt (k + 1)%Z) by lia. reflexivity.
  - destruct (Z.leb_spec c k) as [Hle|Hlt].
    + exfalso. assert (Hnone : map_find Z.eqb c m = None).
      { clear - Hall Hle Hne. induction m as [|[k' v'] m IH]; [reflexivity|].
        inversion Hall as [|? ? Hk Hall']; subst. cbn [fst] in Hk.
        cbn [map_find]. destruct (Z.eqb_spec c k'); [lia|]. apply IH, Hall'. }
      congruence.
    + destruct (Z.leb_spec (c + 1) k); [lia|]. apply IH. exact H.
Qed.

Section RecordParser.
Variable D : Type.
Variable zero : D.
Variable csv_separator : string.
Variable sscanf_lg : string -> scan D.
Variable conv : CsvConv.t.

Let n : Z := CsvConv.num_targets conv.
Let pending (c : Z) : list (Z * string) :=
  List.filter (fun e => (c <=? fst e)%Z) (CsvConv.col2name conv).

(** [column_ok] for tokens that start at column [c]. *)
Let ok_from (c : Z) (tokens : list string) (entry : Z * string) : Prop :=
  LineSpec.column_ok sscanf_lg tokens (fst entry - c, snd entry)%Z = true.

Hypothesis Hnodup : NoDup (List.map fst (CsvConv.col2name conv)).

Lemma ok_from_tail (c : Z) (token : string) (tokens : list string)
    (l : list (Z * string)) :
  List.Forall (fun e => (c + 1 <= fst e)%Z) l ->
  (List.Forall (ok_from c (token :: tokens)) l <->
   List.Forall (ok_from (c + 1) tokens) l).
Proof.
  intros Hl. rewrite !Forall_forall in *.
  assert (Heq : forall e, In e l ->
            ok_from c (token :: tokens) e <-> ok_from (c + 1) tokens e).
  { intros e He. specialize (Hl e He). unfold ok_from, LineSpec.column_ok.
    cbn [fst snd].
    replace (Z.to_nat (fst e - c)) with (S (Z.to_nat (fst e - (c + 1)))) by lia.
    reflexivity. }
  split; intros H e He; [apply Heq | apply Heq]; auto.
Qed.

Lemma pending_ge (c : Z) : List.Forall (fun e => (c <= fst e)%Z) (pending c).
Proof.
  apply Forall_forall. intros e He. apply filter_In in He.
  apply Z.leb_le. exact (proj2 He).
Qed.

Lemma ok_from_nil (c : Z) (e : Z * string) : ~ ok_from c [] e.
Proof.
  unfold ok_from, LineSpec.column_ok.
  destruct (Z.to_nat (fst (fst e - c, snd e)%Z)); simpl; discriminate.
Qed.

Lemma read_columns_spec (tokens : list string) :
  List.Forall (fun token => sscanf_lg token <> InputFailure) tokens ->
  forall (c nfr nvr : Z) (values : CsvRecord D),
    (nvr + Z.of_nat (List.length (pending c)) = n)%Z ->
    (0 <= nfr)%Z ->
    (nfr + Z.of_nat (List.length (List.filter LineSpec.is_numeric (pending c)))
     <= 3)%Z ->
    exists values' nvr' flag,
      read_columns sscanf_lg conv tokens c nfr nvr values
      = Ok (values', nvr', flag) /\
      (nvr' = n <-> List.Forall (ok_from c tokens) (pending c)) /\
      (flag = false -> nvr' <> n).
Proof.
  intros Hscan. induction tokens as [|token tokens IH];
    intros c nfr nvr values Hcount Hnfr Hnum.
  - cbn [read_columns]. exists values, nvr, true.
    split; [reflexivity|]. split; [|discriminate].
    destruct (pending c) as [|e l] eqn:Hp.
    + cbn [List.length] in Hcount. split; [constructor | lia].
    + cbn [List.length] in Hcount. split; [lia|].
      intros H. inversion H as [|? ? He _]; subst.
      exfalso. exact (ok_from_nil c e He).
  - inversion Hscan as [|? ? Htok Hscan']; subst.
    cbn [read_columns]. fold n.
    destruct (Z.leb_spec n nvr) as [Hfull|Hmore].
    + exists values, nvr, true. split; [reflexivity|]. split; [|discriminate].
      assert (Hp : pending c = []).
      { destruct (pending c); [reflexivity | cbn [List.length] in Hcount; lia]. }
      rewrite Hp in *. cbn [List.length] in Hcount. split; [constructor | lia].
    + destruct (map_find Z.eqb c (CsvConv.col2name conv)) as [name|] eqn:Hfind.
      * destruct (filter_from_split c name _ Hnodup Hfind) as [l1 [l2 [H1 H2]]].
        fold (pending c) in H1. fold (pending (c + 1)) in H2.
        pose proof (pending_ge (c + 1)) as Hge. rewrite H2 in Hge.
        assert (Hge1 : List.Forall (fun e => (c + 1 <= fst e)%Z) l1)
          by (apply Forall_app in Hge; tauto).
        assert (Hge2 : List.Forall (fun e => (c + 1 <= fst e)%Z) l2)
          by (apply Forall_app in Hge; tauto).
        rewrite H1 in Hcount, Hnum |- *.
        rewrite length_app in Hcount. cbn [List.length] in Hcount.
        rewrite filter_app, length_app in Hnum.
        cbn [List.filter] in Hnum.
        assert (Hall : forall nvr' : Z,
                  ok_from c (token :: tokens) (c, name) ->
                  (nvr' = n <-> List.Forall (ok_from (c + 1) tokens) (pending (c + 1))) ->
                  (nvr' = n <->
                   List.Forall (ok_from c (token :: tokens)) (l1 ++ (c, name) :: l2))).
        { intros nvr' Hhere Hrest. rewrite Hrest, H2.
          rewrite !Forall_app, Forall_cons_iff.
          rewrite (ok_from_tail c token tokens l1 Hge1).
          rewrite (ok_from_tail c token tokens l2 Hge2). tauto. }
        assert (Hdrop : ~ ok_from c (token :: tokens) (c, name) ->
                  ~ List.Forall (ok_from c (token :: tokens)) (l1 ++ (c, name) :: l2)).
        { intros Hbad H. apply Forall_app in H. destruct H as [_ H].
          inversion H; auto. }
        assert (Hnumeric : LineSpec.is_numeric (c, name)
                           = negb (String.eqb name "file")) by reflexivity.
        rewrite Hnumeric in Hnum.
        destruct (String.eqb name "file") eqn:Hfile.
        -- cbn [negb] in Hnum.
           destruct (IH Hscan' (c + 1)%Z nfr (nvr + 1)%Z
                       {| point_data := point_data values; file := token |})
             as [v' [k' [fl [Hr [Hiff Hfl]]]]].
           ++ rewrite H2, length_app. lia.
           ++ assumption.
           ++ rewrite H2, filter_app, length_app. lia.
           ++ exists v', k', fl. split; [exact Hr|]. split; [|exact Hfl].
              apply Hall; [|exact Hiff].
              unfold ok_from, LineSpec.column_ok. cbn [fst snd].
              rewrite Z.sub_diag. cbn. rewrite Hfile. reflexivity.
        -- cbn [negb List.length] in Hnum.
           destruct (sscanf_lg token) as [val| |] eqn:Hsc; [| |congruence].
           ++ assert (Hset : exists pd,
                        vec_set (point_data values) nfr val = Ok pd).
              { unfold vec_set. destruct (point_data values) as [[a b] d].
                destruct (Z.eqb_spec nfr 0); [eauto|].
                destruct (Z.eqb_spec nfr 1); [eauto|].
                destruct (Z.eqb_spec nfr 2); [eauto|]. lia. }
              destruct Hset as [pd Hpd]. rewrite Hpd. cbn [bind].
              destruct (IH Hscan' (c + 1)%Z (nfr + 1)%Z (nvr + 1)%Z
                          {| point_data := pd; file := file values |})
                as [v' [k' [fl [Hr [Hiff Hfl]]]]].
              ** rewrite H2, length_app. lia.
              ** lia.
              ** rewrite H2, filter_app, length_app. lia.
              ** exists v', k', fl. split; [exact Hr|]. split; [|exact Hfl].
                 apply Hall; [|exact Hiff].
                 unfold ok_from, LineSpec.column_ok. cbn [fst snd].
                 rewrite Z.sub_diag. cbn. rewrite Hfile, Hsc. reflexivity.
           ++ exists values, nvr, false. split; [reflexivity|].
              split; [|intros _; lia].
              split; [lia|]. intros H. exfalso. revert H. apply Hdrop.
              unfold ok_from, LineSpec.column_ok. cbn [fst snd].
              rewrite Z.sub_diag. cbn. rewrite Hfile, Hsc. discriminate.
      * pose proof (filter_from_skip c _ (map_find_None c _ Hfind)) as Hskip.
        fold (pending c) in Hskip. fold (pending (c + 1)) in Hskip.
        destruct (IH Hscan' (c + 1)%Z nfr nvr values)
          as [v' [k' [fl [Hr [Hiff Hfl]]]]].
        -- rewrite <- Hskip. assumption.
        -- assumption.
        -- rewrite <- Hskip. assumption.
        -- exists v', k', fl. split; [exact Hr|]. split; [|exact Hfl].
           rewrite Hiff, <- Hskip. symmetry. apply ok_from_tail.
           rewrite Hskip. apply pending_ge.
Qed.

Hypothesis Hwf : LineSpec.wf_columns conv.

Lemma pending_0 : pending 0 = CsvConv.col2name conv.
Proof.
  destruct Hwf as [_ [Hpos _]]. unfold pending.
  apply forallb_filter_id. apply forallb_forall. intros e He.
  rewrite Forall_forall in Hpos. apply Z.leb_le, Hpos.
  apply in_map. exact He.
Qed.

Lemma read_columns_line (tokens : list string) :
  List.Forall (fun token => sscanf_lg token <> InputFailure) tokens ->
  exists values nvr flag,
    read_columns sscanf_lg conv tokens 0 0 0 (CsvRecord_ctor zero)
    = Ok (values, nvr, flag) /\
    (nvr = n <->
     List.Forall (fun e => LineSpec.column_ok sscanf_lg tokens e = true)
       (CsvConv.col2name conv)) /\
    (flag = false -> nvr <> n).
Proof.
  intros Hscan. destruct Hwf as [_ [_ [Hn Hnum]]].
  destruct (read_columns_spec tokens Hscan 0 0 0 (CsvRecord_ctor zero))
    as [v [k [fl [Hr [Hiff Hfl]]]]].
  - rewrite pending_0. unfold n. lia.
  - lia.
  - rewrite pending_0. lia.
  - exists v, k, fl. split; [exact Hr|]. split; [|exact Hfl].
    rewrite Hiff, pending_0, !Forall_forall.
    split; intros H [k0 nm] He; specialize (H (k0, nm) He);
      unfold ok_from in *; cbn [fst snd] in *;
      rewrite Z.sub_0_r in *; exact H.
Qed.
End RecordParser.

(** *** The columns read, in ascending order, up to the target count *)

Lemma Forall_firstn_of {A : Type} (P : A -> Prop) (k : nat) (l : list A) :
  List.Forall P l -> List.Forall P (List.firstn k l).
Proof.
  intros H. revert k.
  induction H as [|x l Hx Hl IH]; intros [|k]; cbn [List.firstn];
    constructor; auto.
Qed.

Section RecordParserOrder.
Variable D : Type.
Variable zero : D.
Variable sscanf_lg : string -> scan D.
Variable conv : CsvConv.t.

Let n : Z := CsvConv.num_targets conv.
Let pending (c : Z) : list (Z * string) :=
  List.filter (fun e => (c <=? fst e)%Z) (CsvConv.col2name conv).
Let ok_at (c : Z) (tokens : list string) (entry : Z * string) : Prop :=
  LineSpec.column_ok sscanf_lg tokens (fst entry - c, snd entry)%Z = true.
Let scans_at (c : Z) (tokens : list string) (entry : Z * string) : Prop :=
  LineSpec.column_scans sscanf_lg tokens (fst entry - c, snd entry)%Z.

Hypothesis Horder :
  StronglySorted (fun a b => (fst a < fst b)%Z) (CsvConv.col2name conv).

Lemma ok_at_tail (c : Z) (token : string) (tokens : list string)
    (l : list (Z * string)) :
  List.Forall (fun e => (c + 1 <= fst e)%Z) l ->
  (List.Forall (ok_at c (token :: tokens)) l <->
   List.Forall (ok_at (c + 1) tokens) l).
Proof.
  intros Hl. rewrite !Forall_forall in *.
  assert (Heq : forall e, In e l ->
            ok_at c (token :: tokens) e <-> ok_at (c + 1) tokens e).
  { intros e He. specialize (Hl e He). unfold ok_at, LineSpec.column_ok.
    cbn [fst snd].
    replace (Z.to_nat (fst e - c)) with (S (Z.to_nat (fst e - (c + 1)))) by lia.
    reflexivity. }
  split; intros H e He; [apply Heq | apply Heq]; auto.
Qed.

Lemma scans_at_tail (c : Z) (token : string) (tokens : list string)
    (l : list (Z * string)) :
  List.Forall (fun e => (c + 1 <= fst e)%Z) l ->
  List.Forall (scans_at c (token :: tokens)) l ->
  List.Forall (scans_at (c + 1) tokens) l.
Proof.
  intros Hl H. rewrite !Forall_forall in *. intros e He.
  specialize (Hl e He). specialize (H e He).
  unfold scans_at, LineSpec.column_scans in *. cbn [fst snd] in *.
  intros Hnum t Ht. apply (H Hnum t).
  replace (Z.to_nat (fst e - c)) with (S (Z.to_nat (fst e - (c + 1)))) by lia.
  exact Ht.
Qed.

Lemma ok_at_nil (c : Z) (e : Z * string) : ~ ok_at c [] e.
Proof.
  unfold ok_at, LineSpec.column_ok.
  destruct (Z.to_nat (fst (fst e - c, snd e)%Z)); simpl; discriminate.
Qed.

Lemma pending_from (c : Z) :
  List.Forall (fun e => (c <= fst e)%Z) (pending c).
Proof.
  apply Forall_forall. intros e He. apply filter_In in He.
  apply Z.leb_le. exact (proj2 He).
Qed.

Lemma read_columns_first (tokens : list string) :
  forall (c nfr nvr : Z) (values : CsvRecord D),
    (0 <= nvr <= n)%Z -> (0 <= nfr)%Z ->
    (nfr + Z.of_nat (List.length
                       (List.filter LineSpec.is_numeric
                          (List.firstn (Z.to_nat (n - nvr)) (pending c))))
     <= 3)%Z ->
    List.Forall (scans_at c tokens)
      (List.firstn (Z.to_nat (n - nvr)) (pending c)) ->
    exists values' nvr' flag,
      read_columns sscanf_lg conv tokens c nfr nvr values
      = Ok (values', nvr', flag) /\
      (nvr' = n <->
       List.length (List.firstn (Z.to_nat (n - nvr)) (pending c))
       = Z.to_nat (n - nvr) /\
       List.Forall (ok_at c tokens)
         (List.firstn (Z.to_nat (n - nvr)) (pending c))) /\
      (flag = false -> nvr' <> n).
Proof.
  induction tokens as [|token tokens IH];
    intros c nfr nvr values Hnvr Hnfr Hnum Hscan.
  - cbn [read_columns]. exists values, nvr, true.
    split; [reflexivity|]. split; [|discriminate]. split.
    + intros ->. rewrite Z.sub_diag. cbn [Z.to_nat List.firstn List.length].
      split; [reflexivity | constructor].
    + intros [Hlen Hall].
      destruct (List.firstn (Z.to_nat (n - nvr)) (pending c)) as [|e l].
      * cbn [List.length] in Hlen. lia.
      * inversion Hall as [|? ? He _]; subst.
        exfalso. exact (ok_at_nil c e He).
  - cbn [read_columns]. fold n.
    destruct (Z.leb_spec n nvr) as [Hfull|Hmore].
    + assert (nvr = n) by lia. subst nvr.
      exists values, n, true. split; [reflexivity|]. split; [|discriminate].
      rewrite Z.sub_diag. cbn [Z.to_nat List.firstn List.length].
      split; [intros _; split; [reflexivity | constructor] | reflexivity].
    + assert (Hneed : Z.to_nat (n - nvr) = S (Z.to_nat (n - (nvr + 1))))
        by lia.
      rewrite Hneed in *.
      pose proof (Forall_firstn_of _ (Z.to_nat (n - (nvr + 1))) _
                    (pending_from (c + 1))) as Hge.
      destruct (map_find Z.eqb c (CsvConv.col2name conv)) as [name|] eqn:Hfind.
      * assert (Ep : pending c = (c, name) :: pending (c + 1))
          by (apply find_some_pending; assumption).
        rewrite Ep in *. cbn [List.firstn] in *.
        set (todo := List.firstn (Z.to_nat (n - (nvr + 1))) (pending (c + 1)))
          in *.
        inversion Hscan as [|? ? Hhere Hscan']; subst.
        apply (scans_at_tail c token tokens todo Hge) in Hscan'.
        assert (Hiff : forall nvr' : Z,
                  ok_at c (token :: tokens) (c, name) ->
                  (nvr' = n <->
                   List.length todo = Z.to_nat (n - (nvr + 1)) /\
                   List.Forall (ok_at (c + 1) tokens) todo) ->
                  (nvr' = n <->
                   List.length ((c, name) :: todo)
                   = S (Z.to_nat (n - (nvr + 1))) /\
                   List.Forall (ok_at c (token :: tokens)) ((c, name) :: todo))).
        { intros nvr' Hok Hrest. rewrite Hrest. cbn [List.length].
          rewrite Forall_cons_iff, (ok_at_tail c token tokens todo Hge).
          split; [intros [H1 H2]; split; [congruence | tauto]
                 | intros [H1 [_ H2]]; split; [congruence | exact H2]]. }
        cbn [List.filter] in Hnum.
        assert (Hnumeric : LineSpec.is_numeric (c, name)
                           = negb (String.eqb name "file")) by reflexivity.
        rewrite Hnumeric in Hnum.
        destruct (String.eqb name "file") eqn:Hfile.
        -- cbn [negb] in Hnum.
           destruct (IH (c + 1)%Z nfr (nvr + 1)%Z
                       {| point_data := point_data values; file := token |}
                       ltac:(lia) Hnfr Hnum Hscan')
             as [v' [k' [fl [Hr [Hi Hfl]]]]].
           exists v', k', fl. split; [exact Hr|]. split; [|exact Hfl].
           apply Hiff; [|exact Hi].
           unfold ok_at, LineSpec.column_ok. cbn [fst snd].
           rewrite Z.sub_diag. cbn. rewrite Hfile. reflexivity.
        -- cbn [negb List.length] in Hnum.
           destruct (sscanf_lg token) as [val| |] eqn:Hsc.
           ++ assert (Hset : exists pd,
                        vec_set (point_data values) nfr val = Ok pd).
              { unfold vec_set. destruct (point_data values) as [[a b] d].
                destruct (Z.eqb_spec nfr 0); [eauto|].
                destruct (Z.eqb_spec nfr 1); [eauto|].
                destruct (Z.eqb_spec nfr 2); [eauto|]. lia. }
              destruct Hset as [pd Hpd]. rewrite Hpd. cbn [bind].
              assert (Hnum' :
                        (nfr + 1
                         + Z.of_nat (List.length
                                       (List.filter LineSpec.is_numeric todo))
                         <= 3)%Z) by lia.
              destruct (IH (c + 1)%Z (nfr + 1)%Z (nvr + 1)%Z
                          {| point_data := pd; file := file values |}
                          ltac:(lia) ltac:(lia) Hnum' Hscan')
                as [v' [k' [fl [Hr [Hi Hfl]]]]].
              exists v', k', fl. split; [exact Hr|]. split; [|exact Hfl].
              apply Hiff; [|exact Hi].
              unfold ok_at, LineSpec.column_ok. cbn [fst snd].
              rewrite Z.sub_diag. cbn. rewrite Hfile, Hsc. reflexivity.
           ++ exists values, nvr, false. split; [reflexivity|].
              split; [|intros _; lia].
              split; [lia|]. intros [_ H]. exfalso.
              inversion H as [|? ? Hbad _]; subst. revert Hbad.
              unfold ok_at, LineSpec.column_ok. cbn [fst snd].
              rewrite Z.sub_diag. cbn. rewrite Hfile, Hsc. discriminate.
           ++ exfalso. revert Hsc. apply Hhere.
              ** cbn [fst snd]. unfold LineSpec.is_numeric. cbn [snd].
                 rewrite Hfile. reflexivity.
              ** cbn [fst snd]. rewrite Z.sub_diag. reflexivity.
      * assert (Ep : pending c = pending (c + 1))
          by (apply find_none_pending; assumption).
        rewrite Ep in *. rewrite <- Hneed in *.
        pose proof (Forall_firstn_of _ (Z.to_nat (n - nvr)) _
                      (pending_from (c + 1))) as Hge'.
        apply (scans_at_tail c token tokens _ Hge') in Hscan.
        destruct (IH (c + 1)%Z nfr nvr values Hnvr Hnfr Hnum Hscan)
          as [v' [k' [fl [Hr [Hi Hfl]]]]].
        exists v', k', fl. split; [exact Hr|]. split; [|exact Hfl].
        rewrite Hi. rewrite (ok_at_tail c token tokens _ Hge'). reflexivity.
Qed.

Hypothesis Hpos : List.Forall (fun e => (0 <= fst e)%Z) (CsvConv.col2name conv).

Lemma pending_all : pending 0 = CsvConv.col2name conv.
Proof.
  unfold pending. apply forallb_filter_id. apply forallb_forall.
  intros e He. rewrite Forall_forall in Hpos. apply Z.leb_le, Hpos. exact He.
Qed.

Lemma read_columns_declared (tokens : list string) :
  (0 <= n)%Z ->
  (List.length (List.filter LineSpec.is_numeric (LineSpec.columns_read conv))
   <= 3)%nat ->
  List.Forall (LineSpec.column_scans sscanf_lg tokens)
    (LineSpec.columns_read conv) ->
  exists values nvr flag,
    read_columns sscanf_lg conv tokens 0 0 0 (CsvRecord_ctor zero)
    = Ok (values, nvr, flag) /\
    (nvr = n <->
     List.length (LineSpec.columns_read conv) = Z.to_nat n /\
     List.Forall (fun e => LineSpec.column_ok sscanf_lg tokens e = true)
       (LineSpec.columns_read conv)) /\
    (flag = false -> nvr <> n).
Proof.
  intros Hn Hnum Hscan. unfold LineSpec.columns_read in *.
  fold n in Hnum, Hscan |- *.
  assert (Hsame : forall (P Q : Z * string -> Prop) l,
            (forall e, P e <-> Q e) -> List.Forall P l <-> List.Forall Q l).
  { intros P Q l HPQ. rewrite !Forall_forall.
    split; intros H e He; apply HPQ, H, He. }
  destruct (read_columns_first tokens 0 0 0 (CsvRecord_ctor zero))
    as [v [k [fl [Hr [Hi Hfl]]]]].
  - lia.
  - lia.
  - rewrite Z.sub_0_r, pending_all. lia.
  - rewrite Z.sub_0_r, pending_all.
    revert Hscan. apply Hsame. intros [k0 nm].
    unfold scans_at. cbn [fst snd]. rewrite Z.sub_0_r. reflexivity.
  - exists v, k, fl. split; [exact Hr|]. split; [|exact Hfl].
    rewrite Hi, Z.sub_0_r, pending_all.
    assert (Hok : List.Forall (ok_at 0 tokens)
                    (List.firstn (Z.to_nat n) (CsvConv.col2name conv)) <->
                  List.Forall
                    (fun e => LineSpec.column_ok sscanf_lg tokens e = true)
                    (List.firstn (Z.to_nat n) (CsvConv.col2name conv))).
    { apply Hsame. intros [k0 nm]. unfold ok_at. cbn [fst snd].
      rewrite Z.sub_0_r. reflexivity. }
    rewrite Hok. reflexivity.
Qed.
End RecordParserOrder.

(** ** Claims on the record parser and the reader *)

Lemma parse_csv_line_not_first {D : Type} (zero : D) (sep : string)
    (sscanf_lg : string -> scan D) (conv : CsvConv.t) (line : string)
    (first success : bool) (vals : CsvRecord D) :
  parse_csv_line zero sep sscanf_lg conv false line = Ok (first, success, vals) ->
  first = false /\ success = true.
Proof.
  unfold parse_csv_line.
  cbv zeta.
  destruct (bufSize <=? Z.of_nat (String.length (c_str line)))%Z;
    [discriminate|].
  destruct (read_columns _ _ _ _ _ _ _) as [[[v k] fl]| |]; cbn [bind];
    try discriminate.
  destruct (negb (k =? CsvConv.num_targets conv)%Z); cbn [negb andb].
  - discriminate.
  - destruct fl; cbn [negb andb]; [|discriminate].
    intros H. injection H as <- <- _. split; reflexivity.
Qed.

Lemma parse_csv_line_failed_first {D : Type} (zero : D) (sep : string)
    (sscanf_lg : string -> scan D) (conv : CsvConv.t) (line : string)
    (first : bool) (vals : CsvRecord D) :
  parse_csv_line zero sep sscanf_lg conv true line = Ok (first, false, vals) ->
  parse_csv_line zero sep sscanf_lg conv false line = Throw IOErr.
Proof.
  unfold parse_csv_line.
  cbv zeta.
  destruct (bufSize <=? Z.of_nat (String.length (c_str line)))%Z;
    [discriminate|].
  destruct (read_columns _ _ _ _ _ _ _) as [[[v k] fl]| |]; cbn [bind];
    try discriminate.
  destruct (negb (k =? CsvConv.num_targets conv)%Z); cbn [negb andb].
  - reflexivity.
  - destruct fl; cbn [negb andb]; [discriminate | reflexivity].
Qed.

(** The loop is left with [success] cleared only while fields are
    still missing. *)
Lemma read_columns_flag {D : Type} (sscanf_lg : string -> scan D)
    (conv : CsvConv.t) (tokens : list string) :
  forall (c nfr nvr : Z) (values values' : CsvRecord D) (nvr' : Z),
    read_columns sscanf_lg conv tokens c nfr nvr values
    = Ok (values', nvr', false) ->
    (nvr' < CsvConv.num_targets conv)%Z.
Proof.
  induction tokens as [|token tokens IH]; intros c nfr nvr values values' nvr' H;
    cbn [read_columns] in H; [discriminate|].
  destruct (Z.leb_spec (CsvConv.num_targets conv) nvr) as [Hfull|Hmore];
    [discriminate|].
  destruct (map_find Z.eqb c (CsvConv.col2name conv)) as [name|];
    [|exact (IH _ _ _ _ _ _ H)].
  destruct (String.eqb name "file"); [exact (IH _ _ _ _ _ _ H)|].
  destruct (sscanf_lg token) as [val| |]; [| |discriminate].
  - destruct (vec_set (point_data values) nfr val) as [pd| |]; cbn [bind] in H;
      try discriminate.
    exact (IH _ _ _ _ _ _ H).
  - injection H as _ <-. exact Hmore.
Qed.




(** What is left aside: a token on which [sscanf] reports an input
    failure (here the empty scan of [scan_digits] stands for it) leaves
    [val] unset, a fourth coordinate column is written past the end of
    the point, and a line of 2048 characters or more is copied without
    its terminator. *)
Lemma input_failure_is_undefined :
  read_columns (fun _ : string => @InputFailure Z) LineSpec.xyz_columns
    ["1"; "2"; "3"]%string 0 0 0 (CsvRecord_ctor 0%Z) = Undefined.
Proof. reflexivity. Qed.

Lemma fourth_coordinate_is_undefined :
  exists conv,
    CsvConv.parse_csv_format CsvConv.usual_defaults "1:x 2:y 3:z 4:lon"
      EmptyString = Ok conv /\
    parse_csv_line 0%Z LineSpec.comma_space_tab LineSpec.scan_digits conv
      false "1 2 3 4" = Undefined.
Proof. eexists. split; [vm_compute; reflexivity | reflexivity]. Qed.

Section Reader.
Variable D : Type.
Variable zero : D.
Variable csv_separator : string.
Variable sscanf_lg : string -> scan D.
Variable point_of : CsvConv.t -> CsvRecord D -> result (Vector3 D).

Let parse := parse_csv_line zero csv_separator sscanf_lg.
Let next := ReadNextPoint zero csv_separator sscanf_lg point_of.

Lemma read_passes_not_first (r : CsvReader D) (v1 v2 : CsvRecord D) :
  m_is_first_line r = false ->
  read_passes zero csv_separator sscanf_lg 1 r v1 =
  read_passes zero csv_separator sscanf_lg 2 r v2.
Proof.
  intros Hnf. cbn [read_passes].
  destruct (getline (m_ifs r)) as [[line rest]|]; [|reflexivity].
  rewrite Hnf.
  destruct (parse_csv_line zero csv_separator sscanf_lg (m_csv_conv r) false line)
    as [[[fst_ ok] vals]| |] eqn:Hp; cbn [bind]; try reflexivity.
  destruct (parse_csv_line_not_first _ _ _ _ _ _ _ _ Hp) as [_ ->].
  reflexivity.
Qed.

Lemma failed_line_not_first (r : CsvReader D) (line rest : string)
    (vals : CsvRecord D) :
  getline (m_ifs r) = Some (line, rest) ->
  parse (m_csv_conv r) true line = Ok (false, false, vals) ->
  m_is_first_line r = false ->
  next r = Throw IOErr.
Proof.
  intros Hg Hp Hnf. unfold next, ReadNextPoint. cbn [read_passes].
  rewrite Hg, Hnf.
  rewrite (parse_csv_line_failed_first _ _ _ _ _ _ _ Hp). reflexivity.
Qed.

Lemma failed_line_first (r : CsvReader D) (line rest : string)
    (vals : CsvRecord D) :
  getline (m_ifs r) = Some (line, rest) ->
  parse (m_csv_conv r) true line = Ok (false, false, vals) ->
  m_is_first_line r = true ->
  next r = next (LineSpec.after_header r rest).
Proof.
  intros Hg Hp Hf. unfold next, ReadNextPoint.
  rewrite <- (read_passes_not_first (LineSpec.after_header r rest) vals
                (CsvRecord_ctor zero) eq_refl).
  change (read_passes zero csv_separator sscanf_lg 2 r (CsvRecord_ctor zero))
    with (match getline (m_ifs r) with
          | None =>
              Ok ({| m_csv_conv := m_csv_conv r;
                     m_is_first_line := m_is_first_line r;
                     m_has_valid_point := false;
                     m_curr_point := m_curr_point r;
                     m_ifs := m_ifs r |}, None)
          | Some (line, rest) =>
              (p <- parse_csv_line zero csv_separator sscanf_lg
                      (m_csv_conv r) (m_is_first_line r) line ;;
               let '(is_first_line, success, vals') := p in
               let r' := {| m_csv_conv := m_csv_conv r;
                            m_is_first_line := is_first_line;
                            m_has_valid_point := true;
                            m_curr_point := m_curr_point r;
                            m_ifs := rest |} in
               if success then Ok (r', Some vals')
               else read_passes zero csv_separator sscanf_lg 1 r' vals')%result
          end).
  rewrite Hg, Hf. unfold parse in Hp. rewrite Hp. reflexivity.
Qed.
Lemma parse_csv_line_flag (conv : CsvConv.t) (first : bool) (line : string)
    (first' success : bool) (vals : CsvRecord D) :
  parse_csv_line zero csv_separator sscanf_lg conv first line
  = Ok (first', success, vals) -> first' = false.
Proof.
  unfold parse_csv_line.
  cbv zeta.
  destruct (bufSize <=? Z.of_nat (String.length (c_str line)))%Z;
    [discriminate|].
  destruct (read_columns _ _ _ _ _ _ _) as [[[v k] fl]| |]; cbn [bind];
    try discriminate.
  destruct (negb _ && negb first); [discriminate|].
  intros H. injection H as <- _ _. reflexivity.
Qed.

Lemma read_passes_flag (passes : nat) :
  forall (r r' : CsvReader D) (v v' : CsvRecord D),
    read_passes zero csv_separator sscanf_lg passes r v = Ok (r', Some v') ->
    m_is_first_line r = false \/ (0 < passes)%nat ->
    m_is_first_line r' = false.
Proof.
  induction passes as [|passes IH]; intros r r' v v' H Hflag;
    cbn [read_passes] in H.
  - injection H as <- _. destruct Hflag as [Hf|Hp]; [exact Hf | lia].
  - destruct (getline (m_ifs r)) as [[line rest]|]; [|discriminate].
    destruct (parse_csv_line zero csv_separator sscanf_lg (m_csv_conv r)
                (m_is_first_line r) line) as [[[fl ok] vals]| |] eqn:Hp;
      cbn [bind] in H; try discriminate.
    pose proof (parse_csv_line_flag _ _ _ _ _ _ Hp) as ->.
    destruct ok.
    + injection H as <- _. reflexivity.
    + apply (IH _ _ _ _ H). left. reflexivity.
Qed.

Lemma read_passes_eof (passes : nat) :
  forall (r r' : CsvReader D) (v : CsvRecord D),
    read_passes zero csv_separator sscanf_lg passes r v = Ok (r', None) ->
    m_has_valid_point r' = false.
Proof.
  induction passes as [|passes IH]; intros r r' v H; cbn [read_passes] in H;
    [discriminate|].
  destruct (getline (m_ifs r)) as [[line rest]|].
  - destruct (parse_csv_line zero csv_separator sscanf_lg (m_csv_conv r)
                (m_is_first_line r) line) as [[[fl ok] vals]| |];
      cbn [bind] in H; try discriminate.
    destruct ok; [discriminate|]. exact (IH _ _ _ H).
  - injection H as <-. reflexivity.
Qed.

Lemma ReadNextPoint_clears_flag (r r' : CsvReader D) :
  next r = Ok (true, r') -> m_is_first_line r' = false.
Proof.
  unfold next, ReadNextPoint. intros H.
  destruct (read_passes zero csv_separator sscanf_lg 2 r (CsvRecord_ctor zero))
    as [[r1 [vals|]]| |] eqn:Hp; cbn [bind] in H; try discriminate.
  - pose proof (read_passes_flag 2 _ _ _ _ Hp (or_intror (Nat.lt_0_succ 1))) as Hf.
    destruct (point_of (m_csv_conv r1) vals) as [pt| |]; cbn [bind] in H;
      try discriminate.
    injection H as _ <-. exact Hf.
  - pose proof (read_passes_eof 2 _ _ _ Hp) as He.
    injection H as Hb _. congruence.
Qed.
End Reader.

(** C4.  A line that fails to parse, met by the reader: as the first
    line it is passed over without an error and the call goes on exactly
    as a call on the rest of the source would with the first-line flag
    cleared; met with the flag cleared it makes the call throw.  Hence a
    second failing line right after a failing first line throws too:
    there is one retry only.  Every call that delivers a point leaves
    the flag cleared, so that all later lines are read that way. *)
Theorem header_line_retry {D : Type} (zero : D) (csv_separator : string)
    (sscanf_lg : string -> scan D)
    (point_of : CsvConv.t -> CsvRecord D -> result (Vector3 D))
    (r : CsvReader D) (line rest : string) (vals : CsvRecord D) :
  getline (m_ifs r) = Some (line, rest) ->
  parse_csv_line zero csv_separator sscanf_lg (m_csv_conv r) true line
  = Ok (false, false, vals) ->
  (m_is_first_line r = true ->
   ReadNextPoint zero csv_separator sscanf_lg point_of r =
   ReadNextPoint zero csv_separator sscanf_lg point_of
     (LineSpec.after_header r rest)) /\
  (m_is_first_line r = false ->
   ReadNextPoint zero csv_separator sscanf_lg point_of r = Throw IOErr) /\
  (m_is_first_line r = true ->
   forall (line2 rest2 : string) (vals2 : CsvRecord D),
     getline rest = Some (line2, rest2) ->
     parse_csv_line zero csv_separator sscanf_lg (m_csv_conv r) true line2
     = Ok (false, false, vals2) ->
     ReadNextPoint zero csv_separator sscanf_lg point_of r = Throw IOErr) /\
  (forall r0 r1 : CsvReader D,
     ReadNextPoint zero csv_separator sscanf_lg point_of r0 = Ok (true, r1) ->
     m_is_first_line r1 = false).
Proof.
  intros Hg Hp. split; [|split; [|split]].
  - intros Hf. exact (failed_line_first D zero csv_separator sscanf_lg point_of
                        r line rest vals Hg Hp Hf).
  - intros Hnf. exact (failed_line_not_first D zero csv_separator sscanf_lg
                         point_of r line rest vals Hg Hp Hnf).
  - intros Hf line2 rest2 vals2 Hg2 Hp2.
    rewrite (failed_line_first D zero csv_separator sscanf_lg point_of
               r line rest vals Hg Hp Hf).
    exact (failed_line_not_first D zero csv_separator sscanf_lg point_of
             (LineSpec.after_header r rest) line2 rest2 vals2 Hg2 Hp2 eq_refl).
  - exact (ReadNextPoint_clears_flag D zero csv_separator sscanf_lg point_of).
Qed.

(** A header line followed by one record: the first call delivers the
    record. *)
Lemma header_line_retry_witness :
  let text := String.append "x y z" (String newline
               (String.append "1 2 3" (String newline EmptyString))) in
  let point_of := fun conv vals => sort_parsed_vector3 0%Z conv vals in
  let r := CsvReader_ctor 0%Z text LineSpec.xyz_columns in
  ReadNextPoint 0%Z LineSpec.comma_space_tab LineSpec.scan_digits point_of r
  = Ok (true,
        {| m_csv_conv := LineSpec.xyz_columns; m_is_first_line := false;
           m_has_valid_point := true; m_curr_point := (1, 2, 3)%Z;
           m_ifs := EmptyString |}).
Proof.
  intros text point_of r.
  destruct (header_line_retry 0%Z LineSpec.comma_space_tab LineSpec.scan_digits
              point_of r "x y z"%string
              (String.append "1 2 3" (String newline EmptyString))
              (CsvRecord_ctor 0%Z) eq_refl eq_refl) as [H _].
  exact (eq_trans (H eq_refl) eq_refl).
Defined.

(** C10.  The point-count estimate is the number of lines of the text
    that are not empty and do not start with ['#'], whereas the record
    parser has no such filter: given a blank line it reports a failure
    or throws like on any other line that lacks fields. *)
Theorem csv_file_size_counts (text : string) :
  (Spec.counted (Spec.file_lines text) <= Int.INT_MAX)%Z ->
  PointUtils.csv_file_size (Some text)
  = Ok (Spec.counted (Spec.file_lines text)) /\
  (forall l, PointUtils.is_valid_csv_line l = Spec.counted_line l) /\
  (forall (D : Type) (zero : D) (sep : string) (sscanf_lg : string -> scan D)
          (conv : CsvConv.t),
      (0 < CsvConv.num_targets conv)%Z ->
      parse_csv_line zero sep sscanf_lg conv true EmptyString
      = Ok (false, false, CsvRecord_ctor zero) /\
      parse_csv_line zero sep sscanf_lg conv false EmptyString = Throw IOErr).
Proof.
  intros Hmax. split; [|split].
  - unfold PointUtils.csv_file_size.
    rewrite csv_file_size_loop_counts; [reflexivity | lia | lia | lia].
  - exact is_valid_csv_line_counted.
  - intros D zero sep sscanf_lg conv Hn.
    unfold parse_csv_line. cbv zeta.
    cbn [c_str String.length Z.of_nat strtok_all is_empty read_columns bind].
    change (bufSize <=? 0)%Z with false. cbv iota.
    assert (Hne : (0 =? CsvConv.num_targets conv)%Z = false)
      by (apply Z.eqb_neq; lia).
    rewrite Hne. split; reflexivity.
Qed.

(** Two records, a comment, a blank line and a third record: three
    lines are counted, while the record parser throws on the comment. *)
Lemma csv_file_size_counts_witness :
  let text := String.append "0 0 0" (String newline
               (String.append "# note" (String newline
                 (String newline (String.append "1 0 0" (String newline
                   (String.append "0 1 5" EmptyString))))))) in
  PointUtils.csv_file_size (Some text) = Ok 3%Z /\
  parse_csv_line 0%Z LineSpec.comma_space_tab LineSpec.scan_digits
    LineSpec.xyz_columns false "# note" = Throw IOErr.
Proof.
  intros text.
  assert (H : (Spec.counted (Spec.file_lines text) <= Int.INT_MAX)%Z)
    by (vm_compute; discriminate).
  split; [|reflexivity].
  exact (eq_trans (proj1 (csv_file_size_counts text H)) eq_refl).
Defined.

(** ** The format descriptor *)

(** Case analysis on every test of a chain of conditionals, dropping
    the branches that end in a different kind of outcome. *)
Ltac case_ifs :=
  repeat match goal with
         | |- context [if ?b then _ else _] => destruct b; try discriminate
         end.

Lemma map_put_fresh_keys {V : Type} (k : Z) (v : V) (m : list (Z * V)) :
  map_find Z.eqb k m = None ->
  Permutation (List.map fst (map_put Z.eqb Z.ltb k v m)) (k :: List.map fst m).
Proof.
  induction m as [|[k' v'] m IH]; intros Hfind; cbn [map_put List.map fst].
  - reflexivity.
  - cbn [map_find] in Hfind. destruct (Z.eqb k k'); [discriminate|].
    destruct (Z.ltb k k'); cbn [List.map fst].
    + reflexivity.
    + rewrite (IH Hfind). apply perm_swap.
Qed.

Lemma map_put_keys_in {K V : Type} (keqb kltb : K -> K -> bool)
    (k : K) (v : V) (m : list (K * V)) (x : K) :
  (forall a b, keqb a b = true -> a = b) ->
  In x (List.map fst (map_put keqb kltb k v m)) ->
  x = k \/ In x (List.map fst m).
Proof.
  intros Heq. induction m as [|[k' v'] m IH]; cbn [map_put List.map fst].
  - intros [H|[]]; auto.
  - destruct (keqb k k') eqn:E.
    + apply Heq in E. subst k'. cbn [List.map fst]. intros [H|H]; auto.
      right. right. exact H.
    + destruct (kltb k k'); cbn [List.map fst].
      * intros [H|H]; auto.
      * intros [H|H]; [right; left; exact H|].
        destruct (IH H) as [H'|H']; auto. right. right. exact H'.
Qed.

Lemma map_put_keys_grow {V : Type} (k : Z) (v : V) (m : list (Z * V)) (x : Z) :
  x = k \/ In x (List.map fst m) ->
  In x (List.map fst (map_put Z.eqb Z.ltb k v m)).
Proof.
  induction m as [|[k' v'] m IH]; cbn [map_put List.map fst].
  - intros [H|[]]. left. symmetry. exact H.
  - destruct (Z.eqb_spec k k') as [->|Hne]; [|destruct (Z.ltb k k')];
      cbn [List.map fst].
    + intros [H|[H|H]]; [left; symmetry; exact H | left; exact H
                        | right; exact H].
    + intros [H|H]; [left; symmetry; exact H | right; exact H].
    + intros [H|[H|H]].
      * right. apply IH. left. exact H.
      * left. exact H.
      * right. apply IH. right. exact H.
Qed.

Lemma map_put_fresh_perm {V : Type} (k : Z) (v : V) (m : list (Z * V)) :
  ~ In k (List.map fst m) ->
  Permutation (map_put Z.eqb Z.ltb k v m) ((k, v) :: m).
Proof.
  induction m as [|[k' v'] m IH]; intros Hk; cbn [map_put]; [reflexivity|].
  cbn [List.map fst] in Hk.
  destruct (Z.eqb_spec k k') as [->|Hne]; [exfalso; apply Hk; left; reflexivity|].
  destruct (Z.ltb k k'); [reflexivity|].
  rewrite IH by (intros H; apply Hk; right; exact H). apply perm_swap.
Qed.

(** The columns that the names stand for are pairwise different. *)
Lemma read_declarations_columns (fuel : nat) :
  forall ist n2c c2n n2c' c2n',
    CsvConv.read_declarations fuel ist n2c c2n = Ok (n2c', c2n') ->
    NoDup (List.map fst c2n) ->
    List.Forall (fun c => (0 <= c)%Z) (List.map fst c2n) ->
    NoDup (List.map fst c2n') /\
    List.Forall (fun c => (0 <= c)%Z) (List.map fst c2n').
Proof.
  induction fuel as [|fuel IH]; intros ist n2c c2n n2c' c2n' Hr Hnd Hpos;
    cbn [CsvConv.read_declarations] in Hr;
    destruct (good ist).
  - discriminate.
  - injection Hr as <- <-. split; assumption.
  - destruct (extract_int ist 0) as [is1 col].
    destruct (extract_string is1 EmptyString) as [is2 name].
    destruct (failbit is2); [discriminate|].
    unfold Int.check in Hr.
    destruct (Int.in_range (col - 1)); cbn [bind] in Hr; [|discriminate].
    destruct (Z.ltb_spec (col - 1) 0) as [Hneg|Hge]; [discriminate|].
    cbn [orb] in Hr. unfold map_count in Hr.
    destruct (map_find Z.eqb (col - 1)%Z c2n) eqn:Hfind; [discriminate|].
    pose proof (map_put_fresh_keys (col - 1)%Z name c2n Hfind) as Hperm.
    apply (IH _ _ _ _ _ Hr).
    + apply (Permutation_NoDup (Permutation_sym Hperm)).
      constructor; [apply map_find_None; exact Hfind | exact Hnd].
    + apply (Permutation_Forall (Permutation_sym Hperm)).
      constructor; assumption.
  - injection Hr as <- <-. split; assumption.
Qed.

Lemma read_declarations_throws (fuel : nat) :
  forall ist n2c c2n e,
    CsvConv.read_declarations fuel ist n2c c2n = Throw e -> e = ArgumentErr.
Proof.
  induction fuel as [|fuel IH]; intros ist n2c c2n e Hr;
    cbn [CsvConv.read_declarations] in Hr;
    destruct (good ist); try discriminate.
  destruct (extract_int ist 0) as [is1 col].
  destruct (extract_string is1 EmptyString) as [is2 name].
  destruct (failbit is2); [injection Hr as <-; reflexivity|].
  unfold Int.check in Hr.
  destruct (Int.in_range (col - 1)); cbn [bind] in Hr; [|discriminate].
  destruct ((col - 1 <? 0)%Z || map_count Z.eqb (col - 1)%Z c2n);
    [injection Hr as <-; reflexivity|].
  exact (IH _ _ _ _ Hr).
Qed.

Lemma get_sorted_index_throws (name : string) (e : exn) :
  CsvConv.get_sorted_index_for_name name = Throw e -> e = ArgumentErr.
Proof.
  unfold CsvConv.get_sorted_index_for_name.
  case_ifs.
  intros H. injection H as <-. reflexivity.
Qed.

Lemma names_set_in (names : list string) :
  forall index name names' s,
    CsvConv.names_set names index name = Ok names' ->
    In s names' -> s = name \/ In s names.
Proof.
  induction names as [|n0 names IH]; intros index name names' s Hset Hin;
    [discriminate|].
  destruct index as [|index]; cbn [CsvConv.names_set] in Hset.
  - injection Hset as <-. destruct Hin as [H|H]; [left; auto | right; right; exact H].
  - destruct (CsvConv.names_set names index name) as [r| |] eqn:E; cbn [bind] in Hset;
      try discriminate.
    injection Hset as <-. destruct Hin as [H|H]; [right; left; exact H|].
    destruct (IH _ _ _ _ E H); auto. right. right. assumption.
Qed.

Lemma names_set_throws (names : list string) :
  forall index name e, CsvConv.names_set names index name <> Throw e.
Proof.
  induction names as [|n0 names IH]; intros index name e; [discriminate|].
  destruct index as [|index]; cbn [CsvConv.names_set]; [discriminate|].
  specialize (IH index name e).
  destruct (CsvConv.names_set names index name); cbn [bind]; congruence.
Qed.

Lemma sort_names_in (n2c : list (string * Z)) :
  forall names c2s names' c2s' s,
    CsvConv.sort_names n2c names c2s = Ok (names', c2s') ->
    In s names' -> In s names \/ In s (List.map fst n2c).
Proof.
  induction n2c as [|[name col] n2c IH]; intros names c2s names' c2s' s Hs Hin;
    cbn [CsvConv.sort_names] in Hs.
  - injection Hs as <- <-. left. exact Hin.
  - destruct (CsvConv.get_sorted_index_for_name name) as [index| |];
      cbn [bind] in Hs; try discriminate.
    destruct (CsvConv.names_set names (Z.to_nat index) name) as [nm| |] eqn:E;
      cbn [bind] in Hs; try discriminate.
    destruct (IH _ _ _ _ _ Hs Hin) as [H|H].
    + destruct (names_set_in _ _ _ _ _ E H) as [->|H'].
      * right. left. reflexivity.
      * left. exact H'.
    + right. right. exact H.
Qed.

Lemma sort_names_throws (n2c : list (string * Z)) :
  forall names c2s e,
    CsvConv.sort_names n2c names c2s = Throw e -> e = ArgumentErr.
Proof.
  induction n2c as [|[name col] n2c IH]; intros names c2s e Hs;
    cbn [CsvConv.sort_names] in Hs; [discriminate|].
  destruct (CsvConv.get_sorted_index_for_name name) as [index| |] eqn:Ei;
    cbn [bind] in Hs; try discriminate.
  - destruct (CsvConv.names_set names (Z.to_nat index) name) as [nm| |] eqn:E;
      cbn [bind] in Hs; try discriminate.
    + exact (IH _ _ _ Hs).
    + exfalso. exact (names_set_throws _ _ _ _ E).
  - injection Hs as <-. exact (get_sorted_index_throws _ _ Ei).
Qed.

Lemma nth_nonempty_in (i : nat) (names : list string) (s : string) :
  String.eqb (List.nth i names EmptyString) s = true ->
  s <> EmptyString -> In s names.
Proof.
  intros Heq Hne. apply String.eqb_eq in Heq. subst s.
  destruct (Nat.lt_ge_cases i (List.length names)) as [Hlt|Hge].
  - apply nth_In. exact Hlt.
  - rewrite nth_overflow in Hne by assumption. congruence.
Qed.

Lemma select_format_names (names : list string) (f : CsvConv.CsvFormat) :
  CsvConv.select_format names = Ok f ->
  incl (LineSpec.scheme_names f) names.
Proof.
  unfold CsvConv.select_format.
  repeat match goal with
         | |- context [if ?b then _ else _] =>
             let E := fresh "E" in destruct b eqn:E
         end;
    intros H; try discriminate; injection H as <-;
    repeat match goal with
           | E : (_ && _)%bool = true |- _ => apply andb_true_iff in E; destruct E
           end;
    intros s Hs; cbn [LineSpec.scheme_names In] in Hs;
    repeat match goal with
           | H : _ \/ _ |- _ => destruct H
           | H : False |- _ => destruct H
           end; subst s;
    (eapply nth_nonempty_in; [eassumption | discriminate]).
Qed.

Lemma select_format_throws (names : list string) (e : exn) :
  CsvConv.select_format names = Throw e -> e = ArgumentErr.
Proof.
  unfold CsvConv.select_format.
  case_ifs.
  intros H. injection H as <-. reflexivity.
Qed.

Lemma parse_utm_str_throws (utm : string) (e : exn) :
  CsvConv.parse_utm_str utm = Throw e -> e = ArgumentErr.
Proof.
  unfold CsvConv.parse_utm_str. destruct (span isdigit utm) as [a rest].
  destruct (is_empty a || _); [intros H; injection H as <-; reflexivity|].
  unfold Int.check. destruct (Int.in_range _); cbn [bind]; [|discriminate].
  case_ifs.
  intros H. injection H as <-. reflexivity.
Qed.

Lemma string_map_empty (g : ascii -> ascii) (s : string) :
  String.eqb (string_map g s) EmptyString = true -> s = EmptyString.
Proof. destruct s; [reflexivity | discriminate]. Qed.

Lemma in_repeat_empty (n : nat) (s : string) :
  In s (List.repeat EmptyString n) -> s = EmptyString.
Proof. intros H. apply repeat_spec in H. exact H. Qed.

(** The bound on the passes of [read_declarations] is never reached:
    a pass that goes on has consumed at least one character. *)

Lemma skipws_length (s : string) :
  (String.length (skipws s) <= String.length s)%nat.
Proof.
  induction s as [|c s IH]; simpl; [lia|].
  destruct (isspace c); simpl; lia.
Qed.

Lemma skipws_head (s : string) (c : ascii) (s' : string) :
  skipws s = String c s' -> isspace c = false.
Proof.
  induction s as [|d s IH]; simpl; [discriminate|].
  destruct (isspace d) eqn:E; [exact IH|].
  intros H. injection H as <- _. exact E.
Qed.

Lemma span_length (p : ascii -> bool) (s : string) :
  (String.length (fst (span p s)) + String.length (snd (span p s))
   = String.length s)%nat.
Proof.
  induction s as [|c s IH]; simpl; [reflexivity|].
  destruct (p c); [|simpl; lia].
  destruct (span p s) as [w r]. simpl in *. lia.
Qed.

Lemma extract_int_length (ist : istringstream) (n : Z) :
  (String.length (buf (fst (extract_int ist n))) <= String.length (buf ist))%nat.
Proof.
  unfold extract_int. destruct (negb (good ist)); [simpl; lia|].
  pose proof (skipws_length (buf ist)) as Hws.
  destruct (skipws (buf ist)) as [|c s'] eqn:E; [simpl; lia|].
  match goal with
  | |- context [let '(negative, b1) := ?sgn in _] =>
      assert (Hb : (String.length (snd sgn) <= String.length (String c s'))%nat)
        by (destruct (Ascii.eqb c "-"); [|destruct (Ascii.eqb c "+")];
            simpl; lia);
      destruct sgn as [negative b1]
  end.
  cbn [snd] in Hb.
  pose proof (span_length isdigit b1) as Hl.
  destruct (span isdigit b1) as [digits rest]. cbn [fst snd] in Hl.
  destruct (is_empty digits); [simpl; lia|].
  match goal with
  | |- context [Int.in_range ?v] => destruct (Int.in_range v); simpl; lia
  end.
Qed.

Lemma extract_string_length (ist : istringstream) (str : string) :
  failbit (fst (extract_string ist str)) = false ->
  (String.length (buf (fst (extract_string ist str))) < String.length (buf ist))%nat.
Proof.
  unfold extract_string. destruct (negb (good ist)); [simpl; discriminate|].
  pose proof (skipws_length (buf ist)) as Hws.
  destruct (skipws (buf ist)) as [|c s'] eqn:E; [simpl; discriminate|].
  pose proof (skipws_head _ _ _ E) as Hc.
  pose proof (span_length (fun c => negb (isspace c)) (String c s')) as Hl.
  cbn [span] in *. rewrite Hc in *. cbn [negb] in *.
  destruct (span (fun c => negb (isspace c)) s') as [w rest].
  simpl in *. intros _. lia.
Qed.

Lemma read_declarations_fuel (fuel1 : nat) :
  forall (fuel2 : nat) (ist : istringstream) n2c c2n,
    (String.length (buf ist) < fuel1)%nat ->
    (String.length (buf ist) < fuel2)%nat ->
    CsvConv.read_declarations fuel1 ist n2c c2n =
    CsvConv.read_declarations fuel2 ist n2c c2n.
Proof.
  induction fuel1 as [|fuel1 IH]; intros fuel2 ist n2c c2n H1 H2; [lia|].
  destruct fuel2 as [|fuel2]; [lia|].
  cbn [CsvConv.read_declarations].
  destruct (good ist); [|reflexivity].
  pose proof (extract_int_length ist 0) as Hi.
  destruct (extract_int ist 0) as [is1 col]. cbn [fst] in Hi.
  pose proof (extract_string_length is1 EmptyString) as Hs.
  destruct (extract_string is1 EmptyString) as [is2 name]. cbn [fst] in Hs.
  destruct (failbit is2); [reflexivity|]. specialize (Hs eq_refl).
  destruct (Int.check (col - 1)) as [col'| |]; cbn [bind]; try reflexivity.
  destruct ((col' <? 0)%Z || map_count Z.eqb col' c2n); [reflexivity|].
  apply IH; lia.
Qed.

Lemma parse_csv_format_inv (d : CsvConv.defaults)
    (csv_format_str csv_proj4_str : string) (conv : CsvConv.t) :
  CsvConv.parse_csv_format d csv_format_str csv_proj4_str = Ok conv ->
  csv_format_str <> EmptyString ->
  exists fuel ist n2c c2n names c2s,
    CsvConv.read_declarations fuel ist [] [] = Ok (n2c, c2n) /\
    (3 <= Z.of_nat (List.length n2c) <= 4)%Z /\
    CsvConv.sort_names n2c (List.repeat EmptyString (List.length n2c)) []
    = Ok (names, c2s) /\
    CsvConv.select_format names = Ok (CsvConv.format conv) /\
    CsvConv.name2col conv = n2c /\ CsvConv.col2name conv = c2n /\
    CsvConv.num_targets conv = Z.of_nat (List.length n2c).
Proof.
  unfold CsvConv.parse_csv_format. intros H Hne.
  destruct (contains "D_MOON" csv_proj4_str || contains "D_MARS" csv_proj4_str);
    [discriminate|].
  destruct (String.eqb (string_map tolower csv_format_str) EmptyString) eqn:Hempty.
  { apply string_map_empty in Hempty. contradiction. }
  destruct (extract_string _ EmptyString) as [is1 str].
  match type of H with
  | bind ?u _ = _ => destruct u as [[[is3 zone] north]| |] eqn:Hutm
  end; cbn [bind] in H; try discriminate.
  match type of H with
  | bind ?u _ = _ => destruct u as [[n2c c2n]| |] eqn:Hdecl
  end; cbn [bind] in H; try discriminate.
  destruct ((Z.of_nat (List.length n2c) <? CsvConv.MIN_NUM_TARGETS)%Z
            || (CsvConv.MAX_NUM_TARGETS <? Z.of_nat (List.length n2c))%Z)
    eqn:Hrange; [discriminate|].
  apply orb_false_iff in Hrange. destruct Hrange as [Hlo Hhi].
  apply Z.ltb_ge in Hlo, Hhi.
  match type of H with
  | bind ?u _ = _ => destruct u as [[names c2s]| |] eqn:Hsort
  end; cbn [bind] in H; try discriminate.
  destruct (CsvConv.select_format names) as [fmt| |] eqn:Hfmt;
    cbn [bind] in H; try discriminate.
  injection H as <-. cbn.
  exists (S (String.length
               (string_map CsvConv.separators_to_space
                  (string_map tolower csv_format_str)))), is3, n2c, c2n, names, c2s.
  unfold CsvConv.MIN_NUM_TARGETS, CsvConv.MAX_NUM_TARGETS,
    CsvConv.NUM_POINT_VALS in *.
  repeat split; try assumption; lia.
Qed.

Lemma parse_csv_format_throws (d : CsvConv.defaults)
    (csv_format_str csv_proj4_str : string) (e : exn) :
  CsvConv.parse_csv_format d csv_format_str csv_proj4_str = Throw e ->
  e = ArgumentErr.
Proof.
  unfold CsvConv.parse_csv_format. intros H.
  destruct (contains "D_MOON" csv_proj4_str || contains "D_MARS" csv_proj4_str);
    [injection H as <-; reflexivity|].
  destruct (String.eqb (string_map tolower csv_format_str) EmptyString);
    [discriminate|].
  destruct (extract_string _ EmptyString) as [is1 str].
  match type of H with
  | bind ?u _ = _ => destruct u as [[[is3 zone] north]| |] eqn:Hutm
  end; cbn [bind] in H; try discriminate.
  - match type of H with
    | bind ?u _ = _ => destruct u as [[n2c c2n]| |] eqn:Hdecl
    end; cbn [bind] in H; try discriminate.
    + destruct ((_ <? _)%Z || (_ <? _)%Z); [injection H as <-; reflexivity|].
      match type of H with
      | bind ?u _ = _ => destruct u as [[names c2s]| |] eqn:Hsort
      end; cbn [bind] in H; try discriminate.
      * destruct (CsvConv.select_format names) as [fmt| |] eqn:Hfmt;
          cbn [bind] in H; try discriminate.
        injection H as H. rewrite <- H. exact (select_format_throws _ _ Hfmt).
      * injection H as H. rewrite <- H. exact (sort_names_throws _ _ _ _ Hsort).
    + injection H as H. rewrite <- H. exact (read_declarations_throws _ _ _ _ _ Hdecl).
  - injection H as H. rewrite <- H.
    destruct (String.eqb str "utm"); [|discriminate].
    destruct (extract_string is1 str) as [is2 str2].
    destruct (CsvConv.parse_utm_str str2) as [zn| |] eqn:Hz; cbn [bind] in Hutm;
      try discriminate.
    injection Hutm as Hutm. rewrite <- Hutm. exact (parse_utm_str_throws _ _ Hz).
Qed.


(** ** Coordinate conversions *)

Section Conversions.
Local Open Scope R_scope.

Lemma norm_2_nonneg (v : Vector3 R) : 0 <= Conv.norm_2 v.
Proof. destruct v as [[x y] z]. apply sqrt_pos. Qed.

Lemma norm_2_rescale (s : R) (v : Vector3 R) :
  0 <= s -> Conv.norm_2 v <> 0 ->
  Conv.norm_2 (Conv.rescale s v (Conv.norm_2 v)) = s.
Proof.
  destruct v as [[x y] z]. intros Hs Hn.
  set (n := Conv.norm_2 (x, y, z)) in *.
  assert (Hsq : n * n = x * x + y * y + z * z).
  { unfold n, Conv.norm_2. apply sqrt_sqrt. nra. }
  unfold Conv.rescale, Conv.norm_2.
  replace (s * (x / n) * (s * (x / n)) + s * (y / n) * (s * (y / n))
           + s * (z / n) * (s * (z / n)))
    with (s * s).
  - apply sqrt_square. exact Hs.
  - transitivity (s * s * ((x * x + y * y + z * z) / (n * n))).
    + rewrite <- Hsq. field. exact Hn.
    + field. exact Hn.
Qed.

Lemma Int_part_eq (r : R) (z : Z) : IZR z <= r -> r < IZR z + 1 -> Int_part r = z.
Proof. intros H1 H2. symmetry. apply Int_part_spec. lra. Qed.

Lemma round_shift (x : R) (m : Z) :
  - / 2 < x < / 2 -> Conv.round (x - IZR m) = - IZR m.
Proof.
  intros Hx. unfold Conv.round.
  destruct (Rle_dec 0 (x - IZR m)) as [Hpos|Hneg].
  - rewrite (Int_part_eq (x - IZR m + / 2) (- m)).
    + apply opp_IZR.
    + rewrite opp_IZR. lra.
    + rewrite opp_IZR. lra.
  - rewrite (Int_part_eq (- (x - IZR m) + / 2) m); [reflexivity | lra | lra].
Qed.

Lemma longitude_adjust (mean lon : R) (m : Z) :
  RoundTrip.near mean lon ->
  lon + 360 * IZR m
  + 360 * Conv.round ((mean - (lon + 360 * IZR m)) / 360) = lon.
Proof.
  unfold RoundTrip.near. intros Hnear.
  replace ((mean - (lon + 360 * IZR m)) / 360)
    with ((mean - lon) / 360 - IZR m) by field.
  rewrite round_shift by lra. ring.
Qed.

Lemma round_close (y : R) :
  exists m : Z, Conv.round y = IZR m /\ - / 2 <= IZR m - y <= / 2.
Proof.
  unfold Conv.round. destruct (Rle_dec 0 y) as [Hpos|Hneg].
  - exists (Int_part (y + / 2)). split; [reflexivity|].
    destruct (base_Int_part (y + / 2)) as [H1 H2]. lra.
  - exists (- Int_part (- y + / 2))%Z. split; [symmetry; apply opp_IZR|].
    rewrite opp_IZR. destruct (base_Int_part (- y + / 2)) as [H1 H2]. lra.
Qed.

(** The adjusted longitude differs from the given one by whole turns
    and no other choice of turns comes nearer to the mean longitude. *)
Lemma longitude_adjust_nearest (mean l0 : R) :
  exists m : Z,
    l0 + 360 * Conv.round ((mean - l0) / 360) = l0 + 360 * IZR m /\
    forall m' : Z,
      Rabs (mean - (l0 + 360 * IZR m)) <= Rabs (mean - (l0 + 360 * IZR m')).
Proof.
  destruct (round_close ((mean - l0) / 360)) as [m [Hr Hm]].
  exists m. split; [rewrite Hr; reflexivity|].
  intros m'.
  assert (Hy : mean - l0 = 360 * ((mean - l0) / 360)) by field.
  set (y := (mean - l0) / 360) in *.
  replace (mean - (l0 + 360 * IZR m)) with (360 * (y - IZR m)) by lra.
  replace (mean - (l0 + 360 * IZR m')) with (360 * (y - IZR m')) by lra.
  destruct (Z.eq_dec m' m) as [->|Hne]; [apply Rle_refl|].
  assert (Hd : IZR m' - IZR m >= 1 \/ IZR m' - IZR m <= -1).
  { destruct (Z_lt_le_dec m' m) as [Hlt|Hge].
    - right. assert (H : (m' - m <= -1)%Z) by lia.
      apply IZR_le in H. rewrite minus_IZR in H. exact H.
    - left. assert (H : (1 <= m' - m)%Z) by lia.
      apply IZR_le in H. rewrite minus_IZR in H. lra. }
  unfold Rabs. destruct (Rcase_abs _), (Rcase_abs _); lra.
Qed.

Lemma col2sort_cases (c2s : list (Z * Z)) :
  Permutation (List.map snd c2s) [0; 1; 2]%Z ->
  exists c0 c1 c2 i0 i1 i2,
    c2s = [(c0, i0); (c1, i1); (c2, i2)] /\
    In (i0, i1, i2)
       [(0, 1, 2); (0, 2, 1); (1, 0, 2); (1, 2, 0); (2, 0, 1); (2, 1, 0)]%Z.
Proof.
  intros Hperm.
  pose proof (Permutation_length Hperm) as Hlen.
  destruct c2s as [ | [c0 i0] [ | [c1 i1] [ | [c2 i2] [ | ? ? ] ] ] ];
    try discriminate.
  exists c0, c1, c2, i0, i1, i2. split; [reflexivity|].
  cbn [List.map snd] in Hperm.
  assert (Hnd : NoDup [i0; i1; i2]).
  { apply (Permutation_NoDup (Permutation_sym Hperm)).
    repeat constructor; cbn; intuition discriminate. }
  assert (Hin : forall x, In x [i0; i1; i2] -> (x = 0 \/ x = 1 \/ x = 2)%Z).
  { intros x Hx. apply (Permutation_in _ Hperm) in Hx. cbn in Hx.
    intuition auto. }
  assert (H01 : i0 <> i1 /\ i0 <> i2 /\ i1 <> i2).
  { inversion Hnd as [|? ? Ha Hnd1]; subst.
    inversion Hnd1 as [|? ? Hb _]; subst. cbn in Ha, Hb. intuition auto. }
  destruct H01 as [H01 [H02 H12]].
  destruct (Hin i0 ltac:(cbn; auto)) as [ -> | [ -> | -> ] ];
    destruct (Hin i1 ltac:(cbn; auto)) as [ -> | [ -> | -> ] ];
    destruct (Hin i2 ltac:(cbn; auto)) as [ -> | [ -> | -> ] ];
    try contradiction; cbn; auto 10.
Qed.

Variable conv : CsvConv.t.
Hypothesis Hc2s : Permutation (List.map snd (CsvConv.col2sort conv)) [0; 1; 2]%Z.

(** Sorting the values of a record by name and putting them back in
    column order are inverse to each other. *)
Lemma sort_unsort (p : Vector3 R) (f : string) :
  exists o,
    sort_parsed_vector3 0 conv {| point_data := p; file := f |} = Ok o /\
    unsort_vector3 0 conv o = Ok p.
Proof.
  destruct (col2sort_cases _ Hc2s) as [c0 [c1 [c2 [i0 [i1 [i2 [Heq Hin]]]]]]].
  unfold sort_parsed_vector3, unsort_vector3. rewrite Heq.
  destruct p as [[a b] c].
  cbn in Hin.
  repeat match goal with
         | H : _ \/ _ |- _ => destruct H as [H|H]
         end; try contradiction;
    injection Hin as <- <- <-; eexists; split; reflexivity.
Qed.
End Conversions.
(** ** Geodetic coordinates on an ellipsoid *)

Section Meridian.
Local Open Scope R_scope.

(** Two points of a meridian ellipse with outward unit normals
    [(c1, s1)] and [(c2, s2)], carried along their normals by
    non-negative heights to the same place, are the same point. *)
Lemma meridian_unique (a b2 s1 c1 W1 h1 s2 c2 W2 h2 : R) :
  0 < a -> 0 < b2 ->
  s1 * s1 + c1 * c1 = 1 -> s2 * s2 + c2 * c2 = 1 ->
  0 < W1 -> 0 < W2 ->
  W1 * W1 = c1 * c1 + b2 * (s1 * s1) ->
  W2 * W2 = c2 * c2 + b2 * (s2 * s2) ->
  0 <= h1 -> 0 <= h2 ->
  (a / W1 + h1) * c1 = (a / W2 + h2) * c2 ->
  (a / W1 * b2 + h1) * s1 = (a / W2 * b2 + h2) * s2 ->
  s1 = s2 /\ c1 = c2 /\ h1 = h2.
Proof.
  intros Ha Hb U1 U2 HW1 HW2 E1 E2 Hh1 Hh2 EX EZ.
  set (N1 := a / W1) in *. set (N2 := a / W2) in *.
  assert (HN1 : N1 * W1 = a) by (unfold N1; field; lra).
  assert (HN2 : N2 * W2 = a) by (unfold N2; field; lra).
  assert (PN1 : 0 < N1) by (unfold N1; apply Rdiv_lt_0_compat; lra).
  assert (PN2 : 0 < N2) by (unfold N2; apply Rdiv_lt_0_compat; lra).
  set (g := c1 * c2 + b2 * (s1 * s2)).
  set (t := c1 * c2 + s1 * s2).
  (* Cauchy-Schwarz, weighted and plain *)
  assert (CS : g * g + b2 * ((c2 * s1 - s2 * c1) * (c2 * s1 - s2 * c1))
               = (W1 * W2) * (W1 * W2)).
  { unfold g. 
    replace (W1 * W2 * (W1 * W2)) with ((W1 * W1) * (W2 * W2)) by ring.
    rewrite E1, E2. ring. }
  assert (Hg : g <= W1 * W2).
  { assert (0 < W1 * W2) by (apply Rmult_lt_0_compat; lra).
    assert (0 <= b2 * ((c2 * s1 - s2 * c1) * (c2 * s1 - s2 * c1))).
    { apply Rmult_le_pos; [lra | apply Rle_0_sqr]. }
    nra. }
  assert (Ht : t <= 1).
  { assert (t * t + (c2 * s1 - s2 * c1) * (c2 * s1 - s2 * c1) = 1).
    { unfold t.
      replace 1 with ((s1 * s1 + c1 * c1) * (s2 * s2 + c2 * c2))
        by (rewrite U1, U2; ring).
      ring. }
    pose proof (Rle_0_sqr (c2 * s1 - s2 * c1)) as Hs. unfold Rsqr in Hs. nra. }
  (* the supporting-line inequalities *)
  assert (D12 : N2 * g <= a * W1).
  { rewrite <- HN2. 
    replace (N2 * W2 * W1) with (N2 * (W1 * W2)) by ring.
    apply Rmult_le_compat_l; lra. }
  assert (D21 : N1 * g <= a * W2).
  { rewrite <- HN1.
    replace (N1 * W1 * W2) with (N1 * (W1 * W2)) by ring.
    apply Rmult_le_compat_l; lra. }
  (* a W1 - N2 g = h2 t - h1  and  a W2 - N1 g = h1 t - h2 *)
  assert (I1 : a * W1 - N2 * g = h2 * t - h1).
  { assert (a * W1 = N1 * (c1 * c1 + b2 * (s1 * s1))).
    { rewrite <- E1, <- HN1. ring. }
    assert (Hx : (N1 + h1) * c1 * c1 = (N2 + h2) * c2 * c1) by (rewrite EX; ring).
    assert (Hz : (N1 * b2 + h1) * s1 * s1 = (N2 * b2 + h2) * s2 * s1)
      by (rewrite EZ; ring).
    unfold g, t. nra. }
  assert (I2 : a * W2 - N1 * g = h1 * t - h2).
  { assert (a * W2 = N2 * (c2 * c2 + b2 * (s2 * s2))).
    { rewrite <- E2, <- HN2. ring. }
    assert (Hx : (N1 + h1) * c1 * c2 = (N2 + h2) * c2 * c2) by (rewrite EX; ring).
    assert (Hz : (N1 * b2 + h1) * s1 * s2 = (N2 * b2 + h2) * s2 * s2)
      by (rewrite EZ; ring).
    unfold g, t. nra. }
  assert (Hh : h1 = h2) by nra.
  subst h2.
  assert (Hgeq : g = W1 * W2).
  { assert (N2 * g = a * W1) by nra.
    assert (N2 * g = N2 * (W1 * W2)).
    { rewrite H. rewrite <- HN2. ring. }
    apply (Rmult_eq_reg_l N2); lra. }
  assert (Hpar : c2 * s1 - s2 * c1 = 0).
  { assert (b2 * ((c2 * s1 - s2 * c1) * (c2 * s1 - s2 * c1)) = 0).
    { rewrite Hgeq in CS. lra. }
    apply Rmult_integral in H. destruct H as [H|H]; [lra|].
    apply Rmult_integral in H. destruct H; assumption. }
  assert (Hp' : c2 * s1 = s2 * c1) by lra.
  assert (Hc : c2 = t * c1).
  { transitivity ((c2 * s1) * s1 + c2 * c1 * c1).
    - transitivity (c2 * (s1 * s1 + c1 * c1)); [rewrite U1; ring | ring].
    - rewrite Hp'. unfold t. ring. }
  assert (Hs : s2 = t * s1).
  { transitivity (s2 * s1 * s1 + (s2 * c1) * c1).
    - transitivity (s2 * (s1 * s1 + c1 * c1)); [rewrite U1; ring | ring].
    - rewrite <- Hp'. unfold t. ring. }
  assert (Ht2 : t * t = 1).
  { rewrite Hc, Hs in U2.
    replace (t * s1 * (t * s1) + t * c1 * (t * c1))
      with (t * t * (s1 * s1 + c1 * c1)) in U2 by ring.
    rewrite U1 in U2. lra. }
  assert (Ht1 : t = 1).
  { assert (Hcases : t = 1 \/ t = -1) by nra.
    destruct Hcases as [H|H]; [exact H|]. exfalso.
    assert (g = - (W1 * W1)).
    { unfold g. rewrite Hc, Hs, H, E1. ring. }
    assert (0 < W1 * W2) by (apply Rmult_lt_0_compat; lra).
    assert (0 < W1 * W1) by (apply Rmult_lt_0_compat; lra).
    lra. }
  rewrite Ht1 in Hc, Hs. split; [lra|]. split; [lra | reflexivity].
Qed.
End Meridian.

Section Ellipsoid.
Local Open Scope R_scope.

Lemma rad_range (d : R) :
  -90 <= d <= 90 -> - (PI / 2) <= RoundTrip.rad d <= PI / 2.
Proof.
  intros H. unfold RoundTrip.rad. pose proof PI_RGT_0 as Hpi.
  split.
  - replace (- (PI / 2)) with (-90 * PI / 180) by field.
    apply Rmult_le_compat_r; [lra|]. apply Rmult_le_compat_r; lra.
  - replace (PI / 2) with (90 * PI / 180) by field.
    apply Rmult_le_compat_r; [lra|]. apply Rmult_le_compat_r; lra.
Qed.

Lemma rad_range_open (d : R) :
  -90 < d < 90 -> - (PI / 2) < RoundTrip.rad d < PI / 2.
Proof.
  intros H. unfold RoundTrip.rad. pose proof PI_RGT_0 as Hpi.
  split.
  - replace (- (PI / 2)) with (-90 * PI / 180) by field.
    apply Rmult_lt_compat_r; [lra|]. apply Rmult_lt_compat_r; lra.
  - replace (PI / 2) with (90 * PI / 180) by field.
    apply Rmult_lt_compat_r; [lra|]. apply Rmult_lt_compat_r; lra.
Qed.

Lemma rad_range_turn (d : R) :
  -180 < d <= 180 -> - PI < RoundTrip.rad d <= PI.
Proof.
  intros H. unfold RoundTrip.rad. pose proof PI_RGT_0 as Hpi.
  split.
  - replace (- PI) with (-180 * PI / 180) by field.
    apply Rmult_lt_compat_r; [lra|]. apply Rmult_lt_compat_r; lra.
  - replace PI with (180 * PI / 180) at 2 by field.
    apply Rmult_le_compat_r; [lra|]. apply Rmult_le_compat_r; lra.
Qed.

Lemma rad_inj (d1 d2 : R) : RoundTrip.rad d1 = RoundTrip.rad d2 -> d1 = d2.
Proof.
  unfold RoundTrip.rad. intros H. pose proof PI_RGT_0 as Hpi.
  assert (d1 * PI = d2 * PI) by lra.
  apply (Rmult_eq_reg_r PI); lra.
Qed.

Lemma sin_cos_unit (x : R) : sin x * sin x + cos x * cos x = 1.
Proof. pose proof (sin2_cos2 x) as H. unfold Rsqr in H. exact H. Qed.

(** An angle of one turn is determined by its cosine and sine. *)
Lemma angle_unique (x y : R) :
  - PI < x <= PI -> - PI < y <= PI ->
  cos x = cos y -> sin x = sin y -> x = y.
Proof.
  intros Hx Hy Hc Hs. pose proof PI_RGT_0 as Hpi.
  assert (Hsin : sin (x - y) = 0).
  { rewrite sin_minus, Hc, Hs. ring. }
  assert (Hcos : cos (x - y) = 1).
  { rewrite cos_minus, Hc, Hs. pose proof (sin_cos_unit y). lra. }
  destruct (sin_eq_0_0 _ Hsin) as [k Hk].
  assert (Hk1 : (-2 < k < 2)%Z).
  { split; [apply lt_IZR | apply lt_IZR]; nra. }
  assert (Hcases : k = (-1)%Z \/ k = 0%Z \/ k = 1%Z) by lia.
  destruct Hcases as [->|[->| ->]].
  - exfalso. replace (x - y) with (- PI) in Hcos by lra.
    rewrite cos_neg, cos_PI in Hcos. lra.
  - lra.
  - exfalso. replace (x - y) with PI in Hcos by lra.
    rewrite cos_PI in Hcos. lra.
Qed.

Variables a e2 : R.
Hypothesis Ha : 0 < a.
Hypothesis He : 0 <= e2 < 1.

Lemma prime_vertical_pos (s c : R) :
  s * s + c * c = 1 ->
  0 < sqrt (1 - e2 * (s * s)) /\
  sqrt (1 - e2 * (s * s)) * sqrt (1 - e2 * (s * s))
  = c * c + (1 - e2) * (s * s).
Proof.
  intros U.
  assert (Hpos : 0 < 1 - e2 * (s * s)).
  { pose proof (Rle_0_sqr s) as H1. pose proof (Rle_0_sqr c) as H2.
    unfold Rsqr in *. nra. }
  split; [apply sqrt_lt_R0; exact Hpos|].
  rewrite sqrt_sqrt by lra. nra.
Qed.

(** Above the surface and off the poles the geodetic coordinates of
    a point are unique. *)
Lemma ellipsoid_to_cartesian_inj (lon1 lat1 h1 lon2 lat2 h2 : R) :
  RoundTrip.above_surface (lon1, lat1, h1) -> RoundTrip.above_surface (lon2, lat2, h2) ->
  -90 < lat1 < 90 ->
  RoundTrip.ellipsoid_to_cartesian a e2 (lon1, lat1, h1)
  = RoundTrip.ellipsoid_to_cartesian a e2 (lon2, lat2, h2) ->
  (lon2, lat2, h2) = (lon1, lat1, h1).
Proof.
  intros [Hlon1 [Hlat1 Hh1]] [Hlon2 [Hlat2 Hh2]] Hoff E.
  unfold RoundTrip.ellipsoid_to_cartesian in E.
  pose proof (rad_range _ Hlat1) as R1. pose proof (rad_range _ Hlat2) as R2.
  pose proof (rad_range_open _ Hoff) as R1o.
  set (s1 := sin (RoundTrip.rad lat1)) in *. set (c1 := cos (RoundTrip.rad lat1)) in *.
  set (s2 := sin (RoundTrip.rad lat2)) in *. set (c2 := cos (RoundTrip.rad lat2)) in *.
  assert (U1 : s1 * s1 + c1 * c1 = 1) by apply sin_cos_unit.
  assert (U2 : s2 * s2 + c2 * c2 = 1) by apply sin_cos_unit.
  assert (Hc1 : 0 < c1) by (apply cos_gt_0; lra).
  assert (Hc2 : 0 <= c2) by (apply cos_ge_0; lra).
  destruct (prime_vertical_pos s1 c1 U1) as [HW1 E1].
  destruct (prime_vertical_pos s2 c2 U2) as [HW2 E2].
  set (W1 := sqrt (1 - e2 * (s1 * s1))) in *.
  set (W2 := sqrt (1 - e2 * (s2 * s2))) in *.
  injection E as EX EY EZ.
  assert (PN1 : 0 < a / W1) by (apply Rdiv_lt_0_compat; lra).
  assert (PN2 : 0 < a / W2) by (apply Rdiv_lt_0_compat; lra).
  set (A1 := (a / W1 + h1) * c1) in *. set (A2 := (a / W2 + h2) * c2) in *.
  assert (HA1 : 0 < A1) by (unfold A1; apply Rmult_lt_0_compat; lra).
  assert (HA2 : 0 <= A2) by (unfold A2; apply Rmult_le_pos; lra).
  assert (HA : A1 = A2).
  { assert (Hsq : A1 * A1 = A2 * A2).
    { transitivity (A1 * cos (RoundTrip.rad lon1) * (A1 * cos (RoundTrip.rad lon1))
                    + A1 * sin (RoundTrip.rad lon1) * (A1 * sin (RoundTrip.rad lon1))).
      - pose proof (sin_cos_unit (RoundTrip.rad lon1)). nra.
      - rewrite EX, EY. pose proof (sin_cos_unit (RoundTrip.rad lon2)). nra. }
    nra. }
  destruct (meridian_unique a (1 - e2) s1 c1 W1 h1 s2 c2 W2 h2)
    as [Hs [Hc Hh]]; try assumption; try lra.
  assert (Hlat : lat1 = lat2).
  { apply rad_inj, sin_inj; assumption. }
  assert (Hlon : lon1 = lon2).
  { apply rad_inj, angle_unique.
    - apply rad_range_turn; exact Hlon1.
    - apply rad_range_turn; exact Hlon2.
    - rewrite <- HA in EX. apply (Rmult_eq_reg_l A1); lra.
    - rewrite <- HA in EY. apply (Rmult_eq_reg_l A1); lra. }
  subst. reflexivity.
Qed.

Lemma ellipsoid_geo_inverts (lon lat h : R) :
  RoundTrip.above_surface (lon, lat, h) -> -90 < lat < 90 ->
  Conv.cartesian_to_geodetic (RoundTrip.ellipsoid_geo a e2)
    (Conv.geodetic_to_cartesian (RoundTrip.ellipsoid_geo a e2) (lon, lat, h))
  = (lon, lat, h).
Proof.
  intros Hdom Hoff.
  cbn [Conv.cartesian_to_geodetic Conv.geodetic_to_cartesian RoundTrip.ellipsoid_geo].
  set (P := fun llh : Vector3 R =>
              RoundTrip.above_surface llh /\
              RoundTrip.ellipsoid_to_cartesian a e2 llh
              = RoundTrip.ellipsoid_to_cartesian a e2 (lon, lat, h)).
  assert (Hex : exists llh, P llh) by (exists (lon, lat, h); split; auto).
  pose proof (epsilon_spec (inhabits (0, 0, 0)) P Hex) as Hsp.
  change (epsilon (inhabits (0, 0, 0)) P = (lon, lat, h)).
  destruct (epsilon (inhabits (0, 0, 0)) P) as [[lon' lat'] h'].
  destruct Hsp as [Hdom' Heq].
  apply (ellipsoid_to_cartesian_inj lon lat h lon' lat' h');
    [assumption | assumption | assumption | symmetry; exact Heq].
Qed.
End Ellipsoid.

Section Sphere.
Local Open Scope R_scope.

(** On a sphere the surface point scaled to distance [r] is the point
    at height [r - radius] over the same longitude and latitude. *)
Lemma sphere_rescale (geo : Conv.GeoReference) (radius lon lat r : R) :
  RoundTrip.spherical geo radius ->
  Conv.norm_2 (Conv.geodetic_to_cartesian geo (lon, lat, 0)) = radius /\
  Conv.rescale r (Conv.geodetic_to_cartesian geo (lon, lat, 0)) radius
  = Conv.geodetic_to_cartesian geo (lon, lat, r - radius).
Proof.
  intros [Hr Hs]. rewrite !Hs. unfold RoundTrip.ellipsoid_to_cartesian.
  replace (1 - 0 * (sin (RoundTrip.rad lat) * sin (RoundTrip.rad lat))) with 1 by ring.
  rewrite sqrt_1.
  pose proof (sin_cos_unit (RoundTrip.rad lat)) as U1.
  pose proof (sin_cos_unit (RoundTrip.rad lon)) as U2.
  set (s := sin (RoundTrip.rad lat)) in *. set (c := cos (RoundTrip.rad lat)) in *.
  set (sl := sin (RoundTrip.rad lon)) in *. set (cl := cos (RoundTrip.rad lon)) in *.
  split.
  - unfold Conv.norm_2.
    replace ((radius / 1 + 0) * c * cl * ((radius / 1 + 0) * c * cl)
             + (radius / 1 + 0) * c * sl * ((radius / 1 + 0) * c * sl)
             + (radius / 1 * (1 - 0) + 0) * s * ((radius / 1 * (1 - 0) + 0) * s))
      with (radius * radius).
    + apply sqrt_square. lra.
    + transitivity (radius * radius * (c * c * (sl * sl + cl * cl) + s * s));
        [rewrite U2; nra | field].
  - unfold Conv.rescale. apply f_equal2; [apply f_equal2|]; field; lra.
Qed.
End Sphere.


Section DatumExamples.
Local Open Scope R_scope.

Lemma ellipsoid_geo_inverts_at (a e2 lon lat h : R) :
  0 < a -> 0 <= e2 < 1 ->
  RoundTrip.above_surface (lon, lat, h) -> -90 < lat < 90 ->
  RoundTrip.inverts_at (RoundTrip.ellipsoid_geo a e2) (lon, lat, h).
Proof.
  intros Ha He Hdom Hoff. exists 0%Z.
  rewrite (ellipsoid_geo_inverts a e2 Ha He lon lat h Hdom Hoff).
  apply f_equal2; [apply f_equal2|]; lra.
Qed.

(** Values at the two latitudes of the example. *)
Lemma rad_45 : RoundTrip.rad 45 = PI / 4.
Proof. unfold RoundTrip.rad. field. Qed.

Lemma rad_0 : RoundTrip.rad 0 = 0.
Proof. unfold RoundTrip.rad. field. Qed.

Lemma rad_lat_12_5 : RoundTrip.rad RoundTrip.lat_12_5 = atan (12 / 5).
Proof. unfold RoundTrip.rad, RoundTrip.lat_12_5. field. apply Rgt_not_eq, PI_RGT_0. Qed.

Lemma sqrt_1_plus_sqr : sqrt (1 + (12 / 5)²) = 13 / 5.
Proof. apply sqrt_lem_1; [unfold Rsqr; lra | lra | unfold Rsqr; lra]. Qed.

Lemma sin_lat_12_5 : sin (RoundTrip.rad RoundTrip.lat_12_5) = 12 / 13.
Proof. rewrite rad_lat_12_5, sin_atan, sqrt_1_plus_sqr. field. Qed.

Lemma cos_lat_12_5 : cos (RoundTrip.rad RoundTrip.lat_12_5) = 5 / 13.
Proof. rewrite rad_lat_12_5, cos_atan, sqrt_1_plus_sqr. field. Qed.

Lemma lat_12_5_range : 60 < RoundTrip.lat_12_5 < 90.
Proof.
  pose proof PI_RGT_0 as Hpi. unfold RoundTrip.lat_12_5.
  assert (H1 : PI / 3 < atan (12 / 5)).
  { rewrite <- (atan_tan (PI / 3)) by lra. rewrite tan_PI3.
    apply atan_increasing.
    apply Rlt_le_trans with (sqrt ((12 / 5) * (12 / 5))).
    - apply sqrt_lt_1; lra.
    - rewrite sqrt_square; lra. }
  assert (H2 : atan (12 / 5) < PI / 2) by apply atan_bound.
  split.
  - apply (Rmult_lt_reg_r (PI / 180)); [lra|].
    replace (atan (12 / 5) * 180 / PI * (PI / 180)) with (atan (12 / 5))
      by (field; lra).
    lra.
  - apply (Rmult_lt_reg_r (PI / 180)); [lra|].
    replace (atan (12 / 5) * 180 / PI * (PI / 180)) with (atan (12 / 5))
      by (field; lra).
    lra.
Qed.

Lemma sqrt2_sqr : sqrt 2 * sqrt 2 = 2.
Proof. apply sqrt_sqrt. lra. Qed.

(** The point at latitude 45 and height 1 over the flattened
    ellipsoid. *)
Lemma flattened_45_1 :
  RoundTrip.ellipsoid_to_cartesian 3 (7 / 8) (0, 45, 1)
  = (5 / sqrt 2, 0, 3 / (2 * sqrt 2)).
Proof.
  pose proof sqrt2_sqr as H2.
  assert (Hs2 : 0 < sqrt 2) by (apply sqrt_lt_R0; lra).
  unfold RoundTrip.ellipsoid_to_cartesian.
  rewrite rad_45, rad_0, sin_PI4, cos_PI4, cos_0, sin_0.
  assert (HW : sqrt (1 - 7 / 8 * (1 / sqrt 2 * (1 / sqrt 2))) = 3 / 4).
  { apply sqrt_lem_1.
    - replace (1 / sqrt 2 * (1 / sqrt 2)) with (1 / (sqrt 2 * sqrt 2))
        by (field; lra).
      rewrite H2. lra.
    - lra.
    - replace (1 / sqrt 2 * (1 / sqrt 2)) with (1 / (sqrt 2 * sqrt 2))
        by (field; lra).
      rewrite H2. lra. }
  rewrite HW. apply f_equal2; [apply f_equal2|]; field; lra.
Qed.

Lemma norm_flattened_45_1 :
  Conv.norm_2 (5 / sqrt 2, 0, 3 / (2 * sqrt 2)) = sqrt (109 / 8).
Proof.
  pose proof sqrt2_sqr as H2.
  assert (Hs2 : 0 < sqrt 2) by (apply sqrt_lt_R0; lra).
  unfold Conv.norm_2. f_equal.
  transitivity (109 / (4 * (sqrt 2 * sqrt 2))); [field; lra | rewrite H2; lra].
Qed.

(** A vector scaled to the length of a parallel one is that one. *)
Lemma rescale_parallel (mu x y z : R) :
  0 < mu -> Conv.norm_2 (x, y, z) <> 0 ->
  Conv.rescale (Conv.norm_2 (x, y, z)) (mu * x, mu * y, mu * z)
    (Conv.norm_2 (mu * x, mu * y, mu * z))
  = (x, y, z).
Proof.
  intros Hmu Hn.
  assert (Hm : Conv.norm_2 (mu * x, mu * y, mu * z)
               = mu * Conv.norm_2 (x, y, z)).
  { unfold Conv.norm_2.
    replace (mu * x * (mu * x) + mu * y * (mu * y) + mu * z * (mu * z))
      with ((mu * mu) * (x * x + y * y + z * z)) by ring.
    rewrite sqrt_mult_alt by nra. rewrite sqrt_square by lra. reflexivity. }
  rewrite Hm. set (n := Conv.norm_2 (x, y, z)) in *.
  unfold Conv.rescale. apply f_equal2; [apply f_equal2|]; field; lra.
Qed.

End DatumExamples.

(** ** Claims on the coordinate conversions *)


Lemma ray_geo_surface_norm (lon lat : R) :
  Conv.norm_2 (Conv.geodetic_to_cartesian RoundTrip.ray_geo (lon, lat, 0%R))
  <> 0%R.
Proof.
  cbn. apply Rgt_not_eq, Rlt_gt, sqrt_lt_R0. nra.
Qed.


Section RoundTripClaims.
Local Open Scope R_scope.

(** C3.  For each of the five schemes and a record in range,
    converting to Cartesian and back with a mean longitude returns the
    record in its original column order, for the schemes with a radius
    on a spherical datum; the longitude adjustment of the reverse
    conversion, [l0 + 360 * round ((mean_longitude - l0) / 360)], moves
    a longitude by the whole number of turns that puts it nearest to
    the mean longitude. *)
Theorem csv_round_trip (conv : CsvConv.t) (geo : Conv.GeoReference)
    (mean_longitude : R) (p : Vector3 R) (f : string) (o : Vector3 R) :
  Permutation (List.map snd (CsvConv.col2sort conv)) [0; 1; 2]%Z ->
  sort_parsed_vector3 0%R conv {| point_data := p; file := f |} = Ok o ->
  RoundTrip.in_range (CsvConv.format conv) geo mean_longitude o ->
  (exists xyz,
     Conv.csv_to_cartesian conv {| point_data := p; file := f |} geo = Ok xyz /\
     Conv.cartesian_to_csv conv xyz geo mean_longitude = Ok p) /\
  (forall l0 : R,
     exists m : Z,
       (l0 + 360 * Conv.round ((mean_longitude - l0) / 360)
        = l0 + 360 * IZR m)%R /\
       forall m' : Z,
         (Rabs (mean_longitude - (l0 + 360 * IZR m))
          <= Rabs (mean_longitude - (l0 + 360 * IZR m')))%R).
Proof.
  intros Hperm Hsort Hrange.
  split; [|intros l0; apply longitude_adjust_nearest].
  destruct (sort_unsort conv Hperm p f) as [o' [Hs Hu]].
  assert (o' = o) by congruence. subst o'.
  unfold Conv.csv_to_cartesian, Conv.cartesian_to_csv. rewrite Hsort. cbn [bind].
  destruct o as [[o0 o1] o2]. unfold RoundTrip.in_range in Hrange.
  destruct (CsvConv.format conv) eqn:Hf.
  - (* XYZ *)
    eexists. split; [reflexivity|]. exact Hu.
  - (* HEIGHT_LAT_LON *)
    destruct Hrange as [Hnear [m Hinv]].
    eexists. split; [reflexivity|].
    rewrite Hinv. rewrite (longitude_adjust _ _ m Hnear). exact Hu.
  - (* LAT_LON_RADIUS_M *)
    destruct Hrange as [Hr [Hnear [radius [Hsph [m Hinv]]]]].
    destruct (sphere_rescale geo radius o0 o1 o2 Hsph) as [Hn Hre].
    assert (Hnorm : Conv.norm_2 (Conv.geodetic_to_cartesian geo (o0, o1, 0))
                    <> 0) by (rewrite Hn; destruct Hsph; lra).
    eexists. split; [reflexivity|].
    rewrite (norm_2_rescale o2 _ Hr Hnorm).
    rewrite Hn, Hre, Hinv. rewrite (longitude_adjust _ _ m Hnear). exact Hu.
  - (* LAT_LON_RADIUS_KM *)
    destruct Hrange as [Hr [Hnear [radius [Hsph [m Hinv]]]]].
    destruct (sphere_rescale geo radius o0 o1 (o2 * 1000) Hsph) as [Hn Hre].
    assert (Hnorm : Conv.norm_2 (Conv.geodetic_to_cartesian geo (o0, o1, 0))
                    <> 0) by (rewrite Hn; destruct Hsph; lra).
    eexists. split; [reflexivity|].
    rewrite (norm_2_rescale (o2 * 1000)%R _ ltac:(lra) Hnorm).
    rewrite Hn, Hre, Hinv. rewrite (longitude_adjust _ _ m Hnear).
    replace (o2 * 1000 / 1000)%R with o2 by field. exact Hu.
  - (* EASTING_HEIGHT_NORTHING *)
    destruct Hrange as [Hnear [[m Hinv] Hproj]].
    eexists. split; [reflexivity|].
    rewrite Hinv. rewrite (longitude_adjust _ _ m Hnear).
    rewrite Hproj. exact Hu.
Qed.

(** The record "10 20 1737.5" in kilometres, 100 metres above a sphere
    of radius 1737400 metres, survives the round trip. *)
Lemma csv_round_trip_witness :
  exists xyz,
    Conv.csv_to_cartesian RoundTrip.lon_lat_radius_km
      {| point_data := (10, 20, 17375 / 10); file := EmptyString |} RoundTrip.moon
    = Ok xyz /\
    Conv.cartesian_to_csv RoundTrip.lon_lat_radius_km xyz RoundTrip.moon 0
    = Ok (10, 20, 17375 / 10).
Proof.
  apply (csv_round_trip RoundTrip.lon_lat_radius_km RoundTrip.moon 0
           (10, 20, 17375 / 10) EmptyString (10, 20, 17375 / 10)).
  - apply Permutation_refl.
  - reflexivity.
  - cbn [RoundTrip.in_range CsvConv.format RoundTrip.lon_lat_radius_km].
    split; [lra|]. split; [unfold RoundTrip.near; lra|].
    exists 1737400. split.
    + split; [lra | intros llh; reflexivity].
    + apply ellipsoid_geo_inverts_at; [lra | lra | | lra].
      cbn. lra.
Defined.

(** On an ellipsoid the radius schemes do not come back: the record at
    longitude 0, latitude [atan (12/5)] in degrees (about 67.4) and
    radius [sqrt (109/8)] is taken to the point whose geodetic
    latitude is 45, which the reverse conversion returns. *)
Lemma radius_round_trip_off_ellipsoid :
  let p := (0, RoundTrip.lat_12_5, sqrt (109 / 8)) in
  (0 <= sqrt (109 / 8) /\ RoundTrip.near 0 0 /\ -90 <= RoundTrip.lat_12_5 <= 90) /\
  exists xyz q,
    Conv.csv_to_cartesian RoundTrip.lon_lat_radius_m
      {| point_data := p; file := EmptyString |} RoundTrip.flattened = Ok xyz /\
    Conv.cartesian_to_csv RoundTrip.lon_lat_radius_m xyz RoundTrip.flattened 0 = Ok q /\
    q = (0, 45, sqrt (109 / 8)) /\
    q <> p /\ 15 < RoundTrip.lat_12_5 - 45.
Proof.
  pose proof lat_12_5_range as Hlat.
  pose proof sqrt2_sqr as H2.
  assert (Hs2 : 0 < sqrt 2) by (apply sqrt_lt_R0; lra).
  cbv zeta. split.
  { split; [apply sqrt_pos|]. split; [unfold RoundTrip.near; lra | lra]. }
  (* the surface point is parallel to the point at latitude 45 *)
  set (N0 := 3 / sqrt (1 - 7 / 8 * (12 / 13 * (12 / 13)))).
  assert (HN0 : 0 < N0).
  { unfold N0. apply Rdiv_lt_0_compat; [lra|]. apply sqrt_lt_R0. lra. }
  assert (HS : RoundTrip.ellipsoid_to_cartesian 3 (7 / 8) (0, RoundTrip.lat_12_5, 0)
               = (N0 * sqrt 2 / 13 * (5 / sqrt 2), N0 * sqrt 2 / 13 * 0,
                  N0 * sqrt 2 / 13 * (3 / (2 * sqrt 2)))).
  { unfold RoundTrip.ellipsoid_to_cartesian.
    rewrite sin_lat_12_5, cos_lat_12_5, rad_0, cos_0, sin_0. fold N0.
    apply f_equal2; [apply f_equal2|]; field; lra. }
  assert (Hnz : Conv.norm_2 (5 / sqrt 2, 0, 3 / (2 * sqrt 2)) <> 0).
  { rewrite norm_flattened_45_1. apply Rgt_not_eq, Rlt_gt, sqrt_lt_R0. lra. }
  assert (Hfwd : Conv.rescale (sqrt (109 / 8))
                   (RoundTrip.ellipsoid_to_cartesian 3 (7 / 8) (0, RoundTrip.lat_12_5, 0))
                   (Conv.norm_2
                      (RoundTrip.ellipsoid_to_cartesian 3 (7 / 8) (0, RoundTrip.lat_12_5, 0)))
                 = RoundTrip.ellipsoid_to_cartesian 3 (7 / 8) (0, 45, 1)).
  { rewrite HS, flattened_45_1, <- norm_flattened_45_1.
    apply rescale_parallel; [|exact Hnz].
    apply Rmult_lt_0_compat; [|lra]. apply Rmult_lt_0_compat; lra. }
  exists (RoundTrip.ellipsoid_to_cartesian 3 (7 / 8) (0, 45, 1)), (0, 45, sqrt (109 / 8)).
  split.
  { unfold Conv.csv_to_cartesian.
    change (sort_parsed_vector3 0 RoundTrip.lon_lat_radius_m
              {| point_data := (0, RoundTrip.lat_12_5, sqrt (109 / 8));
                 file := EmptyString |})
      with (Ok (0, RoundTrip.lat_12_5, sqrt (109 / 8))).
    cbn [bind CsvConv.format RoundTrip.lon_lat_radius_m].
    f_equal. exact Hfwd. }
  split.
  { unfold Conv.cartesian_to_csv.
    cbn [CsvConv.format RoundTrip.lon_lat_radius_m].
    change (RoundTrip.ellipsoid_to_cartesian 3 (7 / 8) (0, 45, 1))
      with (Conv.geodetic_to_cartesian RoundTrip.flattened (0, 45, 1)) at 1.
    unfold RoundTrip.flattened at 1.
    rewrite (ellipsoid_geo_inverts 3 (7 / 8)) by (cbn; lra).
    rewrite flattened_45_1, norm_flattened_45_1.
    replace (0 + 360 * Conv.round ((0 - 0) / 360)) with 0.
    - reflexivity.
    - pose proof (longitude_adjust 0 0 0) as Hadj.
      unfold RoundTrip.near in Hadj.
      replace (0 + 360 * 0 + 360 * Conv.round ((0 - (0 + 360 * 0)) / 360))
        with (0 + 360 * Conv.round ((0 - 0) / 360)) in Hadj
        by (repeat f_equal; lra).
      symmetry. apply Hadj. lra. }
  split; [reflexivity|]. split; [|lra].
  intros Hq. injection Hq as Hq. lra.
Qed.
End RoundTripClaims.

(** * Further properties of the code *)

(** ** The outlier threshold as a function of its parameters *)

Lemma accumulated_positive (samples : list Q) :
  List.Forall (fun v => (0 < v)%Q)
    (Point2dem.m_vals
       (List.fold_left Point2dem.accumulate samples
          Point2dem.ErrorRangeEstimAccum_ctor)).
Proof.
  rewrite accumulate_fold. cbn [Point2dem.m_vals Point2dem.ErrorRangeEstimAccum_ctor app].
  apply Forall_forall. intros v Hv. apply filter_In in Hv.
  apply Qlt_bool_iff. exact (proj2 Hv).
Qed.

Lemma sorted_nth_mono (l : list Q) :
  Sorted Qle l ->
  forall i j : nat, (i <= j)%nat -> (j < List.length l)%nat ->
    (List.nth i l 0 <= List.nth j l 0)%Q.
Proof.
  intros Hs. apply Sorted_StronglySorted in Hs; [|exact Qle_trans].
  induction Hs as [|x l Hs IH Hall]; intros i j Hij Hj; [simpl in Hj; lia|].
  destruct i as [|i], j as [|j]; cbn [List.nth].
  - apply Qle_refl.
  - rewrite Forall_forall in Hall. apply Hall. apply nth_In.
    simpl in Hj. lia.
  - lia.
  - apply IH; simpl in Hj; lia.
Qed.

Section ThresholdParameters.
Variable samples : list Q.

Let acc : Point2dem.ErrorRangeEstimAccum :=
  List.fold_left Point2dem.accumulate samples Point2dem.ErrorRangeEstimAccum_ctor.
Let sorted : list Q := std_sort (Point2dem.m_vals acc).
Let L : Z := Z.of_nat (List.length sorted).
Let index (p : Q) : Z :=
  Z.min (L - 1)
        (Qfloor (Binary64.mul (Binary64.div p 100) (Binary64.of_int L))).

Hypothesis Hnonempty : Point2dem.m_vals acc <> [].
Hypothesis Hlen : (L <= Int.INT_MAX)%Z.

Lemma threshold_sample (p : Q) :
  (0 < p)%Q -> (p <= 100)%Q ->
  (0 < List.nth (Z.to_nat (index p)) sorted 0)%Q /\
  In (List.nth (Z.to_nat (index p)) sorted 0) samples.
Proof.
  intros Hp Hp100.
  pose proof (threshold_index_in_range samples p Hnonempty Hlen Hp Hp100) as Hk.
  fold acc sorted L in Hk. change (Z.min _ _) with (index p) in Hk.
  assert (Hin : In (List.nth (Z.to_nat (index p)) sorted 0) (Point2dem.m_vals acc)).
  { apply (Permutation_in _ (std_sort_perm (Point2dem.m_vals acc))).
    apply nth_In. fold sorted. unfold L in Hk. lia. }
  split.
  - pose proof (accumulated_positive samples) as Hpos.
    rewrite Forall_forall in Hpos. apply Hpos. exact Hin.
  - unfold acc in Hin. rewrite accumulate_fold in Hin.
    cbn [Point2dem.m_vals Point2dem.ErrorRangeEstimAccum_ctor app] in Hin.
    apply filter_In in Hin. exact (proj1 Hin).
Qed.

Lemma index_mono (p1 p2 : Q) :
  (0 < p1)%Q -> (p1 <= p2)%Q -> (p2 <= 100)%Q ->
  (0 <= index p1 <= index p2)%Z /\ (index p2 < L)%Z.
Proof.
  intros Hp1 H12 Hp2.
  assert (Hp1' : (p1 <= 100)%Q) by (eapply Qle_trans; eassumption).
  assert (Hp2' : (0 < p2)%Q) by (eapply Qlt_le_trans; eassumption).
  pose proof (threshold_index_in_range samples p1 Hnonempty Hlen Hp1 Hp1') as Hk1.
  pose proof (threshold_index_in_range samples p2 Hnonempty Hlen Hp2' Hp2) as Hk2.
  fold acc sorted L in Hk1, Hk2.
  change (Z.min (L - 1) (Qfloor (Binary64.mul (Binary64.div p1 100)
                                   (Binary64.of_int L))))
    with (index p1) in Hk1.
  change (Z.min (L - 1) (Qfloor (Binary64.mul (Binary64.div p2 100)
                                   (Binary64.of_int L))))
    with (index p2) in Hk2.
  assert (HL0 : (0 <= L <= Int.INT_MAX)%Z) by (unfold L in *; lia).
  pose proof (of_int_exact L HL0) as EL.
  assert (HLq : (0 <= Binary64.of_int L)%Q).
  { rewrite EL. change 0%Q with (inject_Z 0). rewrite <- Zle_Qle. lia. }
  destruct (pct_bounds p1 Hp1 Hp1') as [Hd1 _].
  assert (Hfl : (Qfloor (Binary64.mul (Binary64.div p1 100) (Binary64.of_int L))
                 <= Qfloor (Binary64.mul (Binary64.div p2 100)
                              (Binary64.of_int L)))%Z).
  { apply Qfloor_resp_le. unfold Binary64.mul.
    apply Binary64Facts.round_mono.
    - apply Qmult_le_0_compat; assumption.
    - apply Qmult_le_compat_r; [| exact HLq].
      unfold Binary64.div. apply Binary64Facts.round_mono.
      + apply Qle_shift_div_l; [reflexivity |]. rewrite Qmult_0_l.
        apply Qlt_le_weak; exact Hp1.
      + apply Qmult_le_compat_r; [exact H12 | discriminate]. }
  unfold index in *. lia.
Qed.
End ThresholdParameters.

(** X1.  The threshold is four times the factor times one of the
    samples, a strictly positive one; with a positive factor it is
    positive. *)
Theorem threshold_is_scaled_sample (samples : list Q) (p f : Q) :
  let acc := List.fold_left Point2dem.accumulate samples
               Point2dem.ErrorRangeEstimAccum_ctor in
  Point2dem.m_vals acc <> [] ->
  (Z.of_nat (List.length (std_sort (Point2dem.m_vals acc))) <= Int.INT_MAX)%Z ->
  (0 < p)%Q -> (p <= 100)%Q ->
  exists x,
    In x samples /\ (0 < x)%Q /\
    Point2dem.value acc (p, f) = Ok (x * f * 4)%Q /\
    ((0 < f)%Q -> (0 < x * f * 4)%Q).
Proof.
  intros acc Hne HL Hp Hp100.
  destruct (threshold_sample samples Hne HL p Hp Hp100) as [Hpos Hin].
  eexists. split; [exact Hin|]. split; [exact Hpos|].
  split; [exact (threshold_value samples p f Hne HL Hp Hp100)|].
  intros Hf. apply Qmult_lt_0_compat; [|reflexivity].
  apply Qmult_lt_0_compat; assumption.
Qed.

Lemma threshold_is_scaled_sample_witness :
  let samples := [0; 5 # 1; 0; 1 # 2]%Q in
  exists x,
    In x samples /\ (0 < x)%Q /\
    Point2dem.value
      (List.fold_left Point2dem.accumulate samples
         Point2dem.ErrorRangeEstimAccum_ctor) (75 # 1, 3 # 1)%Q
    = Ok (x * (3 # 1) * 4)%Q /\
    ((0 < 3 # 1)%Q -> (0 < x * (3 # 1) * 4)%Q).
Proof.
  intros samples.
  apply (threshold_is_scaled_sample samples (75 # 1) (3 # 1)).
  - vm_compute. discriminate.
  - vm_compute. discriminate.
  - reflexivity.
  - vm_compute. discriminate.
Defined.

(** X2.  With the samples and the percentile fixed, a larger factor
    never gives a smaller threshold. *)
Theorem threshold_monotone_in_factor (samples : list Q) (p f1 f2 : Q) :
  let acc := List.fold_left Point2dem.accumulate samples
               Point2dem.ErrorRangeEstimAccum_ctor in
  Point2dem.m_vals acc <> [] ->
  (Z.of_nat (List.length (std_sort (Point2dem.m_vals acc))) <= Int.INT_MAX)%Z ->
  (0 < p)%Q -> (p <= 100)%Q -> (f1 <= f2)%Q ->
  exists v1 v2,
    Point2dem.value acc (p, f1) = Ok v1 /\
    Point2dem.value acc (p, f2) = Ok v2 /\ (v1 <= v2)%Q.
Proof.
  intros acc Hne HL Hp Hp100 Hf.
  destruct (threshold_sample samples Hne HL p Hp Hp100) as [Hpos _].
  eexists. eexists.
  split; [exact (threshold_value samples p f1 Hne HL Hp Hp100)|].
  split; [exact (threshold_value samples p f2 Hne HL Hp Hp100)|].
  apply Qmult_le_compat_r; [|discriminate].
  rewrite (Qmult_comm _ f1), (Qmult_comm _ f2).
  apply Qmult_le_compat_r; [exact Hf | apply Qlt_le_weak; exact Hpos].
Qed.

Lemma threshold_monotone_in_factor_witness :
  let samples := [2 # 1; 4 # 1; 6 # 1; 8 # 1; 10 # 1]%Q in
  exists v1 v2,
    Point2dem.value
      (List.fold_left Point2dem.accumulate samples
         Point2dem.ErrorRangeEstimAccum_ctor) (75 # 1, 1 # 1)%Q = Ok v1 /\
    Point2dem.value
      (List.fold_left Point2dem.accumulate samples
         Point2dem.ErrorRangeEstimAccum_ctor) (75 # 1, 3 # 1)%Q = Ok v2 /\
    (v1 <= v2)%Q.
Proof.
  intros samples.
  apply (threshold_monotone_in_factor samples (75 # 1) (1 # 1) (3 # 1)).
  - vm_compute. discriminate.
  - vm_compute. discriminate.
  - reflexivity.
  - vm_compute. discriminate.
  - vm_compute. discriminate.
Defined.

(** X3.  With the samples fixed and a non-negative factor, a larger
    percentile never gives a smaller threshold. *)
Theorem threshold_monotone_in_percentile (samples : list Q) (p1 p2 f : Q) :
  let acc := List.fold_left Point2dem.accumulate samples
               Point2dem.ErrorRangeEstimAccum_ctor in
  Point2dem.m_vals acc <> [] ->
  (Z.of_nat (List.length (std_sort (Point2dem.m_vals acc))) <= Int.INT_MAX)%Z ->
  (0 < p1)%Q -> (p1 <= p2)%Q -> (p2 <= 100)%Q -> (0 <= f)%Q ->
  exists v1 v2,
    Point2dem.value acc (p1, f) = Ok v1 /\
    Point2dem.value acc (p2, f) = Ok v2 /\ (v1 <= v2)%Q.
Proof.
  intros acc Hne HL Hp1 H12 Hp2 Hf.
  assert (Hp1' : (p1 <= 100)%Q) by (eapply Qle_trans; eassumption).
  assert (Hp2' : (0 < p2)%Q) by (eapply Qlt_le_trans; eassumption).
  destruct (index_mono samples Hne HL p1 p2 Hp1 H12 Hp2) as [Hk HkL].
  eexists. eexists.
  split; [exact (threshold_value samples p1 f Hne HL Hp1 Hp1')|].
  split; [exact (threshold_value samples p2 f Hne HL Hp2' Hp2)|].
  apply Qmult_le_compat_r; [|discriminate].
  apply Qmult_le_compat_r; [|exact Hf].
  apply sorted_nth_mono; [apply std_sort_sorted | lia | lia].
Qed.

Lemma threshold_monotone_in_percentile_witness :
  let samples := [2 # 1; 4 # 1; 6 # 1; 8 # 1; 10 # 1]%Q in
  exists v1 v2,
    Point2dem.value
      (List.fold_left Point2dem.accumulate samples
         Point2dem.ErrorRangeEstimAccum_ctor) (50 # 1, 3 # 1)%Q = Ok v1 /\
    Point2dem.value
      (List.fold_left Point2dem.accumulate samples
         Point2dem.ErrorRangeEstimAccum_ctor) (75 # 1, 3 # 1)%Q = Ok v2 /\
    (v1 <= v2)%Q.
Proof.
  intros samples.
  apply (threshold_monotone_in_percentile samples (50 # 1) (75 # 1) (3 # 1)).
  - vm_compute. discriminate.
  - vm_compute. discriminate.
  - reflexivity.
  - vm_compute. discriminate.
  - vm_compute. discriminate.
  - vm_compute. discriminate.
Defined.

(** ** The estimation loop reaches a threshold *)

Lemma every_nth_from_length {A : Type} (amt : nat) (l : list A) :
  forall skip, (List.length (every_nth_from amt skip l) <= List.length l)%nat.
Proof.
  induction l as [|x l IH]; intros skip; simpl; [lia|].
  destruct skip; simpl.
  - specialize (IH (Nat.pred amt)). lia.
  - specialize (IH skip). lia.
Qed.

Lemma every_nth_from_concat_length {A : Type} (amt : nat) (rows : list (list A)) :
  forall skip,
    (List.length (List.concat (every_nth_from amt skip rows))
     <= List.length (List.concat rows))%nat.
Proof.
  induction rows as [|row rows IH]; intros skip; simpl; [lia|].
  rewrite length_app. destruct skip; simpl.
  - rewrite length_app. specialize (IH (Nat.pred amt)). lia.
  - specialize (IH skip). lia.
Qed.

Lemma concat_map_length {A : Type} (g : list A -> list A) (rows : list (list A)) :
  (forall row, (List.length (g row) <= List.length row)%nat) ->
  (List.length (List.concat (List.map g rows))
   <= List.length (List.concat rows))%nat.
Proof.
  intros Hg. induction rows as [|row rows IH]; simpl; [lia|].
  rewrite !length_app. specialize (Hg row). lia.
Qed.

Lemma subsample_length {A : Type} (image : list (list A)) (amt : Z) :
  (List.length (List.concat (subsample image amt))
   <= List.length (List.concat image))%nat.
Proof.
  unfold subsample.
  etransitivity; [apply concat_map_length; intros; apply every_nth_from_length|].
  apply every_nth_from_concat_length.
Qed.

Section EstimationLoop.
Variables cols rows : Z.
Variable error_image : list (list Q).
Variables p f : Q.

Hypothesis Hfits : (Z.of_nat (List.length (List.concat error_image)) <= Int.INT_MAX)%Z.
Hypothesis Hp : (0 < p)%Q.
Hypothesis Hp100 : (p <= 100)%Q.

(** What one pass finds on a subsampled image that has a positive
    error. *)
Lemma subsampled_value (amt : Z) :
  (0 < Point2dem.size
         (Point2dem.for_each_pixel (subsample error_image amt)
            Point2dem.ErrorRangeEstimAccum_ctor))%Z ->
  exists x,
    In x (List.concat error_image) /\ (0 < x)%Q /\
    Point2dem.value
      (Point2dem.for_each_pixel (subsample error_image amt)
         Point2dem.ErrorRangeEstimAccum_ctor) (p, f)
    = Ok (x * f * 4)%Q.
Proof.
  intros Hsize. unfold Point2dem.for_each_pixel in *.
  set (samples := List.concat (subsample error_image amt)) in *.
  assert (Hne : Point2dem.m_vals
                  (List.fold_left Point2dem.accumulate samples
                     Point2dem.ErrorRangeEstimAccum_ctor) <> []).
  { unfold Point2dem.size in Hsize. intros E. rewrite E in Hsize.
    simpl in Hsize. lia. }
  assert (HL : (Z.of_nat
                  (List.length
                     (std_sort
                        (Point2dem.m_vals
                           (List.fold_left Point2dem.accumulate samples
                              Point2dem.ErrorRangeEstimAccum_ctor))))
                <= Int.INT_MAX)%Z).
  { rewrite std_sort_length, accumulate_fold.
    cbn [Point2dem.m_vals Point2dem.ErrorRangeEstimAccum_ctor app].
    pose proof (filter_length_le (Qlt_bool 0) samples) as H1.
    pose proof (subsample_length error_image amt) as H2.
    fold samples in H2. lia. }
  destruct (threshold_sample samples Hne HL p Hp Hp100) as [Hpos Hin].
  eexists. split; [|split; [exact Hpos|]].
  - apply (subsample_pixels_incl error_image amt). exact Hin.
  - exact (threshold_value samples p f Hne HL Hp Hp100).
Qed.

Hypothesis Hpositive : exists x, In x (List.concat error_image) /\ (0 < x)%Q.

Lemma full_image_has_samples :
  (0 < Point2dem.size
         (Point2dem.for_each_pixel (subsample error_image 1)
            Point2dem.ErrorRangeEstimAccum_ctor))%Z.
Proof.
  destruct Hpositive as [x [Hin Hx]].
  unfold Point2dem.size. rewrite subsample_1, for_each_pixel_vals.
  assert (H : In x (List.filter (Qlt_bool 0) (List.concat error_image))).
  { apply filter_In. split; [exact Hin | apply Qlt_bool_iff; exact Hx]. }
  destruct (List.filter _ _); [contradiction | simpl; lia].
Qed.

Lemma estimate_loop_reaches (counts : list Z) :
  (exists count, In count counts /\
     (Z.sqrt (cols * cols + rows * rows) / 2 ^ count <= 1)%Z) ->
  exists x,
    In x (List.concat error_image) /\ (0 < x)%Q /\
    Point2dem.estimate_loop counts cols rows error_image (p, f) false 0
    = Ok (true, (x * f * 4)%Q).
Proof.
  induction counts as [|count counts IH]; intros [c [Hc Hstep]];
    [contradiction|].
  cbn [Point2dem.estimate_loop].
  set (amt := (Z.sqrt (cols * cols + rows * rows) / 2 ^ count)%Z).
  set (step := if (amt <? 1)%Z then 1%Z else amt).
  destruct (0 <? Point2dem.size
                   (Point2dem.for_each_pixel (subsample error_image step)
                      Point2dem.ErrorRangeEstimAccum_ctor))%Z eqn:Hsz.
  - apply Z.ltb_lt in Hsz.
    destruct (subsampled_value step Hsz) as [x [Hin [Hx Hv]]].
    exists x. split; [exact Hin|]. split; [exact Hx|].
    rewrite Hv. reflexivity.
  - cbn [bind fst snd orb].
    destruct (Z.eqb_spec step 1) as [E|E].
    + pose proof full_image_has_samples as Hfull.
      rewrite E in Hsz. apply Z.ltb_ge in Hsz. lia.
    + apply IH. exists c. split; [|exact Hstep].
      destruct Hc as [<-|Hc]; [|exact Hc].
      exfalso. apply E. unfold step. fold amt in Hstep.
      destruct (Z.ltb_spec amt 1); [reflexivity | lia].
Qed.
End EstimationLoop.

(** X4.  When the error image has a positive error, its diagonal is
    below [2^19] pixels and the percentile lies in (0, 100], the
    estimation loop of [main] ends with success, the threshold being
    four times the factor times a positive error of the image. *)
Theorem estimation_succeeds (cols rows : Z) (error_image : list (list Q))
    (p f : Q) :
  (Z.of_nat (List.length (List.concat error_image)) <= Int.INT_MAX)%Z ->
  (0 < p)%Q -> (p <= 100)%Q ->
  (exists x, In x (List.concat error_image) /\ (0 < x)%Q) ->
  (Z.sqrt (cols * cols + rows * rows) < 2 ^ 19)%Z ->
  exists x,
    In x (List.concat error_image) /\ (0 < x)%Q /\
    Point2dem.estimate_max_error cols rows error_image (p, f)
    = Ok (true, (x * f * 4)%Q).
Proof.
  intros Hfits Hp Hp100 Hpos Hdiag.
  apply (estimate_loop_reaches cols rows error_image p f Hfits Hp Hp100 Hpos).
  exists 18%Z. split.
  - vm_compute. tauto.
  - change (2 ^ 18)%Z with 262144%Z. change (2 ^ 19)%Z with 524288%Z in Hdiag.
    pose proof (Z.sqrt_nonneg (cols * cols + rows * rows)) as H0.
    apply Z.lt_succ_r. apply Z.div_lt_upper_bound; lia.
Qed.

Lemma estimation_succeeds_witness :
  exists x,
    In x (List.concat [[0; 3 # 1]; [1 # 2; 0]]%Q) /\ (0 < x)%Q /\
    Point2dem.estimate_max_error 2 2 [[0; 3 # 1]; [1 # 2; 0]]%Q
      (75 # 1, 3 # 1)%Q
    = Ok (true, (x * (3 # 1) * 4)%Q).
Proof.
  apply (estimation_succeeds 2 2 [[0; 3 # 1]; [1 # 2; 0]]%Q (75 # 1) (3 # 1)).
  - vm_compute. discriminate.
  - reflexivity.
  - vm_compute. discriminate.
  - exists (3 # 1)%Q. split; [simpl; tauto | reflexivity].
  - vm_compute. reflexivity.
Defined.

(** ** The hole filler: bounds of the filled value, and tiles *)

Lemma Qsum_bounds (lo hi : Q) (l : list Q) :
  List.Forall (fun v => (lo <= v)%Q /\ (v <= hi)%Q) l ->
  (inject_Z (Z.of_nat (List.length l)) * lo <= HoleSpec.Qsum l)%Q /\
  (HoleSpec.Qsum l <= inject_Z (Z.of_nat (List.length l)) * hi)%Q.
Proof.
  induction 1 as [|v l [Hlo Hhi] _ [IHlo IHhi]].
  - simpl. split; rewrite Qmult_0_l; apply Qle_refl.
  - cbn [List.length HoleSpec.Qsum List.fold_right].
    fold (HoleSpec.Qsum l).
    rewrite Nat2Z.inj_succ, <- Z.add_1_l, inject_Z_plus.
    change (inject_Z 1) with 1%Q. rewrite !Qmult_plus_distr_l, !Qmult_1_l.
    split; apply Qplus_le_compat; assumption.
Qed.

Lemma average_bounds (lo hi : Q) (l : list Q) :
  l <> [] ->
  List.Forall (fun v => (lo <= v)%Q /\ (v <= hi)%Q) l ->
  (lo <= HoleSpec.average l)%Q /\ (HoleSpec.average l <= hi)%Q.
Proof.
  intros Hne Hall. destruct (Qsum_bounds lo hi l Hall) as [Hlo Hhi].
  assert (Hn : (0 < inject_Z (Z.of_nat (List.length l)))%Q).
  { change 0%Q with (inject_Z 0). rewrite <- Zlt_Qlt.
    destruct l; [congruence | simpl; lia]. }
  unfold HoleSpec.average. split.
  - apply Qle_shift_div_l; [exact Hn|]. rewrite Qmult_comm. exact Hlo.
  - apply Qle_shift_div_r; [exact Hn|]. rewrite Qmult_comm. exact Hhi.
Qed.

Lemma centre_in_window (img : Point2dem.ImageView) (k i j : Z) (v : Q) :
  (0 < k)%Z ->
  (0 <= i < Point2dem.img_cols img)%Z ->
  (0 <= j < Point2dem.img_rows img)%Z ->
  Point2dem.pixel img i j = Some v ->
  In v (HoleSpec.window_values img k i j).
Proof.
  intros Hk Hi Hj Hv. unfold HoleSpec.window_values.
  apply in_flat_map. exists i. split; [apply In_for_range; lia|].
  apply in_flat_map. exists j. split; [apply In_for_range; lia|].
  unfold HoleSpec.in_window. rewrite !Z.sub_diag. cbn [Z.abs Z.mul].
  apply Z.ltb_lt in Hk. rewrite Hk. cbn [andb].
  unfold HoleSpec.valid_value. rewrite Hv. left. reflexivity.
Qed.

(** X5.  The hole filler never leaves the range of its input: if every
    valid cell of the window lies between [lo] and [hi], so does the
    value returned for the centre. *)
Theorem fill_within_bounds (img : Point2dem.ImageView) (k i j : Z)
    (lo hi : Q) :
  Z.odd k = true -> (0 < k)%Z ->
  (0 <= i < Point2dem.img_cols img)%Z ->
  (0 <= j < Point2dem.img_rows img)%Z ->
  (i + Z.quot k 2 <= Int.INT_MAX)%Z ->
  (j + Z.quot k 2 <= Int.INT_MAX)%Z ->
  List.Forall (fun v => (lo <= v)%Q /\ (v <= hi)%Q)
    (HoleSpec.window_values img k i j) ->
  exists r,
    Point2dem.fill {| Point2dem.m_img := img; Point2dem.m_kernel_size := k |} i j
    = Ok r /\
    forall a, r = Some a -> (lo <= a)%Q /\ (a <= hi)%Q.
Proof.
  intros Hodd Hpos Hi Hj Hci Hrj Hall.
  destruct (Point2dem.pixel img i j) as [v|] eqn:Hp.
  - exists (Some v). split; [apply fill_valid; exact Hp|].
    intros a Ha. injection Ha as <-.
    rewrite Forall_forall in Hall. apply Hall.
    apply centre_in_window; assumption.
  - pose proof (fill_nodata img k i j Hodd Hpos Hi Hj Hci Hrj Hp) as Hf.
    destruct (HoleSpec.window_values img k i j) as [|w0 ws] eqn:EW.
    + exists None. split; [exact Hf | discriminate].
    + destruct Hf as [a [Hfa Hav]]. exists (Some a). split; [exact Hfa|].
      intros a' Ha'. injection Ha' as <-.
      assert (Hne : w0 :: ws <> []) by discriminate.
      destruct (average_bounds lo hi (w0 :: ws) Hne Hall) as [H1 H2].
      rewrite Hav. split; assumption.
Qed.

Lemma fill_within_bounds_witness :
  exists r,
    Point2dem.fill
      {| Point2dem.m_img := HoleSpec.ring10; Point2dem.m_kernel_size := 3 |} 1 1
    = Ok r /\
    forall a, r = Some a -> (10 # 1 <= a)%Q /\ (a <= 10 # 1)%Q.
Proof.
  assert (Hodd : Z.odd 3 = true) by reflexivity.
  assert (Hpos : (0 < 3)%Z) by reflexivity.
  assert (Hi : (0 <= 1 < Point2dem.img_cols HoleSpec.ring10)%Z)
    by (split; [discriminate | reflexivity]).
  assert (Hc : (1 + Z.quot 3 2 <= Int.INT_MAX)%Z) by discriminate.
  assert (Hall : List.Forall (fun v => (10 # 1 <= v)%Q /\ (v <= 10 # 1)%Q)
                   (HoleSpec.window_values HoleSpec.ring10 3 1 1)).
  { change (HoleSpec.window_values HoleSpec.ring10 3 1 1)
      with (List.repeat (10 # 1)%Q 8).
    repeat constructor; discriminate. }
  exact (fill_within_bounds HoleSpec.ring10 3 1 1 (10 # 1) (10 # 1)
           Hodd Hpos Hi Hi Hc Hc Hall).
Defined.

Lemma fold_left_ext_in {A B : Type} (g h : A -> B -> A) (l : list B) :
  (forall a x, In x l -> g a x = h a x) ->
  forall a, List.fold_left g l a = List.fold_left h l a.
Proof.
  induction l as [|x l IH]; intros Hext a; [reflexivity|].
  cbn [List.fold_left]. rewrite (Hext a x) by (left; reflexivity).
  apply IH. intros a' x' Hx'. apply Hext. right. exact Hx'.
Qed.

Section Tiles.
Import Point2demViews.
Variable img : Point2dem.ImageView.
Variable k : Z.
Variable bbox : BBox2i.
Variable outside : Z -> Z -> option Q.

Let k2 : Z := Z.quot k 2.
Let biased_box : BBox2i :=
  crop_box {| min_x := min_x bbox - k2; min_y := min_y bbox - k2;
              max_x := max_x bbox + k2; max_y := max_y bbox + k2 |}
           (bounding_box img).
Let tile : Point2dem.ImageView :=
  crop (copy_of_crop img biased_box outside)
    (- min_x biased_box) (- min_y biased_box)
    (Point2dem.img_cols img) (Point2dem.img_rows img).

Hypothesis Hk2 : (0 <= k2)%Z.

(** Inside the expanded box the tile holds the cells of the image. *)
Lemma tile_pixel (c r : Z) :
  (Z.max 0 (min_x bbox - k2) <= c)%Z ->
  (c < Z.min (Point2dem.img_cols img) (max_x bbox + k2))%Z ->
  (Z.max 0 (min_y bbox - k2) <= r)%Z ->
  (r < Z.min (Point2dem.img_rows img) (max_y bbox + k2))%Z ->
  Point2dem.pixel tile c r = Point2dem.pixel img c r.
Proof.
  intros Hc0 Hc1 Hr0 Hr1.
  unfold tile, crop, copy_of_crop. cbn [Point2dem.pixel].
  unfold width, height, biased_box, crop_box, bounding_box.
  cbn [min_x min_y max_x max_y].
  set (bx := Z.max (min_x bbox - k2) 0). set (by_ := Z.max (min_y bbox - k2) 0).
  set (ex := Z.min (max_x bbox + k2) (Point2dem.img_cols img)).
  set (ey := Z.min (max_y bbox + k2) (Point2dem.img_rows img)).
  assert (H1 : (0 <=? c + - bx)%Z = true) by (apply Z.leb_le; unfold bx; lia).
  assert (H2 : (c + - bx <? ex - bx)%Z = true) by (apply Z.ltb_lt; unfold ex; lia).
  assert (H3 : (0 <=? r + - by_)%Z = true) by (apply Z.leb_le; unfold by_; lia).
  assert (H4 : (r + - by_ <? ey - by_)%Z = true) by (apply Z.ltb_lt; unfold ey; lia).
  rewrite H1, H2, H3, H4. cbn [andb].
  f_equal; lia.
Qed.

Lemma tile_fill (i j : Z) :
  contains bbox i j = true ->
  (0 <= i < Point2dem.img_cols img)%Z ->
  (0 <= j < Point2dem.img_rows img)%Z ->
  Point2dem.fill {| Point2dem.m_img := tile; Point2dem.m_kernel_size := k |} i j
  = Point2dem.fill {| Point2dem.m_img := img; Point2dem.m_kernel_size := k |} i j.
Proof.
  intros Hin Hi Hj. unfold contains in Hin.
  rewrite !andb_true_iff, !Z.leb_le, !Z.ltb_lt in Hin.
  destruct Hin as [[[Hx0 Hx1] Hy0] Hy1].
  unfold Point2dem.fill. cbn [Point2dem.m_img Point2dem.m_kernel_size].
  fold k2.
  rewrite (tile_pixel i j) by lia.
  destruct (Point2dem.pixel img i j) as [v|]; [reflexivity|].
  change (Point2dem.img_cols tile) with (Point2dem.img_cols img).
  change (Point2dem.img_rows tile) with (Point2dem.img_rows img).
  unfold Int.check.
  destruct (Int.in_range (i + k2)); cbn [bind]; [|reflexivity].
  destruct (Int.in_range (j + k2)); cbn [bind]; [|reflexivity].
  rewrite (fold_left_ext_in
             (fun st c =>
                List.fold_left (Point2dem.add_pixel tile c)
                  (for_range (Z.max 0 (j - k2))
                     (Z.min (Point2dem.img_rows img - 1) (j + k2))) st)
             (fun st c =>
                List.fold_left (Point2dem.add_pixel img c)
                  (for_range (Z.max 0 (j - k2))
                     (Z.min (Point2dem.img_rows img - 1) (j + k2))) st)).
  - reflexivity.
  - intros st c Hc. apply In_for_range in Hc.
    apply fold_left_ext_in. intros st' r Hr. apply In_for_range in Hr.
    unfold Point2dem.add_pixel. rewrite (tile_pixel c r) by lia. reflexivity.
Qed.
End Tiles.

(** X6.  Rasterising by tiles does not change the hole filler: the
    filler that [prerasterize] builds for a box inside the image gives,
    at every cell of the box, what the filler of the whole image gives,
    whatever lies beyond the copied buffer, which it therefore never
    reads. *)
Theorem prerasterize_agrees (img : Point2dem.ImageView) (k : Z)
    (bbox : Point2demViews.BBox2i) (outside : Z -> Z -> option Q) :
  Z.odd k = true -> (0 < k)%Z ->
  (0 <= Point2demViews.min_x bbox <= Point2demViews.max_x bbox)%Z ->
  (0 <= Point2demViews.min_y bbox <= Point2demViews.max_y bbox)%Z ->
  (Point2demViews.max_x bbox <= Point2dem.img_cols img)%Z ->
  (Point2demViews.max_y bbox <= Point2dem.img_rows img)%Z ->
  (Int.INT_MIN <= Point2demViews.min_x bbox - Z.quot k 2)%Z ->
  (Int.INT_MIN <= Point2demViews.min_y bbox - Z.quot k 2)%Z ->
  (Point2demViews.max_x bbox + Z.quot k 2 <= Int.INT_MAX)%Z ->
  (Point2demViews.max_y bbox + Z.quot k 2 <= Int.INT_MAX)%Z ->
  exists g,
    Point2demViews.prerasterize
      {| Point2dem.m_img := img; Point2dem.m_kernel_size := k |} bbox outside
    = Ok g /\
    forall i j,
      Point2demViews.contains bbox i j = true ->
      Point2dem.fill g i j =
      Point2dem.fill
        {| Point2dem.m_img := img; Point2dem.m_kernel_size := k |} i j.
Proof.
  intros Hodd Hpos Hx Hy Hcols Hrows Hx0 Hy0 Hx1 Hy1.
  pose proof (kernel_half k Hodd Hpos) as Hk.
  assert (Hk2 : (0 <= Z.quot k 2)%Z) by lia.
  unfold Point2demViews.prerasterize, Point2demViews.expand.
  cbn [Point2dem.m_img Point2dem.m_kernel_size].
  rewrite !Int_check_Ok by (unfold Int.INT_MIN, Int.INT_MAX in *; lia).
  cbn [bind].
  assert (Hw : ((Point2demViews.width
                   (Point2demViews.crop_box
                      {| Point2demViews.min_x :=
                           Point2demViews.min_x bbox - Z.quot k 2;
                         Point2demViews.min_y :=
                           Point2demViews.min_y bbox - Z.quot k 2;
                         Point2demViews.max_x :=
                           Point2demViews.max_x bbox + Z.quot k 2;
                         Point2demViews.max_y :=
                           Point2demViews.max_y bbox + Z.quot k 2 |}
                      (Point2demViews.bounding_box img)) <? 0)%Z
                || (Point2demViews.height
                      (Point2demViews.crop_box
                         {| Point2demViews.min_x :=
                              Point2demViews.min_x bbox - Z.quot k 2;
                            Point2demViews.min_y :=
                              Point2demViews.min_y bbox - Z.quot k 2;
                            Point2demViews.max_x :=
                              Point2demViews.max_x bbox + Z.quot k 2;
                            Point2demViews.max_y :=
                              Point2demViews.max_y bbox + Z.quot k 2 |}
                         (Point2demViews.bounding_box img)) <? 0)%Z)
               = false).
  { apply orb_false_iff.
    unfold Point2demViews.width, Point2demViews.height,
      Point2demViews.crop_box, Point2demViews.bounding_box.
    cbn [Point2demViews.min_x Point2demViews.min_y
         Point2demViews.max_x Point2demViews.max_y].
    split; apply Z.ltb_ge; lia. }
  rewrite Hw.
  rewrite (ctor_accepts _ k 0 0 Hodd Hpos).
  eexists. split; [reflexivity|].
  intros i j Hin.
  assert (Hij : (0 <= i < Point2dem.img_cols img)%Z /\
                (0 <= j < Point2dem.img_rows img)%Z).
  { unfold Point2demViews.contains in Hin.
    rewrite !andb_true_iff, !Z.leb_le, !Z.ltb_lt in Hin. lia. }
  apply (tile_fill img k bbox outside Hk2 i j Hin (proj1 Hij) (proj2 Hij)).
Qed.

Lemma prerasterize_agrees_witness :
  exists g,
    Point2demViews.prerasterize
      {| Point2dem.m_img := HoleSpec.ring10; Point2dem.m_kernel_size := 3 |}
      {| Point2demViews.min_x := 1; Point2demViews.min_y := 1;
         Point2demViews.max_x := 2; Point2demViews.max_y := 2 |}
      (fun _ _ => None)
    = Ok g /\
    forall i j,
      Point2demViews.contains
        {| Point2demViews.min_x := 1; Point2demViews.min_y := 1;
           Point2demViews.max_x := 2; Point2demViews.max_y := 2 |} i j = true ->
      Point2dem.fill g i j =
      Point2dem.fill
        {| Point2dem.m_img := HoleSpec.ring10; Point2dem.m_kernel_size := 3 |}
        i j.
Proof.
  apply (prerasterize_agrees HoleSpec.ring10 3).
  - reflexivity.
  - reflexivity.
  - split; discriminate.
  - split; discriminate.
  - discriminate.
  - discriminate.
  - discriminate.
  - discriminate.
  - discriminate.
  - discriminate.
Defined.

(** ** The conversions of a record agree with one another *)

(** X7.  The four readings of a record are consistent, for every
    scheme, record and datum.  Asked for a Cartesian point,
    [csv_to_cartesian_or_point_height] is [csv_to_cartesian].  The
    geodetic and the Cartesian reading differ by the conversion of the
    datum: for Cartesian and radius schemes [csv_to_geodetic] is
    [cartesian_to_geodetic] of [csv_to_cartesian], for the height
    schemes [csv_to_cartesian] is [geodetic_to_cartesian] of
    [csv_to_geodetic].  And [csv_to_lonlat] gives the longitude and
    latitude of [csv_to_geodetic], except for the radius schemes, where
    it gives the first two sorted values of the record as they are. *)
Theorem csv_conversions_agree (conv : CsvConv.t) (csv : CsvRecord R)
    (geo : Conv.GeoReference) :
  Conv.csv_to_cartesian_or_point_height conv csv geo false =
  Conv.csv_to_cartesian conv csv geo /\
  (if Geodetic.is_height_scheme (CsvConv.format conv)
   then Conv.csv_to_cartesian conv csv geo =
        result_map (Conv.geodetic_to_cartesian geo)
          (Geodetic.csv_to_geodetic conv csv geo)
   else Geodetic.csv_to_geodetic conv csv geo =
        result_map (Conv.cartesian_to_geodetic geo)
          (Conv.csv_to_cartesian conv csv geo)) /\
  (if Geodetic.is_radius_scheme (CsvConv.format conv)
   then Geodetic.csv_to_lonlat conv csv geo =
        result_map Geodetic.lonlat_of (sort_parsed_vector3 0%R conv csv)
   else Geodetic.csv_to_lonlat conv csv geo =
        result_map Geodetic.lonlat_of (Geodetic.csv_to_geodetic conv csv geo)).
Proof.
  unfold Conv.csv_to_cartesian_or_point_height, Conv.csv_to_cartesian,
    Geodetic.csv_to_geodetic, Geodetic.csv_to_lonlat, result_map.
  destruct (sort_parsed_vector3 0%R conv csv) as [[[o0 o1] o2]| |];
    cbn [bind];
    [|destruct (CsvConv.format conv); repeat split; reflexivity ..].
  destruct (CsvConv.format conv);
    cbn [Geodetic.is_radius_scheme Geodetic.is_height_scheme bind
         Geodetic.lonlat_of];
    repeat split; try reflexivity.
  - destruct (Conv.cartesian_to_geodetic geo (o0, o1, o2)) as [[l0 l1] l2].
    reflexivity.
  - destruct (Conv.point_to_lonlat geo (o0, o1)) as [a b]. reflexivity.
Qed.

(** ** A whole file of records *)

Section WholeFile.
Variable D : Type.
Variable zero : D.
Variable csv_separator : string.
Variable sscanf_lg : string -> scan D.
Variable conv : CsvConv.t.

Let parse : bool -> string -> result (bool * bool * CsvRecord D) :=
  parse_csv_line zero csv_separator sscanf_lg conv.

(** A line and the record it parses into. *)
Let record_of (line : string) (v : CsvRecord D) : Prop :=
  parse false line = Ok (false, true, v).

Lemma parse_success_any_flag (first first' b : bool) (line : string)
    (v : CsvRecord D) :
  parse first line = Ok (b, true, v) -> parse first' line = Ok (false, true, v).
Proof.
  unfold parse, parse_csv_line.
  cbv zeta.
  destruct (bufSize <=? Z.of_nat (String.length (c_str line)))%Z;
    [discriminate|].
  destruct (read_columns _ _ _ _ _ _ _) as [[[w k] fl]| |]; cbn [bind];
    try discriminate.
  destruct (negb (k =? CsvConv.num_targets conv)%Z); cbn [negb andb].
  - destruct first; cbn [negb]; [|discriminate].
    intros H. discriminate.
  - destruct fl; cbn [negb andb].
    + intros H. injection H as _ <-. reflexivity.
    + destruct first; cbn [negb]; discriminate.
Qed.

Lemma parse_failure_first (first b : bool) (line : string) (v : CsvRecord D) :
  parse first line = Ok (b, false, v) -> first = true /\ b = false.
Proof.
  intros H. destruct first.
  - split; [reflexivity|].
    unfold parse, parse_csv_line in H.
    cbv zeta.
  destruct (bufSize <=? Z.of_nat (String.length (c_str line)))%Z;
    [discriminate|].
    destruct (read_columns _ _ _ _ _ _ _) as [[[w k] fl]| |]; cbn [bind] in H;
      try discriminate.
    destruct (negb _ && negb true); [discriminate|].
    injection H as <- _ _. reflexivity.
  - apply parse_csv_line_not_first in H. destruct H as [_ H]. discriminate.
Qed.

Lemma parse_entire_file_loop_records (fuel : nat) :
  forall (file : string) (first : bool) (out res : list (CsvRecord D)),
    (String.length file < fuel)%nat ->
    parse_entire_file_loop zero csv_separator sscanf_lg fuel conv file first out
    = Ok res ->
    exists kept recs,
      res = out ++ recs /\
      List.Forall2 record_of kept recs /\
      (kept = Spec.file_lines file \/
       first = true /\
       exists line v, Spec.file_lines file = line :: kept /\
                      parse true line = Ok (false, false, v)).
Proof.
  induction fuel as [|fuel IH]; intros file first out res Hfuel H; [lia|].
  cbn [parse_entire_file_loop] in H.
  destruct (getline file) as [[line rest]|] eqn:Hg.
  - destruct (getline_file_lines _ _ _ Hg) as [Hlines Hlen].
    fold parse in H.
    destruct (parse first line) as [[[b s] v]| |] eqn:Hp; cbn [bind] in H;
      try discriminate.
    assert (Hfuel' : (String.length rest < fuel)%nat) by lia.
    destruct (IH rest false _ res Hfuel' H)
      as [kept [recs [Hres [Hrecs [Hk|[Hk _]]]]]]; [|discriminate].
    destruct s.
    + exists (line :: kept), (v :: recs). split; [|split].
      * rewrite Hres, <- app_assoc. reflexivity.
      * constructor; [|exact Hrecs].
        exact (parse_success_any_flag first false b line v Hp).
      * left. rewrite Hlines, Hk. reflexivity.
    + destruct (parse_failure_first first b line v Hp) as [-> ->].
      exists kept, recs. split; [exact Hres|]. split; [exact Hrecs|].
      right. split; [reflexivity|]. exists line, v.
      split; [rewrite Hlines, Hk; reflexivity | exact Hp].
  - injection H as <-. exists [], []. split; [symmetry; apply app_nil_r|].
    split; [constructor|]. left. symmetry. apply getline_None. exact Hg.
Qed.

Lemma parse_entire_file_loop_returns (fuel : nat) :
  forall (file : string) (out recs : list (CsvRecord D)),
    (String.length file < fuel)%nat ->
    List.Forall2 record_of (Spec.file_lines file) recs ->
    parse_entire_file_loop zero csv_separator sscanf_lg fuel conv file false out
    = Ok (out ++ recs).
Proof.
  induction fuel as [|fuel IH]; intros file out recs Hfuel Hrecs; [lia|].
  cbn [parse_entire_file_loop].
  destruct (getline file) as [[line rest]|] eqn:Hg.
  - destruct (getline_file_lines _ _ _ Hg) as [Hlines Hlen].
    rewrite Hlines in Hrecs. inversion Hrecs as [|l v ls vs Hv Hvs]; subst.
    fold parse. unfold record_of in Hv. rewrite Hv. cbn [bind].
    rewrite (IH rest (out ++ [v]) vs) by (try lia; exact Hvs).
    rewrite <- app_assoc. reflexivity.
  - apply getline_None in Hg. rewrite Hg in Hrecs. inversion Hrecs.
    rewrite app_nil_r. reflexivity.
Qed.
End WholeFile.

(** X8.  [parse_entire_file] returns exactly when every line after the
    first parses.  The list then holds the records of the lines in
    file order, the first line being left out when it does not parse,
    and the value returned is the length of the list. *)
Theorem parse_entire_file_records {D : Type} (zero : D) (sep : string)
    (sscanf_lg : string -> scan D) (conv : CsvConv.t) (text : string)
    (n : Z) (recs : list (CsvRecord D)) :
  parse_entire_file zero sep sscanf_lg conv (Some text) = Ok (n, recs) <->
  n = Z.of_nat (List.length recs) /\
  exists kept,
    List.Forall2
      (fun line v =>
         parse_csv_line zero sep sscanf_lg conv false line = Ok (false, true, v))
      kept recs /\
    (kept = Spec.file_lines text \/
     exists line v,
       Spec.file_lines text = line :: kept /\
       parse_csv_line zero sep sscanf_lg conv true line = Ok (false, false, v)).
Proof.
  unfold parse_entire_file. split.
  - intros H.
    destruct (parse_entire_file_loop zero sep sscanf_lg (S (String.length text))
                conv text true []) as [out| |] eqn:Hl; cbn [bind] in H;
      try discriminate.
    injection H as <- <-. split; [reflexivity|].
    destruct (parse_entire_file_loop_records D zero sep sscanf_lg conv
                (S (String.length text)) text true [] out (Nat.lt_succ_diag_r _) Hl)
      as [kept [recs [Hres [Hrecs Hk]]]].
    cbn [app] in Hres. subst out. exists kept. split; [exact Hrecs|].
    destruct Hk as [Hk|[_ Hk]]; [left; exact Hk | right; exact Hk].
  - intros [Hn [kept [Hrecs Hk]]]. subst n.
    assert (Hl : parse_entire_file_loop zero sep sscanf_lg
                   (S (String.length text)) conv text true [] = Ok recs).
    { cbn [parse_entire_file_loop].
      destruct (getline text) as [[line rest]|] eqn:Hg.
      - destruct (getline_file_lines _ _ _ Hg) as [Hlines Hlen].
        destruct Hk as [Hk|[l [v [Hk Hp]]]].
        + subst kept. rewrite Hlines in Hrecs.
          inversion Hrecs as [|l v ls vs Hv Hvs]; subst.
          rewrite (parse_success_any_flag D zero sep sscanf_lg conv
                     false true false line v Hv). cbn [bind].
          exact (parse_entire_file_loop_returns D zero sep sscanf_lg conv
                   (String.length text) rest [v] vs Hlen Hvs).
        + rewrite Hlines in Hk. injection Hk as <- <-.
          rewrite Hp. cbn [bind].
          exact (parse_entire_file_loop_returns D zero sep sscanf_lg conv
                   (String.length text) rest [] recs Hlen Hrecs).
      - apply getline_None in Hg. rewrite Hg in Hk.
        destruct Hk as [Hk|[l [v [Hk _]]]]; [|discriminate].
        subst kept. inversion Hrecs. reflexivity. }
    rewrite Hl. reflexivity.
Qed.

Lemma csv_file_size_loop_value (fuel : nat) :
  forall (fh : string) (n m : Z),
    (String.length fh < fuel)%nat ->
    PointUtils.csv_file_size_loop fuel fh n = Ok m ->
    m = (n + Spec.counted (Spec.file_lines fh))%Z.
Proof.
  induction fuel as [|fuel IH]; intros fh n m Hfuel H; [lia|].
  cbn [PointUtils.csv_file_size_loop] in H.
  destruct (getline fh) as [[line rest]|] eqn:Hg.
  - destruct (getline_file_lines _ _ _ Hg) as [Hlines Hlen].
    rewrite Hlines, counted_cons, <- is_valid_csv_line_counted.
    destruct (PointUtils.is_valid_csv_line line); cbn [negb] in H.
    + unfold Int.incr, Int.check in H.
      destruct (Int.in_range (n + 1)); cbn [bind] in H; [|discriminate].
      apply IH in H; lia.
    + apply IH in H; lia.
  - injection H as <-. apply getline_None in Hg. rewrite Hg.
    unfold Spec.counted. simpl. lia.
Qed.

Lemma counted_le_length (ls : list string) :
  (Spec.counted ls <= Z.of_nat (List.length ls))%Z.
Proof.
  unfold Spec.counted.
  pose proof (filter_length_le Spec.counted_line ls). lia.
Qed.

(** X9.  The point-count estimate exceeds the number of records that
    [parse_entire_file] delivers for the same text by one at most; the
    number of records is the number of lines of the text or one less. *)
Theorem estimate_and_records {D : Type} (zero : D) (sep : string)
    (sscanf_lg : string -> scan D) (conv : CsvConv.t) (text : string)
    (m n : Z) (recs : list (CsvRecord D)) :
  PointUtils.csv_file_size (Some text) = Ok m ->
  parse_entire_file zero sep sscanf_lg conv (Some text) = Ok (n, recs) ->
  (m <= n + 1)%Z /\
  (Z.of_nat (List.length (Spec.file_lines text)) - 1 <= n
   <= Z.of_nat (List.length (Spec.file_lines text)))%Z.
Proof.
  intros Hm Hn.
  unfold PointUtils.csv_file_size in Hm.
  apply csv_file_size_loop_value in Hm; [|lia].
  pose proof (counted_le_length (Spec.file_lines text)) as Hc.
  unfold parse_entire_file in Hn.
  destruct (parse_entire_file_loop zero sep sscanf_lg (S (String.length text))
              conv text true []) as [out| |] eqn:Hl; cbn [bind] in Hn;
    try discriminate.
  injection Hn as <- <-.
  destruct (parse_entire_file_loop_records D zero sep sscanf_lg conv
              (S (String.length text)) text true [] out (Nat.lt_succ_diag_r _) Hl)
    as [kept [recs [Hres [Hrecs Hk]]]].
  cbn [app] in Hres. subst out.
  apply Forall2_length in Hrecs.
  destruct Hk as [Hk|[_ [line [v [Hk _]]]]].
  - rewrite <- Hk, Hrecs in *. lia.
  - rewrite Hk in *. cbn [List.length] in *. lia.
Qed.

Lemma estimate_and_records_witness :
  let text := String.append "x y z" (String newline
               (String.append "1 2 3" (String newline EmptyString))) in
  (2 <= 1 + 1)%Z /\
  (Z.of_nat (List.length (Spec.file_lines text)) - 1 <= 1
   <= Z.of_nat (List.length (Spec.file_lines text)))%Z.
Proof.
  intros text.
  exact (estimate_and_records 0%Z LineSpec.comma_space_tab LineSpec.scan_digits
           LineSpec.xyz_columns text 2 1
           [{| point_data := (1, 2, 3)%Z; file := EmptyString |}]
           eq_refl eq_refl).
Defined.

(** ** The header line *)

Lemma append_assoc (a b c : string) :
  String.append (String.append a b) c = String.append a (String.append b c).
Proof. induction a as [|x a IH]; simpl; [|rewrite IH]; reflexivity. Qed.

Lemma append_empty_r (a : string) : String.append a EmptyString = a.
Proof. induction a as [|x a IH]; simpl; [|rewrite IH]; reflexivity. Qed.

Section Tokens.
Variable sep : string.

Lemma strtok_all_word (w : string) :
  string_all (fun c => negb (string_mem c sep)) w = true ->
  forall s cur,
    strtok_all sep (String.append w s) cur =
    strtok_all sep s (String.append cur w).
Proof.
  induction w as [|c w IH]; intros Hw s cur.
  - rewrite append_empty_r. reflexivity.
  - cbn [string_all] in Hw. apply andb_true_iff in Hw. destruct Hw as [Hc Hw].
    apply negb_true_iff in Hc.
    cbn [String.append strtok_all]. rewrite Hc.
    rewrite (IH Hw). rewrite append_assoc. reflexivity.
Qed.

Lemma strtok_all_skip (d : string) :
  string_all (fun c => string_mem c sep) d = true ->
  forall s, strtok_all sep (String.append d s) EmptyString =
            strtok_all sep s EmptyString.
Proof.
  induction d as [|c d IH]; intros Hd s; [reflexivity|].
  cbn [string_all] in Hd. apply andb_true_iff in Hd. destruct Hd as [Hc Hd].
  cbn [String.append strtok_all]. rewrite Hc. cbn [is_empty].
  apply IH. exact Hd.
Qed.

Lemma strtok_all_delimiter (d : string) :
  d <> EmptyString ->
  string_all (fun c => string_mem c sep) d = true ->
  forall s cur,
    cur <> EmptyString ->
    strtok_all sep (String.append d s) cur = cur :: strtok_all sep s EmptyString.
Proof.
  intros Hne Hd s cur Hcur. destruct d as [|c d]; [congruence|].
  cbn [string_all] in Hd. apply andb_true_iff in Hd. destruct Hd as [Hc Hd].
  cbn [String.append strtok_all]. rewrite Hc.
  destruct cur; [congruence|]. cbn [is_empty].
  rewrite (strtok_all_skip d Hd). reflexivity.
Qed.

Variable delimiter : string.
Hypothesis Hdelimiter : delimiter <> EmptyString.
Hypothesis Hsep : string_all (fun c => string_mem c sep) delimiter = true.

Lemma header_fold (names : list (Z * string)) :
  forall acc,
    List.fold_left
      (fun s it => String.append (String.append s (snd it)) delimiter)
      names acc =
    String.append acc
      (List.fold_right
         (fun it s => String.append (snd it) (String.append delimiter s))
         EmptyString names).
Proof.
  induction names as [|it names IH]; intros acc; cbn [List.fold_left List.fold_right].
  - symmetry. apply append_empty_r.
  - rewrite IH, !append_assoc. reflexivity.
Qed.

Lemma strtok_all_header (names : list (Z * string)) :
  List.Forall
    (fun it => snd it <> EmptyString /\
               string_all (fun c => negb (string_mem c sep)) (snd it) = true)
    names ->
  strtok_all sep
    (List.fold_right
       (fun it s => String.append (snd it) (String.append delimiter s))
       EmptyString names) EmptyString
  = List.map snd names.
Proof.
  induction 1 as [|it names [Hne Hw] _ IH]; [reflexivity|].
  cbn [List.fold_right List.map].
  rewrite (strtok_all_word (snd it) Hw). cbn [String.append].
  rewrite (strtok_all_delimiter delimiter Hdelimiter Hsep) by exact Hne.
  rewrite IH. reflexivity.
Qed.
End Tokens.

(** X10.  A header line written with a delimiter made of separator
    characters splits back into the column names, in the order of
    their columns, provided no name is empty or holds a separator. *)
Theorem header_round_trip (conv : CsvConv.t) (sep delimiter : string) :
  delimiter <> EmptyString ->
  string_all (fun c => string_mem c sep) delimiter = true ->
  List.Forall
    (fun it => snd it <> EmptyString /\
               string_all (fun c => negb (string_mem c sep)) (snd it) = true)
    (CsvConv.col2name conv) ->
  strtok_all sep (write_header_string conv delimiter) EmptyString
  = List.map snd (CsvConv.col2name conv).
Proof.
  intros Hne Hsep Hnames. unfold write_header_string.
  rewrite header_fold. cbn [String.append].
  apply strtok_all_header; assumption.
Qed.

Lemma header_round_trip_witness :
  strtok_all LineSpec.comma_space_tab
    (write_header_string LineSpec.xyz_columns ", ") EmptyString
  = ["x"; "y"; "z"]%string.
Proof.
  apply (header_round_trip LineSpec.xyz_columns LineSpec.comma_space_tab ", ").
  - discriminate.
  - reflexivity.
  - repeat constructor; discriminate.
Defined.

(** ** The points of one tile *)

Lemma passes_bound_Z : Z.of_nat passes_bound = (Int.INT_MAX + 1)%Z.
Proof. unfold passes_bound. apply Z2Nat.id. discriminate. Qed.

Section TileReader.
Variables reader point : Type.
Variable ReadNextPoint : reader -> result (bool * reader).
Variable GetPoint : reader -> point.
Variable max_num_pts_to_read : Z.

Let limit : Z := Z.max 1 max_num_pts_to_read.

(** The loop is left by its [break] or at the end of the input,
    whatever number of passes it is allowed. *)
Lemma read_points_stops (fuel : nat) :
  forall (r : reader) (count : Z) (in_ buf : list point) (r' : reader),
    count = Z.of_nat (List.length in_) ->
    (count < max_num_pts_to_read \/ count = 0)%Z ->
    read_points ReadNextPoint GetPoint fuel r count max_num_pts_to_read in_
    = Ok (buf, r') ->
    (Z.of_nat (List.length buf) <= limit)%Z /\
    ((Z.of_nat (List.length buf) < limit)%Z ->
     exists r0, ReadNextPoint r0 = Ok (false, r')).
Proof.
  induction fuel as [|fuel IH]; intros r count in_ buf r' Hcount Hlt H.
  - discriminate.
  - cbn [read_points] in H.
    destruct (ReadNextPoint r) as [[more r1]| |] eqn:Hr; cbn [bind] in H;
      try discriminate.
    destruct more.
    + unfold Int.incr, Int.check in H.
      destruct (Int.in_range (count + 1)); cbn [bind] in H; [|discriminate].
      destruct (Z.leb_spec max_num_pts_to_read (count + 1)) as [Hmax|Hmax].
      * injection H as <- <-. rewrite length_app. cbn [List.length].
        unfold limit. split; lia.
      * apply (IH r1 (count + 1)%Z (in_ ++ [GetPoint r1]) buf r');
          [rewrite length_app; cbn [List.length]; lia | lia | exact H].
    + injection H as <- <-. split; [unfold limit; lia|].
      intros _. exists r. exact Hr.
Qed.

(** A reader that never runs dry is read until the count is
    reached. *)
Lemma read_points_full (fuel : nat) :
  (forall r, exists r1, ReadNextPoint r = Ok (true, r1)) ->
  forall (r : reader) (count : Z) (in_ : list point),
    count = Z.of_nat (List.length in_) ->
    (count < limit)%Z -> (limit <= Int.INT_MAX)%Z ->
    (limit - count <= Z.of_nat fuel)%Z ->
    exists buf r',
      read_points ReadNextPoint GetPoint fuel r count max_num_pts_to_read in_
      = Ok (buf, r') /\
      Z.of_nat (List.length buf) = limit.
Proof.
  intros Hmore.
  induction fuel as [|fuel IH]; intros r count in_ Hcount Hlt Hint Hfuel;
    [lia|].
  cbn [read_points]. destruct (Hmore r) as [r1 ->]. cbn [bind].
  unfold Int.incr.
  rewrite Int_check_Ok by (unfold Int.INT_MIN; lia). cbn [bind].
  destruct (Z.leb_spec max_num_pts_to_read (count + 1)) as [Hmax|Hmax].
  - eexists. eexists. split; [reflexivity|].
    rewrite length_app. cbn [List.length]. unfold limit in *. lia.
  - apply IH; [rewrite length_app; cbn [List.length]; lia
              | unfold limit in *; lia | exact Hint | lia].
Qed.
End TileReader.

(** X11.  For a tile of [num_cols] by [num_rows] cells the raster reads
    at most [num_cols * num_rows] points, and one point for a tile
    without cells, because the loop is left once that many are read;
    when it has read fewer, the reader has reported the end of its
    input; and from a reader that never runs dry it reads that many. *)
Theorem tile_points_bounded {reader point : Type}
    (ReadNextPoint : reader -> result (bool * reader))
    (GetPoint : reader -> point)
    (m_block_size : Z) (m_reader : reader) (num_cols num_rows : Z) :
  (forall buf r',
      prerasterize_read ReadNextPoint GetPoint m_block_size m_reader
        num_cols num_rows = Ok (buf, r') ->
      (Z.of_nat (List.length buf) <= Z.max 1 (num_cols * num_rows))%Z /\
      ((Z.of_nat (List.length buf) < Z.max 1 (num_cols * num_rows))%Z ->
       exists r0, ReadNextPoint r0 = Ok (false, r'))) /\
  ((forall r, exists r1, ReadNextPoint r = Ok (true, r1)) ->
   m_block_size <> 0%Z ->
   Z.rem num_rows m_block_size = 0%Z -> Z.rem num_cols m_block_size = 0%Z ->
   (Int.INT_MIN <= num_cols * num_rows <= Int.INT_MAX)%Z ->
   exists buf r',
     prerasterize_read ReadNextPoint GetPoint m_block_size m_reader
       num_cols num_rows = Ok (buf, r') /\
     Z.of_nat (List.length buf) = Z.max 1 (num_cols * num_rows)).
Proof.
  split.
  - unfold prerasterize_read. intros buf r' H.
    destruct (m_block_size =? 0)%Z; [discriminate|].
    destruct (VW_ASSERT _ ArgumentErr) as [u| |];
      [|discriminate H|discriminate H].
    rewrite (bind_Ok (Ok u) _ u eq_refl) in H.
    unfold Int.mul, Int.check in H.
    destruct (Int.in_range (num_cols * num_rows));
      [|discriminate H].
    rewrite (bind_Ok (Ok (num_cols * num_rows)%Z) _ _ eq_refl) in H.
    apply (read_points_stops reader point ReadNextPoint GetPoint
             (num_cols * num_rows) passes_bound m_reader 0 [] buf r');
      [reflexivity | right; reflexivity | exact H].
  - intros Hmore Hb Hrows Hcols Hint. unfold prerasterize_read.
    destruct (Z.eqb_spec m_block_size 0) as [E|_]; [contradiction|].
    rewrite Hrows, Hcols.
    change (VW_ASSERT ((0 =? 0)%Z && (0 =? 0)%Z) ArgumentErr) with (Ok tt).
    rewrite (bind_Ok (Ok tt) _ tt eq_refl).
    unfold Int.mul. rewrite Int_check_Ok by exact Hint.
    rewrite (bind_Ok (Ok (num_cols * num_rows)%Z) _ _ eq_refl).
    apply (read_points_full reader point ReadNextPoint GetPoint
             (num_cols * num_rows) passes_bound Hmore m_reader 0 []);
      [reflexivity | lia | unfold Int.INT_MAX in *; lia
      | rewrite passes_bound_Z; unfold Int.INT_MAX in *; lia].
Qed.

(** A text of two records read into a tile of one cell: one point is
    read. *)
Lemma tile_points_bounded_witness :
  let text := String.append "1 2 3" (String newline
               (String.append "4 5 6" (String newline EmptyString))) in
  let next :=
    ReadNextPoint 0%Z LineSpec.comma_space_tab LineSpec.scan_digits
      (fun conv vals => sort_parsed_vector3 0%Z conv vals) in
  exists buf r',
    prerasterize_read next (@GetPoint Z) 1
      (CsvReader_ctor 0%Z text LineSpec.xyz_columns) 1 1 = Ok (buf, r') /\
    List.length buf = 1%nat /\
    (Z.of_nat (List.length buf) <= Z.max 1 (1 * 1))%Z.
Proof.
  intros text next.
  assert (H : exists buf r',
             prerasterize_read next (@GetPoint Z) 1
               (CsvReader_ctor 0%Z text LineSpec.xyz_columns) 1 1
             = Ok (buf, r') /\ List.length buf = 1%nat).
  { pose proof passes_bound_Z as HB.
    destruct passes_bound as [|fuel] eqn:E; [discriminate HB|].
    exists [(1, 2, 3)%Z]. eexists. split; [|reflexivity].
    unfold prerasterize_read. rewrite E. reflexivity. }
  destruct H as [buf [r' [H Hlen]]]. exists buf, r'.
  split; [exact H|]. split; [exact Hlen|].
  exact (proj1 (proj1 (tile_points_bounded next (@GetPoint Z) 1
                         (CsvReader_ctor 0%Z text LineSpec.xyz_columns) 1 1)
                  buf r' H)).
Defined.

(** ** What an accepted descriptor declares *)

Lemma names_set_length (names : list string) :
  forall index name names',
    CsvConv.names_set names index name = Ok names' ->
    (index < List.length names)%nat /\ List.length names' = List.length names.
Proof.
  induction names as [|n0 names IH]; intros index name names' H;
    [destruct index; discriminate|].
  destruct index as [|index]; cbn [CsvConv.names_set] in H.
  - injection H as <-. simpl. split; [lia | reflexivity].
  - destruct (CsvConv.names_set names index name) as [r| |] eqn:E;
      cbn [bind] in H; try discriminate.
    injection H as <-. destruct (IH _ _ _ E) as [H1 H2]. simpl. split; lia.
Qed.

Lemma get_sorted_index_range (name : string) (index : Z) :
  CsvConv.get_sorted_index_for_name name = Ok index ->
  (0 <= index <= 3)%Z /\ (index = 3%Z <-> name = "file"%string).
Proof.
  unfold CsvConv.get_sorted_index_for_name.
  destruct (String.eqb_spec name "file") as [->|Hfile].
  - intros H. injection H as <-. split; [lia | tauto].
  - repeat match goal with
           | |- context [if ?b then _ else _] => destruct b
           end;
      intros H; try discriminate; injection H as <-;
      (split; [lia | split; [discriminate | contradiction]]).
Qed.

Lemma map_put_Forall {V : Type} (P : Z * V -> Prop) (k : Z) (v : V)
    (m : list (Z * V)) :
  P (k, v) -> List.Forall P m -> List.Forall P (map_put Z.eqb Z.ltb k v m).
Proof.
  intros Hkv. induction 1 as [|[k' v'] m Hx Hm IH]; cbn [map_put].
  - constructor; [exact Hkv | constructor].
  - destruct (Z.eqb k k'); [constructor; assumption|].
    destruct (Z.ltb k k'); constructor; try assumption.
    constructor; assumption.
Qed.

Lemma sort_names_spec (n2c : list (string * Z)) :
  forall names c2s names' c2s',
    CsvConv.sort_names n2c names c2s = Ok (names', c2s') ->
    List.Forall (fun e => (0 <= snd e < 3)%Z) c2s ->
    List.length names' = List.length names /\
    List.Forall (fun e => (0 <= snd e < 3)%Z) c2s' /\
    forall name, In name (List.map fst n2c) ->
      exists index,
        CsvConv.get_sorted_index_for_name name = Ok index /\
        (Z.to_nat index < List.length names)%nat.
Proof.
  induction n2c as [|[name col] n2c IH]; intros names c2s names' c2s' H Hc2s;
    cbn [CsvConv.sort_names] in H.
  - injection H as <- <-. split; [reflexivity|]. split; [exact Hc2s|].
    intros name [].
  - destruct (CsvConv.get_sorted_index_for_name name) as [index| |] eqn:Hi;
      cbn [bind] in H; try discriminate.
    destruct (CsvConv.names_set names (Z.to_nat index) name) as [nm| |] eqn:E;
      cbn [bind] in H; try discriminate.
    destruct (names_set_length _ _ _ _ E) as [Hlt Hlen].
    destruct (get_sorted_index_range name index Hi) as [Hrange _].
    assert (Hc2s' : List.Forall (fun e => (0 <= snd e < 3)%Z)
                      (if (index <? CsvConv.NUM_POINT_VALS)%Z
                       then map_put Z.eqb Z.ltb col index c2s else c2s)).
    { destruct (Z.ltb_spec index CsvConv.NUM_POINT_VALS) as [Hlt3|_];
        [|exact Hc2s].
      apply map_put_Forall; [|exact Hc2s].
      unfold CsvConv.NUM_POINT_VALS in Hlt3. cbn [snd]. lia. }
    destruct (IH _ _ _ _ H Hc2s') as [Hlen' [Hall Hnames]].
    split; [congruence|]. split; [exact Hall|].
    intros s [Hs|Hs].
    + cbn [fst] in Hs. subst s. exists index. split; [exact Hi | exact Hlt].
    + destruct (Hnames s Hs) as [i [Hgi Hlti]]. exists i.
      split; [exact Hgi | congruence].
Qed.

Lemma parse_csv_format_sorted (d : CsvConv.defaults)
    (csv_format_str csv_proj4_str : string) (conv : CsvConv.t) :
  CsvConv.parse_csv_format d csv_format_str csv_proj4_str = Ok conv ->
  csv_format_str <> EmptyString ->
  exists names,
    (3 <= Z.of_nat (List.length (CsvConv.name2col conv)) <= 4)%Z /\
    CsvConv.sort_names (CsvConv.name2col conv)
      (List.repeat EmptyString (List.length (CsvConv.name2col conv))) []
    = Ok (names, CsvConv.col2sort conv) /\
    CsvConv.num_targets conv = Z.of_nat (List.length (CsvConv.name2col conv)).
Proof.
  unfold CsvConv.parse_csv_format. intros H Hne.
  destruct (contains "D_MOON" csv_proj4_str || contains "D_MARS" csv_proj4_str);
    [discriminate|].
  destruct (String.eqb (string_map tolower csv_format_str) EmptyString) eqn:Hempty.
  { apply string_map_empty in Hempty. contradiction. }
  destruct (extract_string _ EmptyString) as [is1 str].
  match type of H with
  | bind ?u _ = _ => destruct u as [[[is3 zone] north]| |] eqn:Hutm
  end; cbn [bind] in H; try discriminate.
  match type of H with
  | bind ?u _ = _ => destruct u as [[n2c c2n]| |] eqn:Hdecl
  end; cbn [bind] in H; try discriminate.
  destruct ((Z.of_nat (List.length n2c) <? CsvConv.MIN_NUM_TARGETS)%Z
            || (CsvConv.MAX_NUM_TARGETS <? Z.of_nat (List.length n2c))%Z)
    eqn:Hrange; [discriminate|].
  apply orb_false_iff in Hrange. destruct Hrange as [Hlo Hhi].
  apply Z.ltb_ge in Hlo, Hhi.
  match type of H with
  | bind ?u _ = _ => destruct u as [[names c2s]| |] eqn:Hsort
  end; cbn [bind] in H; try discriminate.
  destruct (CsvConv.select_format names) as [fmt| |] eqn:Hfmt;
    cbn [bind] in H; try discriminate.
  injection H as <-.
  cbn [CsvConv.name2col CsvConv.col2sort CsvConv.num_targets].
  exists names.
  unfold CsvConv.MIN_NUM_TARGETS, CsvConv.MAX_NUM_TARGETS,
    CsvConv.NUM_POINT_VALS in *.
  split; [lia|]. split; [exact Hsort | reflexivity].
Qed.

(** X12.  An accepted non-empty descriptor declares supported names
    only; the sorting table sends columns to the positions 0, 1, 2 of a
    point; and a descriptor that declares the identifier column
    declares four columns. *)
Theorem accepted_descriptor_names (d : CsvConv.defaults)
    (csv_format_str csv_proj4_str : string) (conv : CsvConv.t) :
  CsvConv.parse_csv_format d csv_format_str csv_proj4_str = Ok conv ->
  csv_format_str <> EmptyString ->
  (forall name, In name (List.map fst (CsvConv.name2col conv)) ->
     exists index,
       CsvConv.get_sorted_index_for_name name = Ok index /\
       (0 <= index < CsvConv.num_targets conv)%Z) /\
  List.Forall (fun e => (0 <= snd e < 3)%Z) (CsvConv.col2sort conv) /\
  (In "file"%string (List.map fst (CsvConv.name2col conv)) ->
   CsvConv.num_targets conv = 4%Z).
Proof.
  intros Hok Hne.
  destruct (parse_csv_format_sorted d _ _ conv Hok Hne)
    as [names [Hrange [Hsort Hnum]]].
  destruct (sort_names_spec _ _ _ _ _ Hsort (Forall_nil _))
    as [_ [Hall Hnames]].
  rewrite repeat_length in Hnames.
  assert (Hidx : forall name,
             In name (List.map fst (CsvConv.name2col conv)) ->
             exists index,
               CsvConv.get_sorted_index_for_name name = Ok index /\
               (0 <= index < CsvConv.num_targets conv)%Z).
  { intros name Hin. destruct (Hnames name Hin) as [index [Hi Hlt]].
    exists index. split; [exact Hi|].
    destruct (get_sorted_index_range name index Hi) as [Hr _]. lia. }
  split; [exact Hidx|]. split; [exact Hall|].
  intros Hfile. destruct (Hidx _ Hfile) as [index [Hi Hlt]].
  cbn in Hi. injection Hi as <-. lia.
Qed.

Lemma accepted_descriptor_names_witness :
  exists conv,
    CsvConv.parse_csv_format CsvConv.usual_defaults "1:file 2:lon 3:lat 4:radius_m"
      EmptyString = Ok conv /\
    (forall name, In name (List.map fst (CsvConv.name2col conv)) ->
       exists index,
         CsvConv.get_sorted_index_for_name name = Ok index /\
         (0 <= index < CsvConv.num_targets conv)%Z) /\
    List.Forall (fun e => (0 <= snd e < 3)%Z) (CsvConv.col2sort conv) /\
    (In "file"%string (List.map fst (CsvConv.name2col conv)) ->
     CsvConv.num_targets conv = 4%Z).
Proof.
  eexists. split; [vm_compute; reflexivity|].
  apply (accepted_descriptor_names CsvConv.usual_defaults
           "1:file 2:lon 3:lat 4:radius_m" EmptyString).
  - vm_compute. reflexivity.
  - discriminate.
Defined.

(** ** The zone of a projected descriptor *)

Lemma span_inv (p : ascii -> bool) (s : string) :
  forall a r,
    span p s = (a, r) ->
    s = String.append a r /\ string_all p a = true /\
    match r with String c _ => p c = false | EmptyString => True end.
Proof.
  induction s as [|c s IH]; intros a r H; cbn [span] in H.
  - injection H as <- <-. repeat split.
  - destruct (p c) eqn:Hc.
    + destruct (span p s) as [w r0]. injection H as <- <-.
      destruct (IH w r0 eq_refl) as [Hs [Hw Hr]]. subst s.
      cbn [String.append string_all]. rewrite Hc. repeat split; assumption.
    + injection H as <- <-. repeat split. exact Hc.
Qed.

Lemma span_app (p : ascii -> bool) (w : string) (c : ascii) (rest : string) :
  string_all p w = true -> p c = false ->
  span p (String.append w (String c rest)) = (w, String c rest).
Proof.
  intros Hw Hc. induction w as [|x w IH]; cbn [String.append span].
  - rewrite Hc. reflexivity.
  - cbn [string_all] in Hw. apply andb_true_iff in Hw. destruct Hw as [Hx Hw].
    rewrite Hx, (IH Hw). reflexivity.
Qed.

Lemma single_char_eqb (c d : ascii) :
  String.eqb (String c EmptyString) (String d EmptyString) = Ascii.eqb c d.
Proof. cbn [String.eqb]. destruct (Ascii.eqb c d); reflexivity. Qed.

Lemma decimal_value_nonneg (s : string) :
  forall acc, (0 <= acc)%Z -> string_all isdigit s = true ->
              (0 <= decimal_value s acc)%Z.
Proof.
  induction s as [|x s IH]; intros acc Hacc Hs; [exact Hacc|].
  cbn [decimal_value]. cbn [string_all] in Hs.
  apply andb_true_iff in Hs. destruct Hs as [Hx Hs].
  apply IH; [|exact Hs].
  unfold isdigit in Hx. apply andb_true_iff in Hx.
  destruct Hx as [Hx _]. apply Z.leb_le in Hx. unfold digit_val. lia.
Qed.

(** The three ways [parse_utm_str] ends, read off the text before and
    after its leading digits. *)
Lemma parse_utm_str_cases (utm : string) :
  let a := fst (span isdigit utm) in
  let r := snd (span isdigit utm) in
  CsvConv.parse_utm_str utm =
  match a, r with
  | EmptyString, _ | _, EmptyString => Throw ArgumentErr
  | _, String c _ =>
      if (decimal_value a 0 <=? Int.INT_MAX)%Z then
        if Ascii.eqb c "n" || Ascii.eqb c "N" then Ok (decimal_value a 0, true)
        else if Ascii.eqb c "s" || Ascii.eqb c "S"
             then Ok (decimal_value a 0, false)
             else Throw ArgumentErr
      else Undefined
  end.
Proof.
  unfold CsvConv.parse_utm_str.
  destruct (span isdigit utm) as [a r] eqn:Hspan. cbn [fst snd].
  destruct (span_inv _ _ _ _ Hspan) as [_ [Ha _]].
  destruct a as [|a0 a]; [reflexivity|].
  destruct r as [|c rest]; [reflexivity|].
  cbn [is_empty orb]. unfold Int.check, Int.in_range.
  pose proof (decimal_value_nonneg _ 0%Z (Z.le_refl 0) Ha) as H0.
  destruct (Z.leb_spec Int.INT_MIN (decimal_value (String a0 a) 0)) as [_|Hlt];
    [|unfold Int.INT_MIN in Hlt; lia].
  cbn [andb].
  destruct (decimal_value (String a0 a) 0 <=? Int.INT_MAX)%Z;
    [|reflexivity].
  cbn [bind]. rewrite !single_char_eqb. reflexivity.
Qed.

(** The leading digits of a text are its longest prefix of digits. *)
Lemma span_split (digits : string) (c : ascii) (rest : string) :
  string_all isdigit digits = true -> isdigit c = false ->
  fst (span isdigit (String.append digits (String c rest))) = digits /\
  snd (span isdigit (String.append digits (String c rest))) = String c rest.
Proof.
  intros Hd Hc. rewrite (span_app isdigit digits c rest Hd Hc). split; reflexivity.
Qed.

(** X13.  [parse_utm_str] returns a zone exactly for the texts made of
    one or more digits followed by a hemisphere letter, [n] or [N] for
    north and [s] or [S] for south, and then by anything; the zone is
    the value of the digits, which must fit an [int].  When the digits
    are followed by any character and their value does not fit an
    [int], the conversion by [atoi] is undefined, whatever the
    character is.  Every other text throws [ArgumentErr]. *)
Theorem parse_utm_str_reads (utm : string) :
  (forall zone north,
     CsvConv.parse_utm_str utm = Ok (zone, north) <->
     exists digits c rest,
       utm = String.append digits (String c rest) /\
       digits <> EmptyString /\ string_all isdigit digits = true /\
       zone = decimal_value digits 0 /\ (zone <= Int.INT_MAX)%Z /\
       north = (Ascii.eqb c "n" || Ascii.eqb c "N") /\
       (Ascii.eqb c "n" || Ascii.eqb c "N" || Ascii.eqb c "s"
        || Ascii.eqb c "S") = true) /\
  (CsvConv.parse_utm_str utm = Undefined <->
   exists digits c rest,
     utm = String.append digits (String c rest) /\
     digits <> EmptyString /\ string_all isdigit digits = true /\
     isdigit c = false /\ (Int.INT_MAX < decimal_value digits 0)%Z) /\
  ((forall zone north, CsvConv.parse_utm_str utm <> Ok (zone, north)) ->
   CsvConv.parse_utm_str utm <> Undefined ->
   CsvConv.parse_utm_str utm = Throw ArgumentErr).
Proof.
  pose proof (parse_utm_str_cases utm) as Hcases. cbv zeta in Hcases.
  assert (Hback : forall digits c rest,
             utm = String.append digits (String c rest) ->
             digits <> EmptyString -> string_all isdigit digits = true ->
             isdigit c = false ->
             CsvConv.parse_utm_str utm =
             if (decimal_value digits 0 <=? Int.INT_MAX)%Z then
               if Ascii.eqb c "n" || Ascii.eqb c "N"
               then Ok (decimal_value digits 0, true)
               else if Ascii.eqb c "s" || Ascii.eqb c "S"
                    then Ok (decimal_value digits 0, false)
                    else Throw ArgumentErr
             else Undefined).
  { intros digits c rest Hutm Hne Hd Hc. rewrite Hcases.
    destruct (span_split digits c rest Hd Hc) as [E1 E2].
    rewrite <- Hutm in E1, E2. rewrite E1, E2.
    destruct digits; [congruence | reflexivity]. }
  assert (Hletter : forall c,
             (Ascii.eqb c "n" || Ascii.eqb c "N" || Ascii.eqb c "s"
              || Ascii.eqb c "S") = true -> isdigit c = false).
  { intros c Hc.
    repeat (apply orb_true_iff in Hc; destruct Hc as [Hc|Hc]);
      apply Ascii.eqb_eq in Hc; subst c; reflexivity. }
  destruct (span isdigit utm) as [a r] eqn:Hspan. cbn [fst snd] in Hcases.
  destruct (span_inv _ _ _ _ Hspan) as [Hutm [Ha Hr]].
  split; [|split].
  - intros zone north. split.
    + intros H. rewrite Hcases in H.
      destruct a as [|a0 a]; [discriminate|].
      destruct r as [|c rest]; [discriminate|].
      destruct (Z.leb_spec (decimal_value (String a0 a) 0) Int.INT_MAX)
        as [Hle|_]; [|discriminate].
      exists (String a0 a), c, rest.
      destruct (Ascii.eqb c "n" || Ascii.eqb c "N") eqn:En.
      * injection H as <- <-. repeat split; try assumption; discriminate.
      * destruct (Ascii.eqb c "s" || Ascii.eqb c "S") eqn:Es; [|discriminate].
        injection H as <- <-. cbn [orb] in *.
        apply orb_true_iff in Es.
        repeat split; try assumption; try discriminate.
        destruct Es as [-> | ->]; [reflexivity | apply orb_true_r].
    + intros [digits [c [rest [E [Hne [Hd [-> [Hmax [-> Hc]]]]]]]]].
      rewrite (Hback digits c rest E Hne Hd (Hletter c Hc)).
      destruct (Z.leb_spec (decimal_value digits 0) Int.INT_MAX) as [_|Hgt];
        [|lia].
      destruct (Ascii.eqb c "n" || Ascii.eqb c "N") eqn:En; [reflexivity|].
      cbn [orb] in Hc. rewrite Hc. reflexivity.
  - split.
    + intros H. rewrite Hcases in H.
      destruct a as [|a0 a]; [discriminate|].
      destruct r as [|c rest]; [discriminate|].
      destruct (Z.leb_spec (decimal_value (String a0 a) 0) Int.INT_MAX)
        as [Hle|Hgt].
      * destruct (Ascii.eqb c "n" || Ascii.eqb c "N"); [discriminate|].
        destruct (Ascii.eqb c "s" || Ascii.eqb c "S"); discriminate.
      * exists (String a0 a), c, rest.
        repeat split; try assumption. discriminate.
    + intros [digits [c [rest [E [Hne [Hd [Hc Hmax]]]]]]].
      rewrite (Hback digits c rest E Hne Hd Hc).
      destruct (Z.leb_spec (decimal_value digits 0) Int.INT_MAX) as [Hle|_];
        [lia | reflexivity].
  - intros Hok Hdef. rewrite Hcases in Hok, Hdef |- *.
    destruct a as [|a0 a]; [reflexivity|].
    destruct r as [|c rest]; [reflexivity|].
    destruct (decimal_value (String a0 a) 0 <=? Int.INT_MAX)%Z;
      [|congruence].
    destruct (Ascii.eqb c "n" || Ascii.eqb c "N");
      [exfalso; exact (Hok _ _ eq_refl)|].
    destruct (Ascii.eqb c "s" || Ascii.eqb c "S");
      [exfalso; exact (Hok _ _ eq_refl) | reflexivity].
Qed.

(** The zone [58N] is read; digits beyond an [int] are undefined even
    before a letter that is no hemisphere; and [58x] throws. *)
Lemma parse_utm_str_reads_witness :
  CsvConv.parse_utm_str "58N" = Ok (58%Z, true) /\
  CsvConv.parse_utm_str "99999999999x" = Undefined /\
  CsvConv.parse_utm_str "58x" = Throw ArgumentErr.
Proof.
  split; [|split].
  - apply (proj1 (parse_utm_str_reads "58N")).
    exists "58"%string, "N"%char, EmptyString.
    repeat split; try reflexivity; discriminate.
  - apply (proj1 (proj2 (parse_utm_str_reads "99999999999x"))).
    exists "99999999999"%string, "x"%char, EmptyString.
    repeat split; try reflexivity; discriminate.
  - apply (proj2 (proj2 (parse_utm_str_reads "58x")));
      [intros zone north H; discriminate H | intros H; discriminate H].
Defined.

(** ** Names of point cloud files *)

Lemma string_length_append (a b : string) :
  String.length (String.append a b) = (String.length a + String.length b)%nat.
Proof. induction a as [|x a IH]; simpl; [|rewrite IH]; reflexivity. Qed.

Lemma append_same_length_suffix (a c b d : string) :
  String.append a b = String.append c d ->
  String.length b = String.length d ->
  a = c /\ b = d.
Proof.
  revert c. induction a as [|x a IH]; intros c H Hlen.
  - destruct c as [|y c]; [split; [reflexivity | exact H]|].
    exfalso. cbn [String.append] in H. subst b.
    cbn [String.length] in Hlen. rewrite string_length_append in Hlen. lia.
  - destruct c as [|y c].
    + exfalso. cbn [String.append] in H. subst d.
      cbn [String.length] in Hlen. rewrite string_length_append in Hlen. lia.
    + cbn [String.append] in H. injection H as <- H.
      destruct (IH c H Hlen) as [-> ->]. split; reflexivity.
Qed.

Lemma string_map_append (g : ascii -> ascii) (a b : string) :
  string_map g (String.append a b) =
  String.append (string_map g a) (string_map g b).
Proof. induction a as [|x a IH]; simpl; [|rewrite IH]; reflexivity. Qed.

Lemma string_map_length (g : ascii -> ascii) (s : string) :
  String.length (string_map g s) = String.length s.
Proof. induction s as [|x s IH]; simpl; [|rewrite IH]; reflexivity. Qed.

Lemma string_map_split (g : ascii -> ascii) (a b : string) :
  forall s,
    string_map g s = String.append a b ->
    exists a' b', s = String.append a' b' /\
                  string_map g a' = a /\ string_map g b' = b.
Proof.
  induction a as [|x a IH]; intros s H.
  - exists EmptyString, s. repeat split. exact H.
  - destruct s as [|y s]; [discriminate|].
    cbn [string_map String.append] in H. injection H as Hx H.
    destruct (IH s H) as [a' [b' [-> [Ha Hb]]]].
    exists (String y a'), b'. cbn [string_map String.append].
    rewrite Hx, Ha. repeat split. exact Hb.
Qed.

Lemma tolower_idempotent (c : ascii) : tolower (tolower c) = tolower c.
Proof.
  destruct c as [[] [] [] [] [] [] [] []]; vm_compute; reflexivity.
Qed.

Lemma to_lower_copy_idempotent (s : string) :
  PointCloudFiles.to_lower_copy (PointCloudFiles.to_lower_copy s) =
  PointCloudFiles.to_lower_copy s.
Proof.
  unfold PointCloudFiles.to_lower_copy.
  induction s as [|c s IH]; cbn [string_map]; [reflexivity|].
  rewrite tolower_idempotent, IH. reflexivity.
Qed.

Lemma ends_with_iff (input test : string) :
  PointCloudFiles.ends_with input test = true <->
  exists p, input = String.append p test.
Proof.
  split.
  - induction input as [|c input IH]; cbn [PointCloudFiles.ends_with];
      intros H; apply orb_true_iff in H; destruct H as [H|H];
      try discriminate.
    + apply String.eqb_eq in H. exists EmptyString. exact H.
    + apply String.eqb_eq in H. exists EmptyString. exact H.
    + destruct (IH H) as [p ->]. exists (String c p). reflexivity.
  - intros [p ->]. induction p as [|c p IH].
    + cbn [String.append]. destruct test; cbn [PointCloudFiles.ends_with];
        rewrite String.eqb_refl; reflexivity.
    + cbn [String.append PointCloudFiles.ends_with]. rewrite IH.
      apply orb_true_r.
Qed.

(** A name is recognised by a lower-case suffix [e] exactly when it
    ends in [e] written in any letter case. *)
Lemma iends_with_lower (file e : string) :
  PointCloudFiles.to_lower_copy e = e ->
  PointCloudFiles.iends_with (PointCloudFiles.to_lower_copy file) e = true <->
  exists p ext, file = String.append p ext /\
                PointCloudFiles.to_lower_copy ext = e.
Proof.
  intros He. unfold PointCloudFiles.iends_with.
  rewrite to_lower_copy_idempotent, He, ends_with_iff. split.
  - intros [p' H]. unfold PointCloudFiles.to_lower_copy in H.
    destruct (string_map_split tolower p' e file H) as [p [ext [-> [_ Hext]]]].
    exists p, ext. split; [reflexivity | exact Hext].
  - intros [p [ext [-> Hext]]]. exists (PointCloudFiles.to_lower_copy p).
    unfold PointCloudFiles.to_lower_copy in *.
    rewrite string_map_append, Hext. reflexivity.
Qed.

Lemma lower_suffix_unique (file e1 e2 : string) :
  PointCloudFiles.to_lower_copy e1 = e1 ->
  PointCloudFiles.to_lower_copy e2 = e2 ->
  String.length e1 = String.length e2 ->
  PointCloudFiles.iends_with (PointCloudFiles.to_lower_copy file) e1 = true ->
  PointCloudFiles.iends_with (PointCloudFiles.to_lower_copy file) e2 = true ->
  e1 = e2.
Proof.
  intros H1 H2 Hlen. unfold PointCloudFiles.iends_with.
  rewrite to_lower_copy_idempotent, H1, H2, !ends_with_iff.
  intros [p1 E1] [p2 E2]. rewrite E1 in E2.
  exact (proj2 (append_same_length_suffix _ _ _ _ E2 Hlen)).
Qed.

(** X14.  A file is taken for a LAS file exactly when its name ends in
    [.las] or [.laz], and for a CSV file exactly when it ends in [.csv]
    or [.txt], in any letter case; no name is taken for both. *)
Theorem file_kinds (file : string) :
  (PointCloudFiles.is_las file = true <->
   exists p ext, file = String.append p ext /\
     (PointCloudFiles.to_lower_copy ext = ".las"%string \/
      PointCloudFiles.to_lower_copy ext = ".laz"%string)) /\
  (PointCloudFiles.is_csv file = true <->
   exists p ext, file = String.append p ext /\
     (PointCloudFiles.to_lower_copy ext = ".csv"%string \/
      PointCloudFiles.to_lower_copy ext = ".txt"%string)) /\
  (PointCloudFiles.is_las file && PointCloudFiles.is_csv file = false).
Proof.
  unfold PointCloudFiles.is_las, PointCloudFiles.is_csv.
  split; [|split].
  - rewrite orb_true_iff, !iends_with_lower by reflexivity. split.
    + intros [[p [ext [H1 H2]]]|[p [ext [H1 H2]]]]; exists p, ext; tauto.
    + intros [p [ext [H1 [H2|H2]]]]; [left | right]; exists p, ext; tauto.
  - rewrite orb_true_iff, !iends_with_lower by reflexivity. split.
    + intros [[p [ext [H1 H2]]]|[p [ext [H1 H2]]]]; exists p, ext; tauto.
    + intros [p [ext [H1 [H2|H2]]]]; [left | right]; exists p, ext; tauto.
  - apply andb_false_iff.
    destruct (PointCloudFiles.iends_with _ ".las") eqn:E1;
      destruct (PointCloudFiles.iends_with _ ".laz") eqn:E2;
      destruct (PointCloudFiles.iends_with _ ".csv") eqn:E3;
      destruct (PointCloudFiles.iends_with _ ".txt") eqn:E4;
      cbn [orb]; try (left; reflexivity); try (right; reflexivity);
      exfalso;
      match goal with
      | Ha : PointCloudFiles.iends_with _ ?a = true,
        Hb : PointCloudFiles.iends_with _ ?b = true |- _ =>
          assert (Hab : a = b)
            by (apply (lower_suffix_unique file a b eq_refl eq_refl eq_refl Ha Hb));
          discriminate Hab
      end.
Qed.

(** ** The prefix of a point cloud file *)

Lemma rfind_append (pat p t : string) (i : nat) :
  PointCloudFiles.rfind pat t = Some i ->
  PointCloudFiles.rfind pat (String.append p t) = Some (String.length p + i)%nat.
Proof.
  intros H. induction p as [|c p IH]; [exact H|].
  cbn [String.append PointCloudFiles.rfind String.length]. rewrite IH.
  reflexivity.
Qed.

Lemma erase_from_append (p t : string) :
  PointCloudFiles.erase_from (String.length p) (String.append p t) = p.
Proof.
  unfold PointCloudFiles.erase_from.
  induction p as [|c p IH].
  - destruct t; reflexivity.
  - cbn [String.length String.append String.substring]. rewrite IH.
    reflexivity.
Qed.

(** X15.  The prefix of a name [p-PC.s] is [p] when [s] holds no
    further [-PC.]; that of a name [p.s] without any [-PC.] is [p] when
    [s] holds no further dot. *)
Theorem prefix_round_trip (p s : string) :
  (Z.of_nat (String.length p + 4 + String.length s) <= Int.INT_MAX)%Z ->
  (PointCloudFiles.rfind "-PC." s = None ->
   PointCloudFiles.prefix_from_pointcloud_filename
     (String.append p (String.append "-PC." s)) = Ok p) /\
  (PointCloudFiles.rfind "." s = None ->
   PointCloudFiles.rfind "-PC." (String.append p (String.append "." s)) = None ->
   PointCloudFiles.prefix_from_pointcloud_filename
     (String.append p (String.append "." s)) = Ok p).
Proof.
  intros Hlen. split.
  - intros Hs. unfold PointCloudFiles.prefix_from_pointcloud_filename.
    assert (Hfit : (Int.INT_MAX <?
                    Z.of_nat (String.length
                                (String.append p (String.append "-PC." s))))%Z
                   = false).
    { apply Z.ltb_ge. rewrite !string_length_append. cbn [String.length]. lia. }
    rewrite Hfit.
    assert (H0 : PointCloudFiles.rfind "-PC." (String.append "-PC." s) = Some O).
    { cbn [String.append PointCloudFiles.rfind]. rewrite Hs.
      cbn. destruct s; reflexivity. }
    rewrite (rfind_append "-PC." p _ O H0), Nat.add_0_r.
    rewrite erase_from_append. reflexivity.
  - intros Hs Hpc. unfold PointCloudFiles.prefix_from_pointcloud_filename.
    assert (Hfit : (Int.INT_MAX <?
                    Z.of_nat (String.length
                                (String.append p (String.append "." s))))%Z
                   = false).
    { apply Z.ltb_ge. rewrite !string_length_append. cbn [String.length]. lia. }
    rewrite Hfit, Hpc.
    assert (H0 : PointCloudFiles.rfind "." (String.append "." s) = Some O).
    { cbn [String.append PointCloudFiles.rfind]. rewrite Hs.
      cbn. destruct s; reflexivity. }
    rewrite (rfind_append "." p _ O H0), Nat.add_0_r.
    rewrite erase_from_append. reflexivity.
Qed.

Lemma prefix_round_trip_witness :
  PointCloudFiles.prefix_from_pointcloud_filename "run/out-PC.tif"
  = Ok "run/out"%string /\
  PointCloudFiles.prefix_from_pointcloud_filename "cloud.csv"
  = Ok "cloud"%string.
Proof.
  split.
  - apply (proj1 (prefix_round_trip "run/out" "tif" ltac:(vm_compute; discriminate))).
    reflexivity.
  - apply (proj2 (prefix_round_trip "cloud" "csv" ltac:(vm_compute; discriminate)));
      reflexivity.
Defined.

(** ** The number of channels of the input clouds *)

Section Channels.
Variable get_num_channels : string -> Z.
Variable num_channels0 : Z.

Let step (min_num_channels : Z) (file : string) : Z :=
  let num_channels := get_num_channels file in
  let min_num_channels := Z.min min_num_channels num_channels in
  if negb (num_channels =? num_channels0)%Z
  then Z.min min_num_channels 3
  else min_num_channels.

Lemma channels_fold (files : list string) :
  forall acc,
    (List.fold_left step files acc <= acc)%Z /\
    (forall file, In file files ->
       (List.fold_left step files acc <= get_num_channels file)%Z) /\
    ((forall file, In file files -> get_num_channels file = num_channels0) ->
     List.fold_left step files acc = Z.min acc num_channels0 \/
     files = [] /\ List.fold_left step files acc = acc) /\
    ((exists file, In file files /\ get_num_channels file <> num_channels0) ->
     (List.fold_left step files acc <= 3)%Z).
Proof.
  induction files as [|file files IH]; intros acc; cbn [List.fold_left].
  - split; [lia|]. split; [intros f []|]. split; [right; split; reflexivity|].
    intros [f [[] _]].
  - destruct (IH (step acc file)) as [Hle [Hall [Hsame Hdiff]]].
    assert (Hstep : (step acc file <= acc)%Z /\
                    (step acc file <= get_num_channels file)%Z).
    { unfold step. destruct (negb _); lia. }
    split; [lia|]. split; [|split].
    + intros f [<-|Hf]; [lia | apply Hall; exact Hf].
    + intros Hs. left.
      assert (Hfile : get_num_channels file = num_channels0)
        by (apply Hs; left; reflexivity).
      assert (Hst : step acc file = Z.min acc num_channels0).
      { unfold step. rewrite Hfile, Z.eqb_refl. reflexivity. }
      destruct (Hsame (fun f Hf => Hs f (or_intror Hf))) as [H|[_ H]];
        rewrite H, Hst; lia.
    + intros [f [[<-|Hf] Hne]].
      * assert (step acc file <= 3)%Z.
        { unfold step. apply Z.eqb_neq in Hne. rewrite Hne. cbn [negb]. lia. }
        lia.
      * apply Hdiff. exists f. split; assumption.
Qed.
End Channels.

(** X16.  The number of channels reported for a list of clouds never
    exceeds that of any of them; it is their common number when they
    all have the same, and at most 3 otherwise, so that a value above 3
    means that every cloud has that many channels. *)
Theorem num_channels_consistent (get_num_channels : string -> Z)
    (pc_files : list string) (m : Z) :
  Point2demTools.num_channels get_num_channels pc_files = Ok m ->
  (forall file, In file pc_files -> (m <= get_num_channels file)%Z) /\
  ((3 < m)%Z ->
   forall file, In file pc_files -> get_num_channels file = m).
Proof.
  unfold Point2demTools.num_channels.
  destruct pc_files as [|file0 files]; [discriminate|].
  intros H. injection H as <-.
  set (n0 := get_num_channels file0).
  destruct (channels_fold get_num_channels n0 files n0)
    as [Hle [Hall [Hsame Hdiff]]].
  cbv zeta in Hle, Hall, Hsame, Hdiff.
  assert (Hfirst : forall file, In file (file0 :: files) ->
            (List.fold_left
               (fun min_num_channels file =>
                  if negb (get_num_channels file =? n0)%Z
                  then Z.min (Z.min min_num_channels (get_num_channels file)) 3
                  else Z.min min_num_channels (get_num_channels file))
               files n0 <= get_num_channels file)%Z).
  { intros f [<-|Hf]; [exact Hle | apply Hall; exact Hf]. }
  split; [exact Hfirst|].
  intros Hm.
  assert (Heq : forall f, In f files -> get_num_channels f = n0).
  { intros f Hf. destruct (Z.eq_dec (get_num_channels f) n0) as [E|E];
      [exact E|].
    exfalso. assert (Hex : exists file, In file files /\
                                        get_num_channels file <> n0)
      by (exists f; split; assumption).
    apply Hdiff in Hex. lia. }
  assert (Hval : List.fold_left
                   (fun min_num_channels file =>
                      if negb (get_num_channels file =? n0)%Z
                      then Z.min (Z.min min_num_channels (get_num_channels file)) 3
                      else Z.min min_num_channels (get_num_channels file))
                   files n0 = n0).
  { destruct (Hsame Heq) as [H|[_ H]]; rewrite H; lia. }
  rewrite Hval. intros f [<-|Hf]; [reflexivity | apply Heq; exact Hf].
Qed.

Lemma num_channels_consistent_witness :
  let get_num_channels :=
    fun file : string => if String.eqb file "a.tif" then 6%Z else 4%Z in
  (forall file, In file ["a.tif"; "b.tif"]%string ->
     (3 <= get_num_channels file)%Z) /\
  ((3 < 3)%Z ->
   forall file, In file ["a.tif"; "b.tif"]%string -> get_num_channels file = 3%Z).
Proof.
  intros get_num_channels.
  exact (num_channels_consistent get_num_channels ["a.tif"; "b.tif"]%string 3
           eq_refl).
Defined.

(** ** Rounding the heights of a raster *)

Lemma Qround_close (x : Q) :
  (- (1 # 2) <= inject_Z (Point2demTools.round x) - x)%Q /\
  (inject_Z (Point2demTools.round x) - x <= 1 # 2)%Q.
Proof.
  unfold Point2demTools.round. destruct (Qle_bool 0 x).
  - pose proof (Qfloor_le (x + (1 # 2))) as H1.
    pose proof (Qlt_floor (x + (1 # 2))) as H2.
    rewrite inject_Z_plus in H2. change (inject_Z 1) with 1%Q in H2.
    split; Lqa.lra.
  - pose proof (Qfloor_le (- x + (1 # 2))) as H1.
    pose proof (Qlt_floor (- x + (1 # 2))) as H2.
    rewrite inject_Z_plus in H2. change (inject_Z 1) with 1%Q in H2.
    rewrite inject_Z_opp.
    split; Lqa.lra.
Qed.

(** X17.  Rounding leaves a pixel as it is when the scale is not
    positive or the pixel is the nodata value; otherwise the result is
    an integer multiple of the scale, at most half the scale away from
    the pixel. *)
Theorem round_pixel_close (f : Point2demTools.RoundImagePixelsSkipNoData)
    (pt : Q) :
  ((Point2demTools.m_scale f <= 0)%Q \/ (pt == Point2demTools.m_nodata f)%Q ->
   Point2demTools.round_pixel f pt = pt) /\
  ((0 < Point2demTools.m_scale f)%Q ->
   ~ (pt == Point2demTools.m_nodata f)%Q ->
   exists n : Z,
     (Point2demTools.round_pixel f pt
      == Point2demTools.m_scale f * inject_Z n)%Q /\
     (Qabs (Point2demTools.round_pixel f pt - pt)
      <= Point2demTools.m_scale f / 2)%Q).
Proof.
  unfold Point2demTools.round_pixel. split.
  - intros [H|H].
    + apply Qle_bool_iff in H. rewrite H. reflexivity.
    + destruct (Qle_bool (Point2demTools.m_scale f) 0); [reflexivity|].
      apply Qeq_bool_iff in H. rewrite H. reflexivity.
  - intros Hs Hn.
    destruct (Qle_bool (Point2demTools.m_scale f) 0) eqn:E.
    { apply Qle_bool_iff in E. exfalso. Lqa.lra. }
    destruct (Qeq_bool pt (Point2demTools.m_nodata f)) eqn:E2.
    { apply Qeq_bool_iff in E2. contradiction. }
    set (s := Point2demTools.m_scale f) in *.
    exists (Point2demTools.round (pt / s)). split; [reflexivity|].
    destruct (Qround_close (pt / s)) as [H1 H2].
    assert (Hne : ~ (s == 0)%Q) by Lqa.lra.
    setoid_replace (s * inject_Z (Point2demTools.round (pt / s)) - pt)%Q
      with (s * (inject_Z (Point2demTools.round (pt / s)) - pt / s))%Q
      by (field; exact Hne).
    rewrite Qabs_Qmult, (Qabs_pos s) by Lqa.lra.
    unfold Qdiv at 2. apply Qmult_le_l; [exact Hs|].
    change (/ 2)%Q with (1 # 2)%Q.
    apply Qabs_Qle_condition. split; assumption.
Qed.

Lemma round_pixel_close_witness :
  let f := {| Point2demTools.m_scale := 1 # 4;
              Point2demTools.m_nodata := - (32768 # 1) |} in
  let pt := (7 # 3)%Q in
  exists n : Z,
    (Point2demTools.round_pixel f pt == (1 # 4) * inject_Z n)%Q /\
    (Qabs (Point2demTools.round_pixel f pt - pt) <= (1 # 4) / 2)%Q.
Proof.
  intros f pt.
  apply (proj2 (round_pixel_close f pt)).
  - reflexivity.
  - vm_compute. discriminate.
Defined.

(** ** The outputs of the passes over the spacings *)

Lemma append_cancel_l (a x y : string) :
  String.append a x = String.append a y -> x = y.
Proof.
  induction a as [|c a IH]; cbn [String.append]; intros H; [exact H|].
  injection H as H. exact (IH H).
Qed.

Lemma itoa_injective (i j : nat) :
  Point2demTools.itoa i = Point2demTools.itoa j -> i = j.
Proof.
  unfold Point2demTools.itoa. intros H.
  assert (H' : Some (Nat.to_uint i) = Some (Nat.to_uint j)).
  { rewrite <- !NilEmpty.usu. rewrite H. reflexivity. }
  injection H' as H'.
  rewrite <- (DecimalNat.Unsigned.of_to i), <- (DecimalNat.Unsigned.of_to j), H'.
  reflexivity.
Qed.

(** X18.  The passes over the spacings write to different files: the
    output prefixes of two different passes, followed by the same
    suffix, give different names. *)
Theorem spacing_outputs_distinct (base_out_prefix suffix : string)
    (i j : nat) :
  i <> j ->
  String.append (Point2demTools.out_prefix_of_pass base_out_prefix i) suffix <>
  String.append (Point2demTools.out_prefix_of_pass base_out_prefix j) suffix.
Proof.
  intros Hij H. apply Hij. clear Hij.
  apply (fun E => proj1 (append_same_length_suffix _ _ _ _ E eq_refl)) in H.
  unfold Point2demTools.out_prefix_of_pass in H.
  destruct i as [|i], j as [|j]; cbn [Nat.eqb] in H.
  - reflexivity.
  - exfalso. apply (f_equal String.length) in H.
    rewrite !string_length_append in H. cbn [String.length] in H. lia.
  - exfalso. apply (f_equal String.length) in H.
    rewrite !string_length_append in H. cbn [String.length] in H. lia.
  - apply append_cancel_l in H. cbn [String.append] in H.
    injection H as H. exact (itoa_injective (S i) (S j) H).
Qed.

Lemma spacing_outputs_distinct_witness :
  String.eqb
    (String.append (Point2demTools.out_prefix_of_pass "run/out" 0) "-DEM.tif")
    (String.append (Point2demTools.out_prefix_of_pass "run/out" 12) "-DEM.tif")
  = false.
Proof.
  apply String.eqb_neq.
  apply (spacing_outputs_distinct "run/out" "-DEM.tif" 0 12). discriminate.
Defined.

(** ** The input files of [point2dem] *)

Section InputFilesChecked.
Import Point2demTools.
Variable exists_ : string -> bool.
Variable get_num_channels : string -> Z.
Variable dimensions : string -> Z * Z.

Lemma check_dimensions_equal (clouds : list string) :
  forall textures,
    List.length clouds = List.length textures ->
    check_dimensions dimensions clouds textures = Ok tt ->
    List.Forall2 (fun cloud texture => dimensions cloud = dimensions texture)
      clouds textures.
Proof.
  induction clouds as [|cloud clouds IH]; intros [|texture textures] Hlen H;
    try discriminate; [constructor|].
  cbn [check_dimensions] in H.
  destruct (negb (fst (dimensions cloud) =? fst (dimensions texture))%Z ||
            negb (snd (dimensions cloud) =? snd (dimensions texture))%Z)
    eqn:E; [discriminate|].
  apply orb_false_iff in E. destruct E as [E1 E2].
  apply negb_false_iff, Z.eqb_eq in E1, E2.
  constructor; [|apply IH; [simpl in Hlen; lia | exact H]].
  destruct (dimensions cloud), (dimensions texture). cbn [fst snd] in *.
  congruence.
Qed.

Lemma existsb_false_all {A : Type} (g : A -> bool) (l : list A) :
  List.existsb g l = false -> forall x, In x l -> g x = false.
Proof.
  intros H x Hx. destruct (g x) eqn:E; [|reflexivity].
  assert (Hex : List.existsb g l = true)
    by (apply existsb_exists; exists x; split; assumption).
  congruence.
Qed.
End InputFilesChecked.

(** X19.  When the input files are accepted, there is a cloud among
    them, every file exists and none looks like an option, clouds and
    textures together are the files; without orthoimage no texture was
    given, and with it there is no LAS or CSV file and each cloud comes
    with one texture of the same dimensions. *)
Theorem input_files_accepted (exists_ : string -> bool)
    (get_num_channels : string -> Z) (dimensions : string -> Z * Z)
    (files : list string) (opt opt' : Point2demTools.Options) :
  Point2demTools.parse_input_clouds_textures exists_ get_num_channels
    dimensions files opt = Ok opt' ->
  Point2demTools.pointcloud_files opt' <> [] /\
  (forall file, In file files ->
     exists_ file = true /\ Point2demTools.starts_with_dash file = false) /\
  (forall file, In file files <->
     In file (Point2demTools.pointcloud_files opt') \/
     In file (Point2demTools.texture_files opt')) /\
  Point2demTools.do_ortho opt' = Point2demTools.do_ortho opt /\
  (Point2demTools.do_ortho opt = false ->
   Point2demTools.texture_files opt' = []) /\
  (Point2demTools.do_ortho opt = true ->
   Point2demTools.has_las_or_csv opt' = false /\
   List.Forall2 (fun cloud texture => dimensions cloud = dimensions texture)
     (Point2demTools.pointcloud_files opt')
     (Point2demTools.texture_files opt')).
Proof.
  unfold Point2demTools.parse_input_clouds_textures. intros H.
  destruct (Z.of_nat (List.length files) =? 0)%Z; [discriminate|].
  destruct (List.existsb Point2demTools.starts_with_dash files) eqn:Edash;
    [discriminate|].
  destruct (List.existsb (fun file => negb (exists_ file)) files) eqn:Eex;
    [discriminate|].
  destruct (Point2demTools.do_ortho opt &&
            ((Z.of_nat (List.length files) <=? 1)%Z ||
             negb (Z.rem (Z.of_nat (List.length files)) 2 =? 0)%Z));
    [discriminate|].
  set (clouds := List.filter (Point2demTools.is_cloud get_num_channels) files) in *.
  set (textures :=
         List.filter
           (fun file => negb (Point2demTools.is_cloud get_num_channels file))
           files) in *.
  destruct (Point2demTools.is_empty_list clouds) eqn:Eclouds; [discriminate|].
  destruct (negb (Point2demTools.do_ortho opt) &&
            negb (Point2demTools.is_empty_list textures)) eqn:Etex;
    [discriminate|].
  destruct (List.existsb PointCloudFiles.is_las_or_csv files &&
            Point2demTools.do_ortho opt) eqn:Elas; [discriminate|].
  match type of H with
  | bind ?u _ = _ => destruct u as [[]| |] eqn:Hdim
  end; cbn [bind] in H; try discriminate.
  injection H as <-.
  cbn [Point2demTools.pointcloud_files Point2demTools.texture_files
       Point2demTools.do_ortho Point2demTools.has_las_or_csv].
  split; [intros E; rewrite E in Eclouds; discriminate|].
  split.
  { intros file Hin. split.
    - pose proof (existsb_false_all _ _ Eex file Hin) as Hf.
      apply negb_false_iff in Hf. exact Hf.
    - exact (existsb_false_all _ _ Edash file Hin). }
  split.
  { intros file. unfold clouds, textures. rewrite !filter_In.
    destruct (Point2demTools.is_cloud get_num_channels file); cbn [negb];
      intuition discriminate. }
  split; [reflexivity|]. split.
  - intros Hortho. rewrite Hortho in Etex. cbn [negb andb] in Etex.
    apply negb_false_iff in Etex. destruct textures; [reflexivity | discriminate].
  - intros Hortho. rewrite Hortho in Elas, Hdim. rewrite andb_true_r in Elas.
    split; [exact Elas|].
    destruct (negb (Nat.eqb (List.length clouds) (List.length textures)))
      eqn:Elen; [discriminate|].
    apply negb_false_iff, Nat.eqb_eq in Elen.
    exact (check_dimensions_equal dimensions clouds textures Elen Hdim).
Qed.

Lemma input_files_accepted_witness :
  let exists_ := fun _ : string => true in
  let get_num_channels :=
    fun file : string => if String.eqb file "run-PC.tif" then 4%Z else 1%Z in
  let dimensions := fun _ : string => (640, 480)%Z in
  let opt := {| Point2demTools.do_ortho := true;
                Point2demTools.has_las_or_csv := false;
                Point2demTools.pointcloud_files := [];
                Point2demTools.texture_files := [] |} in
  let opt' := {| Point2demTools.do_ortho := true;
                 Point2demTools.has_las_or_csv := false;
                 Point2demTools.pointcloud_files := ["run-PC.tif"%string];
                 Point2demTools.texture_files := ["run-L.tif"%string] |} in
  Point2demTools.pointcloud_files opt' <> [] /\
  (forall file, In file ["run-PC.tif"; "run-L.tif"]%string ->
     exists_ file = true /\ Point2demTools.starts_with_dash file = false) /\
  (forall file, In file ["run-PC.tif"; "run-L.tif"]%string <->
     In file (Point2demTools.pointcloud_files opt') \/
     In file (Point2demTools.texture_files opt')) /\
  Point2demTools.do_ortho opt' = Point2demTools.do_ortho opt /\
  (Point2demTools.do_ortho opt = false ->
   Point2demTools.texture_files opt' = []) /\
  (Point2demTools.do_ortho opt = true ->
   Point2demTools.has_las_or_csv opt' = false /\
   List.Forall2 (fun cloud texture => dimensions cloud = dimensions texture)
     (Point2demTools.pointcloud_files opt')
     (Point2demTools.texture_files opt')).
Proof.
  intros exists_ get_num_channels dimensions opt opt'.
  exact (input_files_accepted exists_ get_num_channels dimensions
           ["run-PC.tif"; "run-L.tif"]%string opt opt' eq_refl).
Defined.

(** ** The composite raster is no larger than needed *)

(** X20.  For a point count of at most [2^53], both extents of the
    composite are at least one tile, also for a cloud without points,
    and exceed what is asked of them, the rows wanted and the points
    per row, by less than one tile. *)
Theorem composite_padding (N R T B : Z) :
  (0 <= N)%Z -> (N <= 2 ^ 53)%Z -> (0 <= R)%Z -> (0 < T)%Z ->
  let rows := (T * Z.max 1 (Spec.ceil_div R T))%Z in
  let cols := (T * Z.max 1 (Spec.ceil_div (Spec.ceil_div N rows) T))%Z in
  (rows <= Int.INT_MAX)%Z -> (cols <= Int.INT_MAX)%Z ->
  exists v,
    PointUtils.LasOrCsvToTif_Class_ctor N R T B = Ok v /\
    (T <= PointUtils.rows v < Z.max 1 R + T)%Z /\
    (T <= PointUtils.cols v
     < Z.max 1 (Spec.ceil_div N (PointUtils.rows v)) + T)%Z.
Proof.
  intros HN HN53 HR HT rows cols Hrows Hcols.
  eexists.
  split; [apply (ctor_extents N R T B HN HN53 HR HT Hrows Hcols)|].
  cbn [PointUtils.rows PointUtils.cols PointUtils.m_rows PointUtils.m_cols].
  pose proof (ceil_div_spec R T HT) as HsR.
  pose proof (ceil_div_spec (Spec.ceil_div N rows) T HT) as HsC.
  fold rows.
  set (qr := Spec.ceil_div R T) in *.
  set (qc := Spec.ceil_div (Spec.ceil_div N rows) T) in *.
  set (ppr := Spec.ceil_div N rows) in *.
  assert (Hr : (T <= T * Z.max 1 qr < Z.max 1 R + T)%Z).
  { destruct (Z.max_spec 1 qr) as [[? E]|[? E]]; rewrite E;
      destruct (Z.max_spec 1 R) as [[? E']|[? E']]; rewrite E'; nia. }
  assert (Hc : (T <= T * Z.max 1 qc < Z.max 1 ppr + T)%Z).
  { destruct (Z.max_spec 1 qc) as [[? E]|[? E]]; rewrite E;
      destruct (Z.max_spec 1 ppr) as [[? E']|[? E']]; rewrite E'; nia. }
  split; [exact Hr | exact Hc].
Qed.

Lemma composite_padding_witness :
  exists v,
    PointUtils.LasOrCsvToTif_Class_ctor 5000 70 32 16 = Ok v /\
    (32 <= PointUtils.rows v < Z.max 1 70 + 32)%Z /\
    (32 <= PointUtils.cols v
     < Z.max 1 (Spec.ceil_div 5000 (PointUtils.rows v)) + 32)%Z.
Proof.
  apply (composite_padding 5000 70 32 16).
  - discriminate.
  - vm_compute. discriminate.
  - discriminate.
  - reflexivity.
  - vm_compute. discriminate.
  - vm_compute. discriminate.
Defined.

(** ** The reader and [parse_entire_file] see the same records *)

Section ReaderRecords.
Variable D : Type.
Variable zero : D.
Variable csv_separator : string.
Variable sscanf_lg : string -> scan D.
Variable point_of : CsvConv.t -> CsvRecord D -> result (Vector3 D).
Variable conv : CsvConv.t.
Variable max_num_pts_to_read : Z.

Let parse := parse_csv_line zero csv_separator sscanf_lg.
Let next := ReadNextPoint zero csv_separator sscanf_lg point_of.

Lemma next_record (r : CsvReader D) (line rest : string) (v : CsvRecord D)
    (pt : Vector3 D) :
  getline (m_ifs r) = Some (line, rest) ->
  parse (m_csv_conv r) (m_is_first_line r) line = Ok (false, true, v) ->
  point_of (m_csv_conv r) v = Ok pt ->
  next r = Ok (true,
               {| m_csv_conv := m_csv_conv r; m_is_first_line := false;
                  m_has_valid_point := true; m_curr_point := pt;
                  m_ifs := rest |}).
Proof.
  intros Hg Hp Hpt. unfold next, ReadNextPoint. cbn [read_passes].
  rewrite Hg. unfold parse in Hp. rewrite Hp. cbn [bind m_csv_conv].
  rewrite Hpt. reflexivity.
Qed.

Lemma next_eof (r : CsvReader D) :
  getline (m_ifs r) = None ->
  next r = Ok (false,
               {| m_csv_conv := m_csv_conv r;
                  m_is_first_line := m_is_first_line r;
                  m_has_valid_point := false;
                  m_curr_point := m_curr_point r;
                  m_ifs := m_ifs r |}).
Proof.
  intros Hg. unfold next, ReadNextPoint. cbn [read_passes].
  rewrite Hg. reflexivity.
Qed.

Lemma file_lines_cons (s line : string) (ls : list string) :
  Spec.file_lines s = line :: ls ->
  exists rest, getline s = Some (line, rest) /\ Spec.file_lines rest = ls.
Proof.
  intros H. destruct (getline s) as [[l rest]|] eqn:Hg.
  - destruct (getline_file_lines _ _ _ Hg) as [Hl _].
    rewrite Hl in H. injection H as -> <-. exists rest. split; reflexivity.
  - apply getline_None in Hg. rewrite Hg in H. discriminate.
Qed.

Lemma file_lines_nil (s : string) :
  Spec.file_lines s = [] -> getline s = None.
Proof.
  intros H. destruct (getline s) as [[l rest]|] eqn:Hg; [|reflexivity].
  destruct (getline_file_lines _ _ _ Hg) as [Hl _].
  rewrite Hl in H. discriminate.
Qed.

(** Reading on through lines that all parse. *)
Lemma read_points_records (lines : list string) :
  forall (recs : list (CsvRecord D)) (pts : list (Vector3 D))
         (r : CsvReader D) (count : Z) (in_ : list (Vector3 D)) (fuel : nat),
    m_csv_conv r = conv ->
    Spec.file_lines (m_ifs r) = lines ->
    List.Forall2 (fun line v => parse conv false line = Ok (false, true, v))
      lines recs ->
    List.Forall2 (fun v pt => point_of conv v = Ok pt) recs pts ->
    (0 <= count)%Z ->
    (count + Z.of_nat (List.length lines) < max_num_pts_to_read)%Z ->
    (max_num_pts_to_read <= Int.INT_MAX)%Z ->
    (List.length lines < fuel)%nat ->
    exists r',
      read_points next (@GetPoint D) fuel r count max_num_pts_to_read in_
      = Ok (in_ ++ pts, r') /\
      getline (m_ifs r') = None.
Proof.
  induction lines as [|line lines IH];
    intros recs pts r count in_ fuel Hconv Hlines Hrecs Hpts Hc Hmax Hint Hfuel;
    (destruct fuel as [|fuel]; [simpl in Hfuel; lia|]);
    cbn [read_points].
  - inversion Hrecs; subst. inversion Hpts; subst.
    apply file_lines_nil in Hlines. rewrite (next_eof r Hlines). cbn [bind].
    eexists. split; [rewrite app_nil_r; reflexivity | exact Hlines].
  - inversion Hrecs as [|l v ls vs Hv Hvs]; subst.
    inversion Hpts as [|v' pt vs' pts' Hpt Hpts']; subst.
    destruct (file_lines_cons _ _ _ Hlines) as [rest [Hg Hrest]].
    assert (Hp : parse (m_csv_conv r) (m_is_first_line r) line
                 = Ok (false, true, v)).
    { unfold parse.
      exact (parse_success_any_flag D zero csv_separator sscanf_lg
               (m_csv_conv r) false (m_is_first_line r) false line v Hv). }
    rewrite (next_record r line rest v pt Hg Hp Hpt). cbn [bind].
    cbn [List.length] in Hmax.
    unfold Int.incr.
    rewrite Int_check_Ok by (unfold Int.INT_MIN; lia). cbn [bind].
    destruct (Z.leb_spec max_num_pts_to_read (count + 1)) as [Hle|_]; [lia|].
    destruct (IH vs pts'
                {| m_csv_conv := m_csv_conv r; m_is_first_line := false;
                   m_has_valid_point := true; m_curr_point := pt;
                   m_ifs := rest |}
                (count + 1)%Z (in_ ++ [GetPoint
                   {| m_csv_conv := m_csv_conv r; m_is_first_line := false;
                      m_has_valid_point := true; m_curr_point := pt;
                      m_ifs := rest |}]) fuel)
      as [r' [Hr' Hend]];
      try assumption; try reflexivity; try lia;
      [simpl in Hfuel; lia|].
    exists r'. split; [|exact Hend].
    rewrite Hr'. cbn [GetPoint m_curr_point]. rewrite <- app_assoc.
    reflexivity.
Qed.
End ReaderRecords.

(** X21.  A tile with more cells than the text has records reads the
    whole text: the points it reads are, in order, those of the records
    that [parse_entire_file] delivers for the same text, and the reader
    is left at the end of its input. *)
Theorem tile_reads_the_records {D : Type} (zero : D) (csv_separator : string)
    (sscanf_lg : string -> scan D)
    (point_of : CsvConv.t -> CsvRecord D -> result (Vector3 D))
    (conv : CsvConv.t) (text : string) (n : Z) (recs : list (CsvRecord D))
    (pts : list (Vector3 D)) (m_block_size num_cols num_rows : Z) :
  parse_entire_file zero csv_separator sscanf_lg conv (Some text)
  = Ok (n, recs) ->
  List.Forall2 (fun v pt => point_of conv v = Ok pt) recs pts ->
  m_block_size <> 0%Z ->
  Z.rem num_rows m_block_size = 0%Z -> Z.rem num_cols m_block_size = 0%Z ->
  (n < num_cols * num_rows <= Int.INT_MAX)%Z ->
  exists r',
    prerasterize_read
      (ReadNextPoint zero csv_separator sscanf_lg point_of) (@GetPoint D)
      m_block_size (CsvReader_ctor zero text conv) num_cols num_rows
    = Ok (pts, r') /\
    getline (m_ifs r') = None.
Proof.
  intros Hfile Hpts Hb Hrows Hcols Hmax.
  unfold parse_entire_file in Hfile.
  destruct (parse_entire_file_loop zero csv_separator sscanf_lg
              (S (String.length text)) conv text true []) as [out| |] eqn:Hl;
    cbn [bind] in Hfile; try discriminate.
  injection Hfile as <- <-.
  destruct (parse_entire_file_loop_records D zero csv_separator sscanf_lg conv
              (S (String.length text)) text true [] out (Nat.lt_succ_diag_r _) Hl)
    as [kept [recs [Hres [Hrecs Hk]]]].
  cbn [app] in Hres. subst out.
  pose proof (Forall2_length Hrecs) as Hlen.
  unfold prerasterize_read.
  destruct (Z.eqb_spec m_block_size 0) as [E|_]; [contradiction|].
  rewrite Hrows, Hcols.
  change (VW_ASSERT ((0 =? 0)%Z && (0 =? 0)%Z) ArgumentErr) with (Ok tt).
  rewrite (bind_Ok (Ok tt) _ tt eq_refl).
  unfold Int.mul. rewrite Int_check_Ok by (unfold Int.INT_MIN; lia).
  rewrite (bind_Ok (Ok (num_cols * num_rows)%Z) _ _ eq_refl).
  set (max := (num_cols * num_rows)%Z) in *.
  pose proof passes_bound_Z as HB.
  destruct Hk as [Hk|[_ [line [v [Hk Hfail]]]]].
  - destruct (read_points_records D zero csv_separator sscanf_lg point_of conv
                max kept recs pts (CsvReader_ctor zero text conv) 0 []
                passes_bound)
      as [r' [Hr' Hend]];
      try assumption; try reflexivity; try lia;
      [symmetry; exact Hk|].
    exists r'. split; [exact Hr' | exact Hend].
  - destruct (file_lines_cons _ _ _ Hk) as [rest [Hg Hrest]].
    pose proof (failed_line_first D zero csv_separator sscanf_lg point_of
                  (CsvReader_ctor zero text conv) line rest v Hg Hfail eq_refl)
      as Hskip.
    destruct (read_points_records D zero csv_separator sscanf_lg point_of conv
                max kept recs pts
                (LineSpec.after_header (CsvReader_ctor zero text conv) rest)
                0 [] passes_bound)
      as [r' [Hr' Hend]];
      try assumption; try reflexivity; try lia.
    exists r'. split; [|exact Hend].
    cbn [app] in Hr'. rewrite <- Hr'.
    destruct passes_bound as [|fuel]; [discriminate HB|].
    cbn [read_points]. rewrite Hskip. reflexivity.
Qed.

Lemma tile_reads_the_records_witness :
  let text := String.append "x y z" (String newline
               (String.append "1 2 3" (String newline
                 (String.append "4 5 6" (String newline EmptyString))))) in
  exists r',
    prerasterize_read
      (ReadNextPoint 0%Z LineSpec.comma_space_tab LineSpec.scan_digits
         (fun conv vals => sort_parsed_vector3 0%Z conv vals))
      (@GetPoint Z) 2 (CsvReader_ctor 0%Z text LineSpec.xyz_columns) 2 2
    = Ok ([(1, 2, 3); (4, 5, 6)]%Z, r') /\
    getline (m_ifs r') = None.
Proof.
  intros text.
  apply (tile_reads_the_records 0%Z LineSpec.comma_space_tab
           LineSpec.scan_digits
           (fun conv vals => sort_parsed_vector3 0%Z conv vals)
           LineSpec.xyz_columns text 2
           [{| point_data := (1, 2, 3)%Z; file := EmptyString |};
            {| point_data := (4, 5, 6)%Z; file := EmptyString |}]).
  - reflexivity.
  - repeat constructor.
  - discriminate.
  - reflexivity.
  - reflexivity.
  - split; [reflexivity | discriminate].
Defined.

(** ** The contents of a parsed record *)

Section RecordContents.
Variable D : Type.
Variable zero : D.
Variable csv_separator : string.
Variable sscanf_lg : string -> scan D.
Variable conv : CsvConv.t.

Let n : Z := CsvConv.num_targets conv.
Let pending (c : Z) : list (Z * string) :=
  List.filter (fun e => (c <=? fst e)%Z) (CsvConv.col2name conv).

Hypothesis Horder : RecordSpec.in_key_order (CsvConv.col2name conv).

Lemma columns_record_shift (c : Z) (token : string) (tokens : list string)
    (entries : list (Z * string)) :
  List.Forall (fun e => (c + 1 <= fst e)%Z) entries ->
  forall nfr values,
    RecordSpec.columns_record sscanf_lg c entries (token :: tokens) nfr values =
    RecordSpec.columns_record sscanf_lg (c + 1) entries tokens nfr values.
Proof.
  induction 1 as [|e entries He _ IH]; intros nfr values; [reflexivity|].
  cbn [RecordSpec.columns_record].
  replace (Z.to_nat (fst e - c)) with (S (Z.to_nat (fst e - (c + 1)))) by lia.
  cbn [List.nth_error].
  destruct (List.nth_error tokens (Z.to_nat (fst e - (c + 1)))) as [t|];
    [|reflexivity].
  destruct (String.eqb (snd e) "file"); [apply IH|].
  destruct (sscanf_lg t) as [val| |]; try reflexivity.
  destruct (vec_set (point_data values) nfr val); try reflexivity. apply IH.
Qed.

Lemma pending_next (c : Z) :
  List.Forall (fun e => (c + 1 <= fst e)%Z) (pending (c + 1)).
Proof.
  apply Forall_forall. intros e He. apply filter_In in He.
  apply Z.leb_le. exact (proj2 He).
Qed.

(** The loop over the tokens and the walk over the declared columns
    agree. *)
Lemma read_columns_record (tokens : list string) :
  forall (c nfr nvr : Z) (values : CsvRecord D),
    (nvr + Z.of_nat (List.length (pending c)) = n)%Z ->
    match RecordSpec.columns_record sscanf_lg c (pending c) tokens nfr values with
    | Some v =>
        read_columns sscanf_lg conv tokens c nfr nvr values = Ok (v, n, true)
    | None =>
        forall v nvr' flag,
          read_columns sscanf_lg conv tokens c nfr nvr values
          = Ok (v, nvr', flag) ->
          nvr' <> n \/ flag = false
    end.
Proof.
  induction tokens as [|token tokens IH]; intros c nfr nvr values Hcount.
  - cbn [read_columns].
    destruct (pending c) as [|e es] eqn:Ep.
    + cbn [RecordSpec.columns_record]. cbn [List.length] in Hcount.
      f_equal. f_equal. f_equal. lia.
    + cbn [RecordSpec.columns_record].
      destruct (Z.to_nat (fst e - c)); cbn [List.nth_error];
        intros v nvr' flag H; injection H as _ <- _; left;
        cbn [List.length] in Hcount; lia.
  - cbn [read_columns]. fold n.
    destruct (Z.leb_spec n nvr) as [Hdone|Hmore].
    + assert (Ep : pending c = []).
      { destruct (pending c); [reflexivity | cbn [List.length] in Hcount; lia]. }
      rewrite Ep in *. cbn [RecordSpec.columns_record].
      cbn [List.length] in Hcount. f_equal. f_equal. f_equal. lia.
    + destruct (map_find Z.eqb c (CsvConv.col2name conv)) as [name|] eqn:Hfind.
      * assert (Ep : pending c = (c, name) :: pending (c + 1))
          by (apply find_some_pending; assumption).
        rewrite Ep in *. cbn [RecordSpec.columns_record fst snd].
        rewrite Z.sub_diag. cbn [Z.to_nat List.nth_error].
        cbn [List.length] in Hcount.
        destruct (String.eqb name "file").
        -- rewrite (columns_record_shift c token tokens _ (pending_next c)).
           apply IH. lia.
        -- destruct (sscanf_lg token) as [val| |].
           ++ destruct (vec_set (point_data values) nfr val) as [pd| |];
                cbn [bind]; try (intros; discriminate).
              rewrite (columns_record_shift c token tokens _ (pending_next c)).
              apply IH. lia.
           ++ intros v nvr' flag H. injection H as _ _ <-. right. reflexivity.
           ++ intros; discriminate.
      * assert (Ep : pending c = pending (c + 1))
          by (apply find_none_pending; assumption).
        rewrite Ep in *.
        rewrite (columns_record_shift c token tokens _ (pending_next c)).
        apply IH. exact Hcount.
Qed.
End RecordContents.



(** A NUL in the line ends what the parser sees of it: the third field
    of [1 2<NUL> 3] is not read and the line lacks a field. *)
Lemma nul_ends_the_line :
  parse_csv_line 0%Z LineSpec.comma_space_tab LineSpec.scan_digits
    LineSpec.xyz_columns false
    (String.append "1 2" (String "000"%char " 3"))
  = Throw IOErr.
Proof. reflexivity. Qed.

(** ** Sorting by name and back *)

(** X23.  With a sorting table that sends three columns onto the three
    positions of a point, sorting the values of a record by name and
    putting sorted values back in column order undo each other, in both
    directions and for any type of coordinate. *)
Theorem sort_unsort_inverse {D : Type} (zero : D) (conv : CsvConv.t)
    (p : Vector3 D) (f : string) :
  Permutation (List.map snd (CsvConv.col2sort conv)) [0; 1; 2]%Z ->
  (exists o,
     sort_parsed_vector3 zero conv {| point_data := p; file := f |} = Ok o /\
     unsort_vector3 zero conv o = Ok p) /\
  (exists q,
     unsort_vector3 zero conv p = Ok q /\
     sort_parsed_vector3 zero conv {| point_data := q; file := f |} = Ok p).
Proof.
  intros Hperm.
  destruct (col2sort_cases _ Hperm) as [c0 [c1 [c2 [i0 [i1 [i2 [Heq Hin]]]]]]].
  unfold sort_parsed_vector3, unsort_vector3. rewrite Heq.
  destruct p as [[a b] c].
  cbn in Hin.
  repeat match goal with
         | H : _ \/ _ |- _ => destruct H as [H|H]
         end; try contradiction;
    injection Hin as <- <- <-;
    (split; eexists; split; reflexivity).
Qed.

Lemma sort_unsort_inverse_witness :
  let conv :=
    {| CsvConv.name2col := [("lat", 0); ("lon", 1); ("radius_m", 2)]%string%Z;
       CsvConv.col2name := [(0, "lat"); (1, "lon"); (2, "radius_m")]%string%Z;
       CsvConv.col2sort := [(0, 1); (1, 0); (2, 2)]%Z;
       CsvConv.csv_format_str := "1:lat 2:lon 3:radius_m";
       CsvConv.csv_proj4_str := EmptyString;
       CsvConv.format := CsvConv.LAT_LON_RADIUS_M;
       CsvConv.utm_zone := -1;
       CsvConv.utm_north := false;
       CsvConv.num_targets := 3 |} in
  (exists o,
     sort_parsed_vector3 0%Z conv
       {| point_data := (10, 20, 30)%Z; file := EmptyString |} = Ok o /\
     unsort_vector3 0%Z conv o = Ok (10, 20, 30)%Z) /\
  (exists q,
     unsort_vector3 0%Z conv (10, 20, 30)%Z = Ok q /\
     sort_parsed_vector3 0%Z conv {| point_data := q; file := EmptyString |}
     = Ok (10, 20, 30)%Z).
Proof.
  intros conv.
  apply (sort_unsort_inverse 0%Z conv (10, 20, 30)%Z EmptyString).
  apply perm_swap.
Defined.

(** ** The sorting table of an accepted descriptor *)

Lemma map_put_values {K V : Type} (keqb kltb : K -> K -> bool)
    (k : K) (v : V) (m : list (K * V)) (x : V) :
  In x (List.map snd (map_put keqb kltb k v m)) ->
  x = v \/ In x (List.map snd m).
Proof.
  induction m as [|[k' v'] m IH]; cbn [map_put List.map snd].
  - intros [H|[]]; auto.
  - destruct (keqb k k'); [|destruct (kltb k k')]; cbn [List.map snd].
    + intros [H|H]; auto. right. right. exact H.
    + intros [H|H]; auto.
    + intros [H|H]; [right; left; exact H|].
      destruct (IH H) as [H'|H']; auto. right. right. exact H'.
Qed.

Lemma map_put_values_NoDup {K V : Type} (keqb kltb : K -> K -> bool)
    (k : K) (v : V) (m : list (K * V)) :
  NoDup (List.map snd m) -> ~ In v (List.map snd m) ->
  NoDup (List.map snd (map_put keqb kltb k v m)).
Proof.
  induction m as [|[k' v'] m IH]; cbn [map_put List.map snd]; intros Hnd Hv.
  - constructor; [intros [] | constructor].
  - inversion Hnd as [|? ? Hv' Hnd']; subst.
    destruct (keqb k k'); [|destruct (kltb k k')]; cbn [List.map snd].
    + constructor; [|exact Hnd']. intros H. apply Hv. right. exact H.
    + constructor; [exact Hv | exact Hnd].
    + constructor.
      * intros H. apply map_put_values in H. destruct H as [H|H].
        -- apply Hv. left. exact H.
        -- exact (Hv' H).
      * apply IH; [exact Hnd'|]. intros H. apply Hv. right. exact H.
Qed.

Lemma read_declarations_values (fuel : nat) :
  forall ist n2c c2n n2c' c2n',
    CsvConv.read_declarations fuel ist n2c c2n = Ok (n2c', c2n') ->
    NoDup (List.map snd n2c) ->
    incl (List.map snd n2c) (List.map fst c2n) ->
    NoDup (List.map snd n2c').
Proof.
  induction fuel as [|fuel IH]; intros ist n2c c2n n2c' c2n' Hr Hnd Hincl;
    cbn [CsvConv.read_declarations] in Hr;
    destruct (good ist).
  - discriminate.
  - injection Hr as <- <-. exact Hnd.
  - destruct (extract_int ist 0) as [is1 col].
    destruct (extract_string is1 EmptyString) as [is2 name].
    destruct (failbit is2); [discriminate|].
    unfold Int.check in Hr.
    destruct (Int.in_range (col - 1)); cbn [bind] in Hr; [|discriminate].
    destruct (Z.ltb_spec (col - 1) 0) as [Hneg|Hge]; [discriminate|].
    cbn [orb] in Hr. unfold map_count in Hr.
    destruct (map_find Z.eqb (col - 1)%Z c2n) eqn:Hfind; [discriminate|].
    apply map_find_None in Hfind.
    apply (IH _ _ _ _ _ Hr).
    + apply map_put_values_NoDup; [exact Hnd|].
      intros H. apply Hfind, Hincl, H.
    + intros x Hx. apply map_put_values in Hx.
      apply map_put_keys_grow. destruct Hx as [Hx|Hx]; [left; exact Hx|].
      right. apply Hincl, Hx.
  - injection Hr as <- <-. exact Hnd.
Qed.

Lemma sort_names_table (n2c : list (string * Z)) :
  forall names c2s names' c2s',
    CsvConv.sort_names n2c names c2s = Ok (names', c2s') ->
    NoDup (List.map snd n2c) ->
    (forall col, In col (List.map snd n2c) -> ~ In col (List.map fst c2s)) ->
    Permutation c2s' (numeric_entries n2c ++ c2s).
Proof.
  induction n2c as [|[name col] n2c IH]; intros names c2s names' c2s' H Hnd Hfresh;
    cbn [CsvConv.sort_names] in H.
  - injection H as _ <-. reflexivity.
  - destruct (CsvConv.get_sorted_index_for_name name) as [index| |] eqn:Hi;
      cbn [bind] in H; try discriminate.
    destruct (CsvConv.names_set names (Z.to_nat index) name) as [nm| |];
      cbn [bind] in H; try discriminate.
    cbn [List.map snd] in Hnd, Hfresh.
    inversion Hnd as [|? ? Hcol Hnd']; subst.
    unfold numeric_entries. cbn [List.flat_map fst snd]. rewrite Hi.
    fold (numeric_entries n2c).
    unfold CsvConv.NUM_POINT_VALS in H.
    destruct (index <? 3)%Z.
    + assert (Hc : ~ In col (List.map fst c2s))
        by (apply Hfresh; left; reflexivity).
      rewrite (IH _ _ _ _ H Hnd').
      * rewrite (map_put_fresh_perm col index c2s Hc).
        cbn [app]. symmetry. apply Permutation_middle.
      * intros c Hin Hk.
        apply (map_put_keys_in Z.eqb Z.ltb col index c2s c
                 (fun a b E => proj1 (Z.eqb_eq a b) E)) in Hk.
        destruct Hk as [->|Hk]; [exact (Hcol Hin)|].
        exact (Hfresh c (or_intror Hin) Hk).
    + cbn [app]. apply (IH _ _ _ _ H Hnd').
      intros c Hin. apply Hfresh. right. exact Hin.
Qed.

Lemma names_set_nth (names : list string) :
  forall index name names',
    CsvConv.names_set names index name = Ok names' ->
    forall j, List.nth_error names' j =
              if Nat.eqb j index then Some name else List.nth_error names j.
Proof.
  induction names as [|n0 names IH]; intros index name names' H j;
    [destruct index; discriminate|].
  destruct index as [|index]; cbn [CsvConv.names_set] in H.
  - injection H as <-. destruct j; reflexivity.
  - destruct (CsvConv.names_set names index name) as [r| |] eqn:E;
      cbn [bind] in H; try discriminate.
    injection H as <-. destruct j as [|j]; [reflexivity|].
    cbn [List.nth_error Nat.eqb]. apply (IH _ _ _ E).
Qed.

Lemma sort_names_positions (n2c : list (string * Z)) :
  forall names c2s names' c2s',
    CsvConv.sort_names n2c names c2s = Ok (names', c2s') ->
    forall j s,
      List.nth_error names' j = Some s ->
      List.nth_error names j = Some s \/
      exists col, In (s, col) n2c /\
                  CsvConv.get_sorted_index_for_name s = Ok (Z.of_nat j).
Proof.
  induction n2c as [|[name col] n2c IH]; intros names c2s names' c2s' H j s Hj;
    cbn [CsvConv.sort_names] in H.
  - injection H as <- _. left. exact Hj.
  - destruct (CsvConv.get_sorted_index_for_name name) as [index| |] eqn:Hi;
      cbn [bind] in H; try discriminate.
    destruct (CsvConv.names_set names (Z.to_nat index) name) as [nm| |] eqn:E;
      cbn [bind] in H; try discriminate.
    destruct (IH _ _ _ _ H j s Hj) as [Hnm|[c [Hin Hidx]]].
    + rewrite (names_set_nth _ _ _ _ E j) in Hnm.
      destruct (Nat.eqb_spec j (Z.to_nat index)) as [->|_]; [|left; exact Hnm].
      injection Hnm as <-. right. exists col. split; [left; reflexivity|].
      destruct (get_sorted_index_range name index Hi) as [Hr _].
      rewrite Z2Nat.id by lia. exact Hi.
    + right. exists c. split; [right; exact Hin | exact Hidx].
Qed.

Lemma select_format_nonempty (names : list string) (f : CsvConv.CsvFormat) :
  CsvConv.select_format names = Ok f ->
  List.nth 0 names EmptyString <> EmptyString /\
  List.nth 1 names EmptyString <> EmptyString /\
  List.nth 2 names EmptyString <> EmptyString.
Proof.
  unfold CsvConv.select_format.
  repeat match goal with
         | |- context [if ?b then _ else _] =>
             let E := fresh "E" in destruct b eqn:E
         end;
    intros H; try discriminate;
    repeat match goal with
           | E : (_ && _)%bool = true |- _ => apply andb_true_iff in E; destruct E
           end;
    repeat match goal with
           | E : String.eqb _ _ = true |- _ => apply String.eqb_eq in E
           end;
    repeat split; congruence.
Qed.

Lemma nth_nonempty (names : list string) (i : nat) :
  List.nth i names EmptyString <> EmptyString ->
  List.nth_error names i = Some (List.nth i names EmptyString).
Proof.
  revert i. induction names as [|n0 names IH]; intros [|i] H;
    cbn [List.nth List.nth_error] in *; try congruence.
  apply IH. exact H.
Qed.

Lemma numeric_entries_length (n2c : list (string * Z)) :
  (List.length (numeric_entries n2c) <= List.length n2c)%nat /\
  (In "file"%string (List.map fst n2c) ->
   (List.length (numeric_entries n2c) < List.length n2c)%nat).
Proof.
  induction n2c as [|[name col] n2c [IH1 IH2]]; [split; [simpl; lia | intros []]|].
  unfold numeric_entries. cbn [List.flat_map fst snd List.map].
  fold (numeric_entries n2c). rewrite length_app. cbn [List.length].
  assert (Hone : (List.length
                    match CsvConv.get_sorted_index_for_name name with
                    | Ok index => if (index <? 3)%Z then [(col, index)] else []
                    | _ => []
                    end <= 1)%nat).
  { destruct (CsvConv.get_sorted_index_for_name name) as [index| |];
      [destruct (index <? 3)%Z|..]; simpl; lia. }
  split; [lia|].
  intros [->|Hin]; [cbn; lia|]. specialize (IH2 Hin). lia.
Qed.

(** X24.  A descriptor that is accepted with three names, or with four
    when one of them is the identifier, gets a sorting table that sends
    its three coordinate columns onto the positions 0, 1, 2 of a point,
    each once. *)
Theorem accepted_descriptor_sorting (d : CsvConv.defaults)
    (csv_format_str csv_proj4_str : string) (conv : CsvConv.t) :
  CsvConv.parse_csv_format d csv_format_str csv_proj4_str = Ok conv ->
  csv_format_str <> EmptyString ->
  CsvConv.num_targets conv = 3%Z \/
  In "file"%string (List.map fst (CsvConv.name2col conv)) ->
  Permutation (List.map snd (CsvConv.col2sort conv)) [0; 1; 2]%Z.
Proof.
  intros Hok Hne Hcase.
  destruct (parse_csv_format_inv d _ _ conv Hok Hne)
    as [fuel [ist [n2c [c2n [names [c2s
          [Hdecl [Hrange [Hsort [Hfmt [Hn2c [Hc2n Hnum]]]]]]]]]]]].
  destruct (parse_csv_format_sorted d _ _ conv Hok Hne)
    as [names' [_ [Hsort' _]]].
  rewrite Hn2c in Hsort'. rewrite Hsort in Hsort'.
  injection Hsort' as _ Hc2s. rewrite <- Hc2s. rewrite Hn2c in Hcase.
  assert (Hcols : NoDup (List.map snd n2c)).
  { apply (read_declarations_values fuel ist [] [] n2c c2n Hdecl);
      [constructor | intros x []]. }
  pose proof (sort_names_table n2c _ _ _ _ Hsort Hcols
                (fun col _ (H : In col []) => H)) as Htable.
  rewrite app_nil_r in Htable.
  destruct (select_format_nonempty names _ Hfmt) as [H0 [H1 H2]].
  assert (Hin : forall j : nat,
             List.nth j names EmptyString <> EmptyString -> (j < 3)%nat ->
             In (Z.of_nat j) (List.map snd c2s)).
  { intros j Hj Hlt. pose proof (nth_nonempty _ _ Hj) as Hje.
    destruct (sort_names_positions n2c _ _ _ _ Hsort j _ Hje)
      as [Hrep|[col [Hcol Hidx]]].
    - apply nth_error_In, in_repeat_empty in Hrep. contradiction.
    - apply (Permutation_in _ (Permutation_map snd (Permutation_sym Htable))).
      apply in_map_iff. exists (col, Z.of_nat j). split; [reflexivity|].
      unfold numeric_entries. apply in_flat_map.
      exists (List.nth j names EmptyString, col). split; [exact Hcol|].
      cbn [fst snd]. rewrite Hidx.
      destruct (Z.ltb_spec (Z.of_nat j) 3); [left; reflexivity | lia]. }
  assert (Hlen : (List.length (List.map snd c2s) <= 3)%nat).
  { rewrite length_map, (Permutation_length Htable).
    destruct (numeric_entries_length n2c) as [Hle Hfile].
    destruct Hcase as [H3|Hf]; [lia|]. specialize (Hfile Hf). lia. }
  symmetry. apply NoDup_Permutation_bis.
  - repeat constructor; cbn; intuition discriminate.
  - exact Hlen.
  - intros x [<-|[<-|[<-|[]]]].
    + exact (Hin 0%nat H0 ltac:(lia)).
    + exact (Hin 1%nat H1 ltac:(lia)).
    + exact (Hin 2%nat H2 ltac:(lia)).
Qed.

Lemma accepted_descriptor_sorting_witness :
  exists conv,
    CsvConv.parse_csv_format CsvConv.usual_defaults
      "1:file 5:lat 3:lon 4:radius_km" EmptyString = Ok conv /\
    Permutation (List.map snd (CsvConv.col2sort conv)) [0; 1; 2]%Z.
Proof.
  eexists. split; [vm_compute; reflexivity|].
  apply (accepted_descriptor_sorting CsvConv.usual_defaults
           "1:file 5:lat 3:lon 4:radius_km" EmptyString).
  - vm_compute. reflexivity.
  - discriminate.
  - right. vm_compute. tauto.
Defined.
(** ** The declarations of an accepted descriptor *)

(** *** The loop and the declarations *)

Lemma extract_int_in_range (ist : istringstream) (n : Z) :
  failbit (fst (extract_int ist n)) = false ->
  good ist = true ->
  Int.in_range (snd (extract_int ist n)) = true.
Proof.
  unfold extract_int. intros Hf Hg. rewrite Hg in *. cbn [negb] in *.
  destruct (skipws (buf ist)) as [|c s']; [discriminate|].
  destruct (if Ascii.eqb c "-" then (true, s')
            else if Ascii.eqb c "+" then (false, s') else (false, String c s'))
    as [negative b1].
  destruct (span isdigit b1) as [digits rest].
  destruct (is_empty digits); [discriminate|].
  cbv zeta in *.
  destruct (Int.in_range (if negative then (- decimal_value digits 0)%Z
                          else decimal_value digits 0)) eqn:E;
    cbn [fst snd failbit] in *; [exact E | discriminate].
Qed.

Lemma extract_string_fail (ist : istringstream) (str : string) :
  failbit ist = true -> failbit (fst (extract_string ist str)) = true.
Proof.
  intros Hf. unfold extract_string, good. rewrite Hf.
  rewrite andb_false_r. reflexivity.
Qed.

Lemma read_declarations_scan (fuel : nat) :
  forall ist n2c c2n decls complete,
    LineSpec.scan_declarations fuel ist = (decls, complete) ->
    (String.length (buf ist) < fuel)%nat ->
    List.Forall (fun e => fst e <> Int.INT_MIN) decls ->
    CsvConv.read_declarations fuel ist n2c c2n =
    match LineSpec.put_declarations decls n2c c2n with
    | Some maps => if complete then Ok maps else Throw ArgumentErr
    | None => Throw ArgumentErr
    end.
Proof.
  induction fuel as [|fuel IH]; intros ist n2c c2n decls complete Hs Hlen Hmin;
    [lia|].
  cbn [LineSpec.scan_declarations CsvConv.read_declarations] in *.
  destruct (good ist) eqn:Hg.
  2:{ injection Hs as <- <-. reflexivity. }
  pose proof (extract_int_length ist 0) as Hi.
  pose proof (extract_int_in_range ist 0) as Hr.
  destruct (extract_int ist 0) as [is1 col]. cbn [fst snd] in Hi, Hr.
  pose proof (extract_string_length is1 EmptyString) as Hl.
  pose proof (extract_string_fail is1 EmptyString) as Hff.
  destruct (extract_string is1 EmptyString) as [is2 name]. cbn [fst] in Hl, Hff.
  destruct (failbit is2) eqn:Hf2.
  { injection Hs as <- <-. reflexivity. }
  specialize (Hl eq_refl).
  assert (Hf1 : failbit is1 = false).
  { destruct (failbit is1); [specialize (Hff eq_refl); congruence | reflexivity]. }
  specialize (Hr Hf1 Hg).
  destruct (LineSpec.scan_declarations fuel is2) as [l ok] eqn:Hrec.
  injection Hs as <- <-.
  inversion Hmin as [|? ? Hcol Hmin']; subst. cbn [fst] in Hcol.
  unfold Int.check.
  assert (Hin : Int.in_range (col - 1) = true).
  { unfold Int.in_range, Int.INT_MIN, Int.INT_MAX in *.
    apply andb_true_iff in Hr. destruct Hr as [H1 H2].
    apply Z.leb_le in H1, H2. apply andb_true_iff.
    split; apply Z.leb_le; lia. }
  rewrite Hin. cbn [bind LineSpec.put_declarations].
  destruct ((col - 1 <? 0)%Z || map_count Z.eqb (col - 1)%Z c2n);
    [reflexivity|].
  apply (IH is2 _ _ l ok Hrec); [lia | exact Hmin'].
Qed.

(** *** The lookup tables of the declarations *)

Lemma map_find_Some_in {V : Type} (k : Z) (m : list (Z * V)) (v : V) :
  map_find Z.eqb k m = Some v -> In k (List.map fst m).
Proof.
  induction m as [|[k' v'] m IH]; cbn [map_find List.map fst]; [discriminate|].
  destruct (Z.eqb_spec k k') as [->|Hne]; [intros _; left; reflexivity|].
  intros H. right. exact (IH H).
Qed.

Lemma name_put_keys (name : string) (v : Z) (m : list (string * Z)) (x : string) :
  In x (List.map fst (map_put String.eqb String.ltb name v m)) <->
  x = name \/ In x (List.map fst m).
Proof.
  induction m as [|[k' v'] m IH]; cbn [map_put List.map fst In].
  - intuition.
  - destruct (String.eqb_spec name k') as [->|Hne]; cbn [List.map fst In].
    + intuition.
    + destruct (String.ltb name k'); cbn [List.map fst In].
      * intuition.
      * rewrite IH. intuition.
Qed.

Lemma name_put_length (name : string) (v : Z) (m : list (string * Z)) :
  ~ In name (List.map fst m) ->
  List.length (map_put String.eqb String.ltb name v m) = S (List.length m).
Proof.
  induction m as [|[k' v'] m IH]; cbn [map_put List.map fst In List.length];
    intros Hnot; [reflexivity|].
  destruct (String.eqb_spec name k') as [->|Hne]; [exfalso; auto|].
  destruct (String.ltb name k'); cbn [List.length]; [reflexivity|].
  rewrite IH by tauto. reflexivity.
Qed.

Lemma put_declarations_spec (decls : list (Z * string)) :
  forall n2c c2n n2c' c2n',
    LineSpec.put_declarations decls n2c c2n = Some (n2c', c2n') ->
    List.Forall (fun e => (1 <= fst e)%Z) decls /\
    NoDup (List.map fst decls) /\
    (forall e, In e decls -> ~ In (fst e - 1)%Z (List.map fst c2n)) /\
    Permutation c2n'
      (List.map (fun e => (fst e - 1, snd e)%Z) decls ++ c2n) /\
    (forall name, In name (List.map fst n2c') <->
                  In name (List.map snd decls) \/ In name (List.map fst n2c)) /\
    (NoDup (List.map snd decls) ->
     (forall name, In name (List.map snd decls) ->
                   ~ In name (List.map fst n2c)) ->
     List.length n2c' = (List.length decls + List.length n2c)%nat).
Proof.
  induction decls as [|[col name] rest IH]; intros n2c c2n n2c' c2n' H;
    cbn [LineSpec.put_declarations] in H.
  - injection H as <- <-.
    split; [constructor|]. split; [constructor|]. split; [intros e []|].
    split; [reflexivity|]. split; [intros name; cbn; tauto|].
    intros _ _. reflexivity.
  - destruct (Z.ltb_spec (col - 1) 0) as [Hneg|Hge]; [discriminate|].
    cbn [orb] in H. unfold map_count in H.
    destruct (map_find Z.eqb (col - 1)%Z c2n) eqn:Hfind; [discriminate|].
    pose proof (map_find_None _ _ Hfind) as Hfresh.
    destruct (IH _ _ _ _ H) as [Hpos [Hnd [Hout [Hperm [Hnames Hlen]]]]].
    split; [constructor; [cbn [fst]; lia | exact Hpos]|].
    split.
    { cbn [List.map fst]. constructor; [|exact Hnd].
      intros Hin. apply in_map_iff in Hin. destruct Hin as [e [He Hin]].
      apply (Hout e Hin). apply map_put_keys_grow. left. lia. }
    split.
    { intros e [<-|Hin]; [exact Hfresh|]. intros Hk. apply (Hout e Hin).
      apply map_put_keys_grow. right. exact Hk. }
    split.
    { rewrite Hperm. cbn [List.map fst snd app].
      rewrite (map_put_fresh_perm _ name c2n Hfresh).
      symmetry. apply Permutation_middle. }
    split.
    { intros x. rewrite Hnames, name_put_keys. cbn [List.map snd In].
      intuition. }
    intros Hndn Hdis. cbn [List.map snd] in Hndn, Hdis.
    inversion Hndn as [|? ? Hnew Hndn']; subst.
    rewrite Hlen.
    + rewrite name_put_length; [cbn [List.length]; lia|].
      apply Hdis. left. reflexivity.
    + exact Hndn'.
    + intros x Hx Hk. apply name_put_keys in Hk. destruct Hk as [->|Hk].
      * exact (Hnew Hx).
      * apply (Hdis x); [right; exact Hx | exact Hk].
Qed.

(** *** The steps of [parse_csv_format] *)

Lemma utm_step_stream (is1 : istringstream) (str local : string)
    (zone0 : Z) (north0 : bool) (is3 : istringstream) (zone : Z) (north : bool) :
  (if String.eqb str "utm"
   then
     let (is2, str2) := extract_string is1 str in
     (zn <- CsvConv.parse_utm_str str2 ;; Ok (is2, fst zn, snd zn))%result
   else Ok (stream_of local, zone0, north0))
  = Ok (is3, zone, north) ->
  is3 = (if String.eqb str "utm" then fst (extract_string is1 str)
         else stream_of local).
Proof.
  intros Hu. destruct (String.eqb str "utm").
  - destruct (extract_string is1 str) as [is2 str2].
    destruct (CsvConv.parse_utm_str str2); cbn [bind] in Hu; try discriminate.
    injection Hu as <- _ _. reflexivity.
  - injection Hu as <- _ _. reflexivity.
Qed.

Lemma parse_csv_format_steps (d : CsvConv.defaults)
    (csv_format_str csv_proj4_str : string) (conv : CsvConv.t) :
  CsvConv.parse_csv_format d csv_format_str csv_proj4_str = Ok conv ->
  csv_format_str <> EmptyString ->
  exists n2c c2n names c2s,
    CsvConv.read_declarations
      (S (String.length (LineSpec.local_text csv_format_str)))
      (LineSpec.declarations_stream csv_format_str) [] [] = Ok (n2c, c2n) /\
    (3 <= Z.of_nat (List.length n2c) <= 4)%Z /\
    CsvConv.sort_names n2c (List.repeat EmptyString (List.length n2c)) []
    = Ok (names, c2s) /\
    CsvConv.select_format names = Ok (CsvConv.format conv) /\
    CsvConv.name2col conv = n2c /\ CsvConv.col2name conv = c2n.
Proof.
  unfold CsvConv.parse_csv_format, LineSpec.declarations_stream, LineSpec.local_text.
  intros H Hne.
  destruct (contains "D_MOON" csv_proj4_str || contains "D_MARS" csv_proj4_str);
    [discriminate|].
  destruct (String.eqb (string_map tolower csv_format_str) EmptyString) eqn:Hempty.
  { apply string_map_empty in Hempty. contradiction. }
  destruct (extract_string _ EmptyString) as [is1 str].
  match type of H with
  | bind ?u _ = _ => destruct u as [[[is3 zone] north]| |] eqn:Hutm
  end; cbn [bind] in H; try discriminate.
  rewrite <- (utm_step_stream _ _ _ _ _ _ _ _ Hutm).
  match type of H with
  | bind ?u _ = _ => destruct u as [[n2c c2n]| |] eqn:Hdecl
  end; cbn [bind] in H; try discriminate.
  destruct ((Z.of_nat (List.length n2c) <? CsvConv.MIN_NUM_TARGETS)%Z
            || (CsvConv.MAX_NUM_TARGETS <? Z.of_nat (List.length n2c))%Z)
    eqn:Hrange; [discriminate|].
  apply orb_false_iff in Hrange. destruct Hrange as [Hlo Hhi].
  apply Z.ltb_ge in Hlo, Hhi.
  match type of H with
  | bind ?u _ = _ => destruct u as [[names c2s]| |] eqn:Hsort
  end; cbn [bind] in H; try discriminate.
  destruct (CsvConv.select_format names) as [fmt| |] eqn:Hfmt;
    cbn [bind] in H; try discriminate.
  injection H as <-. cbn.
  exists n2c, c2n, names, c2s.
  unfold CsvConv.MIN_NUM_TARGETS, CsvConv.MAX_NUM_TARGETS,
    CsvConv.NUM_POINT_VALS in *.
  repeat split; try assumption; lia.
Qed.

Lemma names_set_defined (names : list string) :
  forall index name,
    (index < List.length names)%nat ->
    exists names', CsvConv.names_set names index name = Ok names'.
Proof.
  induction names as [|n names IH]; intros index name Hlt;
    cbn [List.length] in Hlt; [lia|].
  destruct index as [|index]; cbn [CsvConv.names_set]; [eauto|].
  destruct (IH index name ltac:(lia)) as [names' ->]. cbn [bind]. eauto.
Qed.

Lemma sort_names_defined (n2c : list (string * Z)) :
  forall names c2s,
    (forall name index,
        In name (List.map fst n2c) ->
        CsvConv.get_sorted_index_for_name name = Ok index ->
        (Z.to_nat index < List.length names)%nat) ->
    CsvConv.sort_names n2c names c2s <> Undefined.
Proof.
  induction n2c as [|[name col] n2c IH]; intros names c2s Hidx;
    cbn [CsvConv.sort_names]; [discriminate|].
  destruct (CsvConv.get_sorted_index_for_name name) as [index| |] eqn:Hi;
    cbn [bind]; try discriminate.
  - destruct (names_set_defined names (Z.to_nat index) name) as [names' Hset].
    { apply (Hidx name index); [left; reflexivity | exact Hi]. }
    rewrite Hset. cbn [bind]. apply IH.
    intros nm ix Hin Hix.
    destruct (names_set_length _ _ _ _ Hset) as [_ ->].
    apply (Hidx nm ix); [right; exact Hin | exact Hix].
  - unfold CsvConv.get_sorted_index_for_name in Hi.
    repeat match type of Hi with
           | (if ?b then _ else _) = _ => destruct b; try discriminate
           end.
Qed.

Lemma select_format_defined (names : list string) :
  CsvConv.select_format names <> Undefined.
Proof.
  unfold CsvConv.select_format.
  repeat match goal with
         | |- (if ?b then _ else _) <> _ => destruct b; try discriminate
         end.
Qed.

Lemma extract_string_length_le (ist : istringstream) (str : string) :
  (String.length (buf (fst (extract_string ist str))) <= String.length (buf ist))%nat.
Proof.
  unfold extract_string. destruct (negb (good ist)); [simpl; lia|].
  pose proof (skipws_length (buf ist)) as Hws.
  destruct (skipws (buf ist)) as [|c s'] eqn:E; [simpl; lia|].
  pose proof (span_length (fun c => negb (isspace c)) (String c s')) as Hl.
  destruct (span (fun c => negb (isspace c)) (String c s')) as [w rest].
  cbn [fst snd buf] in *. lia.
Qed.

Lemma declarations_stream_length (csv_format_str : string) :
  (String.length (buf (LineSpec.declarations_stream csv_format_str))
   < S (String.length (LineSpec.local_text csv_format_str)))%nat.
Proof.
  unfold LineSpec.declarations_stream.
  pose proof (extract_string_length_le
                (stream_of (LineSpec.local_text csv_format_str)) EmptyString) as H1.
  destruct (extract_string (stream_of (LineSpec.local_text csv_format_str))
              EmptyString) as [is1 str].
  cbn [fst] in H1. change (buf (stream_of (LineSpec.local_text csv_format_str)))
    with (LineSpec.local_text csv_format_str) in H1.
  destruct (String.eqb str "utm").
  - pose proof (extract_string_length_le is1 str). lia.
  - cbn [buf stream_of]. lia.
Qed.

(** The loop on the stream of a regular descriptor: it ends with the
    tables of the declarations or throws. *)
Lemma read_declarations_regular (csv_format_str : string) :
  LineSpec.regular csv_format_str ->
  CsvConv.read_declarations
    (S (String.length (LineSpec.local_text csv_format_str)))
    (LineSpec.declarations_stream csv_format_str) [] [] =
  match LineSpec.put_declarations (fst (LineSpec.declarations csv_format_str)) [] [] with
  | Some maps =>
      if snd (LineSpec.declarations csv_format_str) then Ok maps
      else Throw ArgumentErr
  | None => Throw ArgumentErr
  end.
Proof.
  intros [_ [_ [_ [Hmin _]]]].
  unfold LineSpec.declarations in *.
  destruct (LineSpec.scan_declarations _ _) as [decls complete] eqn:Hs.
  cbn [fst snd] in *.
  apply (read_declarations_scan _ _ _ _ _ _ Hs);
    [apply declarations_stream_length | exact Hmin].
Qed.

Lemma scheme_names_NoDup (f : CsvConv.CsvFormat) :
  NoDup ("file"%string :: LineSpec.scheme_names f).
Proof.
  destruct f; cbn; repeat constructor; cbn; intuition discriminate.
Qed.

Lemma scheme_names_length (f : CsvConv.CsvFormat) :
  List.length (LineSpec.scheme_names f) = 3%nat.
Proof. destruct f; reflexivity. Qed.

Section Descriptor.
Variable d : CsvConv.defaults.
Variables csv_format_str csv_proj4_str : string.
Hypothesis Hne : csv_format_str <> EmptyString.
Hypothesis Hreg : LineSpec.regular csv_format_str.

Let decls := fst (LineSpec.declarations csv_format_str).
Let complete := snd (LineSpec.declarations csv_format_str).

Lemma accepted_declarations (conv : CsvConv.t) :
  CsvConv.parse_csv_format d csv_format_str csv_proj4_str = Ok conv ->
  complete = true /\
  LineSpec.declared_shape decls (CsvConv.format conv) /\
  Permutation (CsvConv.col2name conv)
    (List.map (fun e => (fst e - 1, snd e)%Z) decls).
Proof.
  intros Hok.
  destruct (parse_csv_format_steps d _ _ conv Hok Hne)
    as [n2c [c2n [names [c2s [Hdecl [Hrange [Hsort [Hfmt [Hn2c Hc2n]]]]]]]]].
  rewrite (read_declarations_regular _ Hreg) in Hdecl.
  fold decls complete in Hdecl.
  destruct (LineSpec.put_declarations decls [] []) as [maps|] eqn:Hput;
    [|discriminate].
  destruct complete eqn:Hc; [|discriminate].
  injection Hdecl as ->.
  destruct (put_declarations_spec decls _ _ _ _ Hput)
    as [Hpos [Hnd [_ [Hperm [Hnames Hlen]]]]].
  destruct Hreg as [Hndn [H3 [H4 _]]]. fold decls in Hndn, H3, H4.
  specialize (Hlen Hndn (fun _ _ H => H)). cbn [List.length] in Hlen.
  rewrite Nat.add_0_r in Hlen. rewrite app_nil_r in Hperm.
  assert (Hkeys : forall name, In name (List.map fst n2c) ->
                               In name (List.map snd decls)).
  { intros name H. apply Hnames in H. destruct H as [H|[]]. exact H. }
  assert (Hincl : incl (LineSpec.scheme_names (CsvConv.format conv))
                       (List.map snd decls)).
  { intros s Hs. apply Hkeys.
    pose proof (select_format_names _ _ Hfmt s Hs) as Hin.
    destruct (sort_names_in _ _ _ _ _ s Hsort Hin) as [H|H]; [|exact H].
    apply in_repeat_empty in H. subst s. exfalso.
    destruct (CsvConv.format conv); cbn in Hs;
      repeat match goal with
             | H : _ \/ _ |- _ => destruct H
             end; try discriminate; try contradiction. }
  split; [reflexivity|]. split; [|rewrite Hc2n; exact Hperm].
  split; [exact Hpos|]. split; [exact Hnd|].
  pose proof (scheme_names_NoDup (CsvConv.format conv)) as Hsn.
  pose proof (scheme_names_length (CsvConv.format conv)) as Hsl.
  assert (Hcases : List.length decls = 3%nat \/ List.length decls = 4%nat)
    by lia.
  destruct Hcases as [E|E].
  - left. symmetry. apply NoDup_Permutation_bis.
    + inversion Hsn; assumption.
    + rewrite length_map. lia.
    + exact Hincl.
  - right. symmetry. apply NoDup_Permutation_bis.
    + exact Hsn.
    + rewrite length_map. cbn [List.length]. lia.
    + intros s [<-|Hs]; [exact (H4 E) | exact (Hincl s Hs)].
Qed.

Lemma sort_names_regular (n2c : list (string * Z)) (c2n : list (Z * string)) :
  LineSpec.put_declarations decls [] [] = Some (n2c, c2n) ->
  ((Z.of_nat (List.length n2c) <? CsvConv.MIN_NUM_TARGETS)%Z
   || (CsvConv.MAX_NUM_TARGETS <? Z.of_nat (List.length n2c))%Z) = false ->
  CsvConv.sort_names n2c (List.repeat EmptyString (List.length n2c)) []
  <> Undefined.
Proof.
  intros Hput Hrange.
  apply orb_false_iff in Hrange. destruct Hrange as [Hlo Hhi].
  apply Z.ltb_ge in Hlo, Hhi.
  unfold CsvConv.MIN_NUM_TARGETS, CsvConv.MAX_NUM_TARGETS,
    CsvConv.NUM_POINT_VALS in *.
  destruct (put_declarations_spec decls _ _ _ _ Hput)
    as [_ [_ [_ [_ [Hnames Hlen]]]]].
  destruct Hreg as [Hndn [H3 _]]. fold decls in Hndn, H3.
  specialize (Hlen Hndn (fun _ _ H => H)). cbn [List.length] in Hlen.
  rewrite Nat.add_0_r in Hlen.
  apply sort_names_defined. intros name index Hin Hidx.
  rewrite repeat_length.
  destruct (get_sorted_index_range name index Hidx) as [Hr Hfile].
  destruct (Z.eq_dec index 3) as [E|E]; [|lia].
  apply Hfile in E. subst name.
  apply Hnames in Hin. destruct Hin as [Hin|[]].
  destruct (Nat.eq_dec (List.length decls) 3) as [E3|E3]; [|lia].
  exfalso. exact (H3 E3 Hin).
Qed.

Lemma parse_csv_format_defined :
  CsvConv.parse_csv_format d csv_format_str csv_proj4_str <> Undefined.
Proof.
  pose proof (read_declarations_regular _ Hreg) as Hread.
  pose proof sort_names_regular as Hsorted.
  destruct Hreg as [_ [_ [_ [_ Hutm]]]].
  unfold CsvConv.parse_csv_format.
  unfold LineSpec.utm_token, LineSpec.declarations_stream, LineSpec.local_text in *.
  fold decls complete in Hread.
  destruct (contains "D_MOON" csv_proj4_str || contains "D_MARS" csv_proj4_str);
    [discriminate|].
  destruct (String.eqb (string_map tolower csv_format_str) EmptyString);
    [discriminate|].
  destruct (extract_string _ EmptyString) as [is1 str].
  assert (Htail :
            forall zone north,
              (maps <- (match LineSpec.put_declarations decls [] [] with
                        | Some maps =>
                            if complete then Ok maps else Throw ArgumentErr
                        | None => Throw ArgumentErr
                        end) ;;
               let (n2c, c2n) := maps in
               let targets := Z.of_nat (List.length n2c) in
               if (targets <? CsvConv.MIN_NUM_TARGETS)%Z
                  || (CsvConv.MAX_NUM_TARGETS <? targets)%Z
               then vw_throw ArgumentErr
               else
                 sorted <- CsvConv.sort_names n2c
                             (List.repeat EmptyString (List.length n2c)) [] ;;
                 let (sorted_names, c2s) := sorted in
                 fmt <- CsvConv.select_format sorted_names ;;
                 Ok {| CsvConv.name2col := n2c; CsvConv.col2name := c2n;
                       CsvConv.col2sort := c2s;
                       CsvConv.csv_format_str := csv_format_str;
                       CsvConv.csv_proj4_str := csv_proj4_str;
                       CsvConv.format := fmt; CsvConv.utm_zone := zone;
                       CsvConv.utm_north := north;
                       CsvConv.num_targets := targets |})%result
              <> Undefined).
  { intros zone north.
    destruct (LineSpec.put_declarations decls [] []) as [[n2c c2n]|] eqn:Hput;
      [|discriminate].
    destruct complete; [|discriminate]. cbn [bind]. cbv zeta.
    destruct ((Z.of_nat (List.length n2c) <? CsvConv.MIN_NUM_TARGETS)%Z
              || (CsvConv.MAX_NUM_TARGETS <? Z.of_nat (List.length n2c))%Z)
      eqn:Hrange; [discriminate|].
    pose proof (Hsorted n2c c2n eq_refl Hrange) as Hs.
    destruct (CsvConv.sort_names n2c _ []) as [[names c2s]| |];
      cbn [bind]; [|discriminate|contradiction].
    pose proof (select_format_defined names) as Hf.
    destruct (CsvConv.select_format names); cbn [bind];
      [discriminate|discriminate|contradiction]. }
  destruct (String.eqb str "utm").
  - destruct (extract_string is1 str) as [is2 str2]. cbn [fst snd] in *.
    destruct (CsvConv.parse_utm_str str2) as [zn| |]; cbn [bind];
      [|discriminate|contradiction].
    rewrite Hread. apply Htail.
  - cbn [bind]. rewrite Hread. apply Htail.
Qed.

(** Outside the shape the descriptor is refused with a configuration
    error. *)
Lemma refused_declarations :
  complete = false \/ (forall f, ~ LineSpec.declared_shape decls f) ->
  CsvConv.parse_csv_format d csv_format_str csv_proj4_str = Throw ArgumentErr.
Proof.
  intros Hbad.
  destruct (CsvConv.parse_csv_format d csv_format_str csv_proj4_str)
    as [conv|e|] eqn:Hp.
  - exfalso. destruct (accepted_declarations conv Hp) as [Hc [Hs _]].
    destruct Hbad as [H|H]; [congruence | exact (H _ Hs)].
  - rewrite (parse_csv_format_throws _ _ _ _ Hp). reflexivity.
  - exfalso. exact (parse_csv_format_defined Hp).
Qed.
End Descriptor.


Lemma regular_lon_lat_radius_km : LineSpec.regular "1:lon 2:lat 3:radius_km".
Proof.
  unfold LineSpec.regular.
  change (fst (LineSpec.declarations "1:lon 2:lat 3:radius_km"))
    with [(1, "lon"); (2, "lat"); (3, "radius_km")]%Z%string.
  split; [cbn; repeat constructor; cbn; intuition discriminate|].
  split; [intros _; cbn; intuition discriminate|].
  split; [discriminate|].
  split; [repeat constructor; discriminate | exact I].
Qed.

Lemma regular_two_columns : LineSpec.regular "1:x 2:y".
Proof.
  unfold LineSpec.regular.
  change (fst (LineSpec.declarations "1:x 2:y"))
    with [(1, "x"); (2, "y")]%Z%string.
  split; [cbn; repeat constructor; cbn; intuition discriminate|].
  split; [discriminate|]. split; [discriminate|].
  split; [repeat constructor; discriminate | exact I].
Qed.


(** The slips left aside.  Four coordinate names are accepted when
    two of them share a place, three names with the identifier write
    past the end of the sorted names, and a repeated name is counted
    once. *)
Lemma four_coordinates_accepted :
  exists conv,
    CsvConv.parse_csv_format CsvConv.usual_defaults "1:x 2:y 3:z 4:lon"
      EmptyString = Ok conv /\
    CsvConv.format conv = CsvConv.XYZ /\ CsvConv.num_targets conv = 4%Z.
Proof. eexists. split; [vm_compute; reflexivity|]. split; reflexivity. Qed.

Lemma identifier_among_three_undefined :
  CsvConv.parse_csv_format CsvConv.usual_defaults "1:file 2:x 3:y" EmptyString
  = Undefined.
Proof. vm_compute. reflexivity. Qed.

Lemma repeated_name_accepted :
  exists conv,
    CsvConv.parse_csv_format CsvConv.usual_defaults "1:x 2:x 3:y 4:z"
      EmptyString = Ok conv /\
    CsvConv.format conv = CsvConv.XYZ /\ CsvConv.num_targets conv = 3%Z /\
    List.length (CsvConv.col2name conv) = 4%nat.
Proof.
  eexists. split; [vm_compute; reflexivity|]. repeat split; reflexivity.
Qed.

(** The empty descriptor is accepted and declares nothing. *)
Lemma empty_descriptor_accepted (d : CsvConv.defaults) :
  exists conv,
    CsvConv.parse_csv_format d EmptyString EmptyString = Ok conv /\
    CsvConv.col2name conv = [] /\
    CsvConv.format conv = CsvConv.default_format d.
Proof. eexists. split; [reflexivity|]. split; reflexivity. Qed.
